(** * Arm64 code generator: prolog/epilog primitives, frame layout, and
      selected per-node generators of [src/jit/codegenarm64.cpp].

    The development is a shallow embedding.  Every generator of the C++
    source becomes a function in a small monad [Gen] whose result is the
    ordered sequence of calls the generator makes to its collaborators (the
    instruction emitter, the unwind-table builder, the GC-liveness tracker,
    the register set); a failing [assert] aborts the run.  Machine integers
    are [Z] with the wrap-around written out. *)

From Stdlib Require Import ZArith NArith Bool List Lia.
From stdpp Require Import base decidable option list.
From Equations Require Import Equations.
Import ListNotations.

Local Open Scope Z_scope.

(** ** Machine integers *)

Module MachInt.

(** [unsigned]: 32 bits, arithmetic modulo [2^32]. *)
Definition u32 (x : Z) : Z := x mod 2 ^ 32.

(** [int]: 32 bits, two's complement; the value of a conversion to [int]. *)
Definition s32 (x : Z) : Z := (x + 2 ^ 31) mod 2 ^ 32 - 2 ^ 31.

(** [ssize_t]: 64 bits, two's complement. *)
Definition s64 (x : Z) : Z := (x + 2 ^ 63) mod 2 ^ 64 - 2 ^ 63.

(** [uint16_t(x)]: the low sixteen bits. *)
Definition u16 (x : Z) : Z := Z.land x 65535.

Definition in_u32 (x : Z) : Prop := 0 <= x < 2 ^ 32.
Definition in_s32 (x : Z) : Prop := - 2 ^ 31 <= x < 2 ^ 31.
Definition in_s64 (x : Z) : Prop := - 2 ^ 63 <= x < 2 ^ 63.

End MachInt.
Import MachInt.

(** ** Registers and register masks

    [regNumber] and [regMaskTP] are declared in target.h and
    registerarm64.h, which are not part of the sources at hand. *)

Definition regNumber : Type := N.
Definition regMaskTP : Type := N.

(** Modelled from the spec: the Arm64 register numbering of the JIT
    (registerarm64.h is missing): x0..x28 are 0..28, the frame pointer is
    29, the link register 30, the zero register 31, v0..v31 are 32..63;
    the stack pointer and the pseudo register STK follow, and REG_NA is
    the count of all of them. *)
Definition REG_R0 : regNumber := 0%N.
Definition REG_R1 : regNumber := 1%N.
Definition REG_R2 : regNumber := 2%N.
Definition REG_R3 : regNumber := 3%N.
Definition REG_IP0 : regNumber := 16%N.
Definition REG_IP1 : regNumber := 17%N.
Definition REG_R19 : regNumber := 19%N.
Definition REG_R28 : regNumber := 28%N.
Definition REG_FP : regNumber := 29%N.
Definition REG_LR : regNumber := 30%N.
Definition REG_ZR : regNumber := 31%N.
Definition REG_FP_FIRST : regNumber := 32%N.
Definition REG_FP_LAST : regNumber := 63%N.
Definition REG_SP : regNumber := 64%N.
Definition REG_STK : regNumber := 65%N.
Definition REG_NA : regNumber := 66%N.
Definition REG_SPBASE : regNumber := REG_SP.
Definition REG_FPBASE : regNumber := REG_FP.

(** Modelled from the spec: [REG_NEXT] is the "next register" operation
    on register numbers (target.h is missing). *)
Definition REG_NEXT (reg : regNumber) : regNumber := (reg + 1)%N.

(** Modelled from the spec: [genIsValidFloatReg] tells the
    floating-point/SIMD class from the general-purpose class (target.h is
    missing). *)
Definition genIsValidFloatReg (reg : regNumber) : bool :=
  ((REG_FP_FIRST <=? reg) && (reg <=? REG_FP_LAST))%N.

Definition genRegMask (reg : regNumber) : regMaskTP := N.shiftl 1 reg.

Definition RBM_NONE : regMaskTP := 0%N.
Definition RBM_FP : regMaskTP := genRegMask REG_FP.
Definition RBM_LR : regMaskTP := genRegMask REG_LR.
Definition RBM_ALLFLOAT : regMaskTP := 0xFFFFFFFF00000000%N.
(** x19..x28 and v8..v15, as listed in the frame comment of the source. *)
Definition RBM_INT_CALLEE_SAVED : regMaskTP := 0x1FF80000%N.
Definition RBM_FLT_CALLEE_SAVED : regMaskTP := 0xFF0000000000%N.
Definition RBM_CALLEE_SAVED : regMaskTP :=
  N.lor RBM_INT_CALLEE_SAVED RBM_FLT_CALLEE_SAVED.

(** ** Operand attributes, instructions, and the calls made to collaborators *)

Inductive GCtype : Type := GCT_NONE | GCT_GCREF | GCT_BYREF.

(** Modelled from the spec: the operand size/type tag [emitAttr] (emit.h is
    missing): a size in bytes, whether the value is a tracked pointer, and
    the relocation flag that [instGen_Set_Reg_To_Imm] strips or tests. *)
Record emitAttr : Type := mkAttr {
  EA_bytes : Z;
  EA_gc : GCtype;
  EA_reloc : bool
}.

Definition EA_1BYTE : emitAttr := mkAttr 1 GCT_NONE false.
Definition EA_2BYTE : emitAttr := mkAttr 2 GCT_NONE false.
Definition EA_4BYTE : emitAttr := mkAttr 4 GCT_NONE false.
Definition EA_8BYTE : emitAttr := mkAttr 8 GCT_NONE false.
Definition EA_PTRSIZE : emitAttr := EA_8BYTE.
Definition EA_GCREF : emitAttr := mkAttr 8 GCT_GCREF false.
Definition EA_BYREF : emitAttr := mkAttr 8 GCT_BYREF false.
Definition EA_HANDLE_CNS_RELOC : emitAttr := mkAttr 8 GCT_NONE true.

Definition EA_SIZE (attr : emitAttr) : emitAttr :=
  mkAttr (EA_bytes attr) GCT_NONE false.
Definition EA_IS_RELOC (attr : emitAttr) : bool := EA_reloc attr.

Inductive instruction : Type :=
| INS_add | INS_sub | INS_adds | INS_subs | INS_ands
| INS_strb | INS_strh | INS_str
| INS_ldrsb | INS_ldrsh | INS_ldrsw | INS_ldrb | INS_ldrh | INS_ldr
| INS_stp | INS_ldp
| INS_mov | INS_movz | INS_movn | INS_movk | INS_tst | INS_adrp
| INS_cmp | INS_sdiv | INS_udiv | INS_fdiv | INS_fadd | INS_fsub | INS_fmul
| INS_fneg | INS_and | INS_mul | INS_lsl | INS_neg | INS_mvn | INS_orr
| INS_ror | INS_asr | INS_lsr | INS_eor | INS_brk
| INS_ldaxr | INS_stlxr | INS_cbnz | INS_bne
| INS_swpal | INS_staddl | INS_ldaddal | INS_casal.

Inductive insOpts : Type :=
| INS_OPTS_NONE | INS_OPTS_PRE_INDEX | INS_OPTS_POST_INDEX | INS_OPTS_LSL.

Inductive insFlags : Type := INS_FLAGS_DONT_CARE | INS_FLAGS_SET.

Inductive emitJumpKind : Type := EJ_jmp | EJ_eq | EJ_ne | EJ_vs.
Inductive SpecialCodeKind : Type := SCK_DIV_BY_ZERO | SCK_ARITH_EXCPN.
Inductive insBarrier : Type := INS_BARRIER_ISH | INS_BARRIER_ISHLD.

(** Temporary labels ([BasicBlock*] returned by [genCreateTempLabel]). *)
Definition label : Type := nat.

#[global] Instance GCtype_eq_dec : EqDecision GCtype.
Proof. solve_decision. Defined.
#[global] Instance emitAttr_eq_dec : EqDecision emitAttr.
Proof. solve_decision. Defined.
#[global] Instance instruction_eq_dec : EqDecision instruction.
Proof. solve_decision. Defined.
#[global] Instance insOpts_eq_dec : EqDecision insOpts.
Proof. solve_decision. Defined.
#[global] Instance insFlags_eq_dec : EqDecision insFlags.
Proof. solve_decision. Defined.

(** The calls on the instruction emitter, [getEmitter()->emitIns_...]. *)
Inductive emitCall : Type :=
| emitIns_R_I (ins : instruction) (attr : emitAttr) (reg : regNumber) (imm : Z)
| emitIns_R_R (ins : instruction) (attr : emitAttr) (reg1 reg2 : regNumber)
| emitIns_R_R_I (ins : instruction) (attr : emitAttr) (reg1 reg2 : regNumber)
    (imm : Z) (opt : insOpts)
| emitIns_R_R_R (ins : instruction) (attr : emitAttr) (reg1 reg2 reg3 : regNumber)
| emitIns_R_R_R_I (ins : instruction) (attr : emitAttr)
    (reg1 reg2 reg3 : regNumber) (imm : Z) (opt : insOpts)
| emitIns_R_I_I (ins : instruction) (attr : emitAttr) (reg : regNumber)
    (imm1 imm2 : Z) (opt : insOpts)
| emitIns_R_AI (ins : instruction) (attr : emitAttr) (reg : regNumber) (imm : Z)
| emitIns_J (ins : instruction) (dst : label)
| emitIns_J_R (ins : instruction) (attr : emitAttr) (dst : label) (reg : regNumber)
| emitInsTernary (ins : instruction) (attr : emitAttr) (dst src1 src2 : regNumber).

(** The calls on the unwind-table builder, [compiler->unwind...]. *)
Inductive unwindCall : Type :=
| unwindPadding
| unwindAllocStack (size : Z)
| unwindSaveRegPairPreindexed (reg1 reg2 : regNumber) (offset : Z)
| unwindSaveRegPair (reg1 reg2 : regNumber) (offset : Z)
| unwindSaveNext
| unwindSaveRegPreindexed (reg : regNumber) (offset : Z)
| unwindSaveReg (reg : regNumber) (offset : Z).

Inductive var_types : Type :=
| TYP_INT | TYP_LONG | TYP_FLOAT | TYP_DOUBLE | TYP_REF | TYP_BYREF.

(** The calls on the GC-liveness tracker, [gcInfo.gc...]. *)
Inductive gcCall : Type :=
| gcMarkRegPtrVal (reg : regNumber) (type : var_types)
| gcMarkRegSetNpt (regMask : regMaskTP).

(** Everything a generator does that is visible outside of it, in order. *)
Inductive event : Type :=
| Emit (c : emitCall)
| Unwind (u : unwindCall)
| GcInfo (g : gcCall)
| verifyRegUsed (reg : regNumber)
| genConsumeOperands (node : nat)
| genConsumeAddress (node : nat)
| genConsumeRegs (node : nat)
| genProduceReg (node : nat)
| genJumpToThrowHlpBlk (jumpKind : emitJumpKind) (codeKind : SpecialCodeKind)
| inst_JMP (jumpKind : emitJumpKind) (dst : label)
| genDefineTempLabel (lbl : label)
| instGen_MemoryBarrier (barrier : insBarrier).

(** ** The generator monad

    A generator runs from the next unused temporary label and either trips
    an assertion ([None]) or returns a value, the calls it made, and the
    next unused label. *)

Definition Gen (A : Type) : Type := label -> option (A * list event * label).

Definition ret {A} (a : A) : Gen A := fun n => Some (a, [], n).

Definition bind {A B} (m : Gen A) (k : A -> Gen B) : Gen B :=
  fun n =>
    match m n with
    | None => None
    | Some (a, t1, n1) =>
        match k a n1 with
        | None => None
        | Some (b, t2, n2) => Some (b, t1 ++ t2, n2)
        end
    end.

Declare Scope gen_scope.
Delimit Scope gen_scope with gen.
Notation "'let!' x ':=' m 'in' k" := (bind m (fun x => k))
  (at level 10, x pattern, m at level 100, k at level 200) : gen_scope.
Notation "m '>>' k" := (bind m (fun _ => k))
  (at level 100, k at level 200, right associativity) : gen_scope.
Local Open Scope gen_scope.

Definition tell (e : event) : Gen unit := fun n => Some (tt, [e], n).
Definition emit (c : emitCall) : Gen unit := tell (Emit c).
Definition unwind (u : unwindCall) : Gen unit := tell (Unwind u).
Definition gcInfo (g : gcCall) : Gen unit := tell (GcInfo g).

(** [assert(cond)]: the run is abandoned when the condition is false. *)
Definition assert (cond : bool) : Gen unit :=
  fun n => if cond then Some (tt, [], n) else None.

Definition genCreateTempLabel : Gen label := fun n => Some (n, [], S n).

(** The calls made by a generator started at label [0], when it completes. *)
Definition calls {A} (m : Gen A) : option (list event) :=
  match m 0%nat with
  | Some (_, t, _) => Some t
  | None => None
  end.

(** The value returned by a generator started at label [0]. *)
Definition result {A} (m : Gen A) : option A :=
  match m 0%nat with
  | Some (a, _, _) => Some a
  | None => None
  end.

(** ** Immediate legality (the emitter's side)

    The three legality tests live in emitarm64.cpp, which is not part of
    the sources; the generators are defined over any implementation. *)

Class Emitter : Type := {
  emitIns_valid_imm_for_add : Z -> emitAttr -> bool;
  emitIns_valid_imm_for_ldst_offset : Z -> emitAttr -> bool;
  emitIns_valid_imm_for_mov : Z -> emitAttr -> bool
}.

(** ** Constant materialization and the stack-pointer adjustment *)

Section ImmediateGenerators.

Context {E : Emitter}.

(** [compiler->opts.compReloc]. *)
Variable compReloc : bool.

(** Modelled from the spec: [instGen_Set_Reg_To_Zero] (instr.cpp is
    missing); the spec has "special-case exact zero (single instruction)". *)
Definition instGen_Set_Reg_To_Zero (size : emitAttr) (reg : regNumber)
    (flags : insFlags) : Gen unit :=
  emit (emitIns_R_I INS_mov size reg 0).

(** The bit offsets [0; 16; ...] of the sixteen-bit fields of a [bits]-wide
    value, in the order of [for (unsigned i = 0; i < bits; i += 16)]. *)
Definition field_shifts (bits : Z) : list Z :=
  map (fun k => 16 * Z.of_nat k) (seq 0 (Z.to_nat (bits / 16))).

(** The first loop of [instGen_Set_Reg_To_Imm], over the fields from the
    highest one down ([for (i = 48 or 16; i >= 0; i -= 16)]). *)
Fixpoint preferMovn_loop (imm : Z) (shifts : list Z) (preferMovn : Z) : Z :=
  match shifts with
  | [] => preferMovn
  | i :: rest =>
      preferMovn_loop imm rest
        (if u16 (Z.shiftr imm i) =? 0xffff then preferMovn + 1
         else if u16 (Z.shiftr imm i) =? 0 then preferMovn - 1
         else preferMovn)
  end.

(** The second loop: one instruction per field that differs from
    [skipVal]; [ins] becomes [INS_movk] after the first one. *)
Fixpoint movk_loop (size : emitAttr) (reg : regNumber) (imm skipVal : Z)
    (shifts : list Z) (ins : instruction) : Gen instruction :=
  match shifts with
  | [] => ret ins
  | i :: rest =>
      let imm16 := u16 (Z.shiftr imm i) in
      if negb (imm16 =? skipVal) then
        let imm16 :=
          if bool_decide (ins = INS_movn) then u16 (Z.lnot imm16) else imm16 in
        emit (emitIns_R_I_I ins size reg imm16 i INS_OPTS_LSL) >>
        movk_loop size reg imm skipVal rest INS_movk
      else movk_loop size reg imm skipVal rest ins
  end.

Definition instGen_Set_Reg_To_Imm (size : emitAttr) (reg : regNumber)
    (imm : Z) (flags : insFlags) : Gen unit :=
  assert (negb (genIsValidFloatReg reg)) >>
  let size := if negb compReloc then EA_SIZE size else size in
  (if EA_IS_RELOC size then
     emit (emitIns_R_AI INS_adrp size reg imm)
   else if imm =? 0 then
     instGen_Set_Reg_To_Zero size reg flags
   else
     (if emitIns_valid_imm_for_mov imm size then
        emit (emitIns_R_I INS_mov size reg imm)
      else
        let is8 := bool_decide (size = EA_8BYTE) in
        let preferMovn :=
          preferMovn_loop imm (rev (field_shifts (if is8 then 64 else 32))) 0 in
        let ins := if 0 <? preferMovn then INS_movn else INS_movz in
        let skipVal := if 0 <? preferMovn then 0xffff else 0 in
        let bits := if is8 then 64 else 32 in
        let! ins' := movk_loop size reg imm skipVal (field_shifts bits) ins in
        assert (bool_decide (ins' = INS_movk))) >>
     (if bool_decide (flags = INS_FLAGS_SET) then
        emit (emitIns_R_I INS_tst size reg 0)
      else ret tt)) >>
  tell (verifyRegUsed reg).

Definition genInstrWithConstant (ins : instruction) (attr : emitAttr)
    (reg1 reg2 : regNumber) (imm : Z) (tmpReg : regNumber)
    (inUnwindRegion : bool) : Gen bool :=
  let size := EA_SIZE attr in
  assert (negb (tmpReg =? reg2)%N) >>
  let! (ins, imm, immFitsInIns) :=
    match ins with
    | INS_add | INS_sub =>
        let '(imm, ins) :=
          if imm <? 0 then
            (s64 (- imm), if bool_decide (ins = INS_add) then INS_sub else INS_add)
          else (imm, ins) in
        ret (ins, imm, emitIns_valid_imm_for_add imm size)
    | INS_strb | INS_strh | INS_str =>
        assert (negb (tmpReg =? reg1)%N) >>
        ret (ins, imm, emitIns_valid_imm_for_ldst_offset imm size)
    | INS_ldrsb | INS_ldrsh | INS_ldrsw | INS_ldrb | INS_ldrh | INS_ldr =>
        ret (ins, imm, emitIns_valid_imm_for_ldst_offset imm size)
    | _ =>
        assert false >> ret (ins, imm, false)
    end in
  (if (immFitsInIns : bool) then
     emit (emitIns_R_R_I ins attr reg1 reg2 imm INS_OPTS_NONE)
   else
     assert (negb (tmpReg =? REG_NA)%N) >>
     instGen_Set_Reg_To_Imm size tmpReg imm INS_FLAGS_DONT_CARE >>
     tell (verifyRegUsed tmpReg) >>
     (if inUnwindRegion then unwind unwindPadding else ret tt) >>
     emit (emitIns_R_R_R ins attr reg1 reg2 tmpReg)) >>
  ret immFitsInIns.

(** [bool* pTmpRegIsZero] is [None] for [nullptr] and otherwise holds the
    pointee; the generator returns the pointee as it leaves it. *)
Definition genStackPointerAdjustment (spDelta : Z) (tmpReg : regNumber)
    (pTmpRegIsZero : option bool) (reportUnwindData : bool)
    : Gen (option bool) :=
  let! r := genInstrWithConstant INS_add EA_PTRSIZE REG_SPBASE REG_SPBASE
              spDelta tmpReg true in
  let pTmpRegIsZero :=
    if (r : bool) then
      match pTmpRegIsZero with
      | Some _ => Some false
      | None => None
      end
    else pTmpRegIsZero in
  (if reportUnwindData then
     let spDeltaAbs := s64 (Z.abs spDelta) in
     let unwindSpDelta := u32 spDeltaAbs in
     assert (unwindSpDelta =? spDeltaAbs) >>
     unwind (unwindAllocStack unwindSpDelta)
   else ret tt) >>
  ret pTmpRegIsZero.

End ImmediateGenerators.

(** ** A concrete emitter

    Used to run the generators on examples.  The tests follow the A64
    encodings: add/sub takes a 12-bit unsigned immediate, optionally shifted
    left by 12; a load/store offset is a 9-bit signed byte offset or a
    12-bit unsigned offset scaled by the access size; a mov is a MOVZ, a
    MOVN, or a logical (bitmask) immediate. *)

Module Arm64Emitter.

Definition width (size : emitAttr) : Z := 8 * EA_bytes size.

Definition valid_imm_for_add (imm : Z) (size : emitAttr) : bool :=
  (Z.abs imm <=? 0xfff)
  || ((0 <=? imm) && (imm <=? 0xfff000) && (Z.land imm 0xfff =? 0)).

Definition valid_imm_for_ldst_offset (imm : Z) (size : emitAttr) : bool :=
  ((-256 <=? imm) && (imm <=? 255))
  || ((0 <=? imm) && (imm mod EA_bytes size =? 0)
      && (imm / EA_bytes size <=? 0xfff)).

(** One sixteen-bit field carries the whole value. *)
Definition canEncodeHalfwordImm (imm : Z) (size : emitAttr) : bool :=
  let v := imm mod 2 ^ width size in
  existsb (fun i => Z.shiftl (u16 (Z.shiftr v i)) i =? v)
          (field_shifts (width size)).

Fixpoint popcount (n : nat) (x : Z) : Z :=
  match n with
  | O => 0
  | S n' => (if Z.odd x then 1 else 0) + popcount n' (Z.div2 x)
  end.

(** [x], read as [e] bits on a ring, is one run of ones and one of zeros. *)
Definition rotated_run (e x : Z) : bool :=
  let rot := Z.lor (Z.shiftl x 1 mod 2 ^ e) (Z.shiftr x (e - 1)) in
  popcount (Z.to_nat e) (Z.lxor x rot) =? 2.

Fixpoint replicate_elem (n : nat) (e x : Z) : Z :=
  match n with
  | O => 0
  | S n' => Z.lor x (Z.shiftl (replicate_elem n' e x) e)
  end.

Definition canEncodeBitMaskImm (imm : Z) (size : emitAttr) : bool :=
  let w := width size in
  let v := imm mod 2 ^ w in
  existsb (fun e =>
             (e <=? w)
             && rotated_run e (v mod 2 ^ e)
             && (replicate_elem (Z.to_nat (w / e)) e (v mod 2 ^ e) =? v))
          [2; 4; 8; 16; 32; 64].

Definition valid_imm_for_mov (imm : Z) (size : emitAttr) : bool :=
  canEncodeHalfwordImm imm size
  || canEncodeHalfwordImm (Z.lnot imm) size
  || canEncodeBitMaskImm imm size.

#[global] Instance emitter : Emitter := {
  emitIns_valid_imm_for_add := valid_imm_for_add;
  emitIns_valid_imm_for_ldst_offset := valid_imm_for_ldst_offset;
  emitIns_valid_imm_for_mov := valid_imm_for_mov
}.

End Arm64Emitter.


(** ** Register save/restore primitives *)

Section SaveRestore.

Context {E : Emitter}.
Variable compReloc : bool.

Definition genPrologSaveRegPair (reg1 reg2 : regNumber) (spOffset spDelta : Z)
    (useSaveNextPair : bool) (tmpReg : regNumber)
    (pTmpRegIsZero : option bool) : Gen (option bool) :=
  assert (0 <=? spOffset) >>
  assert (spDelta <=? 0) >>
  assert (Z.rem spDelta 16 =? 0) >>
  assert (Bool.eqb (genIsValidFloatReg reg1) (genIsValidFloatReg reg2)) >>
  let! (needToSaveRegs, pTmpRegIsZero) :=
    (if negb (spDelta =? 0) then
       assert (negb useSaveNextPair) >>
       if (spOffset =? 0) && (-512 <=? spDelta) then
         emit (emitIns_R_R_R_I INS_stp EA_PTRSIZE reg1 reg2 REG_SPBASE spDelta
                 INS_OPTS_PRE_INDEX) >>
         unwind (unwindSaveRegPairPreindexed reg1 reg2 spDelta) >>
         ret (false, pTmpRegIsZero)
       else
         let! p := genStackPointerAdjustment compReloc spDelta tmpReg
                     pTmpRegIsZero true in
         ret (true, p)
     else ret (true, pTmpRegIsZero)) in
  (if (needToSaveRegs : bool) then
     assert (spOffset <=? 504) >>
     emit (emitIns_R_R_R_I INS_stp EA_PTRSIZE reg1 reg2 REG_SPBASE spOffset
             INS_OPTS_NONE) >>
     (if useSaveNextPair then unwind unwindSaveNext
      else unwind (unwindSaveRegPair reg1 reg2 spOffset))
   else ret tt) >>
  ret pTmpRegIsZero.

Definition genPrologSaveReg (reg1 : regNumber) (spOffset spDelta : Z)
    (tmpReg : regNumber) (pTmpRegIsZero : option bool) : Gen (option bool) :=
  assert (0 <=? spOffset) >>
  assert (spDelta <=? 0) >>
  assert (Z.rem spDelta 16 =? 0) >>
  let! (needToSaveRegs, pTmpRegIsZero) :=
    (if negb (spDelta =? 0) then
       if (spOffset =? 0) && (-256 <=? spDelta) then
         emit (emitIns_R_R_I INS_str EA_PTRSIZE reg1 REG_SPBASE spDelta
                 INS_OPTS_PRE_INDEX) >>
         unwind (unwindSaveRegPreindexed reg1 spDelta) >>
         ret (false, pTmpRegIsZero)
       else
         let! p := genStackPointerAdjustment compReloc spDelta tmpReg
                     pTmpRegIsZero true in
         ret (true, p)
     else ret (true, pTmpRegIsZero)) in
  (if (needToSaveRegs : bool) then
     emit (emitIns_R_R_I INS_str EA_PTRSIZE reg1 REG_SPBASE spOffset
             INS_OPTS_NONE) >>
     unwind (unwindSaveReg reg1 spOffset)
   else ret tt) >>
  ret pTmpRegIsZero.

Definition genEpilogRestoreRegPair (reg1 reg2 : regNumber)
    (spOffset spDelta : Z) (useSaveNextPair : bool) (tmpReg : regNumber)
    (pTmpRegIsZero : option bool) : Gen (option bool) :=
  assert (0 <=? spOffset) >>
  assert (0 <=? spDelta) >>
  assert (Z.rem spDelta 16 =? 0) >>
  assert (Bool.eqb (genIsValidFloatReg reg1) (genIsValidFloatReg reg2)) >>
  if negb (spDelta =? 0) then
    assert (negb useSaveNextPair) >>
    if (spOffset =? 0) && (spDelta <=? 504) then
      emit (emitIns_R_R_R_I INS_ldp EA_PTRSIZE reg1 reg2 REG_SPBASE spDelta
              INS_OPTS_POST_INDEX) >>
      unwind (unwindSaveRegPairPreindexed reg1 reg2 (- spDelta)) >>
      ret pTmpRegIsZero
    else
      emit (emitIns_R_R_R_I INS_ldp EA_PTRSIZE reg1 reg2 REG_SPBASE spOffset
              INS_OPTS_NONE) >>
      unwind (unwindSaveRegPair reg1 reg2 spOffset) >>
      genStackPointerAdjustment compReloc spDelta tmpReg pTmpRegIsZero true
  else
    emit (emitIns_R_R_R_I INS_ldp EA_PTRSIZE reg1 reg2 REG_SPBASE spOffset
            INS_OPTS_NONE) >>
    (if useSaveNextPair then unwind unwindSaveNext
     else unwind (unwindSaveRegPair reg1 reg2 spOffset)) >>
    ret pTmpRegIsZero.

Definition genEpilogRestoreReg (reg1 : regNumber) (spOffset spDelta : Z)
    (tmpReg : regNumber) (pTmpRegIsZero : option bool) : Gen (option bool) :=
  assert (0 <=? spOffset) >>
  assert (0 <=? spDelta) >>
  assert (Z.rem spDelta 16 =? 0) >>
  if negb (spDelta =? 0) then
    if (spOffset =? 0) && (spDelta <=? 255) then
      emit (emitIns_R_R_I INS_ldr EA_PTRSIZE reg1 REG_SPBASE spDelta
              INS_OPTS_POST_INDEX) >>
      unwind (unwindSaveRegPreindexed reg1 (- spDelta)) >>
      ret pTmpRegIsZero
    else
      emit (emitIns_R_R_I INS_ldr EA_PTRSIZE reg1 REG_SPBASE spOffset
              INS_OPTS_NONE) >>
      unwind (unwindSaveReg reg1 spOffset) >>
      genStackPointerAdjustment compReloc spDelta tmpReg pTmpRegIsZero true
  else
    emit (emitIns_R_R_I INS_ldr EA_PTRSIZE reg1 REG_SPBASE spOffset
            INS_OPTS_NONE) >>
    unwind (unwindSaveReg reg1 spOffset) >>
    ret pTmpRegIsZero.

End SaveRestore.

(** ** The ordered list of register pairs *)

(** [RegPair(reg1, reg2)] and [RegPair(reg1)] of the source; the second
    leaves [reg2] at [REG_NA], both leave [useSaveNextPair] clear. *)
Record RegPair : Type := mkRegPair {
  reg1 : regNumber;
  reg2 : regNumber;
  useSaveNextPair : bool
}.

Definition RegPair2 (r1 r2 : regNumber) : RegPair := mkRegPair r1 r2 false.
Definition RegPair1 (r1 : regNumber) : RegPair := mkRegPair r1 REG_NA false.

Fixpoint Pos_countBits (p : positive) : Z :=
  match p with
  | xH => 1
  | xO q => Pos_countBits q
  | xI q => 1 + Pos_countBits q
  end.

(** Modelled from the spec: [genCountBits] is the "count bits" operation
    on register masks (the JIT's bit utilities are missing). *)
Definition genCountBits (mask : regMaskTP) : Z :=
  match mask with
  | N0 => 0
  | Npos p => Pos_countBits p
  end.

Fixpoint Pos_lowestBit (p : positive) : positive :=
  match p with
  | xO q => xO (Pos_lowestBit q)
  | _ => xH
  end.

(** Modelled from the spec: [genFindLowestBit] is the "find lowest set
    bit" operation; it yields the mask of that bit. *)
Definition genFindLowestBit (mask : regMaskTP) : regMaskTP :=
  match mask with
  | N0 => N0
  | Npos p => Npos (Pos_lowestBit p)
  end.

(** Modelled from the spec: [genRegNumFromMask] turns a one-bit mask into
    its register number. *)
Definition genRegNumFromMask (mask : regMaskTP) : regNumber := N.log2 mask.

(** The state carried round the [while] loop of [genBuildRegPairsStack]. *)
Record PairsLoop : Type := mkPairsLoop {
  pl_regsMask : regMaskTP;
  pl_regsCount : Z;
  pl_regStack : list RegPair
}.

(** One turn of the loop body; [regStack->Push] appends, so that
    [Bottom(i)] is [regStack !! i]. *)
Definition genBuildRegPairsStack_body (st : PairsLoop) : PairsLoop :=
  let regsMask := pl_regsMask st in
  let regsCount := pl_regsCount st in
  let regStack := pl_regStack st in
  let reg1Mask := genFindLowestBit regsMask in
  let reg1 := genRegNumFromMask reg1Mask in
  let regsMask := N.ldiff regsMask reg1Mask in
  let regsCount := u32 (regsCount - 1) in
  let isPairSave :=
    if 0 <? regsCount then
      let reg2Mask := genFindLowestBit regsMask in
      let reg2 := genRegNumFromMask reg2Mask in
      if (reg2 =? REG_NEXT reg1)%N then
        if negb (reg1 =? REG_R28)%N then
          if Bool.eqb (genIsValidFloatReg reg1) (genIsValidFloatReg reg2) then
            Some (mkPairsLoop (N.ldiff regsMask reg2Mask) (u32 (regsCount - 1))
                    (regStack ++ [RegPair2 reg1 reg2]))
          else None
        else None
      else None
    else None in
  match isPairSave with
  | Some st' => st'
  | None => mkPairsLoop regsMask regsCount (regStack ++ [RegPair1 reg1])
  end.

(** [curr.useSaveNextPair = true] on the element at [BottomRef(i)]. *)
Definition setUseSaveNextPair (curr : RegPair) : RegPair :=
  mkRegPair (reg1 curr) (reg2 curr) true.

(** [for (int i = 1; i < regStack->Height(); ++i)], with [steps] turns
    left to run. *)
Fixpoint genSetUseSaveNextPairs_loop (steps i : nat) (regStack : list RegPair)
    : list RegPair :=
  match steps with
  | O => regStack
  | S steps' =>
      match regStack !! i, regStack !! (i - 1)%nat with
      | Some curr, Some prev =>
          genSetUseSaveNextPairs_loop steps' (S i)
            (if (reg2 prev =? REG_NA)%N || (reg2 curr =? REG_NA)%N then regStack
             else if negb (REG_NEXT (reg2 prev) =? reg1 curr)%N then regStack
             else if negb (Bool.eqb (genIsValidFloatReg (reg2 prev))
                                    (genIsValidFloatReg (reg1 curr)))
                  then regStack
             else <[i := setUseSaveNextPair curr]> regStack)
      | _, _ => regStack
      end
  end.

Definition genSetUseSaveNextPairs (regStack : list RegPair) : list RegPair :=
  genSetUseSaveNextPairs_loop (length regStack - 1) 1 regStack.

(** Clearing the lowest set bit of a non-empty mask removes exactly one
    bit from the count; this is what ends the loop
    [while (regsMask != RBM_NONE)]. *)
Lemma Pos_countBits_pos (p : positive) : 1 <= Pos_countBits p.
Proof. induction p; simpl; lia. Qed.

Lemma genCountBits_clear_lowest (m : regMaskTP) :
  m <> RBM_NONE ->
  genCountBits (N.ldiff m (genFindLowestBit m)) = genCountBits m - 1.
Proof.
  destruct m as [|p]; [intros H; exfalso; apply H; reflexivity|].
  intros _. simpl.
  induction p as [q IH|q IH|]; simpl.
  - destruct q; simpl; lia.
  - destruct (Pos.ldiff q (Pos_lowestBit q)); simpl in *; lia.
  - reflexivity.
Qed.

Lemma genCountBits_clear_lowest_le (m : regMaskTP) :
  0 <= genCountBits (N.ldiff m (genFindLowestBit m)) <= genCountBits m.
Proof.
  destruct (N.eq_dec m RBM_NONE) as [->|Hne]; [simpl; lia|].
  rewrite genCountBits_clear_lowest by assumption.
  destruct m as [|p]; [exfalso; apply Hne; reflexivity|].
  simpl. pose proof (Pos_countBits_pos p). lia.
Qed.

Lemma genBuildRegPairsStack_body_decreases (st : PairsLoop) :
  pl_regsMask st <> RBM_NONE ->
  0 <= genCountBits (pl_regsMask (genBuildRegPairsStack_body st))
    < genCountBits (pl_regsMask st).
Proof.
  intros Hne. pose proof (genCountBits_clear_lowest _ Hne) as Hlt.
  unfold genBuildRegPairsStack_body.
  set (m1 := N.ldiff (pl_regsMask st) (genFindLowestBit (pl_regsMask st))) in *.
  pose proof (genCountBits_clear_lowest_le m1) as Hle.
  pose proof (genCountBits_clear_lowest_le (pl_regsMask st)) as Hle0.
  fold m1 in Hle0.
  repeat match goal with
  | |- context [if ?c then _ else _] => destruct c
  end; simpl; lia.
Qed.

Equations? genBuildRegPairsStack_loop (st : PairsLoop) : PairsLoop
  by wf (Z.to_nat (genCountBits (pl_regsMask st))) lt :=
genBuildRegPairsStack_loop st with N.eq_dec (pl_regsMask st) RBM_NONE => {
  | left _ => st
  | right Hne => genBuildRegPairsStack_loop (genBuildRegPairsStack_body st) }.
Proof.
  apply genBuildRegPairsStack_body_decreases in Hne. lia.
Qed.

(** [regStack] is the caller's stack, required to be empty; the result is
    the stack as the function leaves it, [None] when an assertion fails. *)
Definition genBuildRegPairsStack (regsMask : regMaskTP)
    (regStack : list RegPair) : option (list RegPair) :=
  if negb (length regStack =? 0)%nat then None
  else
    let st :=
      genBuildRegPairsStack_loop
        (mkPairsLoop regsMask (genCountBits regsMask) regStack) in
    if (pl_regsCount st =? 0) && (pl_regsMask st =? RBM_NONE)%N then
      Some (genSetUseSaveNextPairs (pl_regStack st))
    else None.

(** ** Frame layout of funclets *)

(** Target constants (target.h is missing); the frame comment of the
    source gives them: 8-byte slots, eight integer argument registers,
    a stack aligned to 16 bytes. *)
Definition REGSIZE_BYTES : Z := 8.
Definition MAX_REG_ARG : Z := 8.
Definition STACK_ALIGN : Z := 16.

(** Modelled from the spec: [roundUp(size, mult)] on [unsigned] rounds
    [size] up to a multiple of the power of two [mult] (the JIT's utility
    header is missing). *)
Definition roundUp (size mult : Z) : Z :=
  Z.land (u32 (size + (mult - 1))) (Z.lnot (mult - 1)).

(** What [genCaptureFuncletPrologEpilogInfo] reads from the compiler and
    from the code generator. *)
Record FrameInputs : Type := mkFrameInputs {
  ehAnyFunclets : bool;
  isFramePointerUsed : bool;
  (** [compiler->lvaDoneFrameLayout == Compiler::FINAL_FRAME_LAYOUT] *)
  lvaDoneFrameLayout_isFinal : bool;
  genCallerSPtoFPdelta : Z;
  rsMaskCalleeSaved : regMaskTP;
  (** [compiler->lvaPSPSym != BAD_VAR_NUM] *)
  lvaPSPSym_isUsed : bool;
  compIsVarArgs : bool;
  lvaOutgoingArgSpaceSize : Z;
  genSaveFpLrWithAllCalleeSavedRegisters : bool;
  (** [compiler->lvaGetCallerSPRelativeOffset(compiler->lvaPSPSym)] *)
  lvaPSPSym_CallerSPRelativeOffset : Z
}.

(** [genFuncletInfo]. *)
Record FuncletFrameInfoDsc : Type := mkFuncletInfo {
  fiSaveRegs : regMaskTP;
  fiFunction_CallerSP_to_FP_delta : Z;
  fiSP_to_FPLR_save_delta : Z;
  fiSP_to_PSP_slot_delta : Z;
  fiSP_to_CalleeSave_delta : Z;
  fiCallerSP_to_PSP_slot_delta : Z;
  fiFrameType : Z;
  fiSpDelta1 : Z;
  fiSpDelta2 : Z
}.

(** The [unsigned] locals computed before the frame shape is chosen. *)
Definition saveRegsPlusPSPSize (c : FrameInputs) : Z :=
  let PSPSize := if lvaPSPSym_isUsed c then REGSIZE_BYTES else 0 in
  let saveRegsCount := genCountBits (rsMaskCalleeSaved c) in
  let size := u32 (u32 (saveRegsCount * REGSIZE_BYTES) + PSPSize) in
  if compIsVarArgs c then u32 (size + u32 (MAX_REG_ARG * REGSIZE_BYTES))
  else size.

Definition saveRegsPlusPSPSizeAligned (c : FrameInputs) : Z :=
  roundUp (saveRegsPlusPSPSize c) STACK_ALIGN.

Definition outgoingArgSpaceAligned (c : FrameInputs) : Z :=
  roundUp (lvaOutgoingArgSpaceSize c) STACK_ALIGN.

Definition maxFuncletFrameSizeAligned (c : FrameInputs) : Z :=
  u32 (saveRegsPlusPSPSizeAligned c + outgoingArgSpaceAligned c).

Definition funcletFrameSize (c : FrameInputs) : Z :=
  u32 (saveRegsPlusPSPSize c + lvaOutgoingArgSpaceSize c).

Definition funcletFrameSizeAligned (c : FrameInputs) : Z :=
  roundUp (funcletFrameSize c) STACK_ALIGN.

Definition funcletFrameAlignmentPad (c : FrameInputs) : Z :=
  u32 (funcletFrameSizeAligned c - funcletFrameSize c).

Definition saveRegsPlusPSPAlignmentPad (c : FrameInputs) : Z :=
  u32 (saveRegsPlusPSPSizeAligned c - saveRegsPlusPSPSize c).

(** [assert] in a function that makes no calls. *)
Definition check (cond : bool) : option unit :=
  if cond then Some tt else None.

(** The frame-shape branches: [SP_to_FPLR_save_delta],
    [SP_to_PSP_slot_delta], [CallerSP_to_PSP_slot_delta], the frame type
    and the two SP deltas.  A conversion [(int)x] is [s32 x]; [int]
    arithmetic is wrapped likewise. *)
Definition funcletFrameShape (c : FrameInputs)
    : option (Z * Z * Z * Z * Z * Z) :=
  let outsz := lvaOutgoingArgSpaceSize c in
  if maxFuncletFrameSizeAligned c <=? 512 then
    let '(fplr, psp, callerPsp, frameType) :=
      if genSaveFpLrWithAllCalleeSavedRegisters c then
        let fplr := s32 (u32 (funcletFrameSizeAligned c - 2 * REGSIZE_BYTES)) in
        let fplr :=
          if compIsVarArgs c then s32 (fplr - MAX_REG_ARG * REGSIZE_BYTES)
          else fplr in
        (fplr,
         s32 (u32 (outsz + funcletFrameAlignmentPad c)),
         s32 (- s32 (saveRegsPlusPSPSize c)),
         4)
      else
        let fplr := s32 outsz in
        (fplr,
         s32 (u32 (fplr + 2 * REGSIZE_BYTES + funcletFrameAlignmentPad c)),
         s32 (- s32 (u32 (saveRegsPlusPSPSize c - 2 * REGSIZE_BYTES))),
         if outsz =? 0 then 1 else 2) in
    let fiSpDelta1 := s32 (- s32 (funcletFrameSizeAligned c)) in
    let fiSpDelta2 := 0 in
    match check (s32 (fiSpDelta1 + fiSpDelta2)
                 =? s32 (- s32 (funcletFrameSizeAligned c))) with
    | None => None
    | Some _ => Some (fplr, psp, callerPsp, frameType, fiSpDelta1, fiSpDelta2)
    end
  else
    match check ((saveRegsPlusPSPAlignmentPad c =? 0)
                 || (saveRegsPlusPSPAlignmentPad c =? REGSIZE_BYTES)) with
    | None => None
    | Some _ =>
        let '(fplr, psp, callerPsp, frameType) :=
          if genSaveFpLrWithAllCalleeSavedRegisters c then
            let fplr :=
              s32 (u32 (funcletFrameSizeAligned c - 2 * REGSIZE_BYTES)) in
            let fplr :=
              if compIsVarArgs c then s32 (fplr - MAX_REG_ARG * REGSIZE_BYTES)
              else fplr in
            (fplr,
             s32 (u32 (u32 (outsz + funcletFrameAlignmentPad c)
                       + saveRegsPlusPSPAlignmentPad c)),
             s32 (- s32 (saveRegsPlusPSPSize c)),
             5)
          else
            let fplr := s32 (outgoingArgSpaceAligned c) in
            (fplr,
             s32 (u32 (fplr + 2 * REGSIZE_BYTES + saveRegsPlusPSPAlignmentPad c)),
             s32 (- s32 (u32 (u32 (saveRegsPlusPSPSizeAligned c - 2 * REGSIZE_BYTES)
                              - saveRegsPlusPSPAlignmentPad c))),
             3) in
        let fiSpDelta1 := s32 (- s32 (saveRegsPlusPSPSizeAligned c)) in
        let fiSpDelta2 := s32 (- s32 (outgoingArgSpaceAligned c)) in
        match check (s32 (fiSpDelta1 + fiSpDelta2)
                     =? s32 (- s32 (maxFuncletFrameSizeAligned c))) with
        | None => None
        | Some _ =>
            Some (fplr, psp, callerPsp, frameType, fiSpDelta1, fiSpDelta2)
        end
    end.

(** [genFuncletInfo] is the descriptor before the call; the result is the
    descriptor after it, [None] when an assertion fails.  The assertions
    of the [DEBUG] block are included. *)
Definition genCaptureFuncletPrologEpilogInfo (c : FrameInputs)
    (genFuncletInfo : FuncletFrameInfoDsc) : option FuncletFrameInfoDsc :=
  if negb (ehAnyFunclets c) then Some genFuncletInfo
  else
    let rsMaskSaveRegs := rsMaskCalleeSaved c in
    if negb (isFramePointerUsed c
             && lvaDoneFrameLayout_isFinal c
             && negb (N.land rsMaskSaveRegs RBM_LR =? 0)%N
             && negb (N.land rsMaskSaveRegs RBM_FP =? 0)%N
             && (Z.rem (lvaOutgoingArgSpaceSize c) REGSIZE_BYTES =? 0)
             && (Z.rem (maxFuncletFrameSizeAligned c) STACK_ALIGN =? 0)
             && (funcletFrameSizeAligned c <=? maxFuncletFrameSizeAligned c)
             && ((funcletFrameAlignmentPad c =? 0)
                 || (funcletFrameAlignmentPad c =? REGSIZE_BYTES)))
    then None
    else
      match funcletFrameShape c with
      | None => None
      | Some (fplr, psp, callerPsp, frameType, fiSpDelta1, fiSpDelta2) =>
          let fi :=
            mkFuncletInfo rsMaskSaveRegs (genCallerSPtoFPdelta c)
              fplr psp (s32 (psp + REGSIZE_BYTES)) callerPsp
              frameType fiSpDelta1 fiSpDelta2 in
          if (0 <=? fiSP_to_FPLR_save_delta fi)
             && (0 <=? fiSP_to_PSP_slot_delta fi)
             && (0 <=? fiSP_to_CalleeSave_delta fi)
             && (fiCallerSP_to_PSP_slot_delta fi <=? 0)
             && (negb (lvaPSPSym_isUsed c)
                 || (fiCallerSP_to_PSP_slot_delta fi
                     =? lvaPSPSym_CallerSPRelativeOffset c))
          then Some fi
          else None
      end.

(** ** IR nodes

    gentree.h is not part of the sources; a node carries what the
    generators below read from it. *)

Inductive genTreeOps : Type :=
| GT_ADD | GT_SUB | GT_MUL | GT_DIV | GT_UDIV | GT_AND | GT_OR | GT_XOR
| GT_NEG | GT_NOT | GT_LSH | GT_RSH | GT_RSZ | GT_ROR
| GT_CNS_INT | GT_LCL_VAR | GT_XADD | GT_XCHG | GT_CMPXCHG.

#[global] Instance genTreeOps_eq_dec : EqDecision genTreeOps.
Proof. solve_decision. Defined.

(** Modelled from the spec: an IR operation node has a kind tag, a
    semantic type, a result register, kind-specific flags, and may be
    "contained"; [gtTreeID] names the node in the calls that take it,
    [gtIconVal] is [AsIntConCommon()->IconValue()], and [gtRsvdRegs] is the
    set of internal registers the allocator reserved for it. *)
Record GenTree : Type := mkGenTree {
  gtTreeID : nat;
  gtOper : genTreeOps;
  gtType : var_types;
  gtRegNum : regNumber;
  gtIconVal : Z;
  gtIsContained : bool;
  gtSetFlags : bool;
  gtRsvdRegs : regMaskTP
}.

Record GenTreeOp : Type := mkGenTreeOp {
  gtNode : GenTree;
  gtOp1 : GenTree;
  gtOp2 : GenTree
}.

Record GenTreeCmpXchg : Type := mkGenTreeCmpXchg {
  gtCmpXchgNode : GenTree;
  gtOpLocation : GenTree;
  gtOpValue : GenTree;
  gtOpComparand : GenTree
}.

Definition OperIs (t : GenTree) (opers : list genTreeOps) : bool :=
  existsb (fun o => bool_decide (gtOper t = o)) opers.

Definition IsCnsIntOrI (t : GenTree) : bool :=
  bool_decide (gtOper t = GT_CNS_INT).

Definition IsIntegralConst (t : GenTree) (constVal : Z) : bool :=
  IsCnsIntOrI t && (gtIconVal t =? constVal).

Definition isContainedIntOrIImmed (t : GenTree) : bool :=
  gtIsContained t && IsCnsIntOrI t.

Definition isUsedFromReg (t : GenTree) : bool := negb (gtIsContained t).

Definition isUsedFromMemory (t : GenTree) : bool :=
  gtIsContained t && negb (IsCnsIntOrI t).

Definition gtGetRegMask (t : GenTree) : regMaskTP := genRegMask (gtRegNum t).

Definition varTypeIsFloating (type : var_types) : bool :=
  match type with
  | TYP_FLOAT | TYP_DOUBLE => true
  | _ => false
  end.

Definition genTypeSize (type : var_types) : Z :=
  match type with
  | TYP_INT | TYP_FLOAT => 4
  | _ => 8
  end.

Definition EA_ATTR (bytes : Z) : emitAttr := mkAttr bytes GCT_NONE false.

(** [emitTypeSize]/[emitActualTypeSize]: the size of the node's type,
    tagged when the type is a tracked pointer. *)
Definition emitTypeSize (t : GenTree) : emitAttr :=
  match gtType t with
  | TYP_REF => EA_GCREF
  | TYP_BYREF => EA_BYREF
  | type => EA_ATTR (genTypeSize type)
  end.
Definition emitActualTypeSize (t : GenTree) : emitAttr := emitTypeSize t.

Definition RBM_ALLINT : regMaskTP := 0x7FFFFFFF%N.

(** [treeNode->ExtractTempReg(mask)]: takes the lowest reserved register
    that is in [mask] out of the node. *)
Definition ExtractTempReg (t : GenTree) (mask : regMaskTP)
    : Gen (regNumber * GenTree) :=
  let availableSet := N.land (gtRsvdRegs t) mask in
  assert (1 <=? genCountBits availableSet) >>
  let tempRegMask := genFindLowestBit availableSet in
  ret (genRegNumFromMask tempRegMask,
       mkGenTree (gtTreeID t) (gtOper t) (gtType t) (gtRegNum t) (gtIconVal t)
         (gtIsContained t) (gtSetFlags t)
         (N.ldiff (gtRsvdRegs t) tempRegMask)).

(** ** Per-operation generators *)

Section NodeGenerators.

Context {E : Emitter}.
Variable compReloc : bool.

(** [compiler->compSupports(InstructionSet_Atomics)]. *)
Variable compSupportsAtomics : bool.

(** [NYI] and [unreached] abandon the run. *)
Definition genGetInsForOper (oper : genTreeOps) (type : var_types)
    : Gen instruction :=
  if varTypeIsFloating type then
    match oper with
    | GT_ADD => ret INS_fadd
    | GT_SUB => ret INS_fsub
    | GT_MUL => ret INS_fmul
    | GT_DIV => ret INS_fdiv
    | GT_NEG => ret INS_fneg
    | _ => assert false >> ret INS_brk
    end
  else
    match oper with
    | GT_ADD => ret INS_add
    | GT_AND => ret INS_and
    | GT_DIV => ret INS_sdiv
    | GT_UDIV => ret INS_udiv
    | GT_MUL => ret INS_mul
    | GT_LSH => ret INS_lsl
    | GT_NEG => ret INS_neg
    | GT_NOT => ret INS_mvn
    | GT_OR => ret INS_orr
    | GT_ROR => ret INS_ror
    | GT_RSH => ret INS_asr
    | GT_RSZ => ret INS_lsr
    | GT_SUB => ret INS_sub
    | GT_XOR => ret INS_eor
    | _ => assert false >> ret INS_brk
    end.

(** [emit->emitInsTernary] returns the destination register, which is the
    node's own; the assertion on it therefore holds. *)
Definition genCodeForBinary (treeNode : GenTreeOp) : Gen unit :=
  let oper := gtOper (gtNode treeNode) in
  let targetReg := gtRegNum (gtNode treeNode) in
  let targetType := gtType (gtNode treeNode) in
  assert (OperIs (gtNode treeNode)
            [GT_ADD; GT_SUB; GT_MUL; GT_DIV; GT_UDIV; GT_AND; GT_OR; GT_XOR]) >>
  let op1 := gtOp1 treeNode in
  let op2 := gtOp2 treeNode in
  let! ins := genGetInsForOper oper targetType in
  let! ins :=
    (if gtSetFlags (gtNode treeNode) then
       match oper with
       | GT_ADD => ret INS_adds
       | GT_SUB => ret INS_subs
       | GT_AND => ret INS_ands
       | _ => assert false >> ret ins
       end
     else ret ins) in
  assert (negb (targetReg =? REG_NA)%N) >>
  emit (emitInsTernary ins (emitActualTypeSize (gtNode treeNode)) targetReg
          (gtRegNum op1) (gtRegNum op2)) >>
  let r := targetReg in
  assert (r =? targetReg)%N >>
  tell (genProduceReg (gtTreeID (gtNode treeNode))).

Definition genCodeForDivMod (tree : GenTreeOp) : Gen unit :=
  assert (OperIs (gtNode tree) [GT_DIV; GT_UDIV]) >>
  let targetType := gtType (gtNode tree) in
  tell (genConsumeOperands (gtTreeID (gtNode tree))) >>
  if varTypeIsFloating targetType then
    genCodeForBinary tree
  else
    let divisorOp := gtOp2 tree in
    let size := EA_ATTR (genTypeSize targetType) in
    if IsIntegralConst divisorOp 0 then
      tell (genJumpToThrowHlpBlk EJ_jmp SCK_DIV_BY_ZERO) >>
      tell (genProduceReg (gtTreeID (gtNode tree)))
    else
      let divisorReg := gtRegNum divisorOp in
      if bool_decide (gtOper (gtNode tree) = GT_DIV) then
        let! sdivLabel := genCreateTempLabel in
        let! checkDividend :=
          (if IsCnsIntOrI divisorOp then
             let intConstValue := gtIconVal divisorOp in
             assert (negb (intConstValue =? 0)) >>
             ret (if negb (intConstValue =? -1) then false else true)
           else
             emit (emitIns_R_I INS_cmp size divisorReg 0) >>
             tell (genJumpToThrowHlpBlk EJ_eq SCK_DIV_BY_ZERO) >>
             ret true) in
        (if (checkDividend : bool) then
           emit (emitIns_R_I INS_cmp size divisorReg (-1)) >>
           tell (inst_JMP EJ_ne sdivLabel) >>
           let dividendReg := gtRegNum (gtOp1 tree) in
           emit (emitIns_R_R_R INS_adds size REG_ZR dividendReg dividendReg) >>
           tell (inst_JMP EJ_ne sdivLabel) >>
           tell (genJumpToThrowHlpBlk EJ_vs SCK_ARITH_EXCPN) >>
           tell (genDefineTempLabel sdivLabel)
         else ret tt) >>
        genCodeForBinary tree
      else
        (if negb (IsCnsIntOrI divisorOp) then
           emit (emitIns_R_I INS_cmp size divisorReg 0) >>
           tell (genJumpToThrowHlpBlk EJ_eq SCK_DIV_BY_ZERO)
         else ret tt) >>
        genCodeForBinary tree.

Definition genLockedInstructions (treeNode : GenTreeOp) : Gen unit :=
  let data := gtOp2 treeNode in
  let addr := gtOp1 treeNode in
  let targetReg := gtRegNum (gtNode treeNode) in
  let dataReg := gtRegNum data in
  let addrReg := gtRegNum addr in
  tell (genConsumeAddress (gtTreeID addr)) >>
  tell (genConsumeRegs (gtTreeID data)) >>
  let dataSize := emitActualTypeSize data in
  (if compSupportsAtomics then
     assert (negb (isContainedIntOrIImmed data)) >>
     match gtOper (gtNode treeNode) with
     | GT_XCHG =>
         emit (emitIns_R_R_R INS_swpal dataSize dataReg targetReg addrReg)
     | GT_XADD =>
         if (targetReg =? REG_NA)%N || (targetReg =? REG_ZR)%N then
           emit (emitIns_R_R INS_staddl dataSize dataReg addrReg)
         else
           emit (emitIns_R_R_R INS_ldaddal dataSize dataReg targetReg addrReg)
     | _ => assert false
     end >>
     tell (instGen_MemoryBarrier INS_BARRIER_ISH)
   else
     let isXchg := bool_decide (gtOper (gtNode treeNode) = GT_XCHG) in
     let! (exResultReg, node1) := ExtractTempReg (gtNode treeNode) RBM_ALLINT in
     let! (storeDataReg, node2) :=
       (if isXchg then ret (dataReg, node1)
        else ExtractTempReg node1 RBM_ALLINT) in
     let loadReg :=
       if negb (targetReg =? REG_NA)%N then targetReg else storeDataReg in
     assert (negb (addrReg =? targetReg)%N) >>
     assert (negb (addrReg =? loadReg)%N) >>
     assert (negb (dataReg =? loadReg)%N) >>
     assert (negb (addrReg =? storeDataReg)%N) >>
     assert (isXchg || negb (addrReg =? dataReg)%N) >>
     assert (isUsedFromReg addr) >>
     assert (negb (exResultReg =? REG_NA)%N) >>
     assert (negb (exResultReg =? targetReg)%N) >>
     assert (negb (targetReg =? REG_NA)%N || negb isXchg) >>
     assert (negb (exResultReg =? storeDataReg)%N) >>
     assert (negb (exResultReg =? addrReg)%N) >>
     gcInfo (gcMarkRegPtrVal addrReg (gtType addr)) >>
     let! labelRetry := genCreateTempLabel in
     tell (genDefineTempLabel labelRetry) >>
     emit (emitIns_R_R INS_ldaxr dataSize loadReg addrReg) >>
     let! storeDataReg :=
       match gtOper (gtNode treeNode) with
       | GT_XADD =>
           (if isContainedIntOrIImmed data then
              let! _ := genInstrWithConstant compReloc INS_add dataSize
                          storeDataReg loadReg (gtIconVal data) REG_NA false in
              ret tt
            else
              emit (emitIns_R_R_R INS_add dataSize storeDataReg loadReg dataReg)) >>
           ret storeDataReg
       | GT_XCHG =>
           assert (negb (gtIsContained data)) >>
           ret dataReg
       | _ => assert false >> ret storeDataReg
       end in
     emit (emitIns_R_R_R INS_stlxr dataSize exResultReg storeDataReg addrReg) >>
     emit (emitIns_J_R INS_cbnz EA_4BYTE labelRetry exResultReg) >>
     tell (instGen_MemoryBarrier INS_BARRIER_ISH) >>
     gcInfo (gcMarkRegSetNpt (gtGetRegMask addr))) >>
  if negb (gtRegNum (gtNode treeNode) =? REG_NA)%N then
    tell (genProduceReg (gtTreeID (gtNode treeNode)))
  else ret tt.

Definition genCodeForCmpXchg (treeNode : GenTreeCmpXchg) : Gen unit :=
  assert (OperIs (gtCmpXchgNode treeNode) [GT_CMPXCHG]) >>
  let node := gtCmpXchgNode treeNode in
  let addr := gtOpLocation treeNode in
  let data := gtOpValue treeNode in
  let comparand := gtOpComparand treeNode in
  let targetReg := gtRegNum node in
  let dataReg := gtRegNum data in
  let addrReg := gtRegNum addr in
  let comparandReg := gtRegNum comparand in
  tell (genConsumeAddress (gtTreeID addr)) >>
  tell (genConsumeRegs (gtTreeID data)) >>
  tell (genConsumeRegs (gtTreeID comparand)) >>
  (if compSupportsAtomics then
     let dataSize := emitActualTypeSize data in
     (if negb (targetReg =? comparandReg)%N then
        emit (emitIns_R_R INS_mov dataSize targetReg comparandReg) >>
        assert (negb (addrReg =? targetReg)%N) >>
        assert (negb (dataReg =? targetReg)%N)
      else ret tt) >>
     emit (emitIns_R_R_R INS_casal dataSize targetReg dataReg addrReg) >>
     tell (instGen_MemoryBarrier INS_BARRIER_ISH)
   else
     let! (exResultReg, _) := ExtractTempReg node RBM_ALLINT in
     assert (negb (addrReg =? targetReg)%N) >>
     assert (negb (dataReg =? targetReg)%N) >>
     assert (negb (comparandReg =? targetReg)%N) >>
     assert (negb (addrReg =? dataReg)%N) >>
     assert (negb (targetReg =? REG_NA)%N) >>
     assert (negb (exResultReg =? REG_NA)%N) >>
     assert (negb (exResultReg =? targetReg)%N) >>
     assert (isUsedFromReg addr) >>
     assert (isUsedFromReg data) >>
     assert (negb (isUsedFromMemory comparand)) >>
     assert (negb (exResultReg =? dataReg)%N) >>
     assert (negb (exResultReg =? addrReg)%N) >>
     gcInfo (gcMarkRegPtrVal addrReg (gtType addr)) >>
     let! labelRetry := genCreateTempLabel in
     let! labelCompareFail := genCreateTempLabel in
     tell (genDefineTempLabel labelRetry) >>
     emit (emitIns_R_R INS_ldaxr (emitTypeSize node) targetReg addrReg) >>
     (if isContainedIntOrIImmed comparand then
        if IsIntegralConst comparand 0 then
          emit (emitIns_J_R INS_cbnz (emitActualTypeSize node)
                  labelCompareFail targetReg)
        else
          emit (emitIns_R_I INS_cmp (emitActualTypeSize node) targetReg
                  (gtIconVal comparand)) >>
          emit (emitIns_J INS_bne labelCompareFail)
      else
        emit (emitIns_R_R INS_cmp (emitActualTypeSize node) targetReg
                comparandReg) >>
        emit (emitIns_J INS_bne labelCompareFail)) >>
     emit (emitIns_R_R_R INS_stlxr (emitTypeSize node) exResultReg dataReg
             addrReg) >>
     emit (emitIns_J_R INS_cbnz EA_4BYTE labelRetry exResultReg) >>
     tell (genDefineTempLabel labelCompareFail) >>
     tell (instGen_MemoryBarrier INS_BARRIER_ISH) >>
     gcInfo (gcMarkRegSetNpt (gtGetRegMask addr))) >>
  tell (genProduceReg (gtTreeID node)).

End NodeGenerators.

(** ** Measures on the calls of a run *)

(** The machine instructions behind one emitter call; [emitIns_R_AI]
    "emits a pair of adrp/add (two instructions)". *)
Definition instructionsOf (e : event) : nat :=
  match e with
  | Emit (emitIns_R_AI _ _ _ _) => 2
  | Emit _ => 1
  | _ => 0
  end.

Fixpoint instructionCount (t : list event) : nat :=
  match t with
  | [] => 0
  | e :: t' => instructionsOf e + instructionCount t'
  end.

(** The number of sixteen-bit fields of [imm], among those at [shifts],
    that differ from [skipVal]. *)
Definition fieldsToWrite (imm skipVal : Z) (shifts : list Z) : nat :=
  length (List.filter (fun i => negb (u16 (Z.shiftr imm i) =? skipVal)) shifts).

(** The spec's count for constant materialization: the fields of the low
    [bits] bits of [imm] that differ from a sentinel, and the smaller of
    the counts for the two sentinels. *)
Definition nonSentinelFields (bits imm sentinel : Z) : nat :=
  fieldsToWrite imm sentinel (field_shifts bits).

Definition fewestNonSentinelFields (bits imm : Z) : nat :=
  Nat.min (nonSentinelFields bits imm 0) (nonSentinelFields bits imm 0xffff).

(** The width [instGen_Set_Reg_To_Imm] materializes for a size. *)
Definition bitsOf (size : emitAttr) : Z :=
  if bool_decide (size = EA_8BYTE) then 64 else 32.

(** The [tst] that follows when the flags are requested. *)
Definition tstCount (flags : insFlags) : nat :=
  if bool_decide (flags = INS_FLAGS_SET) then 1 else 0.

(** The stack-allocation unwind entries among the calls of a run. *)
Definition allocStackEntries (t : list event) : list Z :=
  flat_map (fun e => match e with
                     | Unwind (unwindAllocStack size) => [size]
                     | _ => []
                     end) t.

(** The pointee of [pTmpRegIsZero] after [genStackPointerAdjustment], given
    what [genInstrWithConstant] returned to it. *)
Definition tmpRegIsZeroAfter (r : bool) (pTmpRegIsZero : option bool)
    : option bool :=
  if r then match pTmpRegIsZero with Some _ => Some false | None => None end
  else pTmpRegIsZero.

(** ** Properties of the register-pair list *)

(** An entry is a lone register or a pair of one register class. *)
Definition pairOfOneClass (p : RegPair) : Prop :=
  reg2 p <> REG_NA ->
  genIsValidFloatReg (reg1 p) = genIsValidFloatReg (reg2 p).

(** What justifies marking [curr], which follows [prev], as a continuation:
    both are full pairs, the registers run on from [prev] to [curr], and
    the class does not change between them. *)
Definition continues (prev curr : RegPair) : Prop :=
  reg2 prev <> REG_NA
  /\ reg2 curr <> REG_NA
  /\ REG_NEXT (reg2 prev) = reg1 curr
  /\ genIsValidFloatReg (reg2 prev) = genIsValidFloatReg (reg1 curr).

(** Every marked entry of the list is justified by the entry before it. *)
Definition marksJustified (regStack : list RegPair) : Prop :=
  forall (i : nat) (curr : RegPair),
    regStack !! i = Some curr ->
    useSaveNextPair curr = true ->
    exists prev,
      (0 < i)%nat /\ regStack !! (i - 1)%nat = Some prev /\ continues prev curr.

(** What the loop of [genBuildRegPairsStack] maintains. *)
Definition PairsLoopInv (st : PairsLoop) : Prop :=
  pl_regsCount st = genCountBits (pl_regsMask st)
  /\ genCountBits (pl_regsMask st) <= 64
  /\ Forall pairOfOneClass (pl_regStack st)
  /\ Forall (fun p => useSaveNextPair p = false) (pl_regStack st).

(** ** Well-formed inputs of the frame classifier *)

(** What the earlier phases guarantee when
    [genCaptureFuncletPrologEpilogInfo] runs for a function with funclets:
    a frame pointer and a final frame layout, FP and LR among the saved
    registers, which are otherwise callee-saved ones, an outgoing-argument
    area made of whole slots, and a main-function PSPSym placed where the
    funclet frame puts its own. *)
Definition FrameInputsOK (c : FrameInputs) : Prop :=
  ehAnyFunclets c = true
  /\ isFramePointerUsed c = true
  /\ lvaDoneFrameLayout_isFinal c = true
  /\ N.land (rsMaskCalleeSaved c) RBM_LR <> 0%N
  /\ N.land (rsMaskCalleeSaved c) RBM_FP <> 0%N
  /\ N.land (rsMaskCalleeSaved c)
       (N.lor RBM_CALLEE_SAVED (N.lor RBM_FP RBM_LR)) = rsMaskCalleeSaved c
  /\ 0 <= lvaOutgoingArgSpaceSize c < 2 ^ 30
  /\ Z.rem (lvaOutgoingArgSpaceSize c) REGSIZE_BYTES = 0
  /\ (lvaPSPSym_isUsed c = true ->
      lvaPSPSym_CallerSPRelativeOffset c
      = if genSaveFpLrWithAllCalleeSavedRegisters c
        then - saveRegsPlusPSPSize c
        else 2 * REGSIZE_BYTES - saveRegsPlusPSPSize c).

(** ** Sample inputs

    A function with funclets that saves FP, LR and x19, uses a PSPSym and
    is not variadic; [outsz] is its outgoing-argument size, [withAll] tells
    whether FP/LR are saved with all callee-saved registers, and [pspOffset]
    is where the main function put the PSPSym, relative to the caller's
    SP. *)
Definition sampleFrameInputs (outsz : Z) (withAll : bool) (pspOffset : Z)
    : FrameInputs :=
  mkFrameInputs true true true 0 0x60080000%N true false outsz withAll
    pspOffset.

Definition emptyFuncletInfo : FuncletFrameInfoDsc :=
  mkFuncletInfo 0%N 0 0 0 0 0 0 0 0.

(** ** Instructions and GC calls among the calls of a run *)

(** The calls that put an instruction into the stream. *)
Definition isInstruction (e : event) : bool :=
  match e with
  | Emit _ | genJumpToThrowHlpBlk _ _ | inst_JMP _ _
  | instGen_MemoryBarrier _ => true
  | _ => false
  end.

Definition isGcCall (e : event) : bool :=
  match e with
  | GcInfo _ => true
  | _ => false
  end.

(** Splits the calls of a run at the first call on the GC tracker. *)
Fixpoint splitAtGcCall (t : list event)
    : option (list event * gcCall * list event) :=
  match t with
  | [] => None
  | GcInfo g :: rest => Some ([], g, rest)
  | e :: rest =>
      match splitAtGcCall rest with
      | Some (before, g, after) => Some (e :: before, g, after)
      | None => None
      end
  end.

(** The calls [t] keep [addrReg] marked across all of their instructions:
    the first GC call is the mark of [addrReg], and nothing is emitted
    before it; the next GC call is the unmark, which comes right after the
    memory fence that ends the instructions in between; nothing is emitted
    after it, and no further GC call is made. *)
Definition gcMarkedAcross (addrReg : regNumber) (type : var_types)
    (regMask : regMaskTP) (t : list event) : Prop :=
  match splitAtGcCall t with
  | Some (pre, mark, rest) =>
      match splitAtGcCall rest with
      | Some (body, unmark, post) =>
          mark = gcMarkRegPtrVal addrReg type
          /\ unmark = gcMarkRegSetNpt regMask
          /\ forallb (fun e => negb (isInstruction e)) pre = true
          /\ (2 <= instructionCount body)%nat
          /\ last body = Some (instGen_MemoryBarrier INS_BARRIER_ISH)
          /\ forallb (fun e => negb (isInstruction e)) post = true
          /\ splitAtGcCall post = None
      | None => False
      end
  | None => False
  end.

(** A sample atomic add: the node is to leave its result in x0, the
    address (a byref) is in x1, the addend in x2, and x9 and x10 are
    reserved for it. *)
Definition sampleXadd : GenTreeOp :=
  mkGenTreeOp (mkGenTree 1 GT_XADD TYP_INT REG_R0 0 false false 0x600%N)
    (mkGenTree 2 GT_LCL_VAR TYP_BYREF REG_R1 0 false false 0%N)
    (mkGenTree 3 GT_LCL_VAR TYP_INT REG_R2 0 false false 0%N).

(** A sample compare-and-swap: result in x0, address (a byref) in x1, new
    value in x2, comparand in x3, and x9 reserved for the store status. *)
Definition sampleCmpXchg : GenTreeCmpXchg :=
  mkGenTreeCmpXchg
    (mkGenTree 1 GT_CMPXCHG TYP_INT REG_R0 0 false false 0x200%N)
    (mkGenTree 2 GT_LCL_VAR TYP_BYREF REG_R1 0 false false 0%N)
    (mkGenTree 3 GT_LCL_VAR TYP_INT REG_R2 0 false false 0%N)
    (mkGenTree 4 GT_LCL_VAR TYP_INT 3%N 0 false false 0%N).

(** The calls expected of the two samples on the path without native
    atomics. *)
Definition sampleXaddCalls : list event :=
  [genConsumeAddress 2; genConsumeRegs 3;
   GcInfo (gcMarkRegPtrVal REG_R1 TYP_BYREF);
   genDefineTempLabel 0%nat;
   Emit (emitIns_R_R INS_ldaxr EA_4BYTE REG_R0 REG_R1);
   Emit (emitIns_R_R_R INS_add EA_4BYTE 10%N REG_R0 REG_R2);
   Emit (emitIns_R_R_R INS_stlxr EA_4BYTE 9%N 10%N REG_R1);
   Emit (emitIns_J_R INS_cbnz EA_4BYTE 0%nat 9%N);
   instGen_MemoryBarrier INS_BARRIER_ISH;
   GcInfo (gcMarkRegSetNpt (genRegMask REG_R1));
   genProduceReg 1].

Definition sampleCmpXchgCalls : list event :=
  [genConsumeAddress 2; genConsumeRegs 3; genConsumeRegs 4;
   GcInfo (gcMarkRegPtrVal REG_R1 TYP_BYREF);
   genDefineTempLabel 0%nat;
   Emit (emitIns_R_R INS_ldaxr EA_4BYTE REG_R0 REG_R1);
   Emit (emitIns_R_R INS_cmp EA_4BYTE REG_R0 3%N);
   Emit (emitIns_J INS_bne 1%nat);
   Emit (emitIns_R_R_R INS_stlxr EA_4BYTE 9%N REG_R2 REG_R1);
   Emit (emitIns_J_R INS_cbnz EA_4BYTE 0%nat 9%N);
   genDefineTempLabel 1%nat;
   instGen_MemoryBarrier INS_BARRIER_ISH;
   GcInfo (gcMarkRegSetNpt (genRegMask REG_R1));
   genProduceReg 1].

(** * Callee-saved register groups and funclet prologs and epilogs *)

(** ** Saving and restoring the registers of a mask *)

(** target.h is missing; the source asserts
    [REGSIZE_BYTES == FPSAVE_REGSIZE_BYTES]. *)
Definition FPSAVE_REGSIZE_BYTES : Z := 8.

(** An assertion inside a function that makes no calls of its own, seen
    from a generator: a failure abandons the run. *)
Definition liftAssert {A} (o : option A) : Gen A :=
  fun n => match o with
           | Some a => Some (a, [], n)
           | None => None
           end.

Section CalleeSavedGroups.

Context {E : Emitter}.
Variable compReloc : bool.

Definition genGetSlotSizeForRegsInMask (regsMask : regMaskTP) : Gen Z :=
  assert (N.land regsMask (N.lor RBM_CALLEE_SAVED (N.lor RBM_FP RBM_LR))
          =? regsMask)%N >>
  ret REGSIZE_BYTES.

(** [for (int i = 0; i < regStack.Height(); ++i)] over [regStack.Bottom(i)]:
    the entries in the order they were pushed. *)
Fixpoint genSaveCalleeSavedRegisterGroup_loop (slotSize : Z)
    (regStack : list RegPair) (spDelta spOffset : Z) : Gen unit :=
  match regStack with
  | [] => ret tt
  | regPair :: rest =>
      let! spOffset :=
        (if negb (reg2 regPair =? REG_NA)%N then
           genPrologSaveRegPair compReloc (reg1 regPair) (reg2 regPair)
             spOffset spDelta (useSaveNextPair regPair) REG_IP0 None >>
           ret (s32 (spOffset + 2 * slotSize))
         else
           genPrologSaveReg compReloc (reg1 regPair) spOffset spDelta REG_IP0
             None >>
           ret (s32 (spOffset + slotSize))) in
      genSaveCalleeSavedRegisterGroup_loop slotSize rest 0 spOffset
  end.

Definition genSaveCalleeSavedRegisterGroup (regsMask : regMaskTP)
    (spDelta spOffset : Z) : Gen unit :=
  let! slotSize := genGetSlotSizeForRegsInMask regsMask in
  let! regStack := liftAssert (genBuildRegPairsStack regsMask []) in
  genSaveCalleeSavedRegisterGroup_loop slotSize regStack spDelta spOffset.

Definition genSaveCalleeSavedRegistersHelp (regsToSaveMask : regMaskTP)
    (lowestCalleeSavedOffset spDelta : Z) : Gen unit :=
  assert (spDelta <=? 0) >>
  let regsToSaveCount := genCountBits regsToSaveMask in
  if regsToSaveCount =? 0 then
    if negb (spDelta =? 0) then
      genStackPointerAdjustment compReloc spDelta REG_NA None true >> ret tt
    else ret tt
  else
    assert (Z.rem spDelta 16 =? 0) >>
    assert (regsToSaveCount
            <=? genCountBits (N.lor RBM_CALLEE_SAVED (N.lor RBM_FP RBM_LR))) >>
    let maskSaveRegsFloat := N.land regsToSaveMask RBM_ALLFLOAT in
    let maskSaveRegsInt := N.ldiff regsToSaveMask maskSaveRegsFloat in
    let! (spDelta, lowestCalleeSavedOffset) :=
      (if negb (maskSaveRegsFloat =? RBM_NONE)%N then
         genSaveCalleeSavedRegisterGroup maskSaveRegsFloat spDelta
           lowestCalleeSavedOffset >>
         ret (0,
              s32 (lowestCalleeSavedOffset
                   + u32 (genCountBits maskSaveRegsFloat
                          * FPSAVE_REGSIZE_BYTES)))
       else ret (spDelta, lowestCalleeSavedOffset)) in
    if negb (maskSaveRegsInt =? RBM_NONE)%N then
      genSaveCalleeSavedRegisterGroup maskSaveRegsInt spDelta
        lowestCalleeSavedOffset
    else ret tt.

(** [for (int i = 0; i < regStack.Height(); ++i)] over [regStack.Index(i)]:
    the entries from the last pushed to the first, so that
    [lastRestoreInTheGroup] holds when no entry is left after this one. *)
Fixpoint genRestoreCalleeSavedRegisterGroup_loop (slotSize : Z)
    (fromTop : list RegPair) (spDelta spOffset stackDelta : Z) : Gen unit :=
  match fromTop with
  | [] => ret tt
  | regPair :: rest =>
      let lastRestoreInTheGroup :=
        match rest with [] => true | _ => false end in
      let updateStackDelta := lastRestoreInTheGroup && negb (spDelta =? 0) in
      (if updateStackDelta then assert (stackDelta =? 0) else ret tt) >>
      let stackDelta := if updateStackDelta then spDelta else stackDelta in
      let! spOffset :=
        (if negb (reg2 regPair =? REG_NA)%N then
           let spOffset := s32 (spOffset - 2 * slotSize) in
           genEpilogRestoreRegPair compReloc (reg1 regPair) (reg2 regPair)
             spOffset stackDelta (useSaveNextPair regPair) REG_IP1 None >>
           ret spOffset
         else
           let spOffset := s32 (spOffset - slotSize) in
           genEpilogRestoreReg compReloc (reg1 regPair) spOffset stackDelta
             REG_IP1 None >>
           ret spOffset) in
      genRestoreCalleeSavedRegisterGroup_loop slotSize rest spDelta spOffset
        stackDelta
  end.

Definition genRestoreCalleeSavedRegisterGroup (regsMask : regMaskTP)
    (spDelta spOffset : Z) : Gen unit :=
  let! slotSize := genGetSlotSizeForRegsInMask regsMask in
  let! regStack := liftAssert (genBuildRegPairsStack regsMask []) in
  genRestoreCalleeSavedRegisterGroup_loop slotSize (rev regStack) spDelta
    spOffset 0.

Definition genRestoreCalleeSavedRegistersHelp (regsToRestoreMask : regMaskTP)
    (lowestCalleeSavedOffset spDelta : Z) : Gen unit :=
  assert (0 <=? spDelta) >>
  let regsToRestoreCount := genCountBits regsToRestoreMask in
  if regsToRestoreCount =? 0 then
    if negb (spDelta =? 0) then
      genStackPointerAdjustment compReloc spDelta REG_NA None true >> ret tt
    else ret tt
  else
    assert (Z.rem spDelta 16 =? 0) >>
    assert (regsToRestoreCount
            <=? genCountBits (N.lor RBM_CALLEE_SAVED (N.lor RBM_FP RBM_LR))) >>
    let spOffset :=
      s32 (lowestCalleeSavedOffset + u32 (regsToRestoreCount * REGSIZE_BYTES)) in
    let maskRestoreRegsFloat := N.land regsToRestoreMask RBM_ALLFLOAT in
    let maskRestoreRegsInt := N.ldiff regsToRestoreMask maskRestoreRegsFloat in
    let! spOffset :=
      (if negb (maskRestoreRegsInt =? RBM_NONE)%N then
         let spIntDelta :=
           if negb (maskRestoreRegsFloat =? RBM_NONE)%N then 0 else spDelta in
         genRestoreCalleeSavedRegisterGroup maskRestoreRegsInt spIntDelta
           spOffset >>
         ret (s32 (spOffset
                   - u32 (genCountBits maskRestoreRegsInt * REGSIZE_BYTES)))
       else ret spOffset) in
    if negb (maskRestoreRegsFloat =? RBM_NONE)%N then
      genRestoreCalleeSavedRegisterGroup maskRestoreRegsFloat spDelta spOffset
    else ret tt.

End CalleeSavedGroups.

(** ** Registers and stack slots *)

(** The registers of a mask, lowest first. *)
Fixpoint Pos_regs (p : positive) : list regNumber :=
  match p with
  | xH => [0%N]
  | xO q => map N.succ (Pos_regs q)
  | xI q => 0%N :: map N.succ (Pos_regs q)
  end.

Definition maskRegs (mask : regMaskTP) : list regNumber :=
  match mask with
  | N0 => []
  | Npos p => Pos_regs p
  end.

(** The registers of the entries of a pair list, in order. *)
Definition regsOfPair (p : RegPair) : list regNumber :=
  if (reg2 p =? REG_NA)%N then [reg1 p] else [reg1 p; reg2 p].

Definition regsOfPairs (regStack : list RegPair) : list regNumber :=
  flat_map regsOfPair regStack.

(** Consecutive eight-byte slots from [offset] up, one per register. *)
Fixpoint slotsFrom (offset : Z) (regs : list regNumber)
    : list (regNumber * Z) :=
  match regs with
  | [] => []
  | r :: rest => (r, offset) :: slotsFrom (offset + REGSIZE_BYTES) rest
  end.

(** The slots that the stores of a prolog write, as offsets from the SP
    the prolog leaves behind: a store-pair writes two adjacent slots, and
    a pre-indexed store writes at the SP it moves to. *)
Definition storeSlotsOf (e : event) : list (regNumber * Z) :=
  match e with
  | Emit (emitIns_R_R_R_I INS_stp _ r1 r2 base offset INS_OPTS_NONE) =>
      if (base =? REG_SPBASE)%N
      then [(r1, offset); (r2, offset + REGSIZE_BYTES)] else []
  | Emit (emitIns_R_R_R_I INS_stp _ r1 r2 base _ INS_OPTS_PRE_INDEX) =>
      if (base =? REG_SPBASE)%N then [(r1, 0); (r2, REGSIZE_BYTES)] else []
  | Emit (emitIns_R_R_I INS_str _ r base offset INS_OPTS_NONE) =>
      if (base =? REG_SPBASE)%N then [(r, offset)] else []
  | Emit (emitIns_R_R_I INS_str _ r base _ INS_OPTS_PRE_INDEX) =>
      if (base =? REG_SPBASE)%N then [(r, 0)] else []
  | _ => []
  end.

Definition storeSlots (t : list event) : list (regNumber * Z) :=
  flat_map storeSlotsOf t.

(** The slots that the loads of an epilog read, as offsets from the SP the
    epilog starts with: a post-indexed load reads at the SP it moves
    from. *)
Definition loadSlotsOf (e : event) : list (regNumber * Z) :=
  match e with
  | Emit (emitIns_R_R_R_I INS_ldp _ r1 r2 base offset INS_OPTS_NONE) =>
      if (base =? REG_SPBASE)%N
      then [(r1, offset); (r2, offset + REGSIZE_BYTES)] else []
  | Emit (emitIns_R_R_R_I INS_ldp _ r1 r2 base _ INS_OPTS_POST_INDEX) =>
      if (base =? REG_SPBASE)%N then [(r1, 0); (r2, REGSIZE_BYTES)] else []
  | Emit (emitIns_R_R_I INS_ldr _ r base offset INS_OPTS_NONE) =>
      if (base =? REG_SPBASE)%N then [(r, offset)] else []
  | Emit (emitIns_R_R_I INS_ldr _ r base _ INS_OPTS_POST_INDEX) =>
      if (base =? REG_SPBASE)%N then [(r, 0)] else []
  | _ => []
  end.

Definition loadSlots (t : list event) : list (regNumber * Z) :=
  flat_map loadSlotsOf t.

(** The calls that a stack-pointer adjustment can make before its
    unwind entry: the add or sub itself, with an immediate or with the
    scratch register, and what loads the scratch register. *)
Definition isSpAdjustEvent (e : event) : bool :=
  match e with
  | Emit (emitIns_R_R_I ins _ _ _ _ _) =>
      bool_decide (ins = INS_add) || bool_decide (ins = INS_sub)
  | Emit (emitIns_R_R_R ins _ _ _ _) =>
      bool_decide (ins = INS_add) || bool_decide (ins = INS_sub)
  | Emit (emitIns_R_I _ _ _ _) => true
  | Emit (emitIns_R_I_I _ _ _ _ _ _) => true
  | Emit (emitIns_R_AI _ _ _ _) => true
  | verifyRegUsed _ => true
  | Unwind unwindPadding => true
  | _ => false
  end.

(** ** What the pair list keeps of its mask *)

(** The shape of an entry: a lone register, or a register below 64 other
    than x28 with the next one, both of one class. *)
Definition pairShape (p : RegPair) : Prop :=
  (reg1 p < 64)%N
  /\ (reg2 p = REG_NA
      \/ (reg2 p = REG_NEXT (reg1 p)
          /\ reg1 p <> REG_R28
          /\ genIsValidFloatReg (reg1 p) = genIsValidFloatReg (reg2 p))).

(** What the loop of [genBuildRegPairsStack] keeps of the mask [m0] it
    started from. *)
Definition PairsCover (m0 : regMaskTP) (st : PairsLoop) : Prop :=
  regsOfPairs (pl_regStack st) ++ maskRegs (pl_regsMask st) = maskRegs m0
  /\ (pl_regsMask st < 2 ^ 64)%N
  /\ pl_regsCount st = genCountBits (pl_regsMask st)
  /\ Forall pairShape (pl_regStack st)
  /\ Forall (fun p => useSaveNextPair p = false) (pl_regStack st).


(** The stack that the unwind entries of a run account for: an allocation
    entry gives its size, and a pre-indexed save the distance by which it
    moves SP (the entry carries the negative delta of the prolog, in the
    prolog and in the epilog alike). *)
Definition unwindStackOf (e : event) : Z :=
  match e with
  | Unwind (unwindAllocStack size) => size
  | Unwind (unwindSaveRegPairPreindexed _ _ offset) => - offset
  | Unwind (unwindSaveRegPreindexed _ offset) => - offset
  | _ => 0
  end.

Definition unwindStack (t : list event) : Z :=
  fold_right (fun e acc => unwindStackOf e + acc) 0 t.

(** A generator all of whose calls, in every completed run, satisfy [P]. *)
Definition emitsOnly {A} (P : event -> Prop) (m : Gen A) : Prop :=
  forall n a t n', m n = Some (a, t, n') -> Forall P t.

(** ** Funclet prologs and epilogs *)

(** What a funclet's first block begins ([block->bbCatchTyp]); the
    prolog tells a filter from the rest. *)
Inductive CatchTyp : Type :=
| BBCT_FILTER | BBCT_FINALLY | BBCT_FAULT | BBCT_CATCH.

#[global] Instance CatchTyp_eq_dec : EqDecision CatchTyp.
Proof. solve_decision. Defined.

(** The calls of a prolog or an epilog: those of the generators above,
    and the calls that open and close the unwind region, reset the GC
    state and emit the return ([inst_RV(INS_ret, reg, TYP_I_IMPL)]). *)
Inductive frameEvent : Type :=
| Call (e : event)
| gcResetForBB
| unwindBegProlog
| unwindEndProlog
| unwindBegEpilog
| unwindEndEpilog
| unwindReturn (reg : regNumber)
| inst_RV_ret (reg : regNumber).

(** Generators of prologs and epilogs: as [Gen], over these calls. *)
Definition FrameGen (A : Type) : Type :=
  label -> option (A * list frameEvent * label).

Definition fret {A} (a : A) : FrameGen A := fun n => Some (a, [], n).

Definition fbind {A B} (m : FrameGen A) (k : A -> FrameGen B) : FrameGen B :=
  fun n =>
    match m n with
    | None => None
    | Some (a, t1, n1) =>
        match k a n1 with
        | None => None
        | Some (b, t2, n2) => Some (b, t1 ++ t2, n2)
        end
    end.

Declare Scope frame_scope.
Delimit Scope frame_scope with frame.
Notation "'let!!' x ':=' m 'in' k" := (fbind m (fun x => k))
  (at level 10, x pattern, m at level 100, k at level 200) : frame_scope.
Notation "m '>>>' k" := (fbind m (fun _ => k))
  (at level 100, k at level 200, right associativity) : frame_scope.
Local Open Scope frame_scope.

Definition ftell (e : frameEvent) : FrameGen unit :=
  fun n => Some (tt, [e], n).

Definition fassert (cond : bool) : FrameGen unit :=
  fun n => if cond then Some (tt, [], n) else None.

(** A generator of the kind above, run inside a prolog or epilog. *)
Definition call {A} (m : Gen A) : FrameGen A :=
  fun n =>
    match m n with
    | Some (a, t, n') => Some (a, map Call t, n')
    | None => None
    end.

(** Modelled from the spec: [ins_Load(TYP_I_IMPL)] and
    [ins_Store(TYP_I_IMPL)] (instr.cpp is missing) are the pointer-sized
    load and store, [ldr] and [str] in the prolog comment of the source. *)
Definition ins_Load_TYP_I_IMPL : instruction := INS_ldr.
Definition ins_Store_TYP_I_IMPL : instruction := INS_str.

Section FuncletPrologEpilog.

Context {E : Emitter}.
Variable compReloc : bool.

(** [block] is given by what the prolog reads of it: that it begins a
    funclet ([block != NULL] with [BBF_FUNCLET_BEG] set) and its
    [bbCatchTyp]; [lvaPSPSym_isUsed] is
    [compiler->lvaPSPSym != BAD_VAR_NUM].  [maskArgRegsLiveIn] is computed
    by the source and not used. *)
Definition genFuncletProlog (genFuncletInfo : FuncletFrameInfoDsc)
    (lvaPSPSym_isUsed : bool) (block_isFuncletBeg : bool)
    (bbCatchTyp : CatchTyp) : FrameGen unit :=
  let fi := genFuncletInfo in
  fassert block_isFuncletBeg >>>
  ftell gcResetForBB >>>
  ftell unwindBegProlog >>>
  let maskSaveRegsFloat := N.land (fiSaveRegs fi) RBM_ALLFLOAT in
  let maskSaveRegsInt := N.ldiff (fiSaveRegs fi) maskSaveRegsFloat in
  fassert (negb (N.land maskSaveRegsInt RBM_LR =? 0)%N) >>>
  fassert (negb (N.land maskSaveRegsInt RBM_FP =? 0)%N) >>>
  let isFilter := bool_decide (bbCatchTyp = BBCT_FILTER) in
  let!! maskSaveRegsInt :=
    (if fiFrameType fi =? 1 then
       call (emit (emitIns_R_R_R_I INS_stp EA_PTRSIZE REG_FP REG_LR REG_SPBASE
                     (fiSpDelta1 fi) INS_OPTS_PRE_INDEX)) >>>
       call (unwind (unwindSaveRegPairPreindexed REG_FP REG_LR
                       (fiSpDelta1 fi))) >>>
       let maskSaveRegsInt :=
         N.ldiff maskSaveRegsInt (N.lor RBM_LR RBM_FP) in
       fassert (fiSpDelta2 fi =? 0) >>>
       fassert (fiSP_to_FPLR_save_delta fi =? 0) >>>
       fret maskSaveRegsInt
     else if fiFrameType fi =? 2 then
       fassert (fiSpDelta1 fi <? 0) >>>
       fassert (-512 <=? fiSpDelta1 fi) >>>
       call (genStackPointerAdjustment compReloc (fiSpDelta1 fi) REG_NA None
               true) >>>
       fassert (fiSpDelta2 fi =? 0) >>>
       call (emit (emitIns_R_R_R_I INS_stp EA_PTRSIZE REG_FP REG_LR REG_SPBASE
                     (fiSP_to_FPLR_save_delta fi) INS_OPTS_NONE)) >>>
       call (unwind (unwindSaveRegPair REG_FP REG_LR
                       (fiSP_to_FPLR_save_delta fi))) >>>
       fret (N.ldiff maskSaveRegsInt (N.lor RBM_LR RBM_FP))
     else if fiFrameType fi =? 3 then
       call (emit (emitIns_R_R_R_I INS_stp EA_PTRSIZE REG_FP REG_LR REG_SPBASE
                     (fiSpDelta1 fi) INS_OPTS_PRE_INDEX)) >>>
       call (unwind (unwindSaveRegPairPreindexed REG_FP REG_LR
                       (fiSpDelta1 fi))) >>>
       fret (N.ldiff maskSaveRegsInt (N.lor RBM_LR RBM_FP))
     else if fiFrameType fi =? 4 then
       fassert (fiSpDelta1 fi <? 0) >>>
       fassert (-512 <=? fiSpDelta1 fi) >>>
       call (genStackPointerAdjustment compReloc (fiSpDelta1 fi) REG_NA None
               true) >>>
       fassert (fiSpDelta2 fi =? 0) >>>
       fret maskSaveRegsInt
     else
       fassert (fiFrameType fi =? 5) >>>
       fret maskSaveRegsInt) in
  let lowestCalleeSavedOffset :=
    s32 (fiSP_to_CalleeSave_delta fi + fiSpDelta2 fi) in
  call (genSaveCalleeSavedRegistersHelp compReloc
          (N.lor maskSaveRegsInt maskSaveRegsFloat) lowestCalleeSavedOffset
          0) >>>
  (if (fiFrameType fi =? 3) || (fiFrameType fi =? 5) then
     fassert (fiSpDelta2 fi <? 0) >>>
     call (genStackPointerAdjustment compReloc (fiSpDelta2 fi) REG_R2 None
             true) >>>
     fret tt
   else fret tt) >>>
  ftell unwindEndProlog >>>
  if lvaPSPSym_isUsed then
    if isFilter then
      call (genInstrWithConstant compReloc ins_Load_TYP_I_IMPL EA_PTRSIZE
              REG_R1 REG_R1 (fiCallerSP_to_PSP_slot_delta fi) REG_R2 false) >>>
      call (tell (verifyRegUsed REG_R1)) >>>
      call (genInstrWithConstant compReloc ins_Store_TYP_I_IMPL EA_PTRSIZE
              REG_R1 REG_SPBASE (fiSP_to_PSP_slot_delta fi) REG_R2 false) >>>
      call (genInstrWithConstant compReloc INS_add EA_PTRSIZE REG_FPBASE
              REG_R1 (fiFunction_CallerSP_to_FP_delta fi) REG_R2 false) >>>
      fret tt
    else
      call (genInstrWithConstant compReloc INS_add EA_PTRSIZE REG_R3
              REG_FPBASE (s32 (- fiFunction_CallerSP_to_FP_delta fi)) REG_R2
              false) >>>
      call (tell (verifyRegUsed REG_R3)) >>>
      call (genInstrWithConstant compReloc ins_Store_TYP_I_IMPL EA_PTRSIZE
              REG_R3 REG_SPBASE (fiSP_to_PSP_slot_delta fi) REG_R2 false) >>>
      fret tt
  else fret tt.

Definition genFuncletEpilog (genFuncletInfo : FuncletFrameInfoDsc)
    : FrameGen unit :=
  let fi := genFuncletInfo in
  ftell unwindBegEpilog >>>
  let maskRestoreRegsFloat := N.land (fiSaveRegs fi) RBM_ALLFLOAT in
  let maskRestoreRegsInt := N.ldiff (fiSaveRegs fi) maskRestoreRegsFloat in
  fassert (negb (N.land maskRestoreRegsInt RBM_LR =? 0)%N) >>>
  fassert (negb (N.land maskRestoreRegsInt RBM_FP =? 0)%N) >>>
  (if (fiFrameType fi =? 3) || (fiFrameType fi =? 5) then
     fassert (fiSpDelta2 fi <? 0) >>>
     call (genStackPointerAdjustment compReloc (s32 (- fiSpDelta2 fi)) REG_R2
             None true) >>>
     fret tt
   else fret tt) >>>
  let regsToRestoreMask := N.lor maskRestoreRegsInt maskRestoreRegsFloat in
  let regsToRestoreMask :=
    if (fiFrameType fi =? 1) || (fiFrameType fi =? 2) || (fiFrameType fi =? 3)
    then N.ldiff regsToRestoreMask (N.lor RBM_LR RBM_FP)
    else regsToRestoreMask in
  let lowestCalleeSavedOffset :=
    s32 (fiSP_to_CalleeSave_delta fi + fiSpDelta2 fi) in
  call (genRestoreCalleeSavedRegistersHelp compReloc regsToRestoreMask
          lowestCalleeSavedOffset 0) >>>
  (if fiFrameType fi =? 1 then
     call (emit (emitIns_R_R_R_I INS_ldp EA_PTRSIZE REG_FP REG_LR REG_SPBASE
                   (s32 (- fiSpDelta1 fi)) INS_OPTS_POST_INDEX)) >>>
     call (unwind (unwindSaveRegPairPreindexed REG_FP REG_LR
                     (fiSpDelta1 fi))) >>>
     fassert (fiSpDelta2 fi =? 0) >>>
     fassert (fiSP_to_FPLR_save_delta fi =? 0)
   else if fiFrameType fi =? 2 then
     call (emit (emitIns_R_R_R_I INS_ldp EA_PTRSIZE REG_FP REG_LR REG_SPBASE
                   (fiSP_to_FPLR_save_delta fi) INS_OPTS_NONE)) >>>
     call (unwind (unwindSaveRegPair REG_FP REG_LR
                     (fiSP_to_FPLR_save_delta fi))) >>>
     fassert (fiSpDelta1 fi <? 0) >>>
     fassert (-512 <=? fiSpDelta1 fi) >>>
     call (genStackPointerAdjustment compReloc (s32 (- fiSpDelta1 fi)) REG_NA
             None true) >>>
     fassert (fiSpDelta2 fi =? 0)
   else if fiFrameType fi =? 3 then
     call (emit (emitIns_R_R_R_I INS_ldp EA_PTRSIZE REG_FP REG_LR REG_SPBASE
                   (s32 (- fiSpDelta1 fi)) INS_OPTS_POST_INDEX)) >>>
     call (unwind (unwindSaveRegPairPreindexed REG_FP REG_LR
                     (fiSpDelta1 fi)))
   else if fiFrameType fi =? 4 then
     fassert (fiSpDelta1 fi <? 0) >>>
     fassert (-512 <=? fiSpDelta1 fi) >>>
     call (genStackPointerAdjustment compReloc (s32 (- fiSpDelta1 fi)) REG_NA
             None true) >>>
     fassert (fiSpDelta2 fi =? 0)
   else
     fassert (fiFrameType fi =? 5) >>>
     fassert (fiSpDelta1 fi <? 0) >>>
     fassert (-240 <=? fiSpDelta1 fi) >>>
     call (genStackPointerAdjustment compReloc (s32 (- fiSpDelta1 fi)) REG_NA
             None true) >>>
     fret tt) >>>
  ftell (inst_RV_ret REG_LR) >>>
  ftell (unwindReturn REG_LR) >>>
  ftell unwindEndEpilog.

End FuncletPrologEpilog.

(** The calls of the unwind region of a prolog or epilog: those made by
    the generators between the call that opens the region and the call
    that closes it. *)
Fixpoint unwindRegion_from (t : list frameEvent) : list event :=
  match t with
  | [] => []
  | Call e :: t' => e :: unwindRegion_from t'
  | unwindEndProlog :: _ | unwindEndEpilog :: _ => []
  | _ :: t' => unwindRegion_from t'
  end.

Fixpoint unwindRegion (t : list frameEvent) : list event :=
  match t with
  | [] => []
  | unwindBegProlog :: t' | unwindBegEpilog :: t' => unwindRegion_from t'
  | _ :: t' => unwindRegion t'
  end.

(** ** What the halfword moves leave in a register *)

(** Modelled from the spec: the effect of the three halfword moves on a
    register, kept as its sixteen-bit fields, lowest first (the instruction
    set is not part of the sources; the spec has a zero-starting and a
    one-starting form and a field-overwrite "shifted into position").  The
    comment in [instGen_Set_Reg_To_Imm] has "movk which loads into any
    halfword preserving the remaining halfwords", "movz which loads into
    any halfword zeroing the remaining halfwords" and "movn which loads
    into any halfword zeroing the remaining halfwords then bitwise
    inverting the register". *)
Definition halfwordMove (ins : instruction) (imm16 shift : Z)
    (fields : list Z) : list Z :=
  let k := Z.to_nat (shift / 16) in
  if bool_decide (ins = INS_movk) then <[k := imm16]> fields
  else if bool_decide (ins = INS_movz) then
    <[k := imm16]> (map (fun _ => 0) fields)
  else if bool_decide (ins = INS_movn) then
    map (fun h => u16 (Z.lnot h)) (<[k := imm16]> (map (fun _ => 0) fields))
  else fields.

(** The sixteen-bit fields of the low [bits] bits of [imm], lowest first. *)
Definition immFields (bits imm : Z) : list Z :=
  map (fun i => u16 (Z.shiftr imm i)) (field_shifts bits).

(** The fields of [reg] after one call: a [mov] of an immediate loads it,
    a halfword move acts as above, anything else leaves [reg] alone. *)
Definition regFieldsOf (reg : regNumber) (e : event) (fields : list Z)
    : list Z :=
  match e with
  | Emit (emitIns_R_I ins _ r imm) =>
      if bool_decide (ins = INS_mov) && (r =? reg)%N then
        immFields (16 * Z.of_nat (length fields)) imm
      else fields
  | Emit (emitIns_R_I_I ins _ r imm16 shift _) =>
      if (r =? reg)%N then halfwordMove ins imm16 shift fields else fields
  | _ => fields
  end.

(** The fields of [reg] after the calls of a run. *)
Definition regFields (reg : regNumber) (t : list event) (fields : list Z)
    : list Z :=
  fold_left (fun f e => regFieldsOf reg e f) t fields.

(** ** Traps and divides among the calls of a run *)

(** The jumps to throw-helper blocks, in the order they are made. *)
Definition throwJumps (t : list event)
    : list (emitJumpKind * SpecialCodeKind) :=
  flat_map (fun e => match e with
                     | genJumpToThrowHlpBlk jumpKind codeKind =>
                         [(jumpKind, codeKind)]
                     | _ => []
                     end) t.

(** The divide instructions, in the order they are emitted. *)
Definition divideInstructions (t : list event) : list instruction :=
  flat_map (fun e => match e with
                     | Emit (emitInsTernary ins _ _ _ _) =>
                         if bool_decide (ins = INS_sdiv)
                            || bool_decide (ins = INS_udiv)
                            || bool_decide (ins = INS_fdiv)
                         then [ins] else []
                     | _ => []
                     end) t.

(** ** Labels among the calls of a run *)

(** The labels that the branches of a run jump to. *)
Definition branchTargets (t : list event) : list label :=
  flat_map (fun e => match e with
                     | Emit (emitIns_J _ dst) => [dst]
                     | Emit (emitIns_J_R _ _ dst _) => [dst]
                     | inst_JMP _ dst => [dst]
                     | _ => []
                     end) t.

(** The labels that a run places in the instruction stream. *)
Definition definedLabels (t : list event) : list label :=
  flat_map (fun e => match e with
                     | genDefineTempLabel lbl => [lbl]
                     | _ => []
                     end) t.

(** A call that neither branches to a label nor places one. *)
Definition labelFree (e : event) : bool :=
  match e with
  | Emit (emitIns_J _ _) | Emit (emitIns_J_R _ _ _ _) | inst_JMP _ _
  | genDefineTempLabel _ => false
  | _ => true
  end.

(** A run from label counter [n] to [n'] places no label twice, branches
    only to labels it places itself, and places only labels it created. *)
Definition labelsResolved (n : label) (t : list event) (n' : label) : Prop :=
  NoDup (definedLabels t)
  /\ (forall l, In l (branchTargets t) -> In l (definedLabels t))
  /\ (forall l, In l (definedLabels t) -> (n <= l < n')%nat).

(** A generator that creates no label. *)
Definition keepsLabels {A} (m : Gen A) : Prop :=
  forall n a t n', m n = Some (a, t, n') -> n' = n.

(** ** A separate stack-pointer adjustment *)

(** [adj] is a separate adjustment of SP by [d] bytes with [ins] ([sub] in
    a prolog, [add] in an epilog), made at label counter [n]: when [d] is
    an encodable immediate, the one instruction on SP with [d] as its
    immediate; otherwise the calls that load [d] into [tmpReg] - they leave
    the fields of [d] in it, whatever it held before - then the mark of
    [tmpReg], the unwind padding and the three-register instruction on SP.
    In either case the stack-allocation unwind entry for [d] follows. *)
Definition separateSpAdjustment {E : Emitter} (compReloc : bool)
    (ins : instruction) (d : Z) (tmpReg : regNumber) (n : label)
    (adj : list event) : Prop :=
  if emitIns_valid_imm_for_add d EA_8BYTE then
    adj = [Emit (emitIns_R_R_I ins EA_PTRSIZE REG_SPBASE REG_SPBASE d
                   INS_OPTS_NONE);
           Unwind (unwindAllocStack d)]
  else
    exists load,
      instGen_Set_Reg_To_Imm compReloc EA_8BYTE tmpReg d INS_FLAGS_DONT_CARE n
      = Some (tt, load, n)
      /\ (forall init, length init = 4%nat ->
                       regFields tmpReg load init = immFields 64 d)
      /\ adj = load
               ++ [verifyRegUsed tmpReg; Unwind unwindPadding;
                   Emit (emitIns_R_R_R ins EA_PTRSIZE REG_SPBASE REG_SPBASE
                           tmpReg);
                   Unwind (unwindAllocStack d)].
(** ** Reasoning about runs of generators *)

Lemma bind_inv {A B} (m : Gen A) (k : A -> Gen B) n b t n' :
  bind m k n = Some (b, t, n') ->
  exists a t1 n1 t2,
    m n = Some (a, t1, n1) /\ k a n1 = Some (b, t2, n') /\ t = t1 ++ t2.
Proof.
  unfold bind. destruct (m n) as [[[a t1] n1]|]; [|discriminate].
  destruct (k a n1) as [[[b' t2] n2]|] eqn:Hk; [|discriminate].
  intros [= -> <- ->]. eauto 10.
Qed.

Lemma bind_run {A B} (m : Gen A) (k : A -> Gen B) n a t1 n1 :
  m n = Some (a, t1, n1) ->
  bind m k n =
    match k a n1 with
    | Some (b, t2, n2) => Some (b, t1 ++ t2, n2)
    | None => None
    end.
Proof. unfold bind. intros ->. reflexivity. Qed.

Lemma bind_fail {A B} (m : Gen A) (k : A -> Gen B) n :
  m n = None -> bind m k n = None.
Proof. unfold bind. intros ->. reflexivity. Qed.

Lemma assert_inv cond n u t n' :
  assert cond n = Some (u, t, n') -> cond = true /\ t = [] /\ n' = n.
Proof. unfold assert. destruct cond; [intros [= <- <- <-]; auto | discriminate]. Qed.

Lemma ret_inv {A} (a : A) n b t n' :
  ret a n = Some (b, t, n') -> b = a /\ t = [] /\ n' = n.
Proof. unfold ret. intros [= <- <- <-]; auto. Qed.

Lemma tell_inv e n u t n' :
  tell e n = Some (u, t, n') -> t = [e] /\ n' = n.
Proof. unfold tell. intros [= <- <- <-]; auto. Qed.

(** ** The value returned by [genInstrWithConstant] *)

(** What [genInstrWithConstant] has done by the time it returns. *)
Lemma genInstrWithConstant_calls
    {E : Emitter} (compReloc : bool) (ins : instruction) (attr : emitAttr)
    (reg1 reg2 : regNumber) (imm : Z) (tmpReg : regNumber)
    (inUnwindRegion : bool) (n : label) (b : bool) (t : list event)
    (n' : label) :
  genInstrWithConstant compReloc ins attr reg1 reg2 imm tmpReg
    inUnwindRegion n = Some (b, t, n') ->
  (b = true ->
   exists ins' imm',
     t = [Emit (emitIns_R_R_I ins' attr reg1 reg2 imm' INS_OPTS_NONE)])
  /\
  (b = false ->
   tmpReg <> REG_NA /\
   exists ins' pre,
     In (verifyRegUsed tmpReg) pre /\
     t = pre ++ [Emit (emitIns_R_R_R ins' attr reg1 reg2 tmpReg)]).
Proof.
  unfold genInstrWithConstant. intros H.
  apply bind_inv in H as (u & t0 & n0 & t1 & Ha & H & ->).
  apply assert_inv in Ha as (_ & -> & ->).
  apply bind_inv in H as ([[ins' imm'] fits] & t2 & n2 & t3 & Hsw & H & ->).
  assert (t2 = []) as ->.
  { clear H. destruct ins; simpl in Hsw;
      try destruct (imm <? 0);
      unfold bind, ret, assert in Hsw; simpl in Hsw;
      try destruct (negb (tmpReg =? reg1)%N); simpl in Hsw;
      congruence. }
  apply bind_inv in H as (u' & t4 & n4 & t5 & Hbody & H & ->).
  apply ret_inv in H as (-> & -> & ->).
  destruct fits.
  - split; [intros _|discriminate].
    apply tell_inv in Hbody as (-> & ->). simpl. eauto.
  - split; [discriminate|intros _].
    apply bind_inv in Hbody as (u1 & s1 & m1 & s2 & Hna & Hbody & ->).
    apply assert_inv in Hna as (Hna & -> & ->).
    apply bind_inv in Hbody as (u2 & s3 & m3 & s4 & Hset & Hbody & ->).
    apply bind_inv in Hbody as (u3 & s5 & m5 & s6 & Hv & Hbody & ->).
    apply tell_inv in Hv as (-> & ->).
    apply bind_inv in Hbody as (u4 & s7 & m7 & s8 & Hpad & Hbody & ->).
    apply tell_inv in Hbody as (-> & ->).
    split.
    + apply negb_true_iff, N.eqb_neq in Hna. exact Hna.
    + exists ins', (s3 ++ [verifyRegUsed tmpReg] ++ s7). split.
      * apply in_or_app. right. left. reflexivity.
      * simpl. rewrite !app_nil_r.
        rewrite <- !app_assoc. reflexivity.
Qed.

(** C2.  The claim has the returned boolean true exactly when the fallback
    through the scratch register was taken.  The code returns
    [immFitsInIns]: whenever [genInstrWithConstant] completes, it returns
    [true] only after emitting the single instruction with the immediate
    embedded ([tmpReg] is not touched), and [false] only after the
    fallback that loads [tmpReg] and emits the three-register form.  This
    is the opposite of the header comment of the function and of what
    [genStackPointerAdjustment] does with the value. *)
Theorem genInstrWithConstant_returns_immFitsInIns
    {E : Emitter} (compReloc : bool) (ins : instruction) (attr : emitAttr)
    (reg1 reg2 : regNumber) (imm : Z) (tmpReg : regNumber)
    (inUnwindRegion : bool) (n : label) (b : bool) (t : list event)
    (n' : label) :
  genInstrWithConstant compReloc ins attr reg1 reg2 imm tmpReg
    inUnwindRegion n = Some (b, t, n') ->
  (b = true ->
   exists ins' imm',
     t = [Emit (emitIns_R_R_I ins' attr reg1 reg2 imm' INS_OPTS_NONE)])
  /\
  (b = false ->
   tmpReg <> REG_NA /\
   exists ins' pre,
     In (verifyRegUsed tmpReg) pre /\
     t = pre ++ [Emit (emitIns_R_R_R ins' attr reg1 reg2 tmpReg)]).
Proof. apply genInstrWithConstant_calls. Qed.

(** The run of C2's failing input: the immediate [-16] of a prolog
    SP adjustment fits, no scratch register is supplied, one [sub] is
    emitted, and the call returns [true]. *)
Lemma genInstrWithConstant_returns_immFitsInIns_witness :
  genInstrWithConstant (E := Arm64Emitter.emitter) false INS_add EA_PTRSIZE
    REG_SPBASE REG_SPBASE (-16) REG_NA true 0%nat
  = Some (true,
          [Emit (emitIns_R_R_I INS_sub EA_PTRSIZE REG_SPBASE REG_SPBASE 16
                   INS_OPTS_NONE)], 0%nat)
  /\
  ((true = true ->
    exists ins' imm',
      [Emit (emitIns_R_R_I INS_sub EA_PTRSIZE REG_SPBASE REG_SPBASE 16
               INS_OPTS_NONE)]
      = [Emit (emitIns_R_R_I ins' EA_PTRSIZE REG_SPBASE REG_SPBASE imm'
                 INS_OPTS_NONE)])
   /\
   (true = false ->
    REG_NA <> REG_NA /\
    exists ins' pre,
      In (verifyRegUsed REG_NA) pre /\
      [Emit (emitIns_R_R_I INS_sub EA_PTRSIZE REG_SPBASE REG_SPBASE 16
               INS_OPTS_NONE)]
      = pre ++ [Emit (emitIns_R_R_R ins' EA_PTRSIZE REG_SPBASE REG_SPBASE
                        REG_NA)])).
Proof.
  split; [reflexivity|].
  apply (genInstrWithConstant_returns_immFitsInIns (E := Arm64Emitter.emitter)
           false INS_add EA_PTRSIZE REG_SPBASE REG_SPBASE (-16) REG_NA true
           0%nat true _ 0%nat).
  reflexivity.
Defined.

(** ** Constant materialization *)

Lemma instructionCount_app (t1 t2 : list event) :
  instructionCount (t1 ++ t2) = (instructionCount t1 + instructionCount t2)%nat.
Proof. induction t1 as [|e t1 IH]; simpl; [reflexivity|rewrite IH; lia]. Qed.

Lemma allocStackEntries_app (t1 t2 : list event) :
  allocStackEntries (t1 ++ t2) = allocStackEntries t1 ++ allocStackEntries t2.
Proof. unfold allocStackEntries. apply flat_map_app. Qed.

Section SetRegToImm.

Context {E : Emitter}.
Variable compReloc : bool.

Lemma movk_loop_run size reg imm skipVal shifts ins n :
  exists t,
    movk_loop size reg imm skipVal shifts ins n
    = Some (if (fieldsToWrite imm skipVal shifts =? 0)%nat then ins else INS_movk,
            t, n)
    /\ instructionCount t = fieldsToWrite imm skipVal shifts
    /\ allocStackEntries t = [].
Proof.
  revert ins. induction shifts as [|i rest IH]; intros ins.
  - exists []. simpl. auto.
  - unfold fieldsToWrite in *. simpl.
    destruct (negb (u16 (Z.shiftr imm i) =? skipVal)) eqn:Hne; simpl.
    + destruct (IH INS_movk) as (t & Hrun & Hcnt & Hal).
      eexists. split; [|split].
      * erewrite bind_run by reflexivity. rewrite Hrun.
        destruct (_ =? 0)%nat; reflexivity.
      * simpl. rewrite Hcnt. reflexivity.
      * simpl. exact Hal.
    + apply IH.
Qed.

Lemma preferMovn_loop_spec imm shifts acc :
  preferMovn_loop imm shifts acc
  = acc + Z.of_nat (length shifts - fieldsToWrite imm 0xffff shifts)
        - Z.of_nat (length shifts - fieldsToWrite imm 0 shifts).
Proof.
  revert acc. unfold fieldsToWrite.
  induction shifts as [|i rest IH]; intros acc; simpl; [lia|].
  rewrite IH. clear IH.
  pose proof (List.filter_length_le
                (fun i => negb (u16 (Z.shiftr imm i) =? 65535)) rest) as H1.
  pose proof (List.filter_length_le
                (fun i => negb (u16 (Z.shiftr imm i) =? 0)) rest) as H2.
  destruct (u16 (Z.shiftr imm i) =? 65535) eqn:Hf; simpl.
  - apply Z.eqb_eq in Hf. rewrite Hf. simpl. lia.
  - destruct (u16 (Z.shiftr imm i) =? 0) eqn:Hz; simpl; lia.
Qed.

Lemma fieldsToWrite_rev imm skipVal shifts :
  fieldsToWrite imm skipVal (rev shifts) = fieldsToWrite imm skipVal shifts.
Proof.
  unfold fieldsToWrite. induction shifts as [|i rest IH]; simpl; [reflexivity|].
  rewrite List.filter_app, length_app, IH. simpl.
  destruct (negb _); simpl; lia.
Qed.

Lemma fieldsToWrite_le imm skipVal shifts :
  (fieldsToWrite imm skipVal shifts <= length shifts)%nat.
Proof. apply List.filter_length_le. Qed.

(** The choice between [movn] and [movz] realises the smaller count. *)
Lemma fieldsToWrite_chosen imm shifts :
  let preferMovn := preferMovn_loop imm (rev shifts) 0 in
  fieldsToWrite imm (if 0 <? preferMovn then 0xffff else 0) shifts
  = Nat.min (fieldsToWrite imm 0 shifts) (fieldsToWrite imm 0xffff shifts).
Proof.
  simpl. rewrite preferMovn_loop_spec, !fieldsToWrite_rev, length_rev.
  pose proof (fieldsToWrite_le imm 0 shifts).
  pose proof (fieldsToWrite_le imm 0xffff shifts).
  destruct (0 <? _) eqn:Hp; [apply Z.ltb_lt in Hp|apply Z.ltb_ge in Hp]; lia.
Qed.

(** The multi-instruction path, run to its end. *)
Lemma instGen_Set_Reg_To_Imm_movk_run size reg imm flags n :
  genIsValidFloatReg reg = false ->
  size = EA_4BYTE \/ size = EA_8BYTE ->
  imm <> 0 ->
  emitIns_valid_imm_for_mov imm size = false ->
  (0 < fewestNonSentinelFields (bitsOf size) imm)%nat ->
  exists t,
    instGen_Set_Reg_To_Imm compReloc size reg imm flags n = Some (tt, t, n)
    /\ instructionCount t
       = (fewestNonSentinelFields (bitsOf size) imm + tstCount flags)%nat
    /\ allocStackEntries t = [].
Proof.
  intros Hreg Hsize Himm Hmov Hpos.
  unfold instGen_Set_Reg_To_Imm. rewrite Hreg. simpl negb.
  assert (Hstrip : (if negb compReloc then EA_SIZE size else size) = size).
  { destruct Hsize as [-> | ->]; destruct compReloc; reflexivity. }
  rewrite Hstrip.
  assert (Hrel : EA_IS_RELOC size = false)
    by (destruct Hsize as [-> | ->]; reflexivity).
  rewrite Hrel.
  apply Z.eqb_neq in Himm. rewrite Himm, Hmov.
  fold (bitsOf size).
  pose proof (fieldsToWrite_chosen imm (field_shifts (bitsOf size))) as Hch.
  simpl in Hch.
  set (preferMovn := preferMovn_loop imm (rev (field_shifts (bitsOf size))) 0) in *.
  set (skipVal := if 0 <? preferMovn then 65535 else 0) in *.
  destruct (movk_loop_run size reg imm skipVal (field_shifts (bitsOf size))
              (if 0 <? preferMovn then INS_movn else INS_movz) n)
    as (t & Hrun & Hcnt & Hal).
  change (Nat.min _ _) with (fewestNonSentinelFields (bitsOf size) imm) in Hch.
  rewrite Hch in Hrun, Hcnt.
  destruct (fewestNonSentinelFields (bitsOf size) imm =? 0)%nat eqn:Hz;
    [apply Nat.eqb_eq in Hz; lia|].
  exists (t ++ (if bool_decide (flags = INS_FLAGS_SET)
                then [Emit (emitIns_R_I INS_tst size reg 0)] else [])
            ++ [verifyRegUsed reg]).
  split; [|split].
  - unfold bind at 1. simpl.
    unfold bind at 1. unfold bind at 1. unfold bind at 1. rewrite Hrun.
    simpl. unfold tstCount.
    destruct (bool_decide (flags = INS_FLAGS_SET)); simpl;
      rewrite ?app_nil_r, <- ?app_assoc; reflexivity.
  - rewrite !instructionCount_app, Hcnt. unfold tstCount.
    destruct (bool_decide (flags = INS_FLAGS_SET)); simpl; lia.
  - rewrite !allocStackEntries_app, Hal.
    destruct (bool_decide (flags = INS_FLAGS_SET)); reflexivity.
Qed.

End SetRegToImm.

Lemma field_shifts_64 : field_shifts 64 = [0; 16; 32; 48].
Proof. reflexivity. Qed.

Lemma field_shifts_32 : field_shifts 32 = [0; 16].
Proof. reflexivity. Qed.

Lemma u16_shiftr (imm i : Z) :
  0 <= i -> u16 (Z.shiftr imm i) = (imm / 2 ^ i) mod 2 ^ 16.
Proof.
  intros Hi. unfold u16. change 65535 with (Z.ones 16).
  rewrite Z.land_ones by lia. rewrite Z.shiftr_div_pow2 by lia. reflexivity.
Qed.

Lemma fieldsToWrite_none (imm s : Z) (shifts : list Z) :
  fieldsToWrite imm s shifts = 0%nat ->
  Forall (fun i => u16 (Z.shiftr imm i) = s) shifts.
Proof.
  unfold fieldsToWrite. induction shifts as [|i rest IH]; simpl; [constructor|].
  destruct (u16 (Z.shiftr imm i) =? s) eqn:Heq; simpl; [|discriminate].
  intros H. constructor; [apply Z.eqb_eq, Heq|apply IH, H].
Qed.

(** A 64-bit value all of whose fields equal [s] is [s] repeated. *)
Lemma nonSentinelFields_none_64 (imm s : Z) :
  in_s64 imm ->
  nonSentinelFields 64 imm s = 0%nat ->
  imm = s + 2 ^ 16 * s + 2 ^ 32 * s + 2 ^ 48 * s
  \/ imm = s + 2 ^ 16 * s + 2 ^ 32 * s + 2 ^ 48 * s - 2 ^ 64.
Proof.
  unfold in_s64, nonSentinelFields. intros Hr H.
  apply fieldsToWrite_none in H. rewrite field_shifts_64 in H.
  inversion_clear H as [|? ? A0 H']. inversion_clear H' as [|? ? A1 H].
  inversion_clear H as [|? ? A2 H']. inversion_clear H' as [|? ? A3 _].
  rewrite u16_shiftr in A0, A1, A2, A3 by lia.
  change (2 ^ 0) with 1 in A0. rewrite Z.div_1_r in A0.
  assert (imm / 2 ^ 32 = imm / 2 ^ 16 / 2 ^ 16) as D2
    by (rewrite Z.div_div by lia; reflexivity).
  assert (imm / 2 ^ 48 = imm / 2 ^ 16 / 2 ^ 16 / 2 ^ 16) as D3
    by (rewrite !Z.div_div by lia; reflexivity).
  rewrite D2 in A2. rewrite D3 in A3. clear D2 D3.
  set (q1 := imm / 2 ^ 16) in *. set (q2 := q1 / 2 ^ 16) in *.
  set (q3 := q2 / 2 ^ 16) in *.
  pose proof (Z.div_mod imm (2 ^ 16) ltac:(lia)) as E0.
  pose proof (Z.div_mod q1 (2 ^ 16) ltac:(lia)) as E1.
  pose proof (Z.div_mod q2 (2 ^ 16) ltac:(lia)) as E2.
  pose proof (Z.div_mod q3 (2 ^ 16) ltac:(lia)) as E3.
  pose proof (Z.mod_pos_bound q3 (2 ^ 16) ltac:(lia)) as B3.
  fold q1 in E0. fold q2 in E1. fold q3 in E2.
  rewrite A0 in E0. rewrite A1 in E1. rewrite A2 in E2. rewrite A3 in E3, B3.
  clear A0 A1 A2 A3.
  assert (q3 / 2 ^ 16 = 0 \/ q3 / 2 ^ 16 = -1) as Hq by lia.
  destruct Hq as [Hq|Hq]; rewrite Hq in E3; lia.
Qed.

Lemma fewestNonSentinelFields_pos_64 (imm : Z) :
  in_s64 imm -> imm <> 0 -> imm <> -1 ->
  (0 < fewestNonSentinelFields 64 imm)%nat.
Proof.
  intros Hr H0 H1. unfold fewestNonSentinelFields.
  destruct (nonSentinelFields 64 imm 0) eqn:Hz.
  { apply nonSentinelFields_none_64 in Hz; [|assumption].
    unfold in_s64 in Hr. lia. }
  destruct (nonSentinelFields 64 imm 65535) eqn:Hf.
  { apply nonSentinelFields_none_64 in Hf; [|assumption].
    unfold in_s64 in Hr. lia. }
  simpl. lia.
Qed.

Lemma nonSentinelFields_none_32 (imm s : Z) :
  nonSentinelFields 32 imm s = 0%nat ->
  imm mod 2 ^ 32 = s + 2 ^ 16 * s.
Proof.
  unfold nonSentinelFields. intros H.
  apply fieldsToWrite_none in H. rewrite field_shifts_32 in H.
  inversion_clear H as [|? ? A0 H']. inversion_clear H' as [|? ? A1 _].
  rewrite u16_shiftr in A0, A1 by lia.
  change (2 ^ 0) with 1 in A0. rewrite Z.div_1_r in A0.
  Z.div_mod_to_equations. lia.
Qed.

Lemma fewestNonSentinelFields_pos_32 (imm : Z) :
  imm mod 2 ^ 32 <> 0 -> imm mod 2 ^ 32 <> 2 ^ 32 - 1 ->
  (0 < fewestNonSentinelFields 32 imm)%nat.
Proof.
  intros H0 H1. unfold fewestNonSentinelFields.
  destruct (nonSentinelFields 32 imm 0) eqn:Hz.
  { apply nonSentinelFields_none_32 in Hz. lia. }
  destruct (nonSentinelFields 32 imm 65535) eqn:Hf.
  { apply nonSentinelFields_none_32 in Hf. lia. }
  simpl. lia.
Qed.

(** C3, as amended.  For a 32-bit or 64-bit operand size and an integer
    destination register, [instGen_Set_Reg_To_Imm] completes and emits: for
    the value 0, exactly one instruction; for a nonzero value that does
    not fit a single mov and has a field that is not a sentinel, as many
    instructions as there are non-sentinel sixteen-bit fields under the
    sentinel (0x0000 for a movz start, 0xFFFF for a movn start) that
    leaves fewer of them - the initial movz/movn writes the first such
    field and each further one takes a movk - plus the [tst] when the flags
    are requested.  The claim's count is one more than this. *)
Theorem instGen_Set_Reg_To_Imm_instruction_count
    {E : Emitter} (compReloc : bool) (size : emitAttr) (reg : regNumber)
    (imm : Z) (flags : insFlags) (n : label) :
  genIsValidFloatReg reg = false ->
  size = EA_4BYTE \/ size = EA_8BYTE ->
  imm = 0
  \/ (emitIns_valid_imm_for_mov imm size = false
      /\ (0 < fewestNonSentinelFields (bitsOf size) imm)%nat) ->
  exists t,
    instGen_Set_Reg_To_Imm compReloc size reg imm flags n = Some (tt, t, n)
    /\ instructionCount t
       = if imm =? 0 then 1%nat
         else (fewestNonSentinelFields (bitsOf size) imm + tstCount flags)%nat.
Proof.
  intros Hreg Hsize [-> | [Hmov Hpos]].
  - exists [Emit (emitIns_R_I INS_mov size reg 0); verifyRegUsed reg].
    split; [|reflexivity].
    unfold instGen_Set_Reg_To_Imm. rewrite Hreg.
    destruct Hsize as [-> | ->]; destruct compReloc; reflexivity.
  - destruct (Z.eq_dec imm 0) as [->|Hne].
    { exfalso. revert Hpos. destruct Hsize as [-> | ->]; vm_compute; lia. }
    destruct (instGen_Set_Reg_To_Imm_movk_run compReloc size reg imm flags n
                Hreg Hsize Hne Hmov Hpos) as (t & Hrun & Hcnt & _).
    exists t. split; [exact Hrun|].
    apply Z.eqb_neq in Hne. rewrite Hne. exact Hcnt.
Qed.

Lemma instGen_Set_Reg_To_Imm_instruction_count_witness :
  (genIsValidFloatReg REG_R0 = false
   /\ (EA_4BYTE = EA_4BYTE \/ EA_4BYTE = EA_8BYTE)
   /\ (0x12345678 = 0
       \/ (emitIns_valid_imm_for_mov (Emitter := Arm64Emitter.emitter)
             0x12345678 EA_4BYTE = false
           /\ (0 < fewestNonSentinelFields (bitsOf EA_4BYTE) 0x12345678)%nat)))
  /\ exists t,
       instGen_Set_Reg_To_Imm (E := Arm64Emitter.emitter) false EA_4BYTE REG_R0
         0x12345678 INS_FLAGS_DONT_CARE 0%nat = Some (tt, t, 0%nat)
       /\ instructionCount t
          = if 0x12345678 =? 0 then 1%nat
            else (fewestNonSentinelFields (bitsOf EA_4BYTE) 0x12345678
                  + tstCount INS_FLAGS_DONT_CARE)%nat.
Proof.
  assert (H1 : genIsValidFloatReg REG_R0 = false) by reflexivity.
  assert (H2 : EA_4BYTE = EA_4BYTE \/ EA_4BYTE = EA_8BYTE) by (left; reflexivity).
  assert (H3 : 0x12345678 = 0
               \/ (emitIns_valid_imm_for_mov (Emitter := Arm64Emitter.emitter)
                     0x12345678 EA_4BYTE = false
                   /\ (0 < fewestNonSentinelFields (bitsOf EA_4BYTE)
                             0x12345678)%nat)).
  { right. split; [reflexivity|vm_compute; lia]. }
  split; [auto|].
  exact (instGen_Set_Reg_To_Imm_instruction_count
           (E := Arm64Emitter.emitter) false EA_4BYTE REG_R0 0x12345678
           INS_FLAGS_DONT_CARE 0%nat H1 H2 H3).
Defined.

(** C3 as stated fails: 0x12345678 does not fit a single mov, both of its
    fields are non-sentinel under either choice, and two instructions
    ([movz], [movk]) are emitted, not 1 + 2. *)
Lemma instGen_Set_Reg_To_Imm_count_counterexample :
  emitIns_valid_imm_for_mov (Emitter := Arm64Emitter.emitter)
    0x12345678 EA_4BYTE = false
  /\ fewestNonSentinelFields 32 0x12345678 = 2%nat
  /\ exists t,
       instGen_Set_Reg_To_Imm (E := Arm64Emitter.emitter) false EA_4BYTE REG_R0
         0x12345678 INS_FLAGS_DONT_CARE 0%nat = Some (tt, t, 0%nat)
       /\ instructionCount t = 2%nat
       /\ instructionCount t
          <> (1 + fewestNonSentinelFields 32 0x12345678)%nat.
Proof.
  split; [reflexivity|]. split; [reflexivity|].
  eexists. split; [reflexivity|]. split; [reflexivity|].
  vm_compute. lia.
Qed.

(** ** Wrap-around of machine integers *)

Lemma u32_small (x : Z) : in_u32 x -> u32 x = x.
Proof. unfold in_u32, u32. intros H. apply Z.mod_small. lia. Qed.

Lemma s32_small (x : Z) : in_s32 x -> s32 x = x.
Proof. unfold in_s32, s32. intros H. rewrite Z.mod_small; lia. Qed.

Lemma s64_small (x : Z) : in_s64 x -> s64 x = x.
Proof. unfold in_s64, s64. intros H. rewrite Z.mod_small; lia. Qed.

Lemma u32_range (x : Z) : in_u32 (u32 x).
Proof. unfold in_u32, u32. apply Z.mod_pos_bound. lia. Qed.

(** ** The stack-pointer adjustment *)

Section StackPointerAdjustment.

Context {E : Emitter}.
Variable compReloc : bool.

Lemma instGen_Set_Reg_To_Imm_no_alloc size reg imm flags n u t n' :
  instGen_Set_Reg_To_Imm compReloc size reg imm flags n = Some (u, t, n') ->
  allocStackEntries t = [] /\ n' = n.
Proof.
  unfold instGen_Set_Reg_To_Imm. intros H.
  apply bind_inv in H as (u0 & t0 & n0 & t1 & Ha & H & ->).
  apply assert_inv in Ha as (_ & -> & ->).
  apply bind_inv in H as (u1 & t2 & n2 & t3 & H & Hv & ->).
  apply tell_inv in Hv as (-> & ->).
  rewrite !allocStackEntries_app. simpl.
  enough (allocStackEntries t2 = [] /\ n2 = n) as [-> ->] by auto.
  set (sz := if negb compReloc then EA_SIZE size else size) in *.
  destruct (EA_IS_RELOC sz).
  { apply tell_inv in H as (-> & ->). auto. }
  destruct (imm =? 0).
  { apply tell_inv in H as (-> & ->). auto. }
  apply bind_inv in H as (u2 & t4 & n4 & t5 & H & Hf & ->).
  assert (allocStackEntries t5 = [] /\ n2 = n4) as [Ht5 ->].
  { destruct (bool_decide (flags = INS_FLAGS_SET)).
    - apply tell_inv in Hf as (-> & ->). auto.
    - apply ret_inv in Hf as (_ & -> & ->). auto. }
  rewrite allocStackEntries_app, Ht5, app_nil_r.
  destruct (emitIns_valid_imm_for_mov imm sz).
  { apply tell_inv in H as (-> & ->). auto. }
  apply bind_inv in H as (ins' & t6 & n6 & t7 & H & Hk & ->).
  apply assert_inv in Hk as (_ & -> & ->).
  match type of H with
  | movk_loop ?a ?b ?c ?d ?e ?f ?g = _ =>
      destruct (movk_loop_run a b c d e f g) as (t' & Hrun & _ & Hal)
  end.
  rewrite Hrun in H. injection H as _ <- <-.
  rewrite app_nil_r. auto.
Qed.

Lemma genInstrWithConstant_no_alloc ins attr reg1 reg2 imm tmpReg inUnwind
    n b t n' :
  genInstrWithConstant compReloc ins attr reg1 reg2 imm tmpReg inUnwind n
  = Some (b, t, n') ->
  allocStackEntries t = [] /\ n' = n.
Proof.
  unfold genInstrWithConstant. intros H.
  apply bind_inv in H as (u & t0 & n0 & t1 & Ha & H & ->).
  apply assert_inv in Ha as (_ & -> & ->).
  apply bind_inv in H as ([[ins' imm'] fits] & t2 & n2 & t3 & Hsw & H & ->).
  assert (t2 = [] /\ n2 = n) as [-> ->].
  { clear H. destruct ins; simpl in Hsw;
      try destruct (imm <? 0);
      unfold bind, ret, assert in Hsw; simpl in Hsw;
      try destruct (negb (tmpReg =? reg1)%N); simpl in Hsw;
      split; congruence. }
  apply bind_inv in H as (u' & t4 & n4 & t5 & Hbody & H & ->).
  apply ret_inv in H as (-> & -> & ->).
  destruct fits.
  - apply tell_inv in Hbody as (-> & ->). auto.
  - apply bind_inv in Hbody as (u1 & s1 & m1 & s2 & Hna & Hbody & ->).
    apply assert_inv in Hna as (Hna & -> & ->).
    apply bind_inv in Hbody as (u2 & s3 & m3 & s4 & Hset & Hbody & ->).
    apply instGen_Set_Reg_To_Imm_no_alloc in Hset as (Hs3 & ->).
    apply bind_inv in Hbody as (u3 & s5 & m5 & s6 & Hv & Hbody & ->).
    apply tell_inv in Hv as (-> & ->).
    apply bind_inv in Hbody as (u4 & s7 & m7 & s8 & Hpad & Hbody & ->).
    apply tell_inv in Hbody as (-> & ->).
    assert (allocStackEntries s7 = [] /\ m7 = n) as [Hs7 ->].
    { destruct inUnwind.
      - apply tell_inv in Hpad as (-> & ->). auto.
      - apply ret_inv in Hpad as (_ & -> & ->). auto. }
    rewrite !allocStackEntries_app, Hs3, Hs7. auto.
Qed.

Lemma genStackPointerAdjustment_run (spDelta : Z) (tmpReg : regNumber)
    (pTmpRegIsZero : option bool) (n : label) (r : bool) (t : list event)
    (n' : label) :
  in_s64 spDelta ->
  genInstrWithConstant compReloc INS_add EA_PTRSIZE REG_SPBASE REG_SPBASE
    spDelta tmpReg true n = Some (r, t, n') ->
  genStackPointerAdjustment compReloc spDelta tmpReg pTmpRegIsZero true n
  = if Z.abs spDelta <? 2 ^ 32 then
      Some (tmpRegIsZeroAfter r pTmpRegIsZero,
            t ++ [Unwind (unwindAllocStack (Z.abs spDelta))], n')
    else None.
Proof.
  intros Hr H. unfold genStackPointerAdjustment.
  rewrite (bind_run _ _ _ _ _ _ H).
  destruct (Z.abs spDelta <? 2 ^ 32) eqn:Habs;
    [apply Z.ltb_lt in Habs|apply Z.ltb_ge in Habs].
  - rewrite (s64_small (Z.abs spDelta)) by (unfold in_s64 in *; lia).
    rewrite u32_small by (unfold in_u32; lia).
    rewrite Z.eqb_refl. unfold bind, assert, unwind, tell, ret. simpl.
    unfold tmpRegIsZeroAfter. rewrite ?app_nil_r. reflexivity.
  - assert (Hne : (u32 (s64 (Z.abs spDelta)) =? s64 (Z.abs spDelta)) = false).
    { apply Z.eqb_neq. intros Heq.
      destruct (Z.eq_dec spDelta (- 2 ^ 63)) as [->|Hmin].
      + vm_compute in Heq. discriminate.
      + pose proof (u32_range (s64 (Z.abs spDelta))) as Hu.
        rewrite Heq in Hu. unfold in_u32 in Hu.
        rewrite s64_small in Hu by (unfold in_s64 in *; lia). lia. }
    rewrite Hne. reflexivity.
Qed.

(** C8.  With unwind reporting on, and once the add/sub itself has been
    emitted ([genInstrWithConstant] completes with calls [t], none of which
    is a stack-allocation entry), [genStackPointerAdjustment] completes
    exactly when the absolute value of the delta fits in an [unsigned];
    the one stack-allocation entry it then records, last, is that absolute
    value, whatever the sign of the delta. *)
Theorem genStackPointerAdjustment_unwind_abs (spDelta : Z)
    (tmpReg : regNumber) (pTmpRegIsZero : option bool) (n : label)
    (r : bool) (t : list event) (n' : label) :
  in_s64 spDelta ->
  genInstrWithConstant compReloc INS_add EA_PTRSIZE REG_SPBASE REG_SPBASE
    spDelta tmpReg true n = Some (r, t, n') ->
  allocStackEntries t = []
  /\ (Z.abs spDelta < 2 ^ 32 ->
      genStackPointerAdjustment compReloc spDelta tmpReg pTmpRegIsZero true n
      = Some (tmpRegIsZeroAfter r pTmpRegIsZero,
              t ++ [Unwind (unwindAllocStack (Z.abs spDelta))], n'))
  /\ (2 ^ 32 <= Z.abs spDelta ->
      genStackPointerAdjustment compReloc spDelta tmpReg pTmpRegIsZero true n
      = None).
Proof.
  intros Hr H. split; [eapply genInstrWithConstant_no_alloc, H|].
  rewrite (genStackPointerAdjustment_run _ _ _ _ _ _ _ Hr H).
  split; intros Habs.
  - apply Z.ltb_lt in Habs. rewrite Habs. reflexivity.
  - apply Z.ltb_ge in Habs. rewrite Habs. reflexivity.
Qed.

End StackPointerAdjustment.

Lemma genStackPointerAdjustment_unwind_abs_witness :
  (in_s64 (-0x12345678)
   /\ genInstrWithConstant (E := Arm64Emitter.emitter) false INS_add EA_PTRSIZE
        REG_SPBASE REG_SPBASE (-0x12345678) REG_IP0 true 0%nat
      = Some (false,
              [Emit (emitIns_R_I_I INS_movz EA_8BYTE REG_IP0 0x5678 0 INS_OPTS_LSL);
               Emit (emitIns_R_I_I INS_movk EA_8BYTE REG_IP0 0x1234 16 INS_OPTS_LSL);
               verifyRegUsed REG_IP0; verifyRegUsed REG_IP0;
               Unwind unwindPadding;
               Emit (emitIns_R_R_R INS_sub EA_PTRSIZE REG_SPBASE REG_SPBASE
                       REG_IP0)], 0%nat))
  /\ genStackPointerAdjustment (E := Arm64Emitter.emitter) false (-0x12345678)
       REG_IP0 None true 0%nat
     = Some (None,
             [Emit (emitIns_R_I_I INS_movz EA_8BYTE REG_IP0 0x5678 0 INS_OPTS_LSL);
              Emit (emitIns_R_I_I INS_movk EA_8BYTE REG_IP0 0x1234 16 INS_OPTS_LSL);
              verifyRegUsed REG_IP0; verifyRegUsed REG_IP0;
              Unwind unwindPadding;
              Emit (emitIns_R_R_R INS_sub EA_PTRSIZE REG_SPBASE REG_SPBASE
                      REG_IP0)]
             ++ [Unwind (unwindAllocStack (Z.abs (-0x12345678)))], 0%nat).
Proof.
  assert (H1 : in_s64 (-0x12345678)) by (unfold in_s64; lia).
  split; [split; [exact H1|reflexivity]|].
  refine (proj1 (proj2 (genStackPointerAdjustment_unwind_abs
                          (E := Arm64Emitter.emitter) false (-0x12345678)
                          REG_IP0 None 0%nat false _ 0%nat H1 _)) _).
  - reflexivity.
  - vm_compute. reflexivity.
Defined.

(** ** The calls of an add or sub with a constant *)

Section AddSubWithConstant.

Context {E : Emitter}.
Variable compReloc : bool.

(** The run of [genInstrWithConstant] for [add] and [sub]. *)
Lemma genInstrWithConstant_add_sub_run ins attr reg1 reg2 imm tmpReg
    inUnwindRegion n :
  ins = INS_add \/ ins = INS_sub ->
  - 2 ^ 63 < imm < 2 ^ 63 ->
  tmpReg <> reg2 ->
  genInstrWithConstant compReloc ins attr reg1 reg2 imm tmpReg inUnwindRegion n
  = let ins' :=
      if imm <? 0
      then (if bool_decide (ins = INS_add) then INS_sub else INS_add)
      else ins in
    if emitIns_valid_imm_for_add (Z.abs imm) (EA_SIZE attr) then
      Some (true,
            [Emit (emitIns_R_R_I ins' attr reg1 reg2 (Z.abs imm)
                     INS_OPTS_NONE)], n)
    else if (tmpReg =? REG_NA)%N then None
    else
      match instGen_Set_Reg_To_Imm compReloc (EA_SIZE attr) tmpReg (Z.abs imm)
              INS_FLAGS_DONT_CARE n with
      | Some (_, ts, n1) =>
          Some (false,
                ts ++ [verifyRegUsed tmpReg]
                ++ (if inUnwindRegion then [Unwind unwindPadding] else [])
                ++ [Emit (emitIns_R_R_R ins' attr reg1 reg2 tmpReg)], n1)
      | None => None
      end.
Proof.
  intros Hins Himm Hne. unfold genInstrWithConstant.
  apply N.eqb_neq in Hne. rewrite Hne. simpl negb.
  unfold bind at 1. simpl assert. cbv iota beta.
  set (imm' := Z.abs imm).
  set (ins' := if imm <? 0
              then (if bool_decide (ins = INS_add) then INS_sub else INS_add)
              else ins).
  assert (Hsw : match ins with
                | INS_add | INS_sub =>
                    let '(imm0, ins0) :=
                      if imm <? 0
                      then (s64 (- imm),
                            if bool_decide (ins = INS_add)
                            then INS_sub else INS_add)
                      else (imm, ins) in
                    ret (ins0, imm0,
                         emitIns_valid_imm_for_add imm0 (EA_SIZE attr))
                | INS_strb | INS_strh | INS_str =>
                    assert (negb (tmpReg =? reg1)%N) >>
                    ret (ins, imm,
                         emitIns_valid_imm_for_ldst_offset imm (EA_SIZE attr))
                | INS_ldrsb | INS_ldrsh | INS_ldrsw | INS_ldrb | INS_ldrh
                | INS_ldr =>
                    ret (ins, imm,
                         emitIns_valid_imm_for_ldst_offset imm (EA_SIZE attr))
                | _ => assert false >> ret (ins, imm, false)
                end
                = ret (ins', imm',
                       emitIns_valid_imm_for_add imm' (EA_SIZE attr))).
  { unfold imm', ins'.
    destruct (imm <? 0) eqn:Hneg.
    - apply Z.ltb_lt in Hneg.
      rewrite s64_small by (unfold in_s64; lia).
      replace (Z.abs imm) with (- imm) by lia.
      destruct Hins as [-> | ->]; reflexivity.
    - apply Z.ltb_ge in Hneg.
      replace (Z.abs imm) with imm by lia.
      destruct Hins as [-> | ->]; reflexivity. }
  rewrite Hsw. unfold bind at 1. unfold ret at 1. cbv iota beta zeta.
  destruct (emitIns_valid_imm_for_add imm' (EA_SIZE attr)).
  - reflexivity.
  - destruct (tmpReg =? REG_NA)%N; [reflexivity|].
    unfold bind, assert, ret, tell, unwind. simpl negb. cbv iota beta.
    destruct (instGen_Set_Reg_To_Imm compReloc (EA_SIZE attr) tmpReg imm'
                INS_FLAGS_DONT_CARE n) as [[[u ts] n1]|]; [|reflexivity].
    destruct inUnwindRegion; simpl; rewrite ?app_nil_r; reflexivity.
Qed.

End AddSubWithConstant.

(** ** The fields a constant load leaves in the register *)

Lemma u16_lnot_involutive (x : Z) :
  u16 (Z.lnot (u16 (Z.lnot (u16 x)))) = u16 x.
Proof.
  unfold u16. change 65535 with (Z.ones 16).
  rewrite !Z.land_ones by lia. unfold Z.lnot, Z.pred.
  Z.div_mod_to_equations. lia.
Qed.

Lemma regFields_app (reg : regNumber) (t1 t2 : list event) (f : list Z) :
  regFields reg (t1 ++ t2) f = regFields reg t2 (regFields reg t1 f).
Proof. unfold regFields. apply fold_left_app. Qed.

Section LoadsImm.

Context {E : Emitter}.
Variable compReloc : bool.

(** The second loop writes every field that differs from what the first
    instruction fills in. *)
Lemma movk_loop_fields (size : emitAttr) (reg : regNumber) (imm : Z)
    (movn : bool) (bits : Z) (n : label) :
  bits = 32 \/ bits = 64 ->
  (0 < nonSentinelFields bits imm (if movn then 65535 else 0))%nat ->
  exists t,
    movk_loop size reg imm (if movn then 65535 else 0) (field_shifts bits)
      (if movn then INS_movn else INS_movz) n
    = Some (INS_movk, t, n)
    /\ forall init, length init = Z.to_nat (bits / 16) ->
         regFields reg t init = immFields bits imm.
Proof.
  intros Hbits Hpos. unfold nonSentinelFields, fieldsToWrite in Hpos.
  unfold immFields.
  destruct Hbits as [-> | ->].
  - rewrite field_shifts_32 in *. cbn [map List.filter movk_loop] in *.
    cbv zeta.
    pose proof (u16_lnot_involutive (Z.shiftr imm 0)) as I0.
    pose proof (u16_lnot_involutive (Z.shiftr imm 16)) as I1.
    revert Hpos I0 I1.
    generalize (u16 (Z.shiftr imm 0)) (u16 (Z.shiftr imm 16)).
    intros h0 h1 Hpos I0 I1.
    destruct movn;
      [destruct (h0 =? 65535) eqn:E0; destruct (h1 =? 65535) eqn:E1
      |destruct (h0 =? 0) eqn:E0; destruct (h1 =? 0) eqn:E1];
      cbn [negb length] in *; try lia;
      rewrite ?Z.eqb_eq in *; subst;
      (eexists; split; [reflexivity|]);
      intros [|a [|b [|]]] Hlen; try discriminate Hlen;
      cbv [regFields fold_left regFieldsOf halfwordMove];
      simpl; rewrite ?N.eqb_refl; simpl;
      change (u16 (Z.lnot 0)) with 65535;
      rewrite ?I0, ?I1; reflexivity.
  - rewrite field_shifts_64 in *. cbn [map List.filter movk_loop] in *.
    cbv zeta.
    pose proof (u16_lnot_involutive (Z.shiftr imm 0)) as I0.
    pose proof (u16_lnot_involutive (Z.shiftr imm 16)) as I1.
    pose proof (u16_lnot_involutive (Z.shiftr imm 32)) as I2.
    pose proof (u16_lnot_involutive (Z.shiftr imm 48)) as I3.
    revert Hpos I0 I1 I2 I3.
    generalize (u16 (Z.shiftr imm 0)) (u16 (Z.shiftr imm 16))
      (u16 (Z.shiftr imm 32)) (u16 (Z.shiftr imm 48)).
    intros h0 h1 h2 h3 Hpos I0 I1 I2 I3.
    destruct movn;
      [destruct (h0 =? 65535) eqn:E0; destruct (h1 =? 65535) eqn:E1;
       destruct (h2 =? 65535) eqn:E2; destruct (h3 =? 65535) eqn:E3
      |destruct (h0 =? 0) eqn:E0; destruct (h1 =? 0) eqn:E1;
       destruct (h2 =? 0) eqn:E2; destruct (h3 =? 0) eqn:E3];
      cbn [negb length] in *; try lia;
      rewrite ?Z.eqb_eq in *; subst;
      (eexists; split; [reflexivity|]);
      intros [|a [|b [|c [|d [|]]]]] Hlen; try discriminate Hlen;
      cbv [regFields fold_left regFieldsOf halfwordMove];
      simpl; rewrite ?N.eqb_refl; simpl;
      change (u16 (Z.lnot 0)) with 65535;
      rewrite ?I0, ?I1, ?I2, ?I3; reflexivity.
Qed.

End LoadsImm.

(** ** Register save and restore *)

Section SaveRestoreFacts.

Context {E : Emitter}.
Variable compReloc : bool.

(** Materializing a 64-bit constant other than the all-ones value into an
    integer register always completes. *)
Lemma instGen_Set_Reg_To_Imm_succeeds_64 reg imm flags n :
  genIsValidFloatReg reg = false ->
  in_s64 imm -> imm <> -1 ->
  exists t,
    instGen_Set_Reg_To_Imm compReloc EA_8BYTE reg imm flags n = Some (tt, t, n).
Proof.
  intros Hreg Hr Hm1.
  destruct (Z.eq_dec imm 0) as [->|Hne].
  { eexists. unfold instGen_Set_Reg_To_Imm. rewrite Hreg.
    destruct compReloc; reflexivity. }
  destruct (emitIns_valid_imm_for_mov imm EA_8BYTE) eqn:Hmov.
  - unfold instGen_Set_Reg_To_Imm. rewrite Hreg.
    replace (if negb compReloc then EA_SIZE EA_8BYTE else EA_8BYTE)
      with EA_8BYTE by (destruct compReloc; reflexivity).
    apply Z.eqb_neq in Hne. simpl EA_IS_RELOC. cbv iota. rewrite Hne, Hmov.
    destruct (bool_decide (flags = INS_FLAGS_SET)); eexists; reflexivity.
  - destruct (instGen_Set_Reg_To_Imm_movk_run compReloc EA_8BYTE reg imm flags n
                Hreg (or_intror eq_refl) Hne Hmov
                (fewestNonSentinelFields_pos_64 imm Hr Hne Hm1))
      as (t & Hrun & _).
    eauto.
Qed.

(** The stack-pointer adjustment completes for every delta that fits the
    unwind encoding, given a usable scratch register. *)
Lemma genStackPointerAdjustment_succeeds spDelta tmpReg pTmpRegIsZero n :
  Z.abs spDelta < 2 ^ 32 ->
  tmpReg <> REG_SPBASE -> tmpReg <> REG_NA ->
  genIsValidFloatReg tmpReg = false ->
  exists r t,
    genInstrWithConstant compReloc INS_add EA_PTRSIZE REG_SPBASE REG_SPBASE
      spDelta tmpReg true n = Some (r, t, n)
    /\ genStackPointerAdjustment compReloc spDelta tmpReg pTmpRegIsZero true n
       = Some (tmpRegIsZeroAfter r pTmpRegIsZero,
               t ++ [Unwind (unwindAllocStack (Z.abs spDelta))], n).
Proof.
  intros Habs Hsp Hna Hfl.
  assert (Hr : in_s64 spDelta) by (unfold in_s64; lia).
  assert (exists r t,
            genInstrWithConstant compReloc INS_add EA_PTRSIZE REG_SPBASE
              REG_SPBASE spDelta tmpReg true n = Some (r, t, n))
    as (r & t & Hrun).
  { unfold genInstrWithConstant.
    apply N.eqb_neq in Hsp, Hna. rewrite Hsp. simpl negb.
    unfold bind at 1. simpl assert. cbv iota beta.
    set (imm' := if spDelta <? 0 then s64 (- spDelta) else spDelta).
    set (ins' := if spDelta <? 0 then INS_sub else INS_add).
    assert (Hsw : (let '(imm, ins) :=
                     if spDelta <? 0
                     then (s64 (- spDelta),
                           if bool_decide (INS_add = INS_add)
                           then INS_sub else INS_add)
                     else (spDelta, INS_add) in
                   ret (ins, imm,
                        emitIns_valid_imm_for_add imm (EA_SIZE EA_PTRSIZE)))
                  = ret (ins', imm',
                         emitIns_valid_imm_for_add imm' (EA_SIZE EA_PTRSIZE))).
    { unfold imm', ins'. destruct (spDelta <? 0); reflexivity. }
    rewrite Hsw. unfold bind at 1. unfold ret at 1. cbv iota beta.
    destruct (emitIns_valid_imm_for_add imm' (EA_SIZE EA_PTRSIZE)).
    - eexists _, _. reflexivity.
    - rewrite Hna. simpl negb.
      assert (Himm : in_s64 imm' /\ imm' <> -1).
      { unfold imm'. destruct (spDelta <? 0) eqn:Hneg.
        - apply Z.ltb_lt in Hneg.
          rewrite s64_small by (unfold in_s64; lia). unfold in_s64. lia.
        - apply Z.ltb_ge in Hneg. unfold in_s64. lia. }
      destruct Himm as [Hi1 Hi2].
      destruct (instGen_Set_Reg_To_Imm_succeeds_64 tmpReg imm'
                  INS_FLAGS_DONT_CARE n Hfl Hi1 Hi2) as (ts & Hset).
      change (EA_SIZE EA_PTRSIZE) with EA_8BYTE.
      unfold bind. simpl assert. cbv iota beta. rewrite Hset.
      eexists _, _. reflexivity. }
  exists r, t. split; [exact Hrun|].
  rewrite (genStackPointerAdjustment_run _ _ _ _ _ _ _ _ Hr Hrun).
  apply Z.ltb_lt in Habs. rewrite Habs. reflexivity.
Qed.

(** Loading a positive 64-bit constant into an integer register completes
    and leaves the fields of the constant in it. *)
Lemma instGen_Set_Reg_To_Imm_fields_64 reg imm n :
  genIsValidFloatReg reg = false ->
  0 < imm < 2 ^ 63 ->
  exists t,
    instGen_Set_Reg_To_Imm compReloc EA_8BYTE reg imm INS_FLAGS_DONT_CARE n
    = Some (tt, t, n)
    /\ forall init, length init = 4%nat ->
         regFields reg t init = immFields 64 imm.
Proof.
  intros Hreg Himm.
  assert (Hbits : bitsOf EA_8BYTE = 64) by reflexivity.
  assert (Hstrip : (if negb compReloc then EA_SIZE EA_8BYTE else EA_8BYTE)
                   = EA_8BYTE) by (destruct compReloc; reflexivity).
  assert (Hrel : EA_IS_RELOC EA_8BYTE = false) by reflexivity.
  revert Hbits Hstrip Hrel. generalize EA_8BYTE. intros size Hbits Hstrip Hrel.
  unfold instGen_Set_Reg_To_Imm. rewrite Hreg. simpl negb.
  rewrite Hstrip, Hrel.
  assert (Hne : (imm =? 0) = false) by (apply Z.eqb_neq; lia).
  rewrite Hne.
  destruct (emitIns_valid_imm_for_mov imm size) eqn:Hmov.
  { eexists. split; [reflexivity|]. intros init Hlen.
    unfold regFields. simpl. rewrite N.eqb_refl, Hlen. reflexivity. }
  pose proof (fewestNonSentinelFields_pos_64 imm
                ltac:(unfold in_s64; lia) ltac:(lia) ltac:(lia)) as Hpos.
  unfold fewestNonSentinelFields in Hpos.
  fold (bitsOf size).
  set (preferMovn := preferMovn_loop imm (rev (field_shifts (bitsOf size))) 0).
  destruct (movk_loop_fields size reg imm (0 <? preferMovn) (bitsOf size) n
              (or_intror Hbits)) as (t & Hrun & Hfields).
  { rewrite Hbits. destruct (0 <? preferMovn); lia. }
  exists (t ++ [verifyRegUsed reg]). split.
  - unfold bind at 1. simpl.
    unfold bind at 1. unfold bind at 1. unfold bind at 1.
    destruct (0 <? preferMovn); rewrite Hrun; simpl;
      rewrite ?app_nil_r; reflexivity.
  - intros init Hlen. rewrite regFields_app, Hfields, Hbits; [reflexivity|].
    rewrite Hbits. exact Hlen.
Qed.

(** A separate adjustment of SP by [d] bytes, downwards ([down]) or
    upwards, completes given a scratch register for a magnitude that is not
    an encodable immediate, and its calls are those of
    [separateSpAdjustment]. *)
Lemma genStackPointerAdjustment_separate (down : bool) d tmpReg
    pTmpRegIsZero n :
  0 < d < 2 ^ 32 ->
  tmpReg <> REG_SPBASE ->
  (emitIns_valid_imm_for_add d EA_8BYTE = false ->
   tmpReg <> REG_NA /\ genIsValidFloatReg tmpReg = false) ->
  exists adj,
    separateSpAdjustment compReloc (if down then INS_sub else INS_add) d
      tmpReg n adj
    /\ genStackPointerAdjustment compReloc (if down then - d else d) tmpReg
         pTmpRegIsZero true n
       = Some (tmpRegIsZeroAfter (emitIns_valid_imm_for_add d EA_8BYTE)
                 pTmpRegIsZero, adj, n).
Proof.
  intros Hd Hsp Hscratch.
  set (spDelta := if down then - d else d).
  assert (Habs : Z.abs spDelta = d) by (unfold spDelta; destruct down; lia).
  assert (Hneg : (spDelta <? 0) = down).
  { unfold spDelta. destruct down;
      [apply Z.ltb_lt|apply Z.ltb_ge]; lia. }
  assert (Hr : in_s64 spDelta)
    by (unfold in_s64, spDelta; destruct down; lia).
  pose proof (genInstrWithConstant_add_sub_run compReloc INS_add EA_PTRSIZE
                REG_SPBASE REG_SPBASE spDelta tmpReg true n
                (or_introl eq_refl)
                ltac:(unfold spDelta; destruct down; lia) Hsp) as Hrun.
  cbv zeta in Hrun. rewrite Habs, Hneg in Hrun.
  change (EA_SIZE EA_PTRSIZE) with EA_8BYTE in Hrun.
  change (if bool_decide (INS_add = INS_add) then INS_sub else INS_add)
    with INS_sub in Hrun.
  unfold separateSpAdjustment.
  destruct (emitIns_valid_imm_for_add d EA_8BYTE) eqn:Hfit.
  - eexists. split; [reflexivity|].
    rewrite (genStackPointerAdjustment_run compReloc _ _ _ _ _ _ _ Hr Hrun).
    rewrite Habs.
    assert (Hlt : (d <? 2 ^ 32) = true) by (apply Z.ltb_lt; lia).
    rewrite Hlt. reflexivity.
  - destruct (Hscratch eq_refl) as [Hna Hfl].
    apply N.eqb_neq in Hna. rewrite Hna in Hrun.
    destruct (instGen_Set_Reg_To_Imm_fields_64 tmpReg d n Hfl ltac:(lia))
      as (load & Hload & Hfields).
    rewrite Hload in Hrun.
    eexists. split; [exists load; split; [exact Hload|]; split;
                     [exact Hfields|reflexivity]|].
    rewrite (genStackPointerAdjustment_run compReloc _ _ _ _ _ _ _ Hr Hrun).
    rewrite Habs.
    assert (Hlt : (d <? 2 ^ 32) = true) by (apply Z.ltb_lt; lia).
    rewrite Hlt. simpl. rewrite <- !app_assoc. reflexivity.
Qed.

(** The calls of [genPrologSaveRegPair] for a nonzero [spDelta]. *)
Lemma genPrologSaveRegPair_run reg1 reg2 spOffset spDelta tmpReg
    pTmpRegIsZero n :
  0 <= spOffset -> spDelta < 0 -> Z.rem spDelta 16 = 0 ->
  genIsValidFloatReg reg1 = genIsValidFloatReg reg2 ->
  genPrologSaveRegPair compReloc reg1 reg2 spOffset spDelta false tmpReg
    pTmpRegIsZero n
  = if (spOffset =? 0) && (-512 <=? spDelta) then
      Some (pTmpRegIsZero,
            [Emit (emitIns_R_R_R_I INS_stp EA_PTRSIZE reg1 reg2 REG_SPBASE
                     spDelta INS_OPTS_PRE_INDEX);
             Unwind (unwindSaveRegPairPreindexed reg1 reg2 spDelta)], n)
    else
      match genStackPointerAdjustment compReloc spDelta tmpReg
              pTmpRegIsZero true n with
      | Some (p, adj, n') =>
          if spOffset <=? 504 then
            Some (p,
                  adj ++
                  [Emit (emitIns_R_R_R_I INS_stp EA_PTRSIZE reg1 reg2
                           REG_SPBASE spOffset INS_OPTS_NONE);
                   Unwind (unwindSaveRegPair reg1 reg2 spOffset)], n')
          else None
      | None => None
      end.
Proof.
  intros Hoff Hd Hrem Hcls. unfold genPrologSaveRegPair.
  apply Z.leb_le in Hoff. rewrite Hoff.
  assert (Hd1 : (spDelta <=? 0) = true) by (apply Z.leb_le; lia).
  assert (Hd2 : (spDelta =? 0) = false) by (apply Z.eqb_neq; lia).
  apply Z.eqb_eq in Hrem. rewrite Hd1, Hrem, Hd2, Hcls, Bool.eqb_reflx.
  destruct ((spOffset =? 0) && (-512 <=? spDelta)).
  - reflexivity.
  - unfold bind, assert, ret, emit, unwind, tell. simpl.
    destruct (genStackPointerAdjustment compReloc spDelta tmpReg
                pTmpRegIsZero true n) as [[[p adj] n']|]; [|reflexivity].
    destruct (spOffset <=? 504); simpl; [|reflexivity].
    rewrite ?app_nil_r. reflexivity.
Qed.


(** C5.  For a call of [genPrologSaveRegPair] with a nonzero [spDelta] that
    meets the asserted preconditions ([spOffset >= 0], [spDelta <= 0], a
    multiple of 16, both registers of one class, and no save_next request,
    which the function asserts for a nonzero [spDelta]): when
    [spOffset = 0] and [spDelta >= -512] the calls are exactly one
    pre-indexed store-pair that moves SP by [spDelta] and its pre-indexed
    register-pair unwind entry; otherwise they are the calls of the
    separate SP adjustment followed by a plain store-pair at [spOffset]
    and its register-pair unwind entry (the run is abandoned when the
    adjustment is, or when [spOffset > 504]).  Hence a completed call made
    the single pre-indexed store exactly when [spOffset = 0] and
    [spDelta >= -512].  The separate adjustment is really made: for
    [spOffset <= 504], a delta above [-2^32] and, when the magnitude is
    not an encodable immediate, a usable scratch register, the call
    completes, and what precedes the plain store-pair is the [sub] on SP by
    the magnitude of [spDelta] - as an immediate, or through the scratch
    register loaded with it - and the stack-allocation unwind entry of
    that magnitude. *)
Theorem genPrologSaveRegPair_preindexed_iff (reg1 reg2 : regNumber)
    (spOffset spDelta : Z) (tmpReg : regNumber)
    (pTmpRegIsZero : option bool) (n : label) :
  0 <= spOffset -> spDelta < 0 -> Z.rem spDelta 16 = 0 ->
  genIsValidFloatReg reg1 = genIsValidFloatReg reg2 ->
  let run := genPrologSaveRegPair compReloc reg1 reg2 spOffset spDelta false
               tmpReg pTmpRegIsZero n in
  let folded :=
    [Emit (emitIns_R_R_R_I INS_stp EA_PTRSIZE reg1 reg2 REG_SPBASE spDelta
             INS_OPTS_PRE_INDEX);
     Unwind (unwindSaveRegPairPreindexed reg1 reg2 spDelta)] in
  (spOffset = 0 /\ -512 <= spDelta -> run = Some (pTmpRegIsZero, folded, n))
  /\ (~ (spOffset = 0 /\ -512 <= spDelta) ->
      run = match genStackPointerAdjustment compReloc spDelta tmpReg
                    pTmpRegIsZero true n with
            | Some (p, adj, n') =>
                if spOffset <=? 504 then
                  Some (p,
                        adj ++
                        [Emit (emitIns_R_R_R_I INS_stp EA_PTRSIZE reg1 reg2
                                 REG_SPBASE spOffset INS_OPTS_NONE);
                         Unwind (unwindSaveRegPair reg1 reg2 spOffset)], n')
                else None
            | None => None
            end)
  /\ (forall p t n',
        run = Some (p, t, n') ->
        (t = folded <-> spOffset = 0 /\ -512 <= spDelta))
  /\ (~ (spOffset = 0 /\ -512 <= spDelta) ->
      spOffset <= 504 -> - 2 ^ 32 < spDelta -> tmpReg <> REG_SPBASE ->
      (emitIns_valid_imm_for_add (- spDelta) EA_8BYTE = false ->
       tmpReg <> REG_NA /\ genIsValidFloatReg tmpReg = false) ->
      exists adj,
        separateSpAdjustment compReloc INS_sub (- spDelta) tmpReg n adj
        /\ run
           = Some (tmpRegIsZeroAfter
                     (emitIns_valid_imm_for_add (- spDelta) EA_8BYTE)
                     pTmpRegIsZero,
                   adj ++
                   [Emit (emitIns_R_R_R_I INS_stp EA_PTRSIZE reg1 reg2
                            REG_SPBASE spOffset INS_OPTS_NONE);
                    Unwind (unwindSaveRegPair reg1 reg2 spOffset)], n)).
Proof.
  intros Hoff Hd Hrem Hcls run folded. subst run.
  rewrite (genPrologSaveRegPair_run _ _ _ _ _ _ _ Hoff Hd Hrem Hcls).
  destruct ((spOffset =? 0) && (-512 <=? spDelta)) eqn:Hc.
  - apply andb_true_iff in Hc as [H1 H2].
    apply Z.eqb_eq in H1. apply Z.leb_le in H2.
    split; [reflexivity|]. split; [intros Hn; exfalso; apply Hn; auto|].
    split; [|intros Hn; exfalso; apply Hn; auto].
    intros p t n' [= <- <- <-]. split; auto.
  - assert (Hn : ~ (spOffset = 0 /\ -512 <= spDelta)).
    { intros [H1 H2]. apply Z.eqb_eq in H1. apply Z.leb_le in H2.
      rewrite H1, H2 in Hc. discriminate. }
    split; [intros H; exfalso; apply Hn, H|]. split; [reflexivity|].
    split.
    + intros p t n' Hrun. split; [|intros H; exfalso; apply Hn, H].
      intros ->. exfalso.
      destruct (genStackPointerAdjustment compReloc spDelta tmpReg
                  pTmpRegIsZero true n) as [[[p' adj] n'']|]; [|discriminate].
      destruct (spOffset <=? 504); [|discriminate].
      injection Hrun as _ Ht _. subst folded.
      destruct adj as [|e1 [|e2 [|e3 adj]]]; simpl in Ht; discriminate.
    + intros _ Hhi Hlo Hsp Hscratch.
      destruct (genStackPointerAdjustment_separate true (- spDelta) tmpReg
                  pTmpRegIsZero n ltac:(lia) Hsp Hscratch)
        as (adj & Hadj & Hrun).
      cbv iota in Hadj, Hrun. rewrite Z.opp_involutive in Hrun.
      exists adj. split; [exact Hadj|].
      rewrite Hrun. apply Z.leb_le in Hhi. rewrite Hhi. reflexivity.
Qed.

End SaveRestoreFacts.

Lemma genPrologSaveRegPair_preindexed_iff_witness :
  ((0 <= 0 /\ -16 < 0 /\ Z.rem (-16) 16 = 0
    /\ genIsValidFloatReg REG_FP = genIsValidFloatReg REG_LR)
   /\ genPrologSaveRegPair (E := Arm64Emitter.emitter) false REG_FP REG_LR 0
        (-16) false REG_IP0 None 0%nat
      = Some (None,
              [Emit (emitIns_R_R_R_I INS_stp EA_PTRSIZE REG_FP REG_LR
                       REG_SPBASE (-16) INS_OPTS_PRE_INDEX);
               Unwind (unwindSaveRegPairPreindexed REG_FP REG_LR (-16))],
              0%nat))
  /\ ((0 <= 16 /\ -32 < 0 /\ Z.rem (-32) 16 = 0
       /\ genIsValidFloatReg REG_R19 = genIsValidFloatReg 20%N
       /\ ~ (16 = 0 /\ -512 <= -32))
      /\ genPrologSaveRegPair (E := Arm64Emitter.emitter) false REG_R19
           20%N 16 (-32) false REG_IP0 None 0%nat
         = Some (None,
                 [Emit (emitIns_R_R_I INS_sub EA_PTRSIZE REG_SPBASE REG_SPBASE
                          32 INS_OPTS_NONE);
                  Unwind (unwindAllocStack 32);
                  Emit (emitIns_R_R_R_I INS_stp EA_PTRSIZE REG_R19 20%N
                          REG_SPBASE 16 INS_OPTS_NONE);
                  Unwind (unwindSaveRegPair REG_R19 20%N 16)], 0%nat))
  /\ ((0 <= 0 /\ -0x12340 < 0 /\ Z.rem (-0x12340) 16 = 0
       /\ genIsValidFloatReg REG_FP = genIsValidFloatReg REG_LR
       /\ ~ (0 = 0 /\ -512 <= -0x12340))
      /\ genPrologSaveRegPair (E := Arm64Emitter.emitter) false REG_FP REG_LR
           0 (-0x12340) false REG_IP0 (Some true) 0%nat
         = Some (Some true,
                 [Emit (emitIns_R_I_I INS_movz EA_8BYTE REG_IP0 0x2340 0
                          INS_OPTS_LSL);
                  Emit (emitIns_R_I_I INS_movk EA_8BYTE REG_IP0 1 16
                          INS_OPTS_LSL);
                  verifyRegUsed REG_IP0;
                  verifyRegUsed REG_IP0; Unwind unwindPadding;
                  Emit (emitIns_R_R_R INS_sub EA_PTRSIZE REG_SPBASE REG_SPBASE
                          REG_IP0);
                  Unwind (unwindAllocStack 0x12340);
                  Emit (emitIns_R_R_R_I INS_stp EA_PTRSIZE REG_FP REG_LR
                          REG_SPBASE 0 INS_OPTS_NONE);
                  Unwind (unwindSaveRegPair REG_FP REG_LR 0)], 0%nat)).
Proof.
  split; [|split].
  - assert (H1 : 0 <= 0) by lia.
    assert (H2 : -16 < 0) by lia.
    assert (H3 : Z.rem (-16) 16 = 0) by reflexivity.
    assert (H4 : genIsValidFloatReg REG_FP = genIsValidFloatReg REG_LR)
      by reflexivity.
    split; [auto|].
    refine (proj1 (genPrologSaveRegPair_preindexed_iff
                     (E := Arm64Emitter.emitter) false REG_FP REG_LR 0 (-16)
                     REG_IP0 None 0%nat H1 H2 H3 H4) _).
    split; [reflexivity|lia].
  - assert (H1 : 0 <= 16) by lia.
    assert (H2 : -32 < 0) by lia.
    assert (H3 : Z.rem (-32) 16 = 0) by reflexivity.
    assert (H4 : genIsValidFloatReg REG_R19 = genIsValidFloatReg 20%N)
      by reflexivity.
    assert (H5 : ~ (16 = 0 /\ -512 <= -32)) by lia.
    split; [auto 10|].
    destruct (proj2 (proj2 (proj2 (genPrologSaveRegPair_preindexed_iff
                                     (E := Arm64Emitter.emitter) false REG_R19
                                     20%N 16 (-32) REG_IP0 None 0%nat
                                     H1 H2 H3 H4)))
                H5 ltac:(lia) ltac:(lia) ltac:(discriminate)
                ltac:(simpl; discriminate))
      as (adj & Hadj & Hrun).
    unfold separateSpAdjustment in Hadj. simpl in Hadj. subst adj.
    exact Hrun.
  - assert (H1 : 0 <= 0) by lia.
    assert (H2 : -0x12340 < 0) by lia.
    assert (H3 : Z.rem (-0x12340) 16 = 0) by reflexivity.
    assert (H4 : genIsValidFloatReg REG_FP = genIsValidFloatReg REG_LR)
      by reflexivity.
    assert (H5 : ~ (0 = 0 /\ -512 <= -0x12340)) by lia.
    split; [auto 10|].
    destruct (proj2 (proj2 (proj2 (genPrologSaveRegPair_preindexed_iff
                                     (E := Arm64Emitter.emitter) false REG_FP
                                     REG_LR 0 (-0x12340) REG_IP0 (Some true)
                                     0%nat H1 H2 H3 H4)))
                H5 ltac:(lia) ltac:(lia) ltac:(discriminate)
                ltac:(intros _; split; [discriminate|reflexivity]))
      as (adj & Hadj & Hrun).
    unfold separateSpAdjustment in Hadj. simpl in Hadj.
    destruct Hadj as (load & Hload & _ & ->).
    vm_compute in Hload. injection Hload as <-.
    exact Hrun.
Defined.

Section SingleRegisterThresholds.

Context {E : Emitter}.
Variable compReloc : bool.

(** The calls of [genPrologSaveReg] for a nonzero [spDelta]. *)
Lemma genPrologSaveReg_run reg1 spOffset spDelta tmpReg pTmpRegIsZero n :
  0 <= spOffset -> spDelta < 0 -> Z.rem spDelta 16 = 0 ->
  genPrologSaveReg compReloc reg1 spOffset spDelta tmpReg pTmpRegIsZero n
  = if (spOffset =? 0) && (-256 <=? spDelta) then
      Some (pTmpRegIsZero,
            [Emit (emitIns_R_R_I INS_str EA_PTRSIZE reg1 REG_SPBASE spDelta
                     INS_OPTS_PRE_INDEX);
             Unwind (unwindSaveRegPreindexed reg1 spDelta)], n)
    else
      match genStackPointerAdjustment compReloc spDelta tmpReg
              pTmpRegIsZero true n with
      | Some (p, adj, n') =>
          Some (p,
                adj ++
                [Emit (emitIns_R_R_I INS_str EA_PTRSIZE reg1 REG_SPBASE
                         spOffset INS_OPTS_NONE);
                 Unwind (unwindSaveReg reg1 spOffset)], n')
      | None => None
      end.
Proof.
  intros Hoff Hd Hrem. unfold genPrologSaveReg.
  apply Z.leb_le in Hoff. rewrite Hoff.
  assert (Hd1 : (spDelta <=? 0) = true) by (apply Z.leb_le; lia).
  assert (Hd2 : (spDelta =? 0) = false) by (apply Z.eqb_neq; lia).
  apply Z.eqb_eq in Hrem. rewrite Hd1, Hrem, Hd2.
  destruct ((spOffset =? 0) && (-256 <=? spDelta)).
  - reflexivity.
  - unfold bind, assert, ret, emit, unwind, tell. simpl.
    destruct (genStackPointerAdjustment compReloc spDelta tmpReg
                pTmpRegIsZero true n) as [[[p adj] n']|]; [|reflexivity].
    simpl. rewrite ?app_nil_r. reflexivity.
Qed.

(** The calls of [genEpilogRestoreReg] for a nonzero [spDelta]. *)
Lemma genEpilogRestoreReg_run reg1 spOffset spDelta tmpReg pTmpRegIsZero n :
  0 <= spOffset -> 0 < spDelta -> Z.rem spDelta 16 = 0 ->
  genEpilogRestoreReg compReloc reg1 spOffset spDelta tmpReg pTmpRegIsZero n
  = if (spOffset =? 0) && (spDelta <=? 255) then
      Some (pTmpRegIsZero,
            [Emit (emitIns_R_R_I INS_ldr EA_PTRSIZE reg1 REG_SPBASE spDelta
                     INS_OPTS_POST_INDEX);
             Unwind (unwindSaveRegPreindexed reg1 (- spDelta))], n)
    else
      match genStackPointerAdjustment compReloc spDelta tmpReg
              pTmpRegIsZero true n with
      | Some (p, adj, n') =>
          Some (p,
                [Emit (emitIns_R_R_I INS_ldr EA_PTRSIZE reg1 REG_SPBASE
                         spOffset INS_OPTS_NONE);
                 Unwind (unwindSaveReg reg1 spOffset)] ++ adj, n')
      | None => None
      end.
Proof.
  intros Hoff Hd Hrem. unfold genEpilogRestoreReg.
  apply Z.leb_le in Hoff. rewrite Hoff.
  assert (Hd1 : (0 <=? spDelta) = true) by (apply Z.leb_le; lia).
  assert (Hd2 : (spDelta =? 0) = false) by (apply Z.eqb_neq; lia).
  apply Z.eqb_eq in Hrem. rewrite Hd1, Hrem, Hd2.
  destruct ((spOffset =? 0) && (spDelta <=? 255)).
  - reflexivity.
  - unfold bind, assert, ret, emit, unwind, tell. simpl.
    destruct (genStackPointerAdjustment compReloc spDelta tmpReg
                pTmpRegIsZero true n) as [[[p adj] n']|]; reflexivity.
Qed.

(** C10.  For a nonzero SP change of magnitude [d] (a multiple of 16) and
    [spOffset >= 0]: [genPrologSaveReg] makes the single pre-indexed store
    exactly when [spOffset = 0] and the delta [-d] is at least -256, and
    [genEpilogRestoreReg] makes the single post-indexed load exactly when
    [spOffset = 0] and the delta [d] is at most 255; in the other case each
    pairs a plain store/load at [spOffset] with the separate SP adjustment.
    So at [spOffset = 0] and [d = 256], with a usable scratch register,
    the prolog save is the one combined store while the epilog restore is
    a plain load followed by the SP adjustment.  The separate adjustment is
    really made: for [d < 2^32] the unfolded restore completes with the
    plain load, its unwind entry, and then the [add] on SP by [d] - as an
    immediate, or through the scratch register loaded with [d] - and the
    stack-allocation unwind entry for [d]; the unfolded save completes
    with the [sub] on SP by [d] and the same unwind entry, and then the
    plain store. *)
Theorem genPrologSaveReg_genEpilogRestoreReg_thresholds (reg1 : regNumber)
    (spOffset d : Z) (tmpReg : regNumber) (pTmpRegIsZero : option bool)
    (n : label) :
  0 <= spOffset -> 0 < d -> Z.rem d 16 = 0 ->
  tmpReg <> REG_SPBASE -> tmpReg <> REG_NA ->
  genIsValidFloatReg tmpReg = false ->
  let foldedSave :=
    Some (pTmpRegIsZero,
          [Emit (emitIns_R_R_I INS_str EA_PTRSIZE reg1 REG_SPBASE (- d)
                   INS_OPTS_PRE_INDEX);
           Unwind (unwindSaveRegPreindexed reg1 (- d))], n) in
  let foldedRestore :=
    Some (pTmpRegIsZero,
          [Emit (emitIns_R_R_I INS_ldr EA_PTRSIZE reg1 REG_SPBASE d
                   INS_OPTS_POST_INDEX);
           Unwind (unwindSaveRegPreindexed reg1 (- d))], n) in
  let p := tmpRegIsZeroAfter (emitIns_valid_imm_for_add d EA_8BYTE)
             pTmpRegIsZero in
  (genPrologSaveReg compReloc reg1 spOffset (- d) tmpReg pTmpRegIsZero n
   = foldedSave <-> spOffset = 0 /\ -256 <= - d)
  /\ (genEpilogRestoreReg compReloc reg1 spOffset d tmpReg pTmpRegIsZero n
      = foldedRestore <-> spOffset = 0 /\ d <= 255)
  /\ (spOffset = 0 -> d = 256 ->
      genPrologSaveReg compReloc reg1 spOffset (- d) tmpReg pTmpRegIsZero n
      = foldedSave
      /\ exists adj,
           genStackPointerAdjustment compReloc d tmpReg pTmpRegIsZero true n
           = Some (p, adj, n)
           /\ separateSpAdjustment compReloc INS_add d tmpReg n adj
           /\ genEpilogRestoreReg compReloc reg1 spOffset d tmpReg
                pTmpRegIsZero n
              = Some (p,
                      [Emit (emitIns_R_R_I INS_ldr EA_PTRSIZE reg1 REG_SPBASE
                               spOffset INS_OPTS_NONE);
                       Unwind (unwindSaveReg reg1 spOffset)] ++ adj, n))
  /\ (~ (spOffset = 0 /\ d <= 255) -> d < 2 ^ 32 ->
      exists adj,
        separateSpAdjustment compReloc INS_add d tmpReg n adj
        /\ genEpilogRestoreReg compReloc reg1 spOffset d tmpReg
             pTmpRegIsZero n
           = Some (p,
                   [Emit (emitIns_R_R_I INS_ldr EA_PTRSIZE reg1 REG_SPBASE
                            spOffset INS_OPTS_NONE);
                    Unwind (unwindSaveReg reg1 spOffset)] ++ adj, n))
  /\ (~ (spOffset = 0 /\ -256 <= - d) -> d < 2 ^ 32 ->
      exists adj,
        separateSpAdjustment compReloc INS_sub d tmpReg n adj
        /\ genPrologSaveReg compReloc reg1 spOffset (- d) tmpReg
             pTmpRegIsZero n
           = Some (p,
                   adj ++
                   [Emit (emitIns_R_R_I INS_str EA_PTRSIZE reg1 REG_SPBASE
                            spOffset INS_OPTS_NONE);
                    Unwind (unwindSaveReg reg1 spOffset)], n)).
Proof.
  intros Hoff Hd Hrem Hsp Hna Hfl foldedSave foldedRestore p.
  assert (Hrem' : Z.rem (- d) 16 = 0) by (rewrite Z.rem_opp_l', Hrem; lia).
  rewrite (genPrologSaveReg_run reg1 spOffset (- d) tmpReg pTmpRegIsZero n
             Hoff ltac:(lia) Hrem').
  rewrite (genEpilogRestoreReg_run reg1 spOffset d tmpReg pTmpRegIsZero n
             Hoff Hd Hrem).
  assert (Hadd : d < 2 ^ 32 ->
                 exists adj,
                   separateSpAdjustment compReloc INS_add d tmpReg n adj
                   /\ genStackPointerAdjustment compReloc d tmpReg
                        pTmpRegIsZero true n = Some (p, adj, n)).
  { intros Hlt.
    exact (genStackPointerAdjustment_separate compReloc false d tmpReg
             pTmpRegIsZero n ltac:(lia) Hsp (fun _ => conj Hna Hfl)). }
  assert (Hsub : d < 2 ^ 32 ->
                 exists adj,
                   separateSpAdjustment compReloc INS_sub d tmpReg n adj
                   /\ genStackPointerAdjustment compReloc (- d) tmpReg
                        pTmpRegIsZero true n = Some (p, adj, n)).
  { intros Hlt.
    exact (genStackPointerAdjustment_separate compReloc true d tmpReg
             pTmpRegIsZero n ltac:(lia) Hsp (fun _ => conj Hna Hfl)). }
  split; [|split; [|split; [|split]]].
  - destruct ((spOffset =? 0) && (-256 <=? - d)) eqn:Hc.
    + apply andb_true_iff in Hc as [H1 H2].
      apply Z.eqb_eq in H1. apply Z.leb_le in H2. split; auto.
    + split.
      * intros Hrun. exfalso.
        destruct (genStackPointerAdjustment compReloc (- d) tmpReg
                    pTmpRegIsZero true n) as [[[p' adj] n']|]; [|discriminate].
        injection Hrun as _ Ht _.
        destruct adj as [|e1 [|e2 [|e3 adj]]]; simpl in Ht; discriminate.
      * intros [H1 H2]. apply Z.eqb_eq in H1. apply Z.leb_le in H2.
        rewrite H1, H2 in Hc. discriminate.
  - destruct ((spOffset =? 0) && (d <=? 255)) eqn:Hc.
    + apply andb_true_iff in Hc as [H1 H2].
      apply Z.eqb_eq in H1. apply Z.leb_le in H2. split; auto.
    + split.
      * intros Hrun. exfalso.
        destruct (genStackPointerAdjustment compReloc d tmpReg
                    pTmpRegIsZero true n) as [[[p' adj] n']|]; [|discriminate].
        injection Hrun as _ Ht _. discriminate.
      * intros [H1 H2]. apply Z.eqb_eq in H1. apply Z.leb_le in H2.
        rewrite H1, H2 in Hc. discriminate.
  - intros H0 H256. subst spOffset.
    destruct (Hadd ltac:(lia)) as (adj & Hadj & Hrun).
    assert (Hs : (-256 <=? - d) = true) by (apply Z.leb_le; lia).
    assert (Hr : (d <=? 255) = false) by (apply Z.leb_gt; lia).
    rewrite Hs, Hr. simpl andb. cbv iota.
    split; [reflexivity|].
    exists adj. split; [exact Hrun|]. split; [exact Hadj|].
    rewrite Hrun. reflexivity.
  - intros Hn Hlt.
    destruct (Hadd Hlt) as (adj & Hadj & Hrun).
    destruct ((spOffset =? 0) && (d <=? 255)) eqn:Hc.
    { exfalso. apply Hn. apply andb_true_iff in Hc as [H1 H2].
      apply Z.eqb_eq in H1. apply Z.leb_le in H2. auto. }
    exists adj. split; [exact Hadj|]. rewrite Hrun. reflexivity.
  - intros Hn Hlt.
    destruct (Hsub Hlt) as (adj & Hadj & Hrun).
    destruct ((spOffset =? 0) && (-256 <=? - d)) eqn:Hc.
    { exfalso. apply Hn. apply andb_true_iff in Hc as [H1 H2].
      apply Z.eqb_eq in H1. apply Z.leb_le in H2. auto. }
    exists adj. split; [exact Hadj|]. rewrite Hrun. reflexivity.
Qed.

End SingleRegisterThresholds.

Lemma genPrologSaveReg_genEpilogRestoreReg_thresholds_witness :
  (0 <= 0 /\ 0 < 256 /\ Z.rem 256 16 = 0
   /\ REG_IP1 <> REG_SPBASE /\ REG_IP1 <> REG_NA
   /\ genIsValidFloatReg REG_IP1 = false)
  /\ genPrologSaveReg (E := Arm64Emitter.emitter) false REG_R19 0 (- 256)
       REG_IP1 None 0%nat
     = Some (None,
             [Emit (emitIns_R_R_I INS_str EA_PTRSIZE REG_R19 REG_SPBASE
                      (- 256) INS_OPTS_PRE_INDEX);
              Unwind (unwindSaveRegPreindexed REG_R19 (- 256))], 0%nat)
  /\ genEpilogRestoreReg (E := Arm64Emitter.emitter) false REG_R19 0 256
       REG_IP1 None 0%nat
     = Some (None,
             [Emit (emitIns_R_R_I INS_ldr EA_PTRSIZE REG_R19 REG_SPBASE
                      0 INS_OPTS_NONE);
              Unwind (unwindSaveReg REG_R19 0);
              Emit (emitIns_R_R_I INS_add EA_PTRSIZE REG_SPBASE REG_SPBASE
                      256 INS_OPTS_NONE);
              Unwind (unwindAllocStack 256)], 0%nat).
Proof.
  assert (H1 : 0 <= 0) by lia.
  assert (H2 : 0 < 256) by lia.
  assert (H3 : Z.rem 256 16 = 0) by reflexivity.
  assert (H4 : REG_IP1 <> REG_SPBASE) by discriminate.
  assert (H5 : REG_IP1 <> REG_NA) by discriminate.
  assert (H6 : genIsValidFloatReg REG_IP1 = false) by reflexivity.
  split; [auto 10|].
  destruct (proj1 (proj2 (proj2 (genPrologSaveReg_genEpilogRestoreReg_thresholds
                                   (E := Arm64Emitter.emitter) false REG_R19 0
                                   256 REG_IP1 None 0%nat H1 H2 H3 H4 H5 H6)))
              eq_refl eq_refl)
    as (Hsave & adj & _ & Hadj & Hrestore).
  split; [exact Hsave|].
  unfold separateSpAdjustment in Hadj. simpl in Hadj. subst adj.
  exact Hrestore.
Defined.

(** ** The register-pair list *)

Lemma Pos_countBits_bound (k : nat) (p : positive) :
  (N.pos p < 2 ^ N.of_nat k)%N -> Pos_countBits p <= Z.of_nat k.
Proof.
  revert p. induction k as [|k IH]; intros p Hp.
  - simpl in Hp. lia.
  - rewrite Nat2N.inj_succ, N.pow_succ_r' in Hp.
    destruct p as [q|q|]; simpl.
    + specialize (IH q). lia.
    + specialize (IH q). lia.
    + lia.
Qed.

Lemma genCountBits_bound (m : regMaskTP) :
  (m < 2 ^ 64)%N -> 0 <= genCountBits m <= 64.
Proof.
  destruct m as [|p]; simpl; [lia|]. intros Hp.
  pose proof (Pos_countBits_pos p).
  pose proof (Pos_countBits_bound 64 p Hp). lia.
Qed.

Lemma genCountBits_nonzero (m : regMaskTP) :
  m <> RBM_NONE -> 1 <= genCountBits m.
Proof.
  destruct m as [|p]; [intros H; exfalso; apply H; reflexivity|].
  intros _. apply Pos_countBits_pos.
Qed.

Lemma genCountBits_zero (m : regMaskTP) :
  genCountBits m = 0 -> m = RBM_NONE.
Proof.
  destruct m as [|p]; [reflexivity|]. simpl.
  pose proof (Pos_countBits_pos p). lia.
Qed.

Lemma genBuildRegPairsStack_body_inv (st : PairsLoop) :
  pl_regsMask st <> RBM_NONE ->
  PairsLoopInv st -> PairsLoopInv (genBuildRegPairsStack_body st).
Proof.
  intros Hne (Hcnt & Hbound & Hcls & Hunm).
  pose proof (genCountBits_clear_lowest _ Hne) as Hc1.
  pose proof (genCountBits_nonzero _ Hne) as Hpos.
  unfold genBuildRegPairsStack_body.
  set (reg1Mask := genFindLowestBit (pl_regsMask st)) in *.
  set (m1 := N.ldiff (pl_regsMask st) reg1Mask) in *.
  rewrite Hcnt.
  assert (Hu1 : u32 (genCountBits (pl_regsMask st) - 1) = genCountBits m1).
  { rewrite Hc1. apply u32_small. unfold in_u32. lia. }
  rewrite Hu1.
  assert (Hlone : PairsLoopInv
                    (mkPairsLoop m1 (genCountBits m1)
                       (pl_regStack st ++ [RegPair1 (genRegNumFromMask reg1Mask)]))).
  { unfold PairsLoopInv. simpl. repeat split; try lia.
    - apply Forall_app; split; [assumption|].
      constructor; [|constructor]. intros H. exfalso. apply H. reflexivity.
    - apply Forall_app; split; [assumption|]. repeat constructor. }
  destruct (0 <? genCountBits m1) eqn:Hpos1; [|exact Hlone].
  destruct (genRegNumFromMask (genFindLowestBit m1)
            =? REG_NEXT (genRegNumFromMask reg1Mask))%N; [|exact Hlone].
  destruct (negb (genRegNumFromMask reg1Mask =? REG_R28)%N); [|exact Hlone].
  destruct (Bool.eqb (genIsValidFloatReg (genRegNumFromMask reg1Mask))
              (genIsValidFloatReg (genRegNumFromMask (genFindLowestBit m1))))
    eqn:Hsame; [|exact Hlone].
  apply Z.ltb_lt in Hpos1.
  assert (Hm1 : m1 <> RBM_NONE) by (intros Hz; rewrite Hz in Hpos1; simpl in Hpos1; lia).
  pose proof (genCountBits_clear_lowest _ Hm1) as Hc2.
  unfold PairsLoopInv. simpl. repeat split.
  - rewrite Hc2. apply u32_small. unfold in_u32. lia.
  - lia.
  - apply Forall_app; split; [assumption|].
    constructor; [|constructor]. intros _. simpl.
    apply Bool.eqb_prop, Hsame.
  - apply Forall_app; split; [assumption|]. repeat constructor.
Qed.

Lemma genBuildRegPairsStack_loop_inv (st : PairsLoop) :
  PairsLoopInv st ->
  PairsLoopInv (genBuildRegPairsStack_loop st)
  /\ pl_regsMask (genBuildRegPairsStack_loop st) = RBM_NONE.
Proof.
  funelim (genBuildRegPairsStack_loop st); intros Hinv.
  - split; assumption.
  - match goal with
    | IH : PairsLoopInv _ -> _ |- _ =>
        apply IH, genBuildRegPairsStack_body_inv; assumption
    end.
Qed.

(** The marking pass keeps registers in place and only sets flags. *)
Lemma genSetUseSaveNextPairs_loop_inv (steps i : nat) (l : list RegPair) :
  (1 <= i)%nat ->
  Forall pairOfOneClass l -> marksJustified l ->
  Forall pairOfOneClass (genSetUseSaveNextPairs_loop steps i l)
  /\ marksJustified (genSetUseSaveNextPairs_loop steps i l).
Proof.
  revert i l. induction steps as [|steps IH]; intros i l Hi Hcls Hmarks;
    [split; assumption|].
  simpl. destruct (l !! i) as [curr|] eqn:Hcurr; [|split; assumption].
  destruct (l !! (i - 1)%nat) as [prev|] eqn:Hprev; [|split; assumption].
  apply IH; [lia| |];
    destruct ((reg2 prev =? REG_NA)%N || (reg2 curr =? REG_NA)%N) eqn:Hna;
    try assumption;
    destruct (negb (REG_NEXT (reg2 prev) =? reg1 curr)%N) eqn:Hnext;
    try assumption;
    destruct (negb (Bool.eqb (genIsValidFloatReg (reg2 prev))
                             (genIsValidFloatReg (reg1 curr)))) eqn:Hfl;
    try assumption.
  - (* classes after the update *)
    apply Forall_lookup. intros j p Hj.
    destruct (decide (i = j)) as [<-|Hij].
    + rewrite list_lookup_insert_eq in Hj by (eapply lookup_lt_Some; eauto).
      injection Hj as <-.
      rewrite Forall_lookup in Hcls. exact (Hcls i curr Hcurr).
    + rewrite list_lookup_insert_ne in Hj by assumption.
      rewrite Forall_lookup in Hcls. exact (Hcls j p Hj).
  - (* marks after the update *)
    apply orb_false_iff in Hna as [Hna1 Hna2].
    apply N.eqb_neq in Hna1, Hna2.
    apply negb_false_iff, N.eqb_eq in Hnext.
    apply negb_false_iff, Bool.eqb_prop in Hfl.
    assert (Hlen : (i < length l)%nat) by (eapply lookup_lt_Some; eauto).
    intros j c Hj Hflag.
    destruct (decide (i = j)) as [<-|Hij].
    + rewrite list_lookup_insert_eq in Hj by assumption. injection Hj as <-.
      exists prev. split; [lia|]. split.
      * rewrite list_lookup_insert_ne by lia. exact Hprev.
      * repeat split; assumption.
    + rewrite list_lookup_insert_ne in Hj by assumption.
      destruct (Hmarks j c Hj Hflag) as (pv & Hpos & Hpv & Hcont).
      destruct (decide (i = (j - 1)%nat)) as [Heq|Hne].
      * exists (setUseSaveNextPair curr). split; [assumption|]. split.
        -- rewrite <- Heq. apply list_lookup_insert_eq. assumption.
        -- rewrite <- Heq, Hcurr in Hpv. injection Hpv as <-. exact Hcont.
      * exists pv. split; [assumption|]. split; [|assumption].
        rewrite list_lookup_insert_ne by assumption. exact Hpv.
Qed.

(** C6.  For every register mask, [genBuildRegPairsStack] (whose last act
    is the marking pass [genSetUseSaveNextPairs]) completes, and an entry
    of its list is marked [useSaveNextPair] only when it is not the first,
    the entry before it is a full pair, the entry itself is a full pair,
    the first register of the entry is the one next to the second register
    of the entry before, and all four registers are of one class; no entry
    is marked across the integer/floating-point boundary. *)
Theorem genBuildRegPairsStack_useSaveNextPair_only_when (regsMask : regMaskTP) :
  (regsMask < 2 ^ 64)%N ->
  exists regStack,
    genBuildRegPairsStack regsMask [] = Some regStack
    /\ forall (i : nat) (curr : RegPair),
         regStack !! i = Some curr ->
         useSaveNextPair curr = true ->
         exists prev,
           (0 < i)%nat
           /\ regStack !! (i - 1)%nat = Some prev
           /\ reg2 prev <> REG_NA
           /\ reg2 curr <> REG_NA
           /\ REG_NEXT (reg2 prev) = reg1 curr
           /\ genIsValidFloatReg (reg1 prev) = genIsValidFloatReg (reg2 prev)
           /\ genIsValidFloatReg (reg2 prev) = genIsValidFloatReg (reg1 curr)
           /\ genIsValidFloatReg (reg1 curr) = genIsValidFloatReg (reg2 curr).
Proof.
  intros Hmask. unfold genBuildRegPairsStack. simpl negb. cbv iota.
  set (st0 := mkPairsLoop regsMask (genCountBits regsMask) []).
  assert (Hinv0 : PairsLoopInv st0).
  { unfold PairsLoopInv, st0. simpl.
    pose proof (genCountBits_bound regsMask Hmask).
    repeat split; try lia; constructor. }
  destruct (genBuildRegPairsStack_loop_inv st0 Hinv0)
    as ((Hcnt & _ & Hcls & Hunm) & Hzero).
  rewrite Hcnt, Hzero. simpl.
  eexists. split; [reflexivity|].
  assert (Hm0 : marksJustified (pl_regStack (genBuildRegPairsStack_loop st0))).
  { intros i c Hi Hflag. rewrite Forall_lookup in Hunm.
    rewrite (Hunm i c Hi) in Hflag. discriminate. }
  unfold genSetUseSaveNextPairs.
  destruct (genSetUseSaveNextPairs_loop_inv
              (length (pl_regStack (genBuildRegPairsStack_loop st0)) - 1) 1
              (pl_regStack (genBuildRegPairsStack_loop st0))
              ltac:(lia) Hcls Hm0) as (Hcls' & Hmarks').
  intros i curr Hi Hflag.
  destruct (Hmarks' i curr Hi Hflag) as (prev & Hpos & Hprev & H1 & H2 & H3 & H4).
  rewrite Forall_lookup in Hcls'.
  exists prev. repeat split; try assumption.
  - exact (Hcls' _ _ Hprev H1).
  - exact (Hcls' _ _ Hi H2).
Qed.

Lemma genBuildRegPairsStack_useSaveNextPair_only_when_witness :
  (0x7FF80000 < 2 ^ 64)%N
  /\ exists regStack,
       genBuildRegPairsStack 0x7FF80000%N [] = Some regStack
       /\ forall (i : nat) (curr : RegPair),
            regStack !! i = Some curr ->
            useSaveNextPair curr = true ->
            exists prev,
              (0 < i)%nat
              /\ regStack !! (i - 1)%nat = Some prev
              /\ reg2 prev <> REG_NA
              /\ reg2 curr <> REG_NA
              /\ REG_NEXT (reg2 prev) = reg1 curr
              /\ genIsValidFloatReg (reg1 prev) = genIsValidFloatReg (reg2 prev)
              /\ genIsValidFloatReg (reg2 prev) = genIsValidFloatReg (reg1 curr)
              /\ genIsValidFloatReg (reg1 curr) = genIsValidFloatReg (reg2 curr).
Proof.
  assert (H : (0x7FF80000 < 2 ^ 64)%N) by reflexivity.
  split; [exact H|].
  exact (genBuildRegPairsStack_useSaveNextPair_only_when 0x7FF80000%N H).
Defined.

(** ** Frame layout of funclets *)

Lemma genCountBits_Nsucc_double (a : N) :
  genCountBits (Pos.Nsucc_double a) = 1 + genCountBits a.
Proof. destruct a; reflexivity. Qed.

Lemma genCountBits_Ndouble (a : N) :
  genCountBits (Pos.Ndouble a) = genCountBits a.
Proof. destruct a; reflexivity. Qed.

Lemma Pos_land_countBits (p q : positive) :
  genCountBits (Pos.land p q) <= Pos_countBits p.
Proof.
  revert q. induction p as [p IH|p IH|]; intros [q|q|].
  - change (Pos.land p~1 q~1) with (Pos.Nsucc_double (Pos.land p q)).
    rewrite genCountBits_Nsucc_double. specialize (IH q). simpl. lia.
  - change (Pos.land p~1 q~0) with (Pos.Ndouble (Pos.land p q)).
    rewrite genCountBits_Ndouble. specialize (IH q). simpl. lia.
  - change (Pos.land p~1 1) with 1%N. simpl.
    pose proof (Pos_countBits_pos p). lia.
  - change (Pos.land p~0 q~1) with (Pos.Ndouble (Pos.land p q)).
    rewrite genCountBits_Ndouble. specialize (IH q). simpl. lia.
  - change (Pos.land p~0 q~0) with (Pos.Ndouble (Pos.land p q)).
    rewrite genCountBits_Ndouble. specialize (IH q). simpl. lia.
  - change (Pos.land p~0 1) with 0%N. simpl.
    pose proof (Pos_countBits_pos p). lia.
  - change (Pos.land 1 q~1) with 1%N. simpl. lia.
  - change (Pos.land 1 q~0) with 0%N. simpl. lia.
  - simpl. lia.
Qed.

Lemma genCountBits_land_le (a b : regMaskTP) :
  genCountBits (N.land a b) <= genCountBits a.
Proof.
  destruct a as [|p], b as [|q]; simpl; try lia.
  - pose proof (Pos_countBits_pos p). lia.
  - apply Pos_land_countBits.
Qed.

Lemma N_land_pow2 (m k : N) :
  N.land m (2 ^ k) <> 0%N -> N.land m (2 ^ k) = (2 ^ k)%N.
Proof.
  intros Hne. apply N.bits_inj. intros i.
  rewrite N.land_spec, N.pow2_bits_eqb.
  destruct (N.eqb_spec k i) as [<-|Hki]; [|apply andb_false_r].
  rewrite andb_true_r.
  destruct (N.testbit m k) eqn:Hb; [reflexivity|].
  exfalso. apply Hne. apply N.bits_inj. intros j.
  rewrite N.land_spec, N.pow2_bits_eqb, N.bits_0.
  destruct (N.eqb_spec k j) as [<-|]; [rewrite Hb; reflexivity|apply andb_false_r].
Qed.

(** A mask holding FP and LR counts at least two registers. *)
Lemma genCountBits_FP_LR (m : regMaskTP) :
  N.land m RBM_LR <> 0%N -> N.land m RBM_FP <> 0%N -> 2 <= genCountBits m.
Proof.
  intros Hlr Hfp.
  change RBM_LR with (2 ^ 30)%N in Hlr. change RBM_FP with (2 ^ 29)%N in Hfp.
  apply N_land_pow2 in Hlr, Hfp.
  pose proof (genCountBits_land_le m (N.lor (2 ^ 29) (2 ^ 30))) as Hle.
  rewrite N.land_lor_distr_r, Hlr, Hfp in Hle. exact Hle.
Qed.

(** A mask within the callee-saved registers, FP and LR counts at most
    twenty registers. *)
Lemma genCountBits_callee_saved (m : regMaskTP) :
  N.land m (N.lor RBM_CALLEE_SAVED (N.lor RBM_FP RBM_LR)) = m ->
  genCountBits m <= 20.
Proof.
  intros Hsub. rewrite <- Hsub, N.land_comm.
  apply (genCountBits_land_le (N.lor RBM_CALLEE_SAVED (N.lor RBM_FP RBM_LR)) m).
Qed.

Lemma roundUp_16 (x : Z) :
  in_u32 x ->
  (x + 15 < 2 ^ 32 /\ roundUp x 16 = 16 * ((x + 15) / 16))
  \/ (2 ^ 32 <= x + 15 /\ roundUp x 16 = 0).
Proof.
  unfold in_u32, roundUp. intros Hx.
  change (Z.lnot (16 - 1)) with (Z.lnot (Z.ones 4)).
  change (16 - 1) with 15.
  rewrite <- Z.ldiff_land, Z.ldiff_ones_r by lia.
  rewrite Z.shiftl_mul_pow2, Z.shiftr_div_pow2 by lia.
  change (2 ^ 4) with 16.
  destruct (Z_lt_le_dec (x + 15) (2 ^ 32)) as [Hlt|Hge]; [left|right].
  - split; [assumption|]. rewrite u32_small by (unfold in_u32; lia). lia.
  - split; [assumption|]. unfold u32.
    replace ((x + 15) mod 2 ^ 32) with (x + 15 - 2 ^ 32).
    + rewrite Z.div_small; lia.
    + apply Z.mod_unique with 1; lia.
Qed.

Lemma roundUp_range (x : Z) : in_u32 x -> in_u32 (roundUp x 16).
Proof.
  intros Hx. destruct (roundUp_16 x Hx) as [[Hlt ->]|[Hge ->]];
    unfold in_u32 in *; [|lia].
  Z.div_mod_to_equations. lia.
Qed.

Section FrameLayout.

Variable c : FrameInputs.

(** Without wrap-around: eight bytes per saved register, the PSP slot, and
    the varargs area. *)
Lemma saveRegsPlusPSPSize_value :
  (rsMaskCalleeSaved c < 2 ^ 64)%N ->
  saveRegsPlusPSPSize c
  = 8 * genCountBits (rsMaskCalleeSaved c)
    + (if lvaPSPSym_isUsed c then 8 else 0)
    + (if compIsVarArgs c then 64 else 0).
Proof.
  intros Hm. pose proof (genCountBits_bound _ Hm) as Hb.
  unfold saveRegsPlusPSPSize, REGSIZE_BYTES, MAX_REG_ARG.
  destruct (lvaPSPSym_isUsed c), (compIsVarArgs c);
    unfold u32; Z.div_mod_to_equations; lia.
Qed.

(** The chaining-slot offset chosen by each frame-shape branch. *)
Lemma funcletFrameShape_callerPsp fplr psp callerPsp frameType d1 d2 :
  (rsMaskCalleeSaved c < 2 ^ 64)%N ->
  funcletFrameShape c = Some (fplr, psp, callerPsp, frameType, d1, d2) ->
  callerPsp
  = if genSaveFpLrWithAllCalleeSavedRegisters c
    then - saveRegsPlusPSPSize c
    else 2 * REGSIZE_BYTES - saveRegsPlusPSPSize c.
Proof.
  intros Hm. pose proof (saveRegsPlusPSPSize_value Hm) as HS.
  pose proof (genCountBits_bound _ Hm) as Hb.
  assert (HSr : 0 <= saveRegsPlusPSPSize c <= 584)
    by (rewrite HS; destruct (lvaPSPSym_isUsed c), (compIsVarArgs c); lia).
  pose proof (roundUp_range (saveRegsPlusPSPSize c) ltac:(unfold in_u32; lia))
    as HSA.
  fold (saveRegsPlusPSPSizeAligned c) in HSA. unfold in_u32 in HSA.
  unfold funcletFrameShape, REGSIZE_BYTES, saveRegsPlusPSPAlignmentPad.
  clear HS.
  destruct (maxFuncletFrameSizeAligned c <=? 512).
  - destruct (genSaveFpLrWithAllCalleeSavedRegisters c);
      destruct (check _); intros [= _ _ <- _ _ _];
      unfold s32, u32; Z.div_mod_to_equations; lia.
  - destruct (check _); [|discriminate].
    destruct (genSaveFpLrWithAllCalleeSavedRegisters c);
      destruct (check _); intros [= _ _ <- _ _ _];
      unfold s32, u32; Z.div_mod_to_equations; lia.
Qed.

End FrameLayout.

(** C1, as amended.  Two runs of [genCaptureFuncletPrologEpilogInfo] on the
    same callee-saved register set, PSP-slot presence and variadic-ness
    that also save FP/LR the same way compute the same offset from the
    caller's stack pointer to the PSP slot, whatever their
    outgoing-argument sizes and hence whichever of the small-frame and
    large-frame branches each takes: minus the size of the saved registers
    and the PSP slot when FP/LR are saved with all callee-saved registers
    (frame types 4 and 5), and 16 bytes less in magnitude when FP/LR are
    saved separately (frame types 1, 2 and 3). *)
Theorem genCaptureFuncletPrologEpilogInfo_CallerSP_to_PSP_invariant
    (c1 c2 : FrameInputs) (old1 old2 fi1 fi2 : FuncletFrameInfoDsc) :
  ehAnyFunclets c1 = true -> ehAnyFunclets c2 = true ->
  (rsMaskCalleeSaved c1 < 2 ^ 64)%N ->
  rsMaskCalleeSaved c1 = rsMaskCalleeSaved c2 ->
  lvaPSPSym_isUsed c1 = lvaPSPSym_isUsed c2 ->
  compIsVarArgs c1 = compIsVarArgs c2 ->
  genSaveFpLrWithAllCalleeSavedRegisters c1
  = genSaveFpLrWithAllCalleeSavedRegisters c2 ->
  genCaptureFuncletPrologEpilogInfo c1 old1 = Some fi1 ->
  genCaptureFuncletPrologEpilogInfo c2 old2 = Some fi2 ->
  fiCallerSP_to_PSP_slot_delta fi1 = fiCallerSP_to_PSP_slot_delta fi2
  /\ fiCallerSP_to_PSP_slot_delta fi1
     = if genSaveFpLrWithAllCalleeSavedRegisters c1
       then - saveRegsPlusPSPSize c1
       else 2 * REGSIZE_BYTES - saveRegsPlusPSPSize c1.
Proof.
  intros He1 He2 Hm Hmask Hpsp Hva Hmode H1 H2.
  assert (Hval : forall c old fi,
            ehAnyFunclets c = true -> (rsMaskCalleeSaved c < 2 ^ 64)%N ->
            genCaptureFuncletPrologEpilogInfo c old = Some fi ->
            fiCallerSP_to_PSP_slot_delta fi
            = if genSaveFpLrWithAllCalleeSavedRegisters c
              then - saveRegsPlusPSPSize c
              else 2 * REGSIZE_BYTES - saveRegsPlusPSPSize c).
  { intros c old fi He Hmc H. unfold genCaptureFuncletPrologEpilogInfo in H.
    rewrite He in H. simpl negb in H. cbv iota in H.
    destruct (negb _); [discriminate|].
    destruct (funcletFrameShape c)
      as [[[[[[fplr psp] callerPsp] frameType] d1] d2]|] eqn:Hshape;
      [|discriminate].
    destruct (_ && _) in H; [|discriminate].
    injection H as <-. simpl.
    eapply funcletFrameShape_callerPsp; eassumption. }
  rewrite (Hval c1 old1 fi1 He1 Hm H1).
  rewrite (Hval c2 old2 fi2 He2 ltac:(rewrite <- Hmask; exact Hm) H2).
  split; [|reflexivity].
  unfold saveRegsPlusPSPSize. rewrite Hmask, Hpsp, Hva, Hmode. reflexivity.
Qed.

Section FrameLayoutTotal.

Variable c : FrameInputs.
Hypothesis Hok : FrameInputsOK c.

(** The sizes computed for well-formed inputs, free of wrap-around. *)
Lemma frame_sizes :
  16 <= saveRegsPlusPSPSize c <= 232
  /\ saveRegsPlusPSPSize c mod 8 = 0
  /\ (compIsVarArgs c = true -> 80 <= saveRegsPlusPSPSize c)
  /\ saveRegsPlusPSPSizeAligned c = 16 * ((saveRegsPlusPSPSize c + 15) / 16)
  /\ outgoingArgSpaceAligned c = 16 * ((lvaOutgoingArgSpaceSize c + 15) / 16)
  /\ maxFuncletFrameSizeAligned c
     = saveRegsPlusPSPSizeAligned c + outgoingArgSpaceAligned c
  /\ funcletFrameSize c = saveRegsPlusPSPSize c + lvaOutgoingArgSpaceSize c
  /\ funcletFrameSizeAligned c = 16 * ((funcletFrameSize c + 15) / 16).
Proof.
  destruct Hok as (_ & _ & _ & Hlr & Hfp & Hsub & Ho & Ho8 & _).
  pose proof (genCountBits_FP_LR _ Hlr Hfp) as Hk2.
  pose proof (genCountBits_callee_saved _ Hsub) as Hk20.
  assert (Hm : (rsMaskCalleeSaved c < 2 ^ 64)%N).
  { rewrite <- Hsub. eapply N.le_lt_trans; [apply N.land_le_r|]. reflexivity. }
  pose proof (saveRegsPlusPSPSize_value c Hm) as HS.
  assert (HSr : 16 <= saveRegsPlusPSPSize c <= 232)
    by (rewrite HS; destruct (lvaPSPSym_isUsed c), (compIsVarArgs c); lia).
  assert (HS8 : saveRegsPlusPSPSize c mod 8 = 0).
  { rewrite HS. destruct (lvaPSPSym_isUsed c), (compIsVarArgs c);
      Z.div_mod_to_equations; lia. }
  assert (HSA : saveRegsPlusPSPSizeAligned c
                = 16 * ((saveRegsPlusPSPSize c + 15) / 16)).
  { unfold saveRegsPlusPSPSizeAligned, STACK_ALIGN.
    destruct (roundUp_16 (saveRegsPlusPSPSize c)) as [[_ ->]|[Hge _]];
      unfold in_u32; lia. }
  assert (HOA : outgoingArgSpaceAligned c
                = 16 * ((lvaOutgoingArgSpaceSize c + 15) / 16)).
  { unfold outgoingArgSpaceAligned, STACK_ALIGN.
    destruct (roundUp_16 (lvaOutgoingArgSpaceSize c)) as [[_ ->]|[Hge _]];
      unfold in_u32; lia. }
  assert (HFS : funcletFrameSize c
                = saveRegsPlusPSPSize c + lvaOutgoingArgSpaceSize c).
  { unfold funcletFrameSize. apply u32_small. unfold in_u32. lia. }
  repeat split; try lia; try assumption.
  - intros Hva. rewrite HS, Hva. destruct (lvaPSPSym_isUsed c); lia.
  - unfold maxFuncletFrameSizeAligned. apply u32_small. unfold in_u32.
    rewrite HSA, HOA. Z.div_mod_to_equations. lia.
  - unfold funcletFrameSizeAligned, STACK_ALIGN.
    destruct (roundUp_16 (funcletFrameSize c)) as [[_ ->]|[Hge _]];
      unfold in_u32; lia.
Qed.

(** The frame shape computed for well-formed inputs. *)
Lemma funcletFrameShape_succeeds :
  exists fplr psp callerPsp frameType d1 d2,
    funcletFrameShape c = Some (fplr, psp, callerPsp, frameType, d1, d2)
    /\ 0 <= fplr /\ 0 <= psp /\ 0 <= s32 (psp + REGSIZE_BYTES)
    /\ callerPsp <= 0.
Proof.
  destruct frame_sizes as (HSr & HS8 & Hva & HSA & HOA & HM & HFS & HFSA).
  destruct Hok as (_ & _ & _ & _ & _ & _ & Ho & Ho8 & _).
  unfold REGSIZE_BYTES in *. apply Z.rem_mod_eq_0 in Ho8; [|lia].
  unfold funcletFrameShape, funcletFrameAlignmentPad,
    saveRegsPlusPSPAlignmentPad, REGSIZE_BYTES, MAX_REG_ARG.
  set (S := saveRegsPlusPSPSize c) in *.
  set (SA := saveRegsPlusPSPSizeAligned c) in *.
  set (o := lvaOutgoingArgSpaceSize c) in *.
  set (OA := outgoingArgSpaceAligned c) in *.
  set (M := maxFuncletFrameSizeAligned c) in *.
  set (FS := funcletFrameSize c) in *.
  set (FSA := funcletFrameSizeAligned c) in *.
  assert (HSA' : S <= SA < S + 16) by (rewrite HSA; Z.div_mod_to_equations; lia).
  assert (HOA' : o <= OA < o + 16) by (rewrite HOA; Z.div_mod_to_equations; lia).
  assert (HFSA' : FS <= FSA < FS + 16) by (rewrite HFSA; Z.div_mod_to_equations; lia).
  assert (HSA16 : SA mod 16 = 0) by (rewrite HSA; Z.div_mod_to_equations; lia).
  assert (HFSA16 : FSA mod 16 = 0) by (rewrite HFSA; Z.div_mod_to_equations; lia).
  clear HSA HOA HFSA.
  destruct (M <=? 512) eqn:Hsmall.
  - assert (Hchk : (s32 (s32 (- s32 FSA) + 0) =? s32 (- s32 FSA)) = true).
    { apply Z.eqb_eq. unfold s32. Z.div_mod_to_equations. lia. }
    rewrite Hchk. simpl check. cbv iota.
    destruct (genSaveFpLrWithAllCalleeSavedRegisters c).
    + destruct (compIsVarArgs c) eqn:Hv.
      * specialize (Hva eq_refl).
        eexists _, _, _, _, _, _. split; [reflexivity|].
        unfold s32, u32. repeat split; Z.div_mod_to_equations; lia.
      * eexists _, _, _, _, _, _. split; [reflexivity|].
        unfold s32, u32. repeat split; Z.div_mod_to_equations; lia.
    + eexists _, _, _, _, _, _. split; [reflexivity|].
      unfold s32, u32. repeat split; Z.div_mod_to_equations; lia.
  - assert (Hpad : (u32 (SA - S) =? 0) || (u32 (SA - S) =? 8) = true).
    { apply orb_true_iff. rewrite !Z.eqb_eq. unfold u32.
      Z.div_mod_to_equations. lia. }
    rewrite Hpad. simpl check. cbv iota.
    assert (Hchk : (s32 (s32 (- s32 SA) + s32 (- s32 OA)) =? s32 (- s32 M))
                   = true).
    { apply Z.eqb_eq. unfold s32. Z.div_mod_to_equations. lia. }
    rewrite Hchk. simpl check. cbv iota.
    destruct (genSaveFpLrWithAllCalleeSavedRegisters c).
    + destruct (compIsVarArgs c) eqn:Hv.
      * specialize (Hva eq_refl).
        eexists _, _, _, _, _, _. split; [reflexivity|].
        unfold s32, u32. repeat split; Z.div_mod_to_equations; lia.
      * eexists _, _, _, _, _, _. split; [reflexivity|].
        unfold s32, u32. repeat split; Z.div_mod_to_equations; lia.
    + eexists _, _, _, _, _, _. split; [reflexivity|].
      unfold s32, u32. repeat split; Z.div_mod_to_equations; lia.
Qed.

End FrameLayoutTotal.

(** The classifier completes on well-formed inputs. *)
Lemma genCaptureFuncletPrologEpilogInfo_succeeds (c : FrameInputs)
    (old : FuncletFrameInfoDsc) :
  FrameInputsOK c ->
  exists fi, genCaptureFuncletPrologEpilogInfo c old = Some fi.
Proof.
  intros Hok.
  destruct (frame_sizes c Hok) as (HSr & HS8 & Hva & HSA & HOA & HM & HFS & HFSA).
  destruct (funcletFrameShape_succeeds c Hok)
    as (fplr & psp & callerPsp & frameType & d1 & d2 & Hshape
        & H1 & H2 & H3 & H4).
  pose proof Hok as (He & Hfpu & Hfin & Hlr & Hfp & Hsub & Ho & Ho8 & Hpsp).
  assert (Hm : (rsMaskCalleeSaved c < 2 ^ 64)%N).
  { rewrite <- Hsub. eapply N.le_lt_trans; [apply N.land_le_r|]. reflexivity. }
  pose proof (funcletFrameShape_callerPsp c _ _ _ _ _ _ Hm Hshape) as Hcaller.
  unfold genCaptureFuncletPrologEpilogInfo.
  rewrite He, Hfpu, Hfin. simpl negb. cbv iota. simpl andb.
  apply N.eqb_neq in Hlr, Hfp. rewrite Hlr, Hfp. simpl negb. simpl andb.
  apply Z.eqb_eq in Ho8. rewrite Ho8. simpl andb.
  assert (A1 : (Z.rem (maxFuncletFrameSizeAligned c) STACK_ALIGN =? 0) = true).
  { apply Z.eqb_eq. unfold STACK_ALIGN. apply Z.rem_mod_eq_0; [lia|].
    rewrite HM, HSA, HOA. Z.div_mod_to_equations. lia. }
  assert (A2 : (funcletFrameSizeAligned c <=? maxFuncletFrameSizeAligned c)
               = true).
  { apply Z.leb_le. apply Z.eqb_eq in Ho8. unfold REGSIZE_BYTES in Ho8.
    apply Z.rem_mod_eq_0 in Ho8; [|lia].
    rewrite HM, HSA, HOA, HFSA, HFS. Z.div_mod_to_equations. lia. }
  assert (A3 : (funcletFrameAlignmentPad c =? 0)
               || (funcletFrameAlignmentPad c =? REGSIZE_BYTES) = true).
  { apply orb_true_iff. rewrite !Z.eqb_eq.
    apply Z.eqb_eq in Ho8. unfold REGSIZE_BYTES in *.
    apply Z.rem_mod_eq_0 in Ho8; [|lia].
    unfold funcletFrameAlignmentPad. rewrite HFSA, HFS. unfold u32.
    Z.div_mod_to_equations. lia. }
  rewrite A1, A2, A3. simpl negb. cbv iota.
  rewrite Hshape. simpl.
  apply Z.leb_le in H1, H2, H3, H4. rewrite H1, H2, H3, H4. simpl andb.
  destruct (lvaPSPSym_isUsed c) eqn:Hused; simpl.
  - rewrite (Hpsp eq_refl), <- Hcaller, Z.eqb_refl. eauto.
  - eauto.
Qed.

Lemma genCaptureFuncletPrologEpilogInfo_CallerSP_to_PSP_invariant_witness :
  genCaptureFuncletPrologEpilogInfo (sampleFrameInputs 0 false (-16))
    emptyFuncletInfo
  = Some (mkFuncletInfo 0x60080000%N 0 0 16 24 (-16) 1 (-32) 0)
  /\ genCaptureFuncletPrologEpilogInfo (sampleFrameInputs 1024 false (-16))
       emptyFuncletInfo
     = Some (mkFuncletInfo 0x60080000%N 0 1024 1040 1048 (-16) 3 (-32) (-1024))
  /\ (-16 = -16
      /\ -16 = 2 * REGSIZE_BYTES
               - saveRegsPlusPSPSize (sampleFrameInputs 0 false (-16))).
Proof.
  assert (H1 : genCaptureFuncletPrologEpilogInfo
                 (sampleFrameInputs 0 false (-16)) emptyFuncletInfo
               = Some (mkFuncletInfo 0x60080000%N 0 0 16 24 (-16) 1 (-32) 0))
    by reflexivity.
  assert (H2 : genCaptureFuncletPrologEpilogInfo
                 (sampleFrameInputs 1024 false (-16)) emptyFuncletInfo
               = Some (mkFuncletInfo 0x60080000%N 0 1024 1040 1048 (-16) 3
                         (-32) (-1024)))
    by reflexivity.
  split; [exact H1|]. split; [exact H2|].
  exact (genCaptureFuncletPrologEpilogInfo_CallerSP_to_PSP_invariant
           (sampleFrameInputs 0 false (-16))
           (sampleFrameInputs 1024 false (-16))
           emptyFuncletInfo emptyFuncletInfo _ _
           eq_refl eq_refl eq_refl eq_refl eq_refl eq_refl eq_refl H1 H2).
Defined.

(** C1 as stated fails: with the same saved registers (FP, LR, x19), no
    outgoing-argument space and no varargs, the branch that saves FP/LR
    separately (frame type 1) puts the PSP slot 16 bytes below the caller's
    SP, the branch that saves FP/LR with all callee-saved registers (frame
    type 4) puts it 32 bytes below. *)
Lemma genCaptureFuncletPrologEpilogInfo_CallerSP_to_PSP_counterexample :
  exists fi1 fi4,
    genCaptureFuncletPrologEpilogInfo (sampleFrameInputs 0 false (-16))
      emptyFuncletInfo = Some fi1
    /\ genCaptureFuncletPrologEpilogInfo (sampleFrameInputs 0 true (-32))
         emptyFuncletInfo = Some fi4
    /\ fiFrameType fi1 = 1 /\ fiFrameType fi4 = 4
    /\ fiCallerSP_to_PSP_slot_delta fi1 = -16
    /\ fiCallerSP_to_PSP_slot_delta fi4 = -32
    /\ fiCallerSP_to_PSP_slot_delta fi1 <> fiCallerSP_to_PSP_slot_delta fi4.
Proof.
  exists (mkFuncletInfo 0x60080000%N 0 0 16 24 (-16) 1 (-32) 0),
         (mkFuncletInfo 0x60080000%N 0 16 0 8 (-32) 4 (-32) 0).
  split; [reflexivity|]. split; [reflexivity|].
  simpl. repeat split; lia.
Qed.

(** C4.  For a function with funclets whose saved registers are
    callee-saved ones, FP and LR, whenever the classifier completes: it
    makes a single SP adjustment ([fiSpDelta2 = 0] and [fiSpDelta1] minus
    the aligned funclet frame size) exactly when the maximum aligned frame
    size is at most 512; otherwise it makes two, the first by the aligned
    size of the saved registers and PSP slot, the second by the aligned
    outgoing-argument size, both nonzero; and in either case the two
    deltas sum to minus the total aligned size of the frame of that shape
    (the aligned funclet frame size of a small frame, the sum of the two
    aligned parts of a large one). *)
Theorem genCaptureFuncletPrologEpilogInfo_SP_deltas (c : FrameInputs)
    (old fi : FuncletFrameInfoDsc) :
  ehAnyFunclets c = true ->
  N.land (rsMaskCalleeSaved c)
    (N.lor RBM_CALLEE_SAVED (N.lor RBM_FP RBM_LR)) = rsMaskCalleeSaved c ->
  in_u32 (lvaOutgoingArgSpaceSize c) ->
  genCaptureFuncletPrologEpilogInfo c old = Some fi ->
  ((fiSpDelta2 fi = 0 /\ fiSpDelta1 fi = - funcletFrameSizeAligned c)
   <-> maxFuncletFrameSizeAligned c <= 512)
  /\ (512 < maxFuncletFrameSizeAligned c ->
      fiSpDelta1 fi = - saveRegsPlusPSPSizeAligned c
      /\ fiSpDelta2 fi = - outgoingArgSpaceAligned c
      /\ fiSpDelta1 fi < 0 /\ fiSpDelta2 fi < 0)
  /\ fiSpDelta1 fi + fiSpDelta2 fi
     = - (if maxFuncletFrameSizeAligned c <=? 512
          then funcletFrameSizeAligned c
          else saveRegsPlusPSPSizeAligned c + outgoingArgSpaceAligned c).
Proof.
  intros He Hsub Ho H.
  unfold genCaptureFuncletPrologEpilogInfo in H.
  rewrite He in H. simpl negb in H. cbv iota in H.
  destruct (negb _) eqn:Hasserts in H; [discriminate|].
  apply negb_false_iff in Hasserts.
  repeat (apply andb_true_iff in Hasserts as [Hasserts ?]).
  match goal with
  | Hlr : negb (N.land _ RBM_LR =? 0)%N = true,
    Hfp : negb (N.land _ RBM_FP =? 0)%N = true,
    Ho8 : (Z.rem (lvaOutgoingArgSpaceSize c) REGSIZE_BYTES =? 0) = true,
    Hle : (funcletFrameSizeAligned c <=? maxFuncletFrameSizeAligned c) = true,
    Hpad : (_ || _) = true |- _ =>
      apply negb_true_iff, N.eqb_neq in Hlr, Hfp;
      apply Z.eqb_eq in Ho8; apply Z.leb_le in Hle;
      apply orb_true_iff in Hpad; rewrite !Z.eqb_eq in Hpad;
      pose proof (genCountBits_FP_LR _ Hlr Hfp) as Hk2;
      rename Ho8 into Ho8', Hle into Hle', Hpad into Hpad'
  end.
  pose proof (genCountBits_callee_saved _ Hsub) as Hk20.
  assert (Hm : (rsMaskCalleeSaved c < 2 ^ 64)%N).
  { rewrite <- Hsub. eapply N.le_lt_trans; [apply N.land_le_r|]. reflexivity. }
  pose proof (saveRegsPlusPSPSize_value c Hm) as HS.
  assert (HSr : 16 <= saveRegsPlusPSPSize c <= 232)
    by (rewrite HS; destruct (lvaPSPSym_isUsed c), (compIsVarArgs c); lia).
  assert (HS8 : saveRegsPlusPSPSize c mod 8 = 0).
  { rewrite HS. destruct (lvaPSPSym_isUsed c), (compIsVarArgs c);
      Z.div_mod_to_equations; lia. }
  clear HS Hk2 Hk20 Hm.
  unfold REGSIZE_BYTES in *. apply Z.rem_mod_eq_0 in Ho8'; [|lia].
  assert (HSA : saveRegsPlusPSPSize c <= saveRegsPlusPSPSizeAligned c
                < saveRegsPlusPSPSize c + 16
                /\ saveRegsPlusPSPSizeAligned c mod 16 = 0).
  { unfold saveRegsPlusPSPSizeAligned, STACK_ALIGN.
    destruct (roundUp_16 (saveRegsPlusPSPSize c)) as [[_ ->]|[Hge _]];
      unfold in_u32; try lia. Z.div_mod_to_equations. lia. }
  pose proof (roundUp_16 _ Ho) as HOA.
  pose proof (roundUp_16 _ (u32_range (saveRegsPlusPSPSize c
                                        + lvaOutgoingArgSpaceSize c))) as HFSA.
  assert (HFS : funcletFrameSize c
                = u32 (saveRegsPlusPSPSize c + lvaOutgoingArgSpaceSize c))
    by reflexivity.
  assert (HM : maxFuncletFrameSizeAligned c
               = u32 (saveRegsPlusPSPSizeAligned c + outgoingArgSpaceAligned c))
    by reflexivity.
  unfold funcletFrameAlignmentPad in Hpad'.
  destruct (funcletFrameShape c)
    as [[[[[[fplr psp] callerPsp] frameType] d1] d2]|] eqn:Hshape;
    [|discriminate].
  destruct (_ && _) eqn:Hdebug in H; [|discriminate].
  injection H as <-. simpl.
  repeat (apply andb_true_iff in Hdebug as [Hdebug ?]).
  match goal with
  | D1 : (0 <=? _) = true, D2 : (0 <=? _) = true,
    D3 : (_ <=? 0) = true |- _ =>
      simpl in Hdebug, D1, D2, D3;
      apply Z.leb_le in Hdebug, D1, D2, D3;
      rename D1 into Hd1, D2 into Hd2, D3 into Hd3
  end.
  unfold funcletFrameShape, funcletFrameAlignmentPad,
    saveRegsPlusPSPAlignmentPad, REGSIZE_BYTES, MAX_REG_ARG in Hshape.
  change (roundUp (lvaOutgoingArgSpaceSize c) 16)
    with (outgoingArgSpaceAligned c) in HOA.
  change (roundUp (u32 (saveRegsPlusPSPSize c + lvaOutgoingArgSpaceSize c)) 16)
    with (funcletFrameSizeAligned c) in HFSA.
  rewrite <- HFS in HFSA.
  set (S := saveRegsPlusPSPSize c) in *.
  set (SA := saveRegsPlusPSPSizeAligned c) in *.
  set (o := lvaOutgoingArgSpaceSize c) in *.
  set (OA := outgoingArgSpaceAligned c) in *.
  set (M := maxFuncletFrameSizeAligned c) in *.
  set (FS := funcletFrameSize c) in *.
  set (FSA := funcletFrameSizeAligned c) in *.
  unfold in_u32 in Ho.
  destruct HSA as [HSA HSA16].
  destruct (M <=? 512) eqn:Hsmall;
    [apply Z.leb_le in Hsmall|apply Z.leb_gt in Hsmall].
  - assert (Hd : d1 = s32 (- s32 FSA) /\ d2 = 0).
    { destruct (genSaveFpLrWithAllCalleeSavedRegisters c);
        cbv beta iota zeta in Hshape;
        destruct (check _) in Hshape; try discriminate;
        injection Hshape as _ _ _ _ <- <-; auto. }
    destruct Hd as [-> ->]. clear Hshape.
    assert (HFSAr : 0 <= FSA <= 512).
    { destruct HFSA as [[_ ->]|[_ ->]]; [|lia].
      split; [|lia]. unfold u32 in HFS. Z.div_mod_to_equations. lia. }
    assert (Hval : s32 (- s32 FSA) = - FSA)
      by (unfold s32; Z.div_mod_to_equations; lia).
    rewrite Hval. repeat split; try lia.
  - destruct (check _) in Hshape; [|discriminate].
    assert (Hd : d1 = s32 (- s32 SA) /\ d2 = s32 (- s32 OA)
                 /\ (fplr = s32 OA
                     \/ psp = s32 (u32 (u32 (o + u32 (FSA - FS))
                                         + u32 (SA - S))))).
    { destruct (genSaveFpLrWithAllCalleeSavedRegisters c);
        cbv beta iota zeta in Hshape;
        destruct (check _) in Hshape; try discriminate;
        injection Hshape as <- <- _ _ <- <-; auto. }
    destruct Hd as (-> & -> & Hwhich). clear Hshape.
    assert (Hval1 : s32 (- s32 SA) = - SA)
      by (unfold s32; Z.div_mod_to_equations; lia).
    assert (HOAr : 0 < OA < 2 ^ 31 /\ M = SA + OA).
    { clear Hval1 H2 Hd2 Hd3.
      destruct Hwhich as [-> | ->].
      - destruct HOA as [[HOA1 HOA2]|[HOA1 HOA2]];
          unfold u32, s32 in *; Z.div_mod_to_equations; lia.
      - destruct HOA as [[HOA1 HOA2]|[HOA1 HOA2]];
          destruct HFSA as [[HF1 HF2]|[HF1 HF2]];
          destruct Hpad' as [Hpad'|Hpad'];
          unfold u32, s32 in *; Z.div_mod_to_equations; lia. }
    destruct HOAr as [HOAr HMv].
    assert (Hval2 : s32 (- s32 OA) = - OA)
      by (unfold s32; Z.div_mod_to_equations; lia).
    rewrite Hval1, Hval2. repeat split; try lia.
Qed.

Lemma genCaptureFuncletPrologEpilogInfo_SP_deltas_witness :
  (ehAnyFunclets (sampleFrameInputs 1024 false (-16)) = true
   /\ N.land (rsMaskCalleeSaved (sampleFrameInputs 1024 false (-16)))
        (N.lor RBM_CALLEE_SAVED (N.lor RBM_FP RBM_LR))
      = rsMaskCalleeSaved (sampleFrameInputs 1024 false (-16))
   /\ in_u32 (lvaOutgoingArgSpaceSize (sampleFrameInputs 1024 false (-16)))
   /\ genCaptureFuncletPrologEpilogInfo (sampleFrameInputs 1024 false (-16))
        emptyFuncletInfo
      = Some (mkFuncletInfo 0x60080000%N 0 1024 1040 1048 (-16) 3 (-32)
                (-1024)))
  /\ (-32) + (-1024)
     = - (if maxFuncletFrameSizeAligned (sampleFrameInputs 1024 false (-16))
             <=? 512
          then funcletFrameSizeAligned (sampleFrameInputs 1024 false (-16))
          else saveRegsPlusPSPSizeAligned (sampleFrameInputs 1024 false (-16))
               + outgoingArgSpaceAligned (sampleFrameInputs 1024 false (-16))).
Proof.
  assert (H1 : ehAnyFunclets (sampleFrameInputs 1024 false (-16)) = true)
    by reflexivity.
  assert (H2 : N.land (rsMaskCalleeSaved (sampleFrameInputs 1024 false (-16)))
                 (N.lor RBM_CALLEE_SAVED (N.lor RBM_FP RBM_LR))
               = rsMaskCalleeSaved (sampleFrameInputs 1024 false (-16)))
    by reflexivity.
  assert (H3 : in_u32 (lvaOutgoingArgSpaceSize
                         (sampleFrameInputs 1024 false (-16))))
    by (unfold in_u32; simpl; lia).
  assert (H4 : genCaptureFuncletPrologEpilogInfo
                 (sampleFrameInputs 1024 false (-16)) emptyFuncletInfo
               = Some (mkFuncletInfo 0x60080000%N 0 1024 1040 1048 (-16) 3
                         (-32) (-1024)))
    by reflexivity.
  split; [auto|].
  exact (proj2 (proj2 (genCaptureFuncletPrologEpilogInfo_SP_deltas
                         (sampleFrameInputs 1024 false (-16)) emptyFuncletInfo
                         _ H1 H2 H3 H4))).
Defined.

(** ** Integer division *)

(** C7.  For a signed integer divide node (not flag-setting, with a result
    register): when the divisor is not a constant, [genCodeForDivMod]
    emits the compare of the divisor with 0 and the branch to the
    divide-by-zero trap, then the overflow guard - the compare of the
    divisor with -1, the skip to the divide, the self-add of the dividend
    that sets the overflow flag, again the skip, and the branch to the
    arithmetic-exception trap - and then the divide; when the divisor is a
    constant other than 0 and -1 it emits the divide alone. *)
Theorem genCodeForDivMod_signed_guards (tree : GenTreeOp) (n : label) :
  gtOper (gtNode tree) = GT_DIV ->
  varTypeIsFloating (gtType (gtNode tree)) = false ->
  gtSetFlags (gtNode tree) = false ->
  gtRegNum (gtNode tree) <> REG_NA ->
  let size := EA_ATTR (genTypeSize (gtType (gtNode tree))) in
  let divisorReg := gtRegNum (gtOp2 tree) in
  let dividendReg := gtRegNum (gtOp1 tree) in
  let divide :=
    [Emit (emitInsTernary INS_sdiv (emitActualTypeSize (gtNode tree))
             (gtRegNum (gtNode tree)) dividendReg divisorReg);
     genProduceReg (gtTreeID (gtNode tree))] in
  (IsCnsIntOrI (gtOp2 tree) = false ->
   genCodeForDivMod tree n
   = Some (tt,
           [genConsumeOperands (gtTreeID (gtNode tree));
            Emit (emitIns_R_I INS_cmp size divisorReg 0);
            genJumpToThrowHlpBlk EJ_eq SCK_DIV_BY_ZERO;
            Emit (emitIns_R_I INS_cmp size divisorReg (-1));
            inst_JMP EJ_ne n;
            Emit (emitIns_R_R_R INS_adds size REG_ZR dividendReg dividendReg);
            inst_JMP EJ_ne n;
            genJumpToThrowHlpBlk EJ_vs SCK_ARITH_EXCPN;
            genDefineTempLabel n] ++ divide,
           Datatypes.S n))
  /\ (IsCnsIntOrI (gtOp2 tree) = true ->
      gtIconVal (gtOp2 tree) <> 0 -> gtIconVal (gtOp2 tree) <> -1 ->
      genCodeForDivMod tree n
      = Some (tt, genConsumeOperands (gtTreeID (gtNode tree)) :: divide,
              Datatypes.S n)).
Proof.
  intros Hoper Hint Hflags Hreg size divisorReg dividendReg divide.
  assert (Hbin : forall m,
            genCodeForBinary tree m = Some (tt, divide, m)).
  { intros m. unfold genCodeForBinary, OperIs, genGetInsForOper.
    rewrite Hoper, Hint, Hflags. apply N.eqb_neq in Hreg.
    unfold bind, assert, ret, emit, tell. simpl. rewrite Hreg. simpl.
    rewrite N.eqb_refl. reflexivity. }
  unfold genCodeForDivMod, OperIs, IsIntegralConst.
  rewrite Hoper, Hint. fold size divisorReg dividendReg.
  split.
  - intros Hcns. rewrite Hcns. simpl.
    unfold bind, assert, ret, emit, tell, genCreateTempLabel. simpl.
    rewrite Hbin. reflexivity.
  - intros Hcns H0 H1. rewrite Hcns.
    apply Z.eqb_neq in H0, H1. rewrite H0, H1. simpl.
    unfold bind, assert, ret, emit, tell, genCreateTempLabel. simpl.
    rewrite Hbin. reflexivity.
Qed.

Lemma genCodeForDivMod_signed_guards_witness :
  (gtOper (mkGenTree 1 GT_DIV TYP_INT REG_R0 0 false false 0%N) = GT_DIV
   /\ varTypeIsFloating TYP_INT = false
   /\ REG_R0 <> REG_NA)
  /\ genCodeForDivMod
       (mkGenTreeOp (mkGenTree 1 GT_DIV TYP_INT REG_R0 0 false false 0%N)
          (mkGenTree 2 GT_LCL_VAR TYP_INT REG_R1 0 false false 0%N)
          (mkGenTree 3 GT_CNS_INT TYP_INT REG_R2 7 false false 0%N)) 0%nat
     = Some (tt,
             [genConsumeOperands 1;
              Emit (emitInsTernary INS_sdiv EA_4BYTE REG_R0 REG_R1 REG_R2);
              genProduceReg 1], 1%nat).
Proof.
  assert (H1 : gtOper (mkGenTree 1 GT_DIV TYP_INT REG_R0 0 false false 0%N)
               = GT_DIV) by reflexivity.
  assert (H2 : varTypeIsFloating TYP_INT = false) by reflexivity.
  assert (H3 : REG_R0 <> REG_NA) by discriminate.
  split; [auto|].
  refine (proj2 (genCodeForDivMod_signed_guards
                   (mkGenTreeOp
                      (mkGenTree 1 GT_DIV TYP_INT REG_R0 0 false false 0%N)
                      (mkGenTree 2 GT_LCL_VAR TYP_INT REG_R1 0 false false 0%N)
                      (mkGenTree 3 GT_CNS_INT TYP_INT REG_R2 7 false false 0%N))
                   0%nat H1 H2 eq_refl H3) eq_refl _ _); simpl; lia.
Defined.

(** ** Atomic retry loops and the GC mark *)


(** ** Atomics *)

Lemma genCreateTempLabel_inv n l t n' :
  genCreateTempLabel n = Some (l, t, n') -> l = n /\ t = [] /\ n' = Datatypes.S n.
Proof. unfold genCreateTempLabel. intros [= <- <- <-]. auto. Qed.

Lemma ExtractTempReg_inv node mask n a t n' :
  ExtractTempReg node mask n = Some (a, t, n') -> t = [] /\ n' = n.
Proof.
  unfold ExtractTempReg. intros H.
  apply bind_inv in H as (u & t1 & n1 & t2 & Ha & H & ->).
  apply assert_inv in Ha as (_ & -> & ->).
  apply ret_inv in H as (_ & -> & ->). auto.
Qed.

(** One step of inversion of a completed run: the first call of a sequence
    is split off and, when it is a primitive, resolved. *)
Ltac gen_inv1 H :=
  let a := fresh "a" in
  let t1 := fresh "t" in
  let n1 := fresh "n" in
  let t2 := fresh "t" in
  let H1 := fresh "Hrun" in
  let Ht := fresh "Ht" in
  apply bind_inv in H as (a & t1 & n1 & t2 & H1 & H & Ht);
  unfold emit, unwind, gcInfo in H1;
  first
    [ apply assert_inv in H1 as (H1 & ? & ?)
    | apply tell_inv in H1 as (? & ?)
    | apply ret_inv in H1 as (? & ? & ?)
    | apply genCreateTempLabel_inv in H1 as (? & ? & ?)
    | apply ExtractTempReg_inv in H1 as (? & ?)
    | idtac ];
  subst.

Section Atomics.

Context {E : Emitter}.
Variable compReloc : bool.

(** With no scratch register, [genInstrWithConstant] completes only by
    emitting the one instruction with the immediate embedded. *)
Lemma genInstrWithConstant_no_scratch ins attr reg1 reg2 imm inUnwind n b t n' :
  genInstrWithConstant compReloc ins attr reg1 reg2 imm REG_NA inUnwind n
  = Some (b, t, n') ->
  exists c, t = [Emit c].
Proof.
  intros H. destruct (genInstrWithConstant_calls _ _ _ _ _ _ _ _ _ _ _ _ H)
    as [Hfit Hfallback].
  destruct b.
  - destruct (Hfit eq_refl) as (ins' & imm' & ->). eauto.
  - destruct (Hfallback eq_refl) as [Hna _]. exfalso. apply Hna. reflexivity.
Qed.

Lemma genLockedInstructions_gcMarkedAcross (treeNode : GenTreeOp) (n : label)
    (u : unit) (t : list event) (n' : label) :
  genLockedInstructions compReloc false treeNode n = Some (u, t, n') ->
  gcMarkedAcross (gtRegNum (gtOp1 treeNode)) (gtType (gtOp1 treeNode))
    (gtGetRegMask (gtOp1 treeNode)) t.
Proof.
  unfold genLockedInstructions. intros H.
  gen_inv1 H. gen_inv1 H. gen_inv1 H.
  match goal with
  | |- gcMarkedAcross _ _ _ (_ ++ _ ++ _ ++ ?post) =>
      assert (Hpost : post = []
                      \/ post = [genProduceReg (gtTreeID (gtNode treeNode))])
  end.
  { destruct (negb _) in H.
    - apply tell_inv in H as (-> & _). auto.
    - apply ret_inv in H as (_ & -> & _). auto. }
  clear H. rename Hrun into H.
  gen_inv1 H.
  match type of H with
  | (let '(_, _) := ?a in _) _ = _ => destruct a as [exResultReg node1]
  end.
  gen_inv1 H.
  match type of H with
  | (let '(_, _) := ?a in _) _ = _ => destruct a as [storeDataReg node2]
  end.
  assert (t = []) as ->.
  { destruct (bool_decide _) in Hrun.
    - apply ret_inv in Hrun as (_ & -> & _). reflexivity.
    - apply ExtractTempReg_inv in Hrun as (-> & _). reflexivity. }
  clear Hrun.
  do 11 gen_inv1 H.
  do 4 gen_inv1 H.
  gen_inv1 H.
  match goal with
  | Hm : match gtOper (gtNode treeNode) with _ => _ end _ = Some (_, ?mid, _)
    |- _ =>
      assert (Hmid : mid = [] \/ exists c, mid = [Emit c]);
      [|clear Hm]
  end.
  { match goal with
    | Hm : match gtOper (gtNode treeNode) with _ => _ end _ = Some _ |- _ =>
        destruct (gtOper (gtNode treeNode));
        try (unfold bind, assert in Hm; simpl in Hm; discriminate);
        gen_inv1 Hm; apply ret_inv in Hm as (_ & -> & _);
        rewrite app_nil_r
    end.
    - right.
      match goal with
      | Hc : (if isContainedIntOrIImmed _ then _ else _) _ = Some _ |- _ =>
          destruct (isContainedIntOrIImmed (gtOp2 treeNode));
          [gen_inv1 Hc; apply ret_inv in Hc as (_ & -> & _);
           rewrite app_nil_r;
           eapply genInstrWithConstant_no_scratch; eassumption
          |apply tell_inv in Hc as (-> & _); eauto]
      end.
    - left. reflexivity. }
  do 3 gen_inv1 H. apply tell_inv in H as (-> & _).
  unfold gcMarkedAcross.
  destruct Hmid as [-> | [c ->]]; destruct Hpost as [-> | ->]; simpl;
    repeat split; try reflexivity; lia.
Qed.

Lemma genCodeForCmpXchg_gcMarkedAcross (treeNode : GenTreeCmpXchg)
    (n : label) (u : unit) (t : list event) (n' : label) :
  genCodeForCmpXchg false treeNode n = Some (u, t, n') ->
  gcMarkedAcross (gtRegNum (gtOpLocation treeNode))
    (gtType (gtOpLocation treeNode)) (gtGetRegMask (gtOpLocation treeNode)) t.
Proof.
  unfold genCodeForCmpXchg. intros H.
  do 5 gen_inv1 H. apply tell_inv in H as (-> & _).
  rename Hrun0 into H.
  gen_inv1 H.
  match type of H with
  | (let '(_, _) := ?a in _) _ = _ => destruct a as [exResultReg node1]
  end.
  do 12 gen_inv1 H.
  do 5 gen_inv1 H.
  gen_inv1 H.
  match goal with
  | Hc : (if isContainedIntOrIImmed _ then _ else _) _ = Some (_, ?mid, _)
    |- _ =>
      assert (Hmid : (exists c, mid = [Emit c])
                     \/ exists c1 c2, mid = [Emit c1; Emit c2]);
      [|clear Hc]
  end.
  { match goal with
    | Hc : (if isContainedIntOrIImmed _ then _ else _) _ = Some _ |- _ =>
        destruct (isContainedIntOrIImmed (gtOpComparand treeNode));
        [destruct (IsIntegralConst (gtOpComparand treeNode) 0);
         [apply tell_inv in Hc as (-> & _); eauto
         |gen_inv1 Hc; apply tell_inv in Hc as (-> & _); eauto]
        |gen_inv1 Hc; apply tell_inv in Hc as (-> & _); eauto]
    end. }
  do 4 gen_inv1 H. apply tell_inv in H as (-> & _).
  unfold gcMarkedAcross.
  destruct Hmid as [[c ->] | (c1 & c2 & ->)]; simpl;
    repeat split; try reflexivity; lia.
Qed.

(** C9.  On the path without native atomics, every completed run of
    [genLockedInstructions] (exchange, add) and of [genCodeForCmpXchg]
    (compare-and-swap) marks the address register as a GC pointer before
    it emits anything, makes no other GC call until it unmarks the
    register, and unmarks it right after the trailing memory fence, after
    which it emits nothing: the mark spans the whole retry loop. *)
Theorem atomics_address_register_gcMarkedAcross :
  (forall (treeNode : GenTreeOp) (n : label) (u : unit) (t : list event)
          (n' : label),
      genLockedInstructions compReloc false treeNode n = Some (u, t, n') ->
      gcMarkedAcross (gtRegNum (gtOp1 treeNode)) (gtType (gtOp1 treeNode))
        (gtGetRegMask (gtOp1 treeNode)) t)
  /\ (forall (treeNode : GenTreeCmpXchg) (n : label) (u : unit)
             (t : list event) (n' : label),
         genCodeForCmpXchg false treeNode n = Some (u, t, n') ->
         gcMarkedAcross (gtRegNum (gtOpLocation treeNode))
           (gtType (gtOpLocation treeNode))
           (gtGetRegMask (gtOpLocation treeNode)) t).
Proof.
  split.
  - apply genLockedInstructions_gcMarkedAcross.
  - apply genCodeForCmpXchg_gcMarkedAcross.
Qed.

End Atomics.

Lemma atomics_address_register_gcMarkedAcross_witness :
  (genLockedInstructions (E := Arm64Emitter.emitter) false false sampleXadd
     0%nat = Some (tt, sampleXaddCalls, 1%nat)
   /\ gcMarkedAcross REG_R1 TYP_BYREF (genRegMask REG_R1) sampleXaddCalls)
  /\ (genCodeForCmpXchg false sampleCmpXchg 0%nat
      = Some (tt, sampleCmpXchgCalls, 2%nat)
      /\ gcMarkedAcross REG_R1 TYP_BYREF (genRegMask REG_R1)
           sampleCmpXchgCalls).
Proof.
  split; split; try reflexivity.
  - exact (proj1 (atomics_address_register_gcMarkedAcross
                    (E := Arm64Emitter.emitter) false)
             sampleXadd 0%nat tt sampleXaddCalls 1%nat eq_refl).
  - exact (proj2 (atomics_address_register_gcMarkedAcross
                    (E := Arm64Emitter.emitter) false)
             sampleCmpXchg 0%nat tt sampleCmpXchgCalls 2%nat eq_refl).
Defined.
(** ** The frame descriptor on well-formed inputs *)

(** What a completed run of the classifier stored. *)
Lemma genCaptureFuncletPrologEpilogInfo_inv (c : FrameInputs)
    (old fi : FuncletFrameInfoDsc) :
  ehAnyFunclets c = true ->
  genCaptureFuncletPrologEpilogInfo c old = Some fi ->
  exists fplr psp callerPsp frameType d1 d2,
    funcletFrameShape c = Some (fplr, psp, callerPsp, frameType, d1, d2)
    /\ fi = mkFuncletInfo (rsMaskCalleeSaved c) (genCallerSPtoFPdelta c)
              fplr psp (s32 (psp + REGSIZE_BYTES)) callerPsp frameType d1 d2.
Proof.
  intros He. unfold genCaptureFuncletPrologEpilogInfo. rewrite He.
  simpl negb. cbv iota.
  destruct (negb _); [discriminate|].
  destruct (funcletFrameShape c)
    as [[[[[[fplr psp] callerPsp] frameType] d1] d2]|]; [|discriminate].
  destruct (_ && _); [|discriminate].
  intros [= <-]. eexists _, _, _, _, _, _. split; reflexivity.
Qed.

(** Equality of tuples of integers, component by component. *)
Ltac tuple_eq :=
  f_equal;
  repeat match goal with
  | |- (_, _) = (_, _) => apply pair_equal_spec; split
  end; lia.

Section FrameDescriptor.

Variable c : FrameInputs.
Hypothesis Hok : FrameInputsOK c.

(** The frame shape in exact arithmetic: no conversion wraps. *)
Lemma funcletFrameShape_value :
  funcletFrameShape c
  = Some
      (let S := saveRegsPlusPSPSize c in
       let SA := saveRegsPlusPSPSizeAligned c in
       let o := lvaOutgoingArgSpaceSize c in
       let OA := outgoingArgSpaceAligned c in
       let FSA := funcletFrameSizeAligned c in
       let pad := FSA - (S + o) in
       let va := if compIsVarArgs c then 64 else 0 in
       if maxFuncletFrameSizeAligned c <=? 512 then
         if genSaveFpLrWithAllCalleeSavedRegisters c then
           (FSA - 16 - va, o + pad, - S, 4, - FSA, 0)
         else
           (o, o + 16 + pad, 16 - S, if o =? 0 then 1 else 2, - FSA, 0)
       else
         if genSaveFpLrWithAllCalleeSavedRegisters c then
           (FSA - 16 - va, o + pad + (SA - S), - S, 5, - SA, - OA)
         else
           (OA, OA + 16 + (SA - S), 16 - S, 3, - SA, - OA)).
Proof.
  destruct (frame_sizes c Hok)
    as (HSr & HS8 & Hva & HSA & HOA & HM & HFS & HFSA).
  destruct Hok as (_ & _ & _ & _ & _ & _ & Ho & Ho8 & _).
  unfold REGSIZE_BYTES in *. apply Z.rem_mod_eq_0 in Ho8; [|lia].
  unfold funcletFrameShape, funcletFrameAlignmentPad,
    saveRegsPlusPSPAlignmentPad, REGSIZE_BYTES, MAX_REG_ARG.
  cbv zeta.
  set (S := saveRegsPlusPSPSize c) in *.
  set (SA := saveRegsPlusPSPSizeAligned c) in *.
  set (o := lvaOutgoingArgSpaceSize c) in *.
  set (OA := outgoingArgSpaceAligned c) in *.
  set (M := maxFuncletFrameSizeAligned c) in *.
  set (FS := funcletFrameSize c) in *.
  set (FSA := funcletFrameSizeAligned c) in *.
  assert (HSA' : S <= SA < S + 16) by (rewrite HSA; Z.div_mod_to_equations; lia).
  assert (HOA' : o <= OA < o + 16) by (rewrite HOA; Z.div_mod_to_equations; lia).
  assert (HFSA' : FS <= FSA < FS + 16) by (rewrite HFSA; Z.div_mod_to_equations; lia).
  assert (HSA16 : SA mod 16 = 0) by (rewrite HSA; Z.div_mod_to_equations; lia).
  assert (HFSA16 : FSA mod 16 = 0) by (rewrite HFSA; Z.div_mod_to_equations; lia).
  clear HSA HOA HFSA.
  assert (Hs : forall x, - 2 ^ 31 <= x < 2 ^ 31 -> s32 x = x)
    by (intros x Hx; apply s32_small; exact Hx).
  assert (Hu : forall x, 0 <= x < 2 ^ 32 -> u32 x = x)
    by (intros x Hx; apply u32_small; exact Hx).
  destruct (M <=? 512) eqn:Hsmall.
  - apply Z.leb_le in Hsmall.
    rewrite (Hs FSA), (Hs (- FSA)), (Hs (- FSA + 0)) by lia.
    replace (- FSA + 0 =? - FSA) with true by (symmetry; apply Z.eqb_eq; lia).
    simpl check. cbv iota.
    destruct (genSaveFpLrWithAllCalleeSavedRegisters c).
    + rewrite (Hu (FSA - 2 * 8)), (Hs (FSA - 2 * 8)) by lia.
      rewrite (Hu (FSA - FS)), (Hu (o + (FSA - FS))), (Hs (o + (FSA - FS)))
        by lia.
      rewrite (Hs S), (Hs (- S)) by lia.
      destruct (compIsVarArgs c) eqn:Hv.
      * specialize (Hva eq_refl).
        rewrite (Hs (FSA - 2 * 8 - 8 * 8)) by lia.
        tuple_eq.
      * tuple_eq.
    + rewrite (Hs o) by lia.
      rewrite (Hu (FSA - FS)), (Hu (o + 2 * 8 + (FSA - FS))),
        (Hs (o + 2 * 8 + (FSA - FS))) by lia.
      rewrite (Hu (S - 2 * 8)), (Hs (S - 2 * 8)), (Hs (- (S - 2 * 8))) by lia.
      tuple_eq.
  - apply Z.leb_gt in Hsmall.
    assert (Hpad : (u32 (SA - S) =? 0) || (u32 (SA - S) =? 8) = true).
    { apply orb_true_iff. rewrite !Z.eqb_eq. rewrite (Hu (SA - S)) by lia.
      Z.div_mod_to_equations. lia. }
    rewrite Hpad. simpl check. cbv iota.
    rewrite (Hs SA), (Hs (- SA)), (Hs OA), (Hs (- OA)), (Hs (- SA + - OA)),
      (Hs M), (Hs (- M)) by lia.
    replace (- SA + - OA =? - M) with true by (symmetry; apply Z.eqb_eq; lia).
    simpl check. cbv iota.
    destruct (genSaveFpLrWithAllCalleeSavedRegisters c).
    + rewrite (Hu (FSA - 2 * 8)), (Hs (FSA - 2 * 8)) by lia.
      rewrite (Hu (FSA - FS)), (Hu (o + (FSA - FS))), (Hu (SA - S)),
        (Hu (o + (FSA - FS) + (SA - S))), (Hs (o + (FSA - FS) + (SA - S)))
        by lia.
      rewrite (Hs S), (Hs (- S)) by lia.
      destruct (compIsVarArgs c) eqn:Hv.
      * specialize (Hva eq_refl).
        rewrite (Hs (FSA - 2 * 8 - 8 * 8)) by lia.
        tuple_eq.
      * tuple_eq.
    + rewrite (Hu (SA - S)), (Hu (OA + 2 * 8 + (SA - S))),
        (Hs (OA + 2 * 8 + (SA - S))) by lia.
      rewrite (Hu (SA - 2 * 8)), (Hu (SA - 2 * 8 - (SA - S))),
        (Hs (SA - 2 * 8 - (SA - S))), (Hs (- (SA - 2 * 8 - (SA - S)))) by lia.
      tuple_eq.
Qed.

(** The sizes that enter the descriptor, related to one another. *)
Lemma frame_size_facts :
  let S := saveRegsPlusPSPSize c in
  let SA := saveRegsPlusPSPSizeAligned c in
  let o := lvaOutgoingArgSpaceSize c in
  let OA := outgoingArgSpaceAligned c in
  let FSA := funcletFrameSizeAligned c in
  16 <= S <= 232 /\ S mod 8 = 0 /\ o mod 8 = 0 /\ 0 <= o < 2 ^ 30
  /\ S <= SA < S + 16 /\ SA mod 16 = 0
  /\ o <= OA < o + 16 /\ OA mod 16 = 0
  /\ S + o <= FSA < S + o + 16 /\ FSA mod 16 = 0
  /\ maxFuncletFrameSizeAligned c = SA + OA
  /\ S = 8 * genCountBits (rsMaskCalleeSaved c)
         + (if lvaPSPSym_isUsed c then 8 else 0)
         + (if compIsVarArgs c then 64 else 0)
  /\ 2 <= genCountBits (rsMaskCalleeSaved c) <= 20.
Proof.
  destruct (frame_sizes c Hok)
    as (HSr & HS8 & Hva & HSA & HOA & HM & HFS & HFSA).
  destruct Hok as (_ & _ & _ & Hlr & Hfp & Hsub & Ho & Ho8 & _).
  unfold REGSIZE_BYTES in *. apply Z.rem_mod_eq_0 in Ho8; [|lia].
  pose proof (genCountBits_FP_LR _ Hlr Hfp) as Hk2.
  pose proof (genCountBits_callee_saved _ Hsub) as Hk20.
  assert (Hm : (rsMaskCalleeSaved c < 2 ^ 64)%N).
  { rewrite <- Hsub. eapply N.le_lt_trans; [apply N.land_le_r|]. reflexivity. }
  pose proof (saveRegsPlusPSPSize_value c Hm) as HS.
  cbv zeta. rewrite HM, HSA, HOA, HFSA, HFS.
  repeat split; try lia; try assumption; Z.div_mod_to_equations; lia.
Qed.

(** The fields of the descriptor of a completed run. *)
Lemma genCaptureFuncletPrologEpilogInfo_fields (old fi : FuncletFrameInfoDsc) :
  genCaptureFuncletPrologEpilogInfo c old = Some fi ->
  let S := saveRegsPlusPSPSize c in
  let SA := saveRegsPlusPSPSizeAligned c in
  let o := lvaOutgoingArgSpaceSize c in
  let OA := outgoingArgSpaceAligned c in
  let FSA := funcletFrameSizeAligned c in
  let pad := FSA - (S + o) in
  let va := if compIsVarArgs c then 64 else 0 in
  fiSaveRegs fi = rsMaskCalleeSaved c
  /\ fiSP_to_CalleeSave_delta fi = fiSP_to_PSP_slot_delta fi + 8
  /\ (fiSP_to_FPLR_save_delta fi, fiSP_to_PSP_slot_delta fi,
      fiCallerSP_to_PSP_slot_delta fi, fiFrameType fi,
      fiSpDelta1 fi, fiSpDelta2 fi)
     = if maxFuncletFrameSizeAligned c <=? 512 then
         if genSaveFpLrWithAllCalleeSavedRegisters c then
           (FSA - 16 - va, o + pad, - S, 4, - FSA, 0)
         else
           (o, o + 16 + pad, 16 - S, if o =? 0 then 1 else 2, - FSA, 0)
       else
         if genSaveFpLrWithAllCalleeSavedRegisters c then
           (FSA - 16 - va, o + pad + (SA - S), - S, 5, - SA, - OA)
         else
           (OA, OA + 16 + (SA - S), 16 - S, 3, - SA, - OA).
Proof.
  intros Hrun.
  pose proof Hok as (He & _).
  destruct (genCaptureFuncletPrologEpilogInfo_inv c old fi He Hrun)
    as (fplr & psp & callerPsp & frameType & d1 & d2 & Hshape & ->).
  rewrite funcletFrameShape_value in Hshape. cbv zeta in Hshape.
  injection Hshape as Hshape. cbv zeta. simpl.
  rewrite Hshape. split; [reflexivity|]. split; [|reflexivity].
  pose proof frame_size_facts as F. cbv zeta in F.
  destruct F as (HS & _ & _ & Ho & HSA & _ & HOA & _ & HFSA & _).
  unfold REGSIZE_BYTES. apply s32_small.
  assert (Hpsp : 0 <= psp < 2 ^ 30 + 64).
  { destruct (maxFuncletFrameSizeAligned c <=? 512),
      (genSaveFpLrWithAllCalleeSavedRegisters c);
      injection Hshape as _ <- _ _ _ _; lia. }
  unfold in_s32. lia.
Qed.

End FrameDescriptor.

(** The sample inputs are well formed. *)
Lemma sampleFrameInputs_OK (outsz : Z) (withAll : bool) :
  0 <= outsz < 2 ^ 30 -> Z.rem outsz 8 = 0 ->
  FrameInputsOK
    (sampleFrameInputs outsz withAll (if withAll then -32 else -16)).
Proof.
  intros Ho Ho8. unfold FrameInputsOK, sampleFrameInputs. simpl.
  repeat split; try reflexivity; try discriminate; try lia; try assumption.
Qed.

(** X1.  On well-formed inputs the classifier trips none of its
    assertions, keeps the set of saved registers, and picks the frame type
    from two tests only: whether the maximum aligned frame size is at most
    512, and whether FP/LR are saved with all callee-saved registers;
    within the small frames that save FP/LR separately, type 1 is the one
    without outgoing-argument space. *)
Theorem genCaptureFuncletPrologEpilogInfo_frame_type (c : FrameInputs)
    (old : FuncletFrameInfoDsc) :
  FrameInputsOK c ->
  exists fi,
    genCaptureFuncletPrologEpilogInfo c old = Some fi
    /\ fiSaveRegs fi = rsMaskCalleeSaved c
    /\ fiFrameType fi
       = if maxFuncletFrameSizeAligned c <=? 512 then
           if genSaveFpLrWithAllCalleeSavedRegisters c then 4
           else if lvaOutgoingArgSpaceSize c =? 0 then 1 else 2
         else
           if genSaveFpLrWithAllCalleeSavedRegisters c then 5 else 3.
Proof.
  intros Hok.
  destruct (genCaptureFuncletPrologEpilogInfo_succeeds c old Hok) as [fi Hrun].
  exists fi. split; [exact Hrun|].
  destruct (genCaptureFuncletPrologEpilogInfo_fields c Hok old fi Hrun)
    as (Hregs & _ & Hf).
  split; [exact Hregs|].
  destruct (maxFuncletFrameSizeAligned c <=? 512),
    (genSaveFpLrWithAllCalleeSavedRegisters c);
    injection Hf as _ _ _ -> _ _; reflexivity.
Qed.

Lemma genCaptureFuncletPrologEpilogInfo_frame_type_witness :
  FrameInputsOK (sampleFrameInputs 1024 false (-16))
  /\ exists fi,
       genCaptureFuncletPrologEpilogInfo (sampleFrameInputs 1024 false (-16))
         emptyFuncletInfo = Some fi
       /\ fiSaveRegs fi = rsMaskCalleeSaved (sampleFrameInputs 1024 false (-16))
       /\ fiFrameType fi
          = if maxFuncletFrameSizeAligned (sampleFrameInputs 1024 false (-16))
               <=? 512 then
              if genSaveFpLrWithAllCalleeSavedRegisters
                   (sampleFrameInputs 1024 false (-16)) then 4
              else if lvaOutgoingArgSpaceSize
                        (sampleFrameInputs 1024 false (-16)) =? 0
                   then 1 else 2
            else
              if genSaveFpLrWithAllCalleeSavedRegisters
                   (sampleFrameInputs 1024 false (-16)) then 5 else 3.
Proof.
  assert (H : FrameInputsOK (sampleFrameInputs 1024 false (-16))).
  { apply (sampleFrameInputs_OK 1024 false); [lia|reflexivity]. }
  split; [exact H|].
  exact (genCaptureFuncletPrologEpilogInfo_frame_type
           (sampleFrameInputs 1024 false (-16)) emptyFuncletInfo H).
Defined.

(** X2.  The SP adjustments of a completed run on well-formed inputs
    keep SP aligned and within what the prolog and epilog expect of them:
    both are multiples of 16, the first is negative; a small frame has no
    second one and its first is at least -512; a large frame has a first
    one of at least -240 and a negative second one. *)
Theorem genCaptureFuncletPrologEpilogInfo_SP_deltas_aligned (c : FrameInputs)
    (old fi : FuncletFrameInfoDsc) :
  FrameInputsOK c ->
  genCaptureFuncletPrologEpilogInfo c old = Some fi ->
  fiSpDelta1 fi < 0
  /\ fiSpDelta1 fi mod 16 = 0
  /\ fiSpDelta2 fi mod 16 = 0
  /\ (if maxFuncletFrameSizeAligned c <=? 512
      then -512 <= fiSpDelta1 fi /\ fiSpDelta2 fi = 0
      else -240 <= fiSpDelta1 fi /\ fiSpDelta2 fi < -256).
Proof.
  intros Hok Hrun.
  destruct (genCaptureFuncletPrologEpilogInfo_fields c Hok old fi Hrun)
    as (_ & _ & Hf).
  pose proof (frame_size_facts c Hok) as F. cbv zeta in F.
  destruct F as (HS & HS8 & Ho8 & Ho & HSA & HSA16 & HOA & HOA16 & HFSA
                 & HFSA16 & HM & _).
  destruct (maxFuncletFrameSizeAligned c <=? 512) eqn:Hsmall;
    [apply Z.leb_le in Hsmall|apply Z.leb_gt in Hsmall];
    destruct (genSaveFpLrWithAllCalleeSavedRegisters c);
    injection Hf as _ _ _ _ -> ->;
    repeat split; try lia; Z.div_mod_to_equations; lia.
Qed.

Lemma genCaptureFuncletPrologEpilogInfo_SP_deltas_aligned_witness :
  FrameInputsOK (sampleFrameInputs 1024 false (-16))
  /\ genCaptureFuncletPrologEpilogInfo (sampleFrameInputs 1024 false (-16))
       emptyFuncletInfo
     = Some (mkFuncletInfo 0x60080000%N 0 1024 1040 1048 (-16) 3 (-32) (-1024))
  /\ (-32 < 0 /\ (-32) mod 16 = 0 /\ (-1024) mod 16 = 0
      /\ (if maxFuncletFrameSizeAligned (sampleFrameInputs 1024 false (-16))
             <=? 512
          then -512 <= -32 /\ -1024 = 0
          else -240 <= -32 /\ -1024 < -256)).
Proof.
  assert (H : FrameInputsOK (sampleFrameInputs 1024 false (-16))).
  { apply (sampleFrameInputs_OK 1024 false); [lia|reflexivity]. }
  assert (H1 : genCaptureFuncletPrologEpilogInfo
                 (sampleFrameInputs 1024 false (-16)) emptyFuncletInfo
               = Some (mkFuncletInfo 0x60080000%N 0 1024 1040 1048 (-16) 3
                         (-32) (-1024)))
    by reflexivity.
  split; [exact H|]. split; [exact H1|].
  exact (genCaptureFuncletPrologEpilogInfo_SP_deltas_aligned
           (sampleFrameInputs 1024 false (-16)) emptyFuncletInfo _ H H1).
Defined.

(** X3.  In every frame type but 5, the two offsets of the PSP slot
    that a completed run on well-formed inputs stores - from the funclet's
    final SP and from the caller's SP - name the same stack slot: they
    differ by the size of the frame, which is what the two SP adjustments
    allocate. *)
Theorem genCaptureFuncletPrologEpilogInfo_PSP_slot_consistent
    (c : FrameInputs) (old fi : FuncletFrameInfoDsc) :
  FrameInputsOK c ->
  genCaptureFuncletPrologEpilogInfo c old = Some fi ->
  fiFrameType fi <> 5 ->
  fiSP_to_PSP_slot_delta fi - fiCallerSP_to_PSP_slot_delta fi
  = - (fiSpDelta1 fi + fiSpDelta2 fi).
Proof.
  intros Hok Hrun.
  destruct (genCaptureFuncletPrologEpilogInfo_fields c Hok old fi Hrun)
    as (_ & _ & Hf).
  pose proof (frame_size_facts c Hok) as F. cbv zeta in F.
  destruct F as (HS & HS8 & Ho8 & Ho & HSA & HSA16 & HOA & HOA16 & HFSA
                 & HFSA16 & HM & _).
  destruct (maxFuncletFrameSizeAligned c <=? 512),
    (genSaveFpLrWithAllCalleeSavedRegisters c);
    injection Hf as _ -> -> -> -> ->; intros Hty; lia.
Qed.

Lemma genCaptureFuncletPrologEpilogInfo_PSP_slot_consistent_witness :
  FrameInputsOK (sampleFrameInputs 1024 false (-16))
  /\ genCaptureFuncletPrologEpilogInfo (sampleFrameInputs 1024 false (-16))
       emptyFuncletInfo
     = Some (mkFuncletInfo 0x60080000%N 0 1024 1040 1048 (-16) 3 (-32) (-1024))
  /\ 3 <> 5
  /\ 1040 - -16 = - (-32 + -1024).
Proof.
  assert (H : FrameInputsOK (sampleFrameInputs 1024 false (-16))).
  { apply (sampleFrameInputs_OK 1024 false); [lia|reflexivity]. }
  assert (H1 : genCaptureFuncletPrologEpilogInfo
                 (sampleFrameInputs 1024 false (-16)) emptyFuncletInfo
               = Some (mkFuncletInfo 0x60080000%N 0 1024 1040 1048 (-16) 3
                         (-32) (-1024)))
    by reflexivity.
  assert (H2 : 3 <> 5) by lia.
  split; [exact H|]. split; [exact H1|]. split; [exact H2|].
  exact (genCaptureFuncletPrologEpilogInfo_PSP_slot_consistent
           (sampleFrameInputs 1024 false (-16)) emptyFuncletInfo _ H H1 H2).
Defined.

(** X4.  With a PSP slot and in every frame type but 5, the area that
    the funclet prolog hands to the register saves - it starts at
    [fiSP_to_CalleeSave_delta + fiSpDelta2] above the SP left by the first
    adjustment and holds the saved registers (all of them when FP/LR are
    saved with them, all but FP and LR otherwise) - starts at or above SP
    and ends exactly at the top of what the first adjustment allocated,
    below the variadic register area when there is one.  When FP/LR are
    saved with the others their slot is the topmost pair of the area, and
    otherwise the area lies above the FP/LR pair. *)
Theorem genCaptureFuncletPrologEpilogInfo_callee_save_area (c : FrameInputs)
    (old fi : FuncletFrameInfoDsc) :
  FrameInputsOK c ->
  lvaPSPSym_isUsed c = true ->
  genCaptureFuncletPrologEpilogInfo c old = Some fi ->
  fiFrameType fi <> 5 ->
  let lowest := fiSP_to_CalleeSave_delta fi + fiSpDelta2 fi in
  let fplr := fiSP_to_FPLR_save_delta fi + fiSpDelta2 fi in
  let va := if compIsVarArgs c then MAX_REG_ARG * REGSIZE_BYTES else 0 in
  let regs := genCountBits (rsMaskCalleeSaved c) in
  if genSaveFpLrWithAllCalleeSavedRegisters c then
    0 <= lowest
    /\ lowest + REGSIZE_BYTES * regs + va = - fiSpDelta1 fi
    /\ fplr = lowest + REGSIZE_BYTES * (regs - 2)
  else
    0 <= fplr /\ fplr + 2 * REGSIZE_BYTES <= lowest
    /\ lowest + REGSIZE_BYTES * (regs - 2) + va = - fiSpDelta1 fi.
Proof.
  intros Hok Hpsp Hrun.
  destruct (genCaptureFuncletPrologEpilogInfo_fields c Hok old fi Hrun)
    as (_ & Hcs & Hf).
  pose proof (frame_size_facts c Hok) as F. cbv zeta in F.
  destruct F as (HS & HS8 & Ho8 & Ho & HSA & HSA16 & HOA & HOA16 & HFSA
                 & HFSA16 & HM & HSv & Hk).
  rewrite Hpsp in HSv. cbv zeta. rewrite Hcs.
  unfold MAX_REG_ARG, REGSIZE_BYTES.
  destruct (maxFuncletFrameSizeAligned c <=? 512),
    (genSaveFpLrWithAllCalleeSavedRegisters c);
    injection Hf as -> -> _ -> -> ->; intros Hty;
    try (exfalso; apply Hty; reflexivity);
    destruct (compIsVarArgs c); lia.
Qed.

Lemma genCaptureFuncletPrologEpilogInfo_callee_save_area_witness :
  FrameInputsOK (sampleFrameInputs 1024 false (-16))
  /\ genCaptureFuncletPrologEpilogInfo (sampleFrameInputs 1024 false (-16))
       emptyFuncletInfo
     = Some (mkFuncletInfo 0x60080000%N 0 1024 1040 1048 (-16) 3 (-32) (-1024))
  /\ (0 <= 1024 + -1024 /\ 1024 + -1024 + 2 * REGSIZE_BYTES <= 1048 + -1024
      /\ 1048 + -1024 + REGSIZE_BYTES * (3 - 2) + 0 = - -32).
Proof.
  assert (H : FrameInputsOK (sampleFrameInputs 1024 false (-16))).
  { apply (sampleFrameInputs_OK 1024 false); [lia|reflexivity]. }
  assert (H1 : genCaptureFuncletPrologEpilogInfo
                 (sampleFrameInputs 1024 false (-16)) emptyFuncletInfo
               = Some (mkFuncletInfo 0x60080000%N 0 1024 1040 1048 (-16) 3
                         (-32) (-1024)))
    by reflexivity.
  assert (H2 : 3 <> 5) by lia.
  split; [exact H|]. split; [exact H1|].
  exact (genCaptureFuncletPrologEpilogInfo_callee_save_area
           (sampleFrameInputs 1024 false (-16)) emptyFuncletInfo _ H eq_refl
           H1 H2).
Defined.

(** ** Restoring a register pair *)

Section PairRestore.

Context {E : Emitter}.
Variable compReloc : bool.

(** The calls of [genEpilogRestoreRegPair] for a nonzero [spDelta]. *)
Lemma genEpilogRestoreRegPair_run reg1 reg2 spOffset spDelta tmpReg
    pTmpRegIsZero n :
  0 <= spOffset -> 0 < spDelta -> Z.rem spDelta 16 = 0 ->
  genIsValidFloatReg reg1 = genIsValidFloatReg reg2 ->
  genEpilogRestoreRegPair compReloc reg1 reg2 spOffset spDelta false tmpReg
    pTmpRegIsZero n
  = if (spOffset =? 0) && (spDelta <=? 504) then
      Some (pTmpRegIsZero,
            [Emit (emitIns_R_R_R_I INS_ldp EA_PTRSIZE reg1 reg2 REG_SPBASE
                     spDelta INS_OPTS_POST_INDEX);
             Unwind (unwindSaveRegPairPreindexed reg1 reg2 (- spDelta))], n)
    else
      match genStackPointerAdjustment compReloc spDelta tmpReg
              pTmpRegIsZero true n with
      | Some (p, adj, n') =>
          Some (p,
                [Emit (emitIns_R_R_R_I INS_ldp EA_PTRSIZE reg1 reg2
                         REG_SPBASE spOffset INS_OPTS_NONE);
                 Unwind (unwindSaveRegPair reg1 reg2 spOffset)] ++ adj, n')
      | None => None
      end.
Proof.
  intros Hoff Hd Hrem Hcls. unfold genEpilogRestoreRegPair.
  apply Z.leb_le in Hoff. rewrite Hoff.
  assert (Hd1 : (0 <=? spDelta) = true) by (apply Z.leb_le; lia).
  assert (Hd2 : (spDelta =? 0) = false) by (apply Z.eqb_neq; lia).
  apply Z.eqb_eq in Hrem. rewrite Hd1, Hrem, Hd2, Hcls, Bool.eqb_reflx.
  destruct ((spOffset =? 0) && (spDelta <=? 504)).
  - reflexivity.
  - unfold bind, assert, ret, emit, unwind, tell. simpl.
    destruct (genStackPointerAdjustment compReloc spDelta tmpReg
                pTmpRegIsZero true n) as [[[p adj] n']|]; reflexivity.
Qed.

(** X5.  For a nonzero SP change of magnitude [d] (a multiple of 16),
    [spOffset >= 0] and two registers of one class:
    [genEpilogRestoreRegPair] makes the single post-indexed load-pair,
    recorded with the pre-indexed unwind entry of the save it undoes,
    exactly when [spOffset = 0] and [d <= 504]; otherwise it makes a plain
    load-pair at [spOffset] followed by the separate SP adjustment.  The
    bound is not the one of the save, which folds down to -512: at
    [spOffset = 0] and [d = 512], with a usable scratch register,
    [genPrologSaveRegPair] is the one pre-indexed store-pair while the
    restore is a load-pair followed by the SP adjustment.  The separate
    adjustment is really made: for [d < 2^32] the unfolded restore
    completes with the plain load-pair, its unwind entry, and then the
    [add] on SP by [d] - as an immediate, or through the scratch register
    loaded with [d] - and the stack-allocation unwind entry for [d]. *)
Theorem genEpilogRestoreRegPair_postindexed_iff (reg1 reg2 : regNumber)
    (spOffset d : Z) (tmpReg : regNumber) (pTmpRegIsZero : option bool)
    (n : label) :
  0 <= spOffset -> 0 < d -> Z.rem d 16 = 0 ->
  genIsValidFloatReg reg1 = genIsValidFloatReg reg2 ->
  tmpReg <> REG_SPBASE -> tmpReg <> REG_NA ->
  genIsValidFloatReg tmpReg = false ->
  let foldedRestore :=
    Some (pTmpRegIsZero,
          [Emit (emitIns_R_R_R_I INS_ldp EA_PTRSIZE reg1 reg2 REG_SPBASE d
                   INS_OPTS_POST_INDEX);
           Unwind (unwindSaveRegPairPreindexed reg1 reg2 (- d))], n) in
  let p := tmpRegIsZeroAfter (emitIns_valid_imm_for_add d EA_8BYTE)
             pTmpRegIsZero in
  (genEpilogRestoreRegPair compReloc reg1 reg2 spOffset d false tmpReg
     pTmpRegIsZero n = foldedRestore <-> spOffset = 0 /\ d <= 504)
  /\ (~ (spOffset = 0 /\ d <= 504) ->
      genEpilogRestoreRegPair compReloc reg1 reg2 spOffset d false tmpReg
        pTmpRegIsZero n
      = match genStackPointerAdjustment compReloc d tmpReg pTmpRegIsZero
                true n with
        | Some (p, adj, n') =>
            Some (p,
                  [Emit (emitIns_R_R_R_I INS_ldp EA_PTRSIZE reg1 reg2
                           REG_SPBASE spOffset INS_OPTS_NONE);
                   Unwind (unwindSaveRegPair reg1 reg2 spOffset)] ++ adj, n')
        | None => None
        end)
  /\ (spOffset = 0 -> d = 512 ->
      genPrologSaveRegPair compReloc reg1 reg2 spOffset (- d) false tmpReg
        pTmpRegIsZero n
      = Some (pTmpRegIsZero,
              [Emit (emitIns_R_R_R_I INS_stp EA_PTRSIZE reg1 reg2 REG_SPBASE
                       (- d) INS_OPTS_PRE_INDEX);
               Unwind (unwindSaveRegPairPreindexed reg1 reg2 (- d))], n)
      /\ exists adj,
           genStackPointerAdjustment compReloc d tmpReg pTmpRegIsZero true n
           = Some (p, adj, n)
           /\ separateSpAdjustment compReloc INS_add d tmpReg n adj
           /\ genEpilogRestoreRegPair compReloc reg1 reg2 spOffset d false
                tmpReg pTmpRegIsZero n
              = Some (p,
                      [Emit (emitIns_R_R_R_I INS_ldp EA_PTRSIZE reg1 reg2
                               REG_SPBASE spOffset INS_OPTS_NONE);
                       Unwind (unwindSaveRegPair reg1 reg2 spOffset)] ++ adj,
                      n))
  /\ (~ (spOffset = 0 /\ d <= 504) -> d < 2 ^ 32 ->
      exists adj,
        separateSpAdjustment compReloc INS_add d tmpReg n adj
        /\ genEpilogRestoreRegPair compReloc reg1 reg2 spOffset d false
             tmpReg pTmpRegIsZero n
           = Some (p,
                   [Emit (emitIns_R_R_R_I INS_ldp EA_PTRSIZE reg1 reg2
                            REG_SPBASE spOffset INS_OPTS_NONE);
                    Unwind (unwindSaveRegPair reg1 reg2 spOffset)] ++ adj,
                   n)).
Proof.
  intros Hoff Hd Hrem Hcls Hsp Hna Hfl foldedRestore p.
  rewrite (genEpilogRestoreRegPair_run reg1 reg2 spOffset d tmpReg
             pTmpRegIsZero n Hoff Hd Hrem Hcls).
  assert (Hadd : d < 2 ^ 32 ->
                 exists adj,
                   separateSpAdjustment compReloc INS_add d tmpReg n adj
                   /\ genStackPointerAdjustment compReloc d tmpReg
                        pTmpRegIsZero true n = Some (p, adj, n)).
  { intros Hlt.
    exact (genStackPointerAdjustment_separate compReloc false d tmpReg
             pTmpRegIsZero n ltac:(lia) Hsp (fun _ => conj Hna Hfl)). }
  split; [|split; [|split]].
  - destruct ((spOffset =? 0) && (d <=? 504)) eqn:Hc.
    + apply andb_true_iff in Hc as [H1 H2].
      apply Z.eqb_eq in H1. apply Z.leb_le in H2. split; auto.
    + split.
      * intros Hrun. exfalso.
        destruct (genStackPointerAdjustment compReloc d tmpReg
                    pTmpRegIsZero true n) as [[[p' adj] n']|]; [|discriminate].
        injection Hrun as _ Ht _. discriminate.
      * intros [H1 H2]. apply Z.eqb_eq in H1. apply Z.leb_le in H2.
        rewrite H1, H2 in Hc. discriminate.
  - intros Hn. destruct ((spOffset =? 0) && (d <=? 504)) eqn:Hc;
      [|reflexivity].
    exfalso. apply Hn. apply andb_true_iff in Hc as [H1 H2].
    apply Z.eqb_eq in H1. apply Z.leb_le in H2. auto.
  - intros H0 H512. subst spOffset.
    assert (Hrem' : Z.rem (- d) 16 = 0) by (rewrite Z.rem_opp_l', Hrem; lia).
    rewrite (genPrologSaveRegPair_run compReloc reg1 reg2 0 (- d) tmpReg
               pTmpRegIsZero n Hoff ltac:(lia) Hrem' Hcls).
    assert (Hs : (-512 <=? - d) = true) by (apply Z.leb_le; lia).
    assert (Hr : (d <=? 504) = false) by (apply Z.leb_gt; lia).
    rewrite Hs, Hr. simpl andb. cbv iota.
    split; [reflexivity|].
    destruct (Hadd ltac:(lia)) as (adj & Hadj & Hrun).
    exists adj. split; [exact Hrun|]. split; [exact Hadj|].
    rewrite Hrun. reflexivity.
  - intros Hn Hlt.
    destruct (Hadd Hlt) as (adj & Hadj & Hrun).
    destruct ((spOffset =? 0) && (d <=? 504)) eqn:Hc.
    { exfalso. apply Hn. apply andb_true_iff in Hc as [H1 H2].
      apply Z.eqb_eq in H1. apply Z.leb_le in H2. auto. }
    exists adj. split; [exact Hadj|]. rewrite Hrun. reflexivity.
Qed.

End PairRestore.

Lemma genEpilogRestoreRegPair_postindexed_iff_witness :
  (0 <= 0 /\ 0 < 512 /\ Z.rem 512 16 = 0
   /\ genIsValidFloatReg REG_FP = genIsValidFloatReg REG_LR
   /\ REG_IP1 <> REG_SPBASE /\ REG_IP1 <> REG_NA
   /\ genIsValidFloatReg REG_IP1 = false)
  /\ genPrologSaveRegPair (E := Arm64Emitter.emitter) false REG_FP REG_LR 0
       (- 512) false REG_IP1 None 0%nat
     = Some (None,
             [Emit (emitIns_R_R_R_I INS_stp EA_PTRSIZE REG_FP REG_LR
                      REG_SPBASE (- 512) INS_OPTS_PRE_INDEX);
              Unwind (unwindSaveRegPairPreindexed REG_FP REG_LR (- 512))],
             0%nat)
  /\ genEpilogRestoreRegPair (E := Arm64Emitter.emitter) false REG_FP
       REG_LR 0 512 false REG_IP1 None 0%nat
     = Some (None,
             [Emit (emitIns_R_R_R_I INS_ldp EA_PTRSIZE REG_FP REG_LR
                      REG_SPBASE 0 INS_OPTS_NONE);
              Unwind (unwindSaveRegPair REG_FP REG_LR 0);
              Emit (emitIns_R_R_I INS_add EA_PTRSIZE REG_SPBASE REG_SPBASE
                      512 INS_OPTS_NONE);
              Unwind (unwindAllocStack 512)], 0%nat).
Proof.
  assert (H1 : 0 <= 0) by lia.
  assert (H2 : 0 < 512) by lia.
  assert (H3 : Z.rem 512 16 = 0) by reflexivity.
  assert (H4 : genIsValidFloatReg REG_FP = genIsValidFloatReg REG_LR)
    by reflexivity.
  assert (H5 : REG_IP1 <> REG_SPBASE) by discriminate.
  assert (H6 : REG_IP1 <> REG_NA) by discriminate.
  assert (H7 : genIsValidFloatReg REG_IP1 = false) by reflexivity.
  split; [auto 10|].
  destruct (proj1 (proj2 (proj2 (genEpilogRestoreRegPair_postindexed_iff
                                   (E := Arm64Emitter.emitter) false REG_FP
                                   REG_LR 0 512 REG_IP1 None 0%nat
                                   H1 H2 H3 H4 H5 H6 H7)))
              eq_refl eq_refl)
    as (Hsave & adj & _ & Hadj & Hrestore).
  split; [exact Hsave|].
  unfold separateSpAdjustment in Hadj. simpl in Hadj. subst adj.
  exact Hrestore.
Defined.

(** ** Instructions with a constant operand *)

Section InstrWithConstant.

Context {E : Emitter}.
Variable compReloc : bool.

(** X6.  For [add] and [sub] with a constant of magnitude below [2^63],
    [genInstrWithConstant] never passes on a negative immediate: it uses
    the absolute value and, for a negative constant, the opposite
    instruction - both in the single instruction when the absolute value
    is encodable and, when it is not, in the constant loaded into
    [tmpReg] and the three-register instruction that follows the load (and
    the unwind padding, in an unwind region). *)
Theorem genInstrWithConstant_add_sub_sign (ins : instruction)
    (attr : emitAttr) (reg1 reg2 : regNumber) (imm : Z) (tmpReg : regNumber)
    (inUnwindRegion : bool) (n : label) (b : bool) (t : list event)
    (n' : label) :
  ins = INS_add \/ ins = INS_sub ->
  - 2 ^ 63 < imm < 2 ^ 63 ->
  genInstrWithConstant compReloc ins attr reg1 reg2 imm tmpReg inUnwindRegion n
  = Some (b, t, n') ->
  let ins' :=
    if imm <? 0 then (if bool_decide (ins = INS_add) then INS_sub else INS_add)
    else ins in
  b = emitIns_valid_imm_for_add (Z.abs imm) (EA_SIZE attr)
  /\ if b then
       n' = n
       /\ t = [Emit (emitIns_R_R_I ins' attr reg1 reg2 (Z.abs imm)
                       INS_OPTS_NONE)]
     else
       exists ts,
         instGen_Set_Reg_To_Imm compReloc (EA_SIZE attr) tmpReg (Z.abs imm)
           INS_FLAGS_DONT_CARE n = Some (tt, ts, n')
         /\ t = ts ++ [verifyRegUsed tmpReg]
                ++ (if inUnwindRegion then [Unwind unwindPadding] else [])
                ++ [Emit (emitIns_R_R_R ins' attr reg1 reg2 tmpReg)].
Proof.
  intros Hins Himm Hrun.
  assert (Hne : tmpReg <> reg2).
  { intros ->. unfold genInstrWithConstant in Hrun.
    rewrite N.eqb_refl in Hrun. discriminate. }
  rewrite (genInstrWithConstant_add_sub_run compReloc ins attr reg1 reg2 imm tmpReg
             inUnwindRegion n Hins Himm Hne) in Hrun.
  cbv zeta in Hrun.
  destruct (emitIns_valid_imm_for_add (Z.abs imm) (EA_SIZE attr)).
  - injection Hrun as <- <- <-. cbv zeta. auto.
  - destruct (tmpReg =? REG_NA)%N; [discriminate|].
    destruct (instGen_Set_Reg_To_Imm compReloc (EA_SIZE attr) tmpReg
                (Z.abs imm) INS_FLAGS_DONT_CARE n) as [[[[] ts] n1]|];
      [|discriminate].
    injection Hrun as <- <- <-. cbv zeta. split; [reflexivity|].
    exists ts. split; reflexivity.
Qed.

(** X7.  [genInstrWithConstant] abandons the run - an assertion fails -
    when the scratch register is the source register [reg2]; when the
    instruction is a store and the scratch register is the stored register
    [reg1]; when the instruction is none of add, sub, the three stores and
    the six loads; and when the immediate of an add or sub does not fit
    while no scratch register was given. *)
Theorem genInstrWithConstant_abandons (ins : instruction) (attr : emitAttr)
    (reg1 reg2 : regNumber) (imm : Z) (tmpReg : regNumber)
    (inUnwindRegion : bool) (n : label) :
  let run := genInstrWithConstant compReloc ins attr reg1 reg2 imm tmpReg
               inUnwindRegion n in
  (tmpReg = reg2 -> run = None)
  /\ (In ins [INS_strb; INS_strh; INS_str] -> tmpReg = reg1 -> run = None)
  /\ (~ In ins [INS_add; INS_sub; INS_strb; INS_strh; INS_str; INS_ldrsb;
                INS_ldrsh; INS_ldrsw; INS_ldrb; INS_ldrh; INS_ldr] ->
      run = None)
  /\ (ins = INS_add \/ ins = INS_sub -> - 2 ^ 63 < imm < 2 ^ 63 ->
      emitIns_valid_imm_for_add (Z.abs imm) (EA_SIZE attr) = false ->
      tmpReg = REG_NA -> run = None).
Proof.
  cbv zeta. repeat split.
  - intros ->. unfold genInstrWithConstant. rewrite N.eqb_refl. reflexivity.
  - intros Hin ->. unfold genInstrWithConstant.
    destruct (negb (reg1 =? reg2)%N); [|reflexivity].
    unfold bind at 1. simpl assert. cbv iota beta.
    simpl in Hin. destruct Hin as [<- | [<- | [<- | []]]];
      rewrite N.eqb_refl; reflexivity.
  - intros Hnot. unfold genInstrWithConstant.
    destruct (negb (tmpReg =? reg2)%N); [|reflexivity].
    unfold bind at 1. simpl assert. cbv iota beta.
    destruct ins; try reflexivity; exfalso; apply Hnot; simpl; tauto.
  - intros Hins Himm Hfit ->.
    destruct (N.eq_dec REG_NA reg2) as [<- | Hne].
    + unfold genInstrWithConstant. rewrite N.eqb_refl. reflexivity.
    + rewrite (genInstrWithConstant_add_sub_run compReloc ins attr reg1 reg2 imm REG_NA
                 inUnwindRegion n Hins Himm Hne).
      cbv zeta. rewrite Hfit. reflexivity.
Qed.

(** X8.  What a completed [genStackPointerAdjustment] does with a
    non-null [pTmpRegIsZero]: when the delta is encoded in the one
    instruction that moves SP - the scratch register is then not touched -
    the pointee is set to [false]; when the delta is loaded into the
    scratch register first, the pointee is left as it was. *)
Theorem genStackPointerAdjustment_pTmpRegIsZero (spDelta : Z)
    (tmpReg : regNumber) (z : bool) (reportUnwindData : bool) (n : label)
    (p : option bool) (t : list event) (n' : label) :
  genStackPointerAdjustment compReloc spDelta tmpReg (Some z) reportUnwindData
    n = Some (p, t, n') ->
  (exists ins imm rest,
     t = Emit (emitIns_R_R_I ins EA_PTRSIZE REG_SPBASE REG_SPBASE imm
                 INS_OPTS_NONE) :: rest
     /\ ~ In (verifyRegUsed tmpReg) t
     /\ p = Some false)
  \/ (exists ins pre rest,
        t = pre ++ Emit (emitIns_R_R_R ins EA_PTRSIZE REG_SPBASE REG_SPBASE
                           tmpReg) :: rest
        /\ In (verifyRegUsed tmpReg) pre
        /\ p = Some z).
Proof.
  unfold genStackPointerAdjustment. intros H.
  apply bind_inv in H as (r & t1 & n1 & t2 & Hc & H & ->).
  apply bind_inv in H as (u & t3 & n3 & t4 & Hu & H & ->).
  apply ret_inv in H as (-> & -> & ->).
  assert (Hrep : forall e, In e t3 -> exists s, e = Unwind s).
  { destruct reportUnwindData.
    - apply bind_inv in Hu as (u1 & s1 & m1 & s2 & Ha & Hu & ->).
      apply assert_inv in Ha as (_ & -> & ->).
      apply tell_inv in Hu as (-> & _).
      intros e [<- | []]. eauto.
    - apply ret_inv in Hu as (_ & -> & _). intros e []. }
  destruct (genInstrWithConstant_calls compReloc _ _ _ _ _ _ _ _ _ _ _ Hc)
    as [Ht Hf].
  destruct r.
  - left. destruct (Ht eq_refl) as (ins & imm & ->).
    exists ins, imm, (t3 ++ []). split; [reflexivity|]. split; [|reflexivity].
    simpl. rewrite app_nil_r. intros [Hin | Hin]; [discriminate|].
    destruct (Hrep _ Hin) as [s Hs]. discriminate.
  - right. destruct (Hf eq_refl) as (_ & ins & pre & Hin & ->).
    exists ins, pre, (t3 ++ []). split; [|auto].
    rewrite <- app_assoc. reflexivity.
Qed.

End InstrWithConstant.

Lemma genInstrWithConstant_add_sub_sign_witness :
  (INS_add = INS_add \/ INS_add = INS_sub)
  /\ - 2 ^ 63 < -16 < 2 ^ 63
  /\ genInstrWithConstant (E := Arm64Emitter.emitter) false INS_add EA_PTRSIZE
       REG_SPBASE REG_SPBASE (-16) REG_NA true 0%nat
     = Some (true,
             [Emit (emitIns_R_R_I INS_sub EA_PTRSIZE REG_SPBASE REG_SPBASE 16
                      INS_OPTS_NONE)], 0%nat)
  /\ true = emitIns_valid_imm_for_add (Emitter := Arm64Emitter.emitter)
              (Z.abs (-16)) (EA_SIZE EA_PTRSIZE)
  /\ 0%nat = 0%nat
  /\ [Emit (emitIns_R_R_I INS_sub EA_PTRSIZE REG_SPBASE REG_SPBASE 16
              INS_OPTS_NONE)]
     = [Emit (emitIns_R_R_I INS_sub EA_PTRSIZE REG_SPBASE REG_SPBASE
                (Z.abs (-16)) INS_OPTS_NONE)].
Proof.
  assert (H1 : INS_add = INS_add \/ INS_add = INS_sub) by (left; reflexivity).
  assert (H2 : - 2 ^ 63 < -16 < 2 ^ 63) by lia.
  assert (H3 : genInstrWithConstant (E := Arm64Emitter.emitter) false INS_add
                 EA_PTRSIZE REG_SPBASE REG_SPBASE (-16) REG_NA true 0%nat
               = Some (true,
                       [Emit (emitIns_R_R_I INS_sub EA_PTRSIZE REG_SPBASE
                                REG_SPBASE 16 INS_OPTS_NONE)], 0%nat))
    by reflexivity.
  split; [exact H1|]. split; [exact H2|]. split; [exact H3|].
  exact (genInstrWithConstant_add_sub_sign (E := Arm64Emitter.emitter) false
           INS_add EA_PTRSIZE REG_SPBASE REG_SPBASE (-16) REG_NA true 0%nat
           true _ 0%nat H1 H2 H3).
Defined.

Lemma genInstrWithConstant_abandons_witness :
  genInstrWithConstant (E := Arm64Emitter.emitter) false INS_str EA_PTRSIZE
    REG_R1 REG_SPBASE 8 REG_R1 false 0%nat = None.
Proof.
  refine (proj1 (proj2 (genInstrWithConstant_abandons
                          (E := Arm64Emitter.emitter) false INS_str EA_PTRSIZE
                          REG_R1 REG_SPBASE 8 REG_R1 false 0%nat)) _ eq_refl).
  simpl. tauto.
Defined.

Lemma genStackPointerAdjustment_pTmpRegIsZero_witness :
  genStackPointerAdjustment (E := Arm64Emitter.emitter) false (-16) REG_IP0
    (Some true) true 0%nat
  = Some (Some false,
          [Emit (emitIns_R_R_I INS_sub EA_PTRSIZE REG_SPBASE REG_SPBASE 16
                   INS_OPTS_NONE);
           Unwind (unwindAllocStack 16)], 0%nat)
  /\ ((exists ins imm rest,
         [Emit (emitIns_R_R_I INS_sub EA_PTRSIZE REG_SPBASE REG_SPBASE 16
                  INS_OPTS_NONE);
          Unwind (unwindAllocStack 16)]
         = Emit (emitIns_R_R_I ins EA_PTRSIZE REG_SPBASE REG_SPBASE imm
                   INS_OPTS_NONE) :: rest
         /\ ~ In (verifyRegUsed REG_IP0)
                [Emit (emitIns_R_R_I INS_sub EA_PTRSIZE REG_SPBASE REG_SPBASE
                         16 INS_OPTS_NONE);
                 Unwind (unwindAllocStack 16)]
         /\ Some false = Some false)
      \/ (exists ins pre rest,
            [Emit (emitIns_R_R_I INS_sub EA_PTRSIZE REG_SPBASE REG_SPBASE 16
                     INS_OPTS_NONE);
             Unwind (unwindAllocStack 16)]
            = pre ++ Emit (emitIns_R_R_R ins EA_PTRSIZE REG_SPBASE REG_SPBASE
                             REG_IP0) :: rest
            /\ In (verifyRegUsed REG_IP0) pre
            /\ Some false = Some true)).
Proof.
  assert (H : genStackPointerAdjustment (E := Arm64Emitter.emitter) false
                (-16) REG_IP0 (Some true) true 0%nat
              = Some (Some false,
                      [Emit (emitIns_R_R_I INS_sub EA_PTRSIZE REG_SPBASE
                               REG_SPBASE 16 INS_OPTS_NONE);
                       Unwind (unwindAllocStack 16)], 0%nat))
    by reflexivity.
  split; [exact H|].
  exact (genStackPointerAdjustment_pTmpRegIsZero (E := Arm64Emitter.emitter)
           false (-16) REG_IP0 true true 0%nat _ _ 0%nat H).
Defined.

(** ** The pair list covers the mask *)

Lemma maskRegs_Ndouble (a : N) :
  maskRegs (Pos.Ndouble a) = map N.succ (maskRegs a).
Proof. destruct a; reflexivity. Qed.

Lemma Pos_regs_lowest (p : positive) :
  Pos_regs p
  = N.log2 (Npos (Pos_lowestBit p))
    :: maskRegs (Pos.ldiff p (Pos_lowestBit p)).
Proof.
  induction p as [q IH|q IH|].
  - reflexivity.
  - simpl Pos_regs. rewrite IH. simpl map.
    change (Pos_lowestBit q~0) with ((Pos_lowestBit q)~0)%positive.
    change (Pos.ldiff q~0 (Pos_lowestBit q)~0)
      with (Pos.Ndouble (Pos.ldiff q (Pos_lowestBit q))).
    rewrite maskRegs_Ndouble. f_equal.
    change (N.pos (Pos_lowestBit q)~0) with (2 * N.pos (Pos_lowestBit q))%N.
    rewrite N.log2_double by lia. reflexivity.
  - reflexivity.
Qed.

(** The lowest register of a non-empty mask heads its registers. *)
Lemma maskRegs_lowest (m : regMaskTP) :
  m <> RBM_NONE ->
  maskRegs m
  = genRegNumFromMask (genFindLowestBit m)
    :: maskRegs (N.ldiff m (genFindLowestBit m)).
Proof.
  destruct m as [|p]; [intros H; exfalso; apply H; reflexivity|].
  intros _. apply Pos_regs_lowest.
Qed.

Lemma Pos_regs_bound (k : nat) (p : positive) :
  (N.pos p < 2 ^ N.of_nat k)%N ->
  Forall (fun r => (r < N.of_nat k)%N) (Pos_regs p).
Proof.
  revert p. induction k as [|k IH]; intros p Hp.
  - simpl in Hp. lia.
  - rewrite Nat2N.inj_succ, N.pow_succ_r' in Hp.
    assert (Hs : forall q, (N.pos q < 2 ^ N.of_nat k)%N ->
                 Forall (fun r => (r < N.of_nat (S k))%N)
                   (map N.succ (Pos_regs q))).
    { intros q Hq. apply Forall_map. specialize (IH q Hq).
      eapply Forall_impl; [exact IH|]. simpl. intros r Hr. lia. }
    destruct p as [q|q|]; simpl.
    + constructor; [lia|]. apply Hs. lia.
    + apply Hs. lia.
    + constructor; [lia|constructor].
Qed.

Lemma maskRegs_bound (m : regMaskTP) :
  (m < 2 ^ 64)%N -> Forall (fun r => (r < 64)%N) (maskRegs m).
Proof.
  destruct m as [|p]; [constructor|]. intros Hp.
  exact (Pos_regs_bound 64 p Hp).
Qed.

Lemma maskRegs_length (m : regMaskTP) :
  Z.of_nat (length (maskRegs m)) = genCountBits m.
Proof.
  destruct m as [|p]; [reflexivity|]. simpl.
  induction p as [q IH|q IH|];
    cbn [Pos_regs Pos_countBits length]; rewrite ?length_map;
    rewrite ?Nat2Z.inj_succ; simpl Z.of_nat; unfold regNumber in *; lia.
Qed.

Lemma regsOfPairs_app (l1 l2 : list RegPair) :
  regsOfPairs (l1 ++ l2) = regsOfPairs l1 ++ regsOfPairs l2.
Proof. apply flat_map_app. Qed.

Lemma ldiff_lt_pow (m x : N) (k : N) :
  (m < 2 ^ k)%N -> (N.ldiff m x < 2 ^ k)%N.
Proof.
  intros Hm. eapply N.le_lt_trans; [apply N.ldiff_le_l|exact Hm].
Qed.

Lemma genBuildRegPairsStack_body_cover (m0 : regMaskTP) (st : PairsLoop) :
  pl_regsMask st <> RBM_NONE ->
  PairsCover m0 st -> PairsCover m0 (genBuildRegPairsStack_body st).
Proof.
  intros Hne (Hcov & Hlt & Hcnt & Hshape & Hunm).
  pose proof (genCountBits_bound _ Hlt) as Hb.
  pose proof (genCountBits_clear_lowest _ Hne) as Hc1.
  pose proof (genCountBits_nonzero _ Hne) as Hpos.
  pose proof (maskRegs_lowest _ Hne) as Hl1.
  pose proof (maskRegs_bound _ Hlt) as Hbd.
  unfold genBuildRegPairsStack_body.
  set (reg1Mask := genFindLowestBit (pl_regsMask st)) in *.
  set (m1 := N.ldiff (pl_regsMask st) reg1Mask) in *.
  set (r1 := genRegNumFromMask reg1Mask) in *.
  assert (Hm1lt : (m1 < 2 ^ 64)%N) by (apply ldiff_lt_pow; exact Hlt).
  assert (Hr1 : (r1 < 64)%N).
  { rewrite Hl1 in Hbd. inversion Hbd; assumption. }
  rewrite Hcnt.
  assert (Hu1 : u32 (genCountBits (pl_regsMask st) - 1) = genCountBits m1).
  { rewrite Hc1. apply u32_small. unfold in_u32. lia. }
  rewrite Hu1.
  assert (Hlone : PairsCover m0
                    (mkPairsLoop m1 (genCountBits m1)
                       (pl_regStack st ++ [RegPair1 r1]))).
  { unfold PairsCover. simpl. repeat split; try assumption; try lia.
    - rewrite regsOfPairs_app, <- app_assoc. simpl.
      rewrite <- Hcov, Hl1. reflexivity.
    - apply Forall_app; split; [assumption|].
      constructor; [|constructor]. split; [exact Hr1|left; reflexivity].
    - apply Forall_app; split; [assumption|]. repeat constructor. }
  destruct (0 <? genCountBits m1) eqn:Hpos1; [|exact Hlone].
  destruct (genRegNumFromMask (genFindLowestBit m1) =? REG_NEXT r1)%N
    eqn:Hnext; [|exact Hlone].
  destruct (negb (r1 =? REG_R28)%N) eqn:H28; [|exact Hlone].
  destruct (Bool.eqb (genIsValidFloatReg r1)
              (genIsValidFloatReg (genRegNumFromMask (genFindLowestBit m1))))
    eqn:Hsame; [|exact Hlone].
  apply Z.ltb_lt in Hpos1.
  assert (Hm1 : m1 <> RBM_NONE)
    by (intros Hz; rewrite Hz in Hpos1; simpl in Hpos1; lia).
  pose proof (genCountBits_clear_lowest _ Hm1) as Hc2.
  pose proof (maskRegs_lowest _ Hm1) as Hl2.
  pose proof (maskRegs_bound _ Hm1lt) as Hbd1.
  set (r2 := genRegNumFromMask (genFindLowestBit m1)) in *.
  assert (Hr2 : (r2 < 64)%N).
  { rewrite Hl2 in Hbd1. inversion Hbd1; assumption. }
  unfold PairsCover. simpl. repeat split.
  - rewrite regsOfPairs_app, <- app_assoc. simpl.
    unfold regsOfPair. simpl.
    replace (r2 =? REG_NA)%N with false
      by (symmetry; apply N.eqb_neq; unfold REG_NA; lia).
    simpl. rewrite <- Hcov, Hl1. fold m1. rewrite Hl2. reflexivity.
  - apply ldiff_lt_pow. exact Hm1lt.
  - rewrite Hc2. apply u32_small. unfold in_u32.
    pose proof (genCountBits_bound _ Hm1lt). lia.
  - apply Forall_app; split; [assumption|].
    constructor; [|constructor]. split; [exact Hr1|right]. simpl.
    apply N.eqb_eq in Hnext. apply negb_true_iff, N.eqb_neq in H28.
    apply Bool.eqb_prop in Hsame. auto.
  - apply Forall_app; split; [assumption|]. repeat constructor.
Qed.

Lemma genBuildRegPairsStack_loop_cover (m0 : regMaskTP) (st : PairsLoop) :
  PairsCover m0 st ->
  PairsCover m0 (genBuildRegPairsStack_loop st)
  /\ pl_regsMask (genBuildRegPairsStack_loop st) = RBM_NONE.
Proof.
  funelim (genBuildRegPairsStack_loop st); intros Hinv.
  - split; assumption.
  - match goal with
    | IH : forall m, PairsCover m _ -> _ |- _ =>
        apply IH, genBuildRegPairsStack_body_cover; assumption
    end.
Qed.

(** The marking pass changes no register of the list. *)
Lemma genSetUseSaveNextPairs_loop_regs (steps i : nat) (l : list RegPair) :
  map (fun p => (reg1 p, reg2 p)) (genSetUseSaveNextPairs_loop steps i l)
  = map (fun p => (reg1 p, reg2 p)) l.
Proof.
  revert i l. induction steps as [|steps IH]; intros i l; [reflexivity|].
  simpl. destruct (l !! i) as [curr|] eqn:Hcurr; [|reflexivity].
  destruct (l !! (i - 1)%nat) as [prev|]; [|reflexivity].
  rewrite IH.
  repeat match goal with
  | |- context [if ?c then _ else _] => destruct c
  end; try reflexivity.
  change (map (fun p : RegPair => (reg1 p, reg2 p)))
    with (fmap (M := list) (fun p : RegPair => (reg1 p, reg2 p))).
  rewrite list_fmap_insert. simpl.
  apply list_insert_id. rewrite list_lookup_fmap, Hcurr. reflexivity.
Qed.

Lemma regsOfPairs_regs (l1 l2 : list RegPair) :
  map (fun p => (reg1 p, reg2 p)) l1 = map (fun p => (reg1 p, reg2 p)) l2 ->
  regsOfPairs l1 = regsOfPairs l2
  /\ (Forall pairShape l2 -> Forall pairShape l1).
Proof.
  revert l2. induction l1 as [|a l1 IH]; intros [|b l2] Hmap;
    try discriminate.
  - split; [reflexivity|constructor].
  - simpl in Hmap. injection Hmap as H1 H2 Hrest.
    destruct (IH l2 Hrest) as [Hregs Hsh]. split.
    + change (regsOfPairs (a :: l1)) with (regsOfPair a ++ regsOfPairs l1).
      change (regsOfPairs (b :: l2)) with (regsOfPair b ++ regsOfPairs l2).
      f_equal; [|exact Hregs].
      unfold regsOfPair. rewrite H1, H2. reflexivity.
    + intros Hall. inversion Hall as [|? ? Hb Hl]; subst.
      constructor; [|auto].
      unfold pairShape in *. rewrite H1, H2. exact Hb.
Qed.

(** The pair list of a mask, described. *)
Lemma genBuildRegPairsStack_spec (regsMask : regMaskTP) :
  (regsMask < 2 ^ 64)%N ->
  exists regStack,
    genBuildRegPairsStack regsMask [] = Some regStack
    /\ regsOfPairs regStack = maskRegs regsMask
    /\ Forall pairShape regStack
    /\ (forall p rest, regStack = p :: rest -> useSaveNextPair p = false).
Proof.
  intros Hmask. unfold genBuildRegPairsStack. simpl negb. cbv iota.
  set (st0 := mkPairsLoop regsMask (genCountBits regsMask) []).
  assert (Hinv0 : PairsCover regsMask st0).
  { unfold PairsCover, st0. simpl. repeat split; try assumption; constructor. }
  destruct (genBuildRegPairsStack_loop_cover regsMask st0 Hinv0)
    as ((Hcov & _ & Hcnt & Hshape & Hunm) & Hzero).
  rewrite Hcnt, Hzero. simpl.
  eexists. split; [reflexivity|].
  rewrite Hzero in Hcov. simpl in Hcov. rewrite app_nil_r in Hcov.
  unfold genSetUseSaveNextPairs.
  set (l := pl_regStack (genBuildRegPairsStack_loop st0)) in *.
  pose proof (genSetUseSaveNextPairs_loop_regs (length l - 1) 1 l) as Hregs.
  destruct (regsOfPairs_regs _ _ Hregs) as [Hr Hs].
  split; [rewrite Hr; exact Hcov|]. split; [exact (Hs Hshape)|].
  intros p rest Heq.
  assert (Hm0 : marksJustified l).
  { intros i c Hi Hflag. rewrite Forall_lookup in Hunm.
    rewrite (Hunm i c Hi) in Hflag. discriminate. }
  assert (Hcls : Forall pairOfOneClass l).
  { eapply Forall_impl; [exact Hshape|]. intros q [_ [Hna|(_ & _ & Hc)]] Hq.
    - contradiction.
    - exact Hc. }
  destruct (genSetUseSaveNextPairs_loop_inv (length l - 1) 1 l
              ltac:(lia) Hcls Hm0) as (_ & Hmarks').
  destruct (useSaveNextPair p) eqn:Hflag; [|reflexivity].
  exfalso. destruct (Hmarks' 0%nat p) as (prev & Hpos & _); [|exact Hflag|lia].
  rewrite Heq. reflexivity.
Qed.

(** X9.  For every mask of registers below 64, [genBuildRegPairsStack]
    completes, and the registers of its entries, read in order, are
    exactly the registers of the mask from the lowest up, each once.  An
    entry is either a lone register or a register other than x28 followed
    by the next register number, both of one class (so x28 is never paired
    with FP, and x31 never with v0). *)
Theorem genBuildRegPairsStack_covers_mask (regsMask : regMaskTP) :
  (regsMask < 2 ^ 64)%N ->
  exists regStack,
    genBuildRegPairsStack regsMask [] = Some regStack
    /\ regsOfPairs regStack = maskRegs regsMask
    /\ Forall (fun p =>
                 reg2 p = REG_NA
                 \/ (reg2 p = REG_NEXT (reg1 p)
                     /\ reg1 p <> REG_R28
                     /\ genIsValidFloatReg (reg1 p)
                        = genIsValidFloatReg (reg2 p)))
         regStack.
Proof.
  intros Hmask.
  destruct (genBuildRegPairsStack_spec regsMask Hmask)
    as (l & Hrun & Hregs & Hshape & _).
  exists l. split; [exact Hrun|]. split; [exact Hregs|].
  eapply Forall_impl; [exact Hshape|]. intros p [_ H]. exact H.
Qed.

Lemma genBuildRegPairsStack_covers_mask_witness :
  (0x7FF80000 < 2 ^ 64)%N
  /\ exists regStack,
       genBuildRegPairsStack 0x7FF80000%N [] = Some regStack
       /\ regsOfPairs regStack = maskRegs 0x7FF80000%N
       /\ Forall (fun p =>
                    reg2 p = REG_NA
                    \/ (reg2 p = REG_NEXT (reg1 p)
                        /\ reg1 p <> REG_R28
                        /\ genIsValidFloatReg (reg1 p)
                           = genIsValidFloatReg (reg2 p)))
            regStack.
Proof.
  assert (H : (0x7FF80000 < 2 ^ 64)%N) by reflexivity.
  split; [exact H|].
  exact (genBuildRegPairsStack_covers_mask 0x7FF80000%N H).
Defined.

(** ** Calls of one kind *)

Lemma emitsOnly_ret {A} (P : event -> Prop) (a : A) : emitsOnly P (ret a).
Proof. intros n b t n' H. apply ret_inv in H as (_ & -> & _). constructor. Qed.

Lemma emitsOnly_assert (P : event -> Prop) (c : bool) :
  emitsOnly P (assert c).
Proof.
  intros n b t n' H. apply assert_inv in H as (_ & -> & _). constructor.
Qed.

Lemma emitsOnly_tell (P : event -> Prop) (e : event) :
  P e -> emitsOnly P (tell e).
Proof.
  intros He n b t n' H. apply tell_inv in H as (-> & _).
  constructor; [exact He|constructor].
Qed.

Lemma emitsOnly_bind {A B} (P : event -> Prop) (m : Gen A) (k : A -> Gen B) :
  emitsOnly P m -> (forall a, emitsOnly P (k a)) -> emitsOnly P (bind m k).
Proof.
  intros Hm Hk n b t n' H.
  apply bind_inv in H as (a & t1 & n1 & t2 & H1 & H2 & ->).
  apply Forall_app. split; [eapply Hm|eapply Hk]; eassumption.
Qed.

(** Splits a generator along its sequencing and its tests. *)
Ltac emits_only :=
  repeat first
    [ apply emitsOnly_ret
    | apply emitsOnly_assert
    | apply emitsOnly_tell; try reflexivity
    | apply emitsOnly_bind; [|intros ?]
    | match goal with
      | |- emitsOnly _ (if ?c then _ else _) => destruct c
      | |- emitsOnly _ (let '(_, _) := ?x in _) => destruct x
      end ].

(** ** Calls of a stack-pointer adjustment *)

Section SpAdjustCalls.

Context {E : Emitter}.
Variable compReloc : bool.

Lemma movk_loop_emitsOnly size reg imm skipVal shifts ins :
  emitsOnly (fun e => isSpAdjustEvent e = true)
    (movk_loop size reg imm skipVal shifts ins).
Proof.
  revert ins. induction shifts as [|i rest IH]; intros ins; simpl.
  - apply emitsOnly_ret.
  - destruct (negb _); [|apply IH].
    apply emitsOnly_bind; [|intros _; apply IH].
    apply emitsOnly_tell. reflexivity.
Qed.

Lemma instGen_Set_Reg_To_Imm_emitsOnly size reg imm flags :
  emitsOnly (fun e => isSpAdjustEvent e = true)
    (instGen_Set_Reg_To_Imm compReloc size reg imm flags).
Proof.
  unfold instGen_Set_Reg_To_Imm, instGen_Set_Reg_To_Zero, emit.
  apply emitsOnly_bind; [apply emitsOnly_assert|intros _].
  apply emitsOnly_bind; [|intros _; apply emitsOnly_tell; reflexivity].
  destruct (EA_IS_RELOC _); [apply emitsOnly_tell; reflexivity|].
  destruct (imm =? 0); [apply emitsOnly_tell; reflexivity|].
  apply emitsOnly_bind.
  - destruct (emitIns_valid_imm_for_mov _ _);
      [apply emitsOnly_tell; reflexivity|].
    apply emitsOnly_bind; [apply movk_loop_emitsOnly|].
    intros ?. apply emitsOnly_assert.
  - intros _. destruct (bool_decide _);
      [apply emitsOnly_tell; reflexivity|apply emitsOnly_ret].
Qed.

(** The calls of [genInstrWithConstant] for an [add] or [sub]. *)
Lemma genInstrWithConstant_add_sub_emitsOnly ins attr reg1 reg2 imm tmpReg
    inUnwindRegion :
  ins = INS_add \/ ins = INS_sub ->
  emitsOnly (fun e => isSpAdjustEvent e = true)
    (genInstrWithConstant compReloc ins attr reg1 reg2 imm tmpReg
       inUnwindRegion).
Proof.
  intros Hins. unfold genInstrWithConstant, emit, unwind.
  apply emitsOnly_bind; [apply emitsOnly_assert|intros _].
  intros n b t n' H.
  apply bind_inv in H as ([[ins' imm'] fits] & t1 & n1 & t2 & Hsw & H & ->).
  assert (Hsw' : t1 = [] /\ (ins' = INS_add \/ ins' = INS_sub)).
  { destruct Hins as [-> | ->]; destruct (imm <? 0);
      apply ret_inv in Hsw as (Hsw & -> & _);
      injection Hsw as -> _ _; simpl; auto. }
  destruct Hsw' as [-> Hins'].
  simpl. revert H. generalize n1 b t2 n'.
  change (emitsOnly (fun e => isSpAdjustEvent e = true)
            ((if fits
              then tell (Emit (emitIns_R_R_I ins' attr reg1 reg2 imm'
                                 INS_OPTS_NONE))
              else
                assert (negb (tmpReg =? REG_NA)%N) >>
                instGen_Set_Reg_To_Imm compReloc (EA_SIZE attr) tmpReg imm'
                  INS_FLAGS_DONT_CARE >>
                tell (verifyRegUsed tmpReg) >>
                (if inUnwindRegion then tell (Unwind unwindPadding)
                 else ret tt) >>
                tell (Emit (emitIns_R_R_R ins' attr reg1 reg2 tmpReg))) >>
             ret fits)).
  apply emitsOnly_bind; [|intros _; apply emitsOnly_ret].
  destruct fits.
  - apply emitsOnly_tell. destruct Hins' as [-> | ->]; reflexivity.
  - apply emitsOnly_bind; [apply emitsOnly_assert|intros _].
    apply emitsOnly_bind; [apply instGen_Set_Reg_To_Imm_emitsOnly|intros _].
    apply emitsOnly_bind; [apply emitsOnly_tell; reflexivity|intros _].
    apply emitsOnly_bind.
    + destruct inUnwindRegion;
        [apply emitsOnly_tell; reflexivity|apply emitsOnly_ret].
    + intros _. apply emitsOnly_tell.
      destruct Hins' as [-> | ->]; reflexivity.
Qed.

End SpAdjustCalls.

(** The calls of a stack-pointer adjustment store and load no register
    and account for no stack. *)
Lemma isSpAdjustEvent_measures (t : list event) :
  Forall (fun e => isSpAdjustEvent e = true) t ->
  storeSlots t = [] /\ loadSlots t = [] /\ unwindStack t = 0.
Proof.
  induction 1 as [|e t He _ (IH1 & IH2 & IH3)]; [auto|].
  unfold storeSlots, loadSlots, unwindStack in *. simpl.
  rewrite IH1, IH2, IH3.
  destruct e as [c|u| | | | | | | | | |]; try discriminate;
    [destruct c as [| |ins ? ? ? ? opt| | | | | | |]; try discriminate;
     try (repeat split; reflexivity);
     destruct ins; try discriminate; repeat split; reflexivity
    |destruct u; try discriminate; repeat split; reflexivity
    |repeat split; reflexivity].
Qed.

Lemma storeSlots_app (t1 t2 : list event) :
  storeSlots (t1 ++ t2) = storeSlots t1 ++ storeSlots t2.
Proof. apply flat_map_app. Qed.

Lemma loadSlots_app (t1 t2 : list event) :
  loadSlots (t1 ++ t2) = loadSlots t1 ++ loadSlots t2.
Proof. apply flat_map_app. Qed.

Lemma unwindStack_app (t1 t2 : list event) :
  unwindStack (t1 ++ t2) = unwindStack t1 + unwindStack t2.
Proof.
  unfold unwindStack. induction t1 as [|e t1 IH]; simpl; [reflexivity|].
  rewrite IH. lia.
Qed.

(** ** Saving and restoring a group of registers *)

Lemma slotsFrom_app (offset : Z) (l1 l2 : list regNumber) :
  slotsFrom offset (l1 ++ l2)
  = slotsFrom offset l1
    ++ slotsFrom (offset + REGSIZE_BYTES * Z.of_nat (length l1)) l2.
Proof.
  revert offset. induction l1 as [|r l1 IH]; intros offset.
  - simpl. f_equal. unfold REGSIZE_BYTES. lia.
  - cbn [app slotsFrom length]. rewrite IH. simpl app. do 3 f_equal.
    unfold REGSIZE_BYTES. lia.
Qed.

Lemma regsOfPair_length (p : RegPair) :
  (1 <= length (regsOfPair p) <= 2)%nat.
Proof. unfold regsOfPair. destruct (_ =? _)%N; simpl; lia. Qed.

Lemma regsOfPairs_rev_length (l : list RegPair) :
  length (regsOfPairs (rev l)) = length (regsOfPairs l).
Proof.
  induction l as [|a l IH]; [reflexivity|].
  change (rev (a :: l)) with (rev l ++ [a]).
  change (regsOfPairs (a :: l)) with (regsOfPair a ++ regsOfPairs l).
  rewrite regsOfPairs_app, !length_app, IH.
  unfold regsOfPairs at 2. simpl. rewrite app_nil_r. lia.
Qed.

Section GroupRuns.

Context {E : Emitter}.
Variable compReloc : bool.

(** A stack-pointer adjustment with a usable scratch register completes;
    it stores and loads nothing and accounts for the stack it moves. *)
Lemma genStackPointerAdjustment_measures spDelta tmpReg pTmpRegIsZero n :
  Z.abs spDelta < 2 ^ 32 ->
  tmpReg <> REG_SPBASE -> tmpReg <> REG_NA ->
  genIsValidFloatReg tmpReg = false ->
  exists p t,
    genStackPointerAdjustment compReloc spDelta tmpReg pTmpRegIsZero true n
    = Some (p, t, n)
    /\ storeSlots t = [] /\ loadSlots t = []
    /\ unwindStack t = Z.abs spDelta.
Proof.
  intros Habs Hsp Hna Hfl.
  destruct (genStackPointerAdjustment_succeeds compReloc spDelta tmpReg
              pTmpRegIsZero n Habs Hsp Hna Hfl) as (r & t & Hc & Hrun).
  eexists _, _. split; [exact Hrun|].
  pose proof (genInstrWithConstant_add_sub_emitsOnly compReloc INS_add
                EA_PTRSIZE REG_SPBASE REG_SPBASE spDelta tmpReg true
                (or_introl eq_refl) _ _ _ _ Hc) as Hshape.
  destruct (isSpAdjustEvent_measures t Hshape) as (H1 & H2 & H3).
  rewrite storeSlots_app, loadSlots_app, unwindStack_app, H1, H2, H3.
  unfold storeSlots, loadSlots, unwindStack. simpl. repeat split. lia.
Qed.

(** The save of one entry of the pair list. *)
Lemma save_entry_run (p : RegPair) (spOffset spDelta : Z) (n : label) :
  pairShape p ->
  0 <= spOffset -> spOffset + REGSIZE_BYTES * Z.of_nat (length (regsOfPair p)) <= 520 ->
  spDelta <= 0 -> Z.rem spDelta 16 = 0 -> - 2 ^ 32 < spDelta ->
  (spDelta <> 0 -> useSaveNextPair p = false) ->
  exists t,
    (if negb (reg2 p =? REG_NA)%N then
       genPrologSaveRegPair compReloc (reg1 p) (reg2 p) spOffset spDelta
         (useSaveNextPair p) REG_IP0 None >>
       ret (s32 (spOffset + 2 * REGSIZE_BYTES))
     else
       genPrologSaveReg compReloc (reg1 p) spOffset spDelta REG_IP0 None >>
       ret (s32 (spOffset + REGSIZE_BYTES))) n
    = Some (spOffset + REGSIZE_BYTES * Z.of_nat (length (regsOfPair p)), t, n)
    /\ storeSlots t = slotsFrom spOffset (regsOfPair p)
    /\ unwindStack t = - spDelta.
Proof.
  intros (Hr1 & Hsh) Hoff Hend Hd Hrem Hlo Hmark.
  assert (Hip : REG_IP0 <> REG_SPBASE /\ REG_IP0 <> REG_NA
                /\ genIsValidFloatReg REG_IP0 = false)
    by (repeat split; discriminate).
  destruct Hip as (Hip1 & Hip2 & Hip3).
  unfold regsOfPair in *.
  destruct (reg2 p =? REG_NA)%N eqn:Hna; cbn [negb]; cbv iota.
  - (* a lone register *)
    simpl length in *. unfold REGSIZE_BYTES in *.
    rewrite s32_small by (unfold in_s32; lia).
    replace (spOffset + 8 * Z.of_nat 1) with (spOffset + 8) in * by lia.
    destruct (Z.eq_dec spDelta 0) as [->|Hnz].
    + eexists. split; [|split].
      * unfold genPrologSaveReg.
        apply Z.leb_le in Hoff. rewrite Hoff. reflexivity.
      * unfold storeSlots. simpl. reflexivity.
      * reflexivity.
    + unfold bind at 1.
      rewrite (genPrologSaveReg_run compReloc (reg1 p) spOffset spDelta
                 REG_IP0 None n Hoff ltac:(lia) Hrem).
      destruct ((spOffset =? 0) && (-256 <=? spDelta)) eqn:Hfold.
      * apply andb_true_iff in Hfold as [H0 _]. apply Z.eqb_eq in H0.
        subst spOffset. simpl.
        eexists. split; [reflexivity|]. unfold storeSlots, unwindStack.
        simpl. split; [reflexivity|lia].
      * destruct (genStackPointerAdjustment_measures spDelta REG_IP0 None n
                    ltac:(lia) Hip1 Hip2 Hip3)
          as (q & adj & Hadj & Hs & _ & Hu).
        rewrite Hadj. simpl.
        eexists. split; [reflexivity|].
        rewrite app_nil_r, storeSlots_app, unwindStack_app, Hs, Hu.
        unfold storeSlots, unwindStack. simpl. split; [reflexivity|lia].
  - (* a pair *)
    apply N.eqb_neq in Hna.
    destruct Hsh as [Hsh|(_ & _ & Hcls)]; [contradiction|].
    simpl length in *. unfold REGSIZE_BYTES in *.
    rewrite s32_small by (unfold in_s32; lia).
    replace (spOffset + 8 * Z.of_nat 2) with (spOffset + 2 * 8) in * by lia.
    destruct (Z.eq_dec spDelta 0) as [->|Hnz].
    + assert (H504 : (spOffset <=? 504) = true) by (apply Z.leb_le; lia).
      apply Z.leb_le in Hoff.
      destruct (useSaveNextPair p); (eexists; split; [|split]);
        try (unfold genPrologSaveRegPair;
             rewrite Hoff, Hcls, Bool.eqb_reflx;
             unfold bind, assert, ret, emit, unwind, tell; simpl;
             rewrite H504; simpl; reflexivity);
        reflexivity.
    + rewrite (Hmark Hnz). unfold bind at 1.
      rewrite (genPrologSaveRegPair_run compReloc (reg1 p) (reg2 p) spOffset
                 spDelta REG_IP0 None n Hoff ltac:(lia) Hrem Hcls).
      destruct ((spOffset =? 0) && (-512 <=? spDelta)) eqn:Hfold.
      * apply andb_true_iff in Hfold as [H0 _]. apply Z.eqb_eq in H0.
        subst spOffset. simpl.
        eexists. split; [reflexivity|]. unfold storeSlots, unwindStack.
        simpl. split; [reflexivity|lia].
      * destruct (genStackPointerAdjustment_measures spDelta REG_IP0 None n
                    ltac:(lia) Hip1 Hip2 Hip3)
          as (q & adj & Hadj & Hs & _ & Hu).
        rewrite Hadj.
        assert (H504 : (spOffset <=? 504) = true) by (apply Z.leb_le; lia).
        rewrite H504. simpl.
        eexists. split; [reflexivity|].
        rewrite app_nil_r, storeSlots_app, unwindStack_app, Hs, Hu.
        unfold storeSlots, unwindStack. simpl. split; [reflexivity|lia].
Qed.

(** The saves of a pair list: consecutive slots from [spOffset] up, and
    the whole SP change accounted for by the first entry. *)
Lemma genSaveCalleeSavedRegisterGroup_loop_run (l : list RegPair)
    (spOffset spDelta : Z) (n : label) :
  Forall pairShape l ->
  0 <= spOffset ->
  spOffset + REGSIZE_BYTES * Z.of_nat (length (regsOfPairs l)) <= 520 ->
  spDelta <= 0 -> Z.rem spDelta 16 = 0 -> - 2 ^ 32 < spDelta ->
  (spDelta <> 0 -> forall p rest, l = p :: rest -> useSaveNextPair p = false) ->
  exists t,
    genSaveCalleeSavedRegisterGroup_loop compReloc REGSIZE_BYTES l spDelta
      spOffset n = Some (tt, t, n)
    /\ storeSlots t = slotsFrom spOffset (regsOfPairs l)
    /\ unwindStack t = match l with [] => 0 | _ => - spDelta end.
Proof.
  revert spOffset spDelta.
  induction l as [|p rest IH]; intros spOffset spDelta Hsh Hoff Hend Hd Hrem
    Hlo Hmark.
  - exists []. repeat split.
  - inversion Hsh as [|? ? Hp Hrest]; subst.
    change (regsOfPairs (p :: rest)) with (regsOfPair p ++ regsOfPairs rest)
      in *.
    rewrite length_app, Nat2Z.inj_add in Hend.
    pose proof (regsOfPair_length p) as Hlen.
    unfold REGSIZE_BYTES in Hend.
    destruct (save_entry_run p spOffset spDelta n Hp Hoff
                ltac:(unfold REGSIZE_BYTES; lia) Hd Hrem Hlo
                ltac:(intros Hnz; exact (Hmark Hnz p rest eq_refl)))
      as (t1 & Hrun1 & Hs1 & Hu1).
    destruct (IH (spOffset + REGSIZE_BYTES * Z.of_nat (length (regsOfPair p)))
                0 Hrest ltac:(unfold REGSIZE_BYTES; lia)
                ltac:(unfold REGSIZE_BYTES; lia) ltac:(lia) eq_refl ltac:(lia)
                ltac:(intros Hnz; exfalso; apply Hnz; reflexivity))
      as (t2 & Hrun2 & Hs2 & Hu2).
    exists (t1 ++ t2). split; [|split].
    + cbn [genSaveCalleeSavedRegisterGroup_loop].
      unfold bind at 1. rewrite Hrun1, Hrun2. reflexivity.
    + rewrite storeSlots_app, Hs1, Hs2, slotsFrom_app. reflexivity.
    + rewrite unwindStack_app, Hu1, Hu2. destruct rest; lia.
Qed.

(** The restore of one entry of the pair list. *)
Lemma restore_entry_run (p : RegPair) (spOffset stackDelta : Z) (n : label) :
  pairShape p ->
  0 <= spOffset - REGSIZE_BYTES * Z.of_nat (length (regsOfPair p)) ->
  spOffset < 2 ^ 31 ->
  0 <= stackDelta -> Z.rem stackDelta 16 = 0 -> stackDelta < 2 ^ 32 ->
  (stackDelta <> 0 -> useSaveNextPair p = false) ->
  exists t,
    (if negb (reg2 p =? REG_NA)%N then
       let spOffset := s32 (spOffset - 2 * REGSIZE_BYTES) in
       genEpilogRestoreRegPair compReloc (reg1 p) (reg2 p) spOffset
         stackDelta (useSaveNextPair p) REG_IP1 None >>
       ret spOffset
     else
       let spOffset := s32 (spOffset - REGSIZE_BYTES) in
       genEpilogRestoreReg compReloc (reg1 p) spOffset stackDelta REG_IP1
         None >>
       ret spOffset) n
    = Some (spOffset - REGSIZE_BYTES * Z.of_nat (length (regsOfPair p)), t, n)
    /\ loadSlots t
       = slotsFrom
           (spOffset - REGSIZE_BYTES * Z.of_nat (length (regsOfPair p)))
           (regsOfPair p)
    /\ unwindStack t = stackDelta.
Proof.
  intros (Hr1 & Hsh) Hoff Hhi Hd Hrem Hlt Hmark.
  assert (Hip : REG_IP1 <> REG_SPBASE /\ REG_IP1 <> REG_NA
                /\ genIsValidFloatReg REG_IP1 = false)
    by (repeat split; discriminate).
  destruct Hip as (Hip1 & Hip2 & Hip3).
  unfold regsOfPair in *.
  destruct (reg2 p =? REG_NA)%N eqn:Hna; cbn [negb]; cbv iota zeta.
  - (* a lone register *)
    simpl length in *. unfold REGSIZE_BYTES in *.
    rewrite s32_small by (unfold in_s32; lia).
    replace (spOffset - 8 * Z.of_nat 1) with (spOffset - 8) in * by lia.
    destruct (Z.eq_dec stackDelta 0) as [->|Hnz].
    + eexists. split; [|split].
      * unfold genEpilogRestoreReg.
        apply Z.leb_le in Hoff. rewrite Hoff. reflexivity.
      * reflexivity.
      * reflexivity.
    + unfold bind at 1.
      rewrite (genEpilogRestoreReg_run compReloc (reg1 p) (spOffset - 8)
                 stackDelta REG_IP1 None n Hoff ltac:(lia) Hrem).
      destruct ((spOffset - 8 =? 0) && (stackDelta <=? 255)) eqn:Hfold.
      * apply andb_true_iff in Hfold as [H0 _]. apply Z.eqb_eq in H0.
        rewrite H0. simpl.
        eexists. split; [reflexivity|]. unfold loadSlots, unwindStack.
        simpl. split; [reflexivity|lia].
      * destruct (genStackPointerAdjustment_measures stackDelta REG_IP1 None
                    n ltac:(lia) Hip1 Hip2 Hip3)
          as (q & adj & Hadj & _ & Hs & Hu).
        rewrite Hadj. simpl.
        eexists. split; [reflexivity|].
        rewrite app_nil_r.
        change (Emit ?a :: Unwind ?b :: adj)
          with ([Emit a; Unwind b] ++ adj).
        rewrite loadSlots_app, unwindStack_app, Hs, Hu.
        unfold loadSlots, unwindStack. simpl. split; [reflexivity|lia].
  - (* a pair *)
    apply N.eqb_neq in Hna.
    destruct Hsh as [Hsh|(_ & _ & Hcls)]; [contradiction|].
    simpl length in *. unfold REGSIZE_BYTES in *.
    rewrite s32_small by (unfold in_s32; lia).
    replace (spOffset - 8 * Z.of_nat 2) with (spOffset - 2 * 8) in * by lia.
    destruct (Z.eq_dec stackDelta 0) as [->|Hnz].
    + apply Z.leb_le in Hoff.
      destruct (useSaveNextPair p); (eexists; split; [|split]);
        try (unfold genEpilogRestoreRegPair;
             rewrite Hoff, Hcls, Bool.eqb_reflx; reflexivity);
        reflexivity.
    + rewrite (Hmark Hnz). unfold bind at 1.
      rewrite (genEpilogRestoreRegPair_run compReloc (reg1 p) (reg2 p)
                 (spOffset - 2 * 8) stackDelta REG_IP1 None n Hoff ltac:(lia)
                 Hrem Hcls).
      destruct ((spOffset - 2 * 8 =? 0) && (stackDelta <=? 504)) eqn:Hfold.
      * apply andb_true_iff in Hfold as [H0 _]. apply Z.eqb_eq in H0.
        rewrite H0. simpl.
        eexists. split; [reflexivity|]. unfold loadSlots, unwindStack.
        simpl. split; [reflexivity|lia].
      * destruct (genStackPointerAdjustment_measures stackDelta REG_IP1 None
                    n ltac:(lia) Hip1 Hip2 Hip3)
          as (q & adj & Hadj & _ & Hs & Hu).
        rewrite Hadj. simpl.
        eexists. split; [reflexivity|].
        rewrite app_nil_r.
        change (Emit ?a :: Unwind ?b :: adj)
          with ([Emit a; Unwind b] ++ adj).
        rewrite loadSlots_app, unwindStack_app, Hs, Hu.
        unfold loadSlots, unwindStack. simpl. split; [reflexivity|lia].
Qed.

(** The restores of a pair list, walked from its last entry: the slots
    are those of the list laid out upwards to [spOffset], and the whole SP
    change is accounted for by the last restore. *)
Lemma genRestoreCalleeSavedRegisterGroup_loop_run (fromTop : list RegPair)
    (spOffset spDelta : Z) (n : label) :
  Forall pairShape fromTop ->
  0 <= spOffset - REGSIZE_BYTES * Z.of_nat (length (regsOfPairs fromTop)) ->
  spOffset < 2 ^ 31 ->
  0 <= spDelta -> Z.rem spDelta 16 = 0 -> spDelta < 2 ^ 32 ->
  (spDelta <> 0 ->
   forall p, last fromTop = Some p -> useSaveNextPair p = false) ->
  exists t,
    genRestoreCalleeSavedRegisterGroup_loop compReloc REGSIZE_BYTES fromTop
      spDelta spOffset 0 n = Some (tt, t, n)
    /\ Permutation (loadSlots t)
         (slotsFrom
            (spOffset
             - REGSIZE_BYTES * Z.of_nat (length (regsOfPairs fromTop)))
            (regsOfPairs (rev fromTop)))
    /\ unwindStack t = match fromTop with [] => 0 | _ => spDelta end.
Proof.
  revert spOffset.
  induction fromTop as [|p rest IH]; intros spOffset Hsh Hoff Hhi Hd Hrem Hlt
    Hmark.
  - exists []. repeat split. constructor.
  - inversion Hsh as [|? ? Hp Hrest]; subst.
    change (regsOfPairs (p :: rest)) with (regsOfPair p ++ regsOfPairs rest)
      in *.
    rewrite length_app, Nat2Z.inj_add in *.
    pose proof (regsOfPair_length p) as Hlen.
    set (k := Z.of_nat (length (regsOfPair p))) in *.
    set (m := Z.of_nat (length (regsOfPairs rest))) in *.
    assert (Hm : 0 <= m) by (unfold m; lia).
    unfold REGSIZE_BYTES in Hoff.
    cbn [genRestoreCalleeSavedRegisterGroup_loop]. cbv zeta.
    set (upd := match rest with [] => true | _ :: _ => false end
                && negb (spDelta =? 0)).
    assert (Ha : (if upd then assert (0 =? 0) else ret tt) n
                 = Some (tt, [], n)) by (destruct upd; reflexivity).
    unfold bind at 1. rewrite Ha.
    destruct (restore_entry_run p spOffset (if upd then spDelta else 0) n Hp
                ltac:(unfold REGSIZE_BYTES; fold k; lia) Hhi
                ltac:(destruct upd; lia)
                ltac:(destruct upd; [exact Hrem|reflexivity])
                ltac:(destruct upd; lia))
      as (t1 & Hrun1 & Hs1 & Hu1).
    { intros Hnz. unfold upd in Hnz.
      destruct rest; [|exfalso; apply Hnz; reflexivity].
      apply Hmark; [|reflexivity].
      intros ->. apply Hnz. reflexivity. }
    fold k in Hrun1, Hs1. cbv zeta in Hrun1.
    unfold bind at 1. rewrite Hrun1.
    destruct rest as [|p' rest'].
    + (* the last restore of the group *)
      simpl. eexists. split; [reflexivity|].
      rewrite ?app_nil_r. split.
      * rewrite Hs1.
        replace (spOffset - REGSIZE_BYTES * (k + m))
          with (spOffset - REGSIZE_BYTES * k)
          by (unfold m, REGSIZE_BYTES; simpl; lia).
        reflexivity.
      * rewrite Hu1. unfold upd. simpl.
        destruct (spDelta =? 0) eqn:Hz; simpl; [|reflexivity].
        apply Z.eqb_eq in Hz. lia.
    + assert (Hupd : upd = false) by reflexivity.
      rewrite Hupd in *.
      destruct (IH (spOffset - REGSIZE_BYTES * k) Hrest
                  ltac:(unfold REGSIZE_BYTES; fold m; lia)
                  ltac:(unfold REGSIZE_BYTES; lia) Hd Hrem Hlt)
        as (t2 & Hrun2 & Hs2 & Hu2).
      { intros Hnz q Hq. apply (Hmark Hnz). exact Hq. }
      rewrite Hrun2. eexists. split; [reflexivity|].
      fold m in Hs2. split.
      * simpl app. rewrite loadSlots_app, Hs1.
        change (rev (p :: p' :: rest')) with (rev (p' :: rest') ++ [p]).
        rewrite regsOfPairs_app, slotsFrom_app.
        unfold regsOfPairs at 3. simpl flat_map. rewrite app_nil_r.
        etransitivity; [apply Permutation_app_comm|].
        apply Permutation_app.
        -- replace (spOffset - REGSIZE_BYTES * (k + m))
             with (spOffset - REGSIZE_BYTES * k - REGSIZE_BYTES * m)
             by (unfold REGSIZE_BYTES; lia).
           exact Hs2.
        -- rewrite regsOfPairs_rev_length. fold m.
           replace (spOffset - REGSIZE_BYTES * (k + m) + REGSIZE_BYTES * m)
             with (spOffset - REGSIZE_BYTES * k)
             by (unfold REGSIZE_BYTES; lia).
           reflexivity.
      * simpl app. rewrite unwindStack_app, Hu1, Hu2. lia.
Qed.

End GroupRuns.

(** ** Splitting a mask *)

Lemma Pos_land_ldiff_countBits (p q : positive) :
  genCountBits (Pos.land p q) + genCountBits (Pos.ldiff p q)
  = Pos_countBits p.
Proof.
  revert q. induction p as [p IH|p IH|]; intros [q|q|].
  - change (Pos.land p~1 q~1) with (Pos.Nsucc_double (Pos.land p q)).
    change (Pos.ldiff p~1 q~1) with (Pos.Ndouble (Pos.ldiff p q)).
    rewrite genCountBits_Nsucc_double, genCountBits_Ndouble.
    specialize (IH q). simpl. lia.
  - change (Pos.land p~1 q~0) with (Pos.Ndouble (Pos.land p q)).
    change (Pos.ldiff p~1 q~0) with (Pos.Nsucc_double (Pos.ldiff p q)).
    rewrite genCountBits_Nsucc_double, genCountBits_Ndouble.
    specialize (IH q). simpl. lia.
  - change (Pos.land p~1 1) with 1%N.
    change (Pos.ldiff p~1 1) with (N.pos p~0). simpl. lia.
  - change (Pos.land p~0 q~1) with (Pos.Ndouble (Pos.land p q)).
    change (Pos.ldiff p~0 q~1) with (Pos.Ndouble (Pos.ldiff p q)).
    rewrite !genCountBits_Ndouble. specialize (IH q). simpl. lia.
  - change (Pos.land p~0 q~0) with (Pos.Ndouble (Pos.land p q)).
    change (Pos.ldiff p~0 q~0) with (Pos.Ndouble (Pos.ldiff p q)).
    rewrite !genCountBits_Ndouble. specialize (IH q). simpl. lia.
  - change (Pos.land p~0 1) with 0%N.
    change (Pos.ldiff p~0 1) with (N.pos p~0). simpl. lia.
  - reflexivity.
  - reflexivity.
  - reflexivity.
Qed.

(** The registers of a mask are those inside and those outside of any
    other mask. *)
Lemma genCountBits_split (a b : regMaskTP) :
  genCountBits (N.land a b) + genCountBits (N.ldiff a b) = genCountBits a.
Proof.
  destruct a as [|p], b as [|q]; simpl; try lia.
  apply Pos_land_ldiff_countBits.
Qed.

Lemma ldiff_land_same (a b : N) : N.ldiff a (N.land a b) = N.ldiff a b.
Proof.
  apply N.bits_inj. intros i.
  rewrite !N.ldiff_spec, N.land_spec.
  destruct (N.testbit a i), (N.testbit b i); reflexivity.
Qed.

Lemma land_subset_land (m c f : N) :
  N.land m c = m -> N.land (N.land m f) c = N.land m f.
Proof.
  intros H. rewrite <- N.land_assoc, (N.land_comm f c), N.land_assoc, H.
  reflexivity.
Qed.

Lemma ldiff_subset_land (m c f : N) :
  N.land m c = m -> N.land (N.ldiff m f) c = N.ldiff m f.
Proof.
  intros H. apply N.bits_inj. intros i.
  assert (Hi : N.testbit (N.land m c) i = N.testbit m i) by (rewrite H; reflexivity).
  rewrite N.land_spec in Hi.
  rewrite N.land_spec, !N.ldiff_spec.
  destruct (N.testbit m i), (N.testbit c i), (N.testbit f i);
    simpl in *; congruence.
Qed.

Lemma callee_saved_lt (m : regMaskTP) :
  N.land m (N.lor RBM_CALLEE_SAVED (N.lor RBM_FP RBM_LR)) = m ->
  (m < 2 ^ 64)%N.
Proof.
  intros Hsub. rewrite <- Hsub.
  eapply N.le_lt_trans; [apply N.land_le_r|]. reflexivity.
Qed.

Lemma genCountBits_zero_iff (m : regMaskTP) :
  genCountBits m = 0 <-> m = RBM_NONE.
Proof.
  split; [|intros ->; reflexivity].
  destruct m as [|p]; [reflexivity|]. simpl.
  pose proof (Pos_countBits_pos p). lia.
Qed.

Lemma slotsFrom_offsets (offset : Z) (regs : list regNumber) :
  map snd (slotsFrom offset regs)
  = map (fun k => offset + REGSIZE_BYTES * Z.of_nat k) (seq 0 (length regs)).
Proof.
  revert offset. induction regs as [|r regs IH]; intros offset; [reflexivity|].
  cbn [slotsFrom map length seq snd]. f_equal; [unfold REGSIZE_BYTES; lia|].
  rewrite IH, <- seq_shift, map_map. apply map_ext. intros k.
  unfold REGSIZE_BYTES. lia.
Qed.

(** No two registers of a run of slots share a slot. *)
Lemma slotsFrom_NoDup (offset : Z) (regs : list regNumber) :
  NoDup (map snd (slotsFrom offset regs)).
Proof.
  rewrite slotsFrom_offsets.
  apply NoDup_fmap_2_strong; [|apply NoDup_seq].
  intros x y _ _. unfold REGSIZE_BYTES. lia.
Qed.

Section GroupsOfMasks.

Context {E : Emitter}.
Variable compReloc : bool.

(** The save of the registers of a non-empty mask. *)
Lemma genSaveCalleeSavedRegisterGroup_run (regsMask : regMaskTP)
    (spDelta spOffset : Z) (n : label) :
  N.land regsMask (N.lor RBM_CALLEE_SAVED (N.lor RBM_FP RBM_LR)) = regsMask ->
  regsMask <> RBM_NONE ->
  0 <= spOffset ->
  spOffset + REGSIZE_BYTES * genCountBits regsMask <= 520 ->
  spDelta <= 0 -> Z.rem spDelta 16 = 0 -> - 2 ^ 32 < spDelta ->
  exists t,
    genSaveCalleeSavedRegisterGroup compReloc regsMask spDelta spOffset n
    = Some (tt, t, n)
    /\ storeSlots t = slotsFrom spOffset (maskRegs regsMask)
    /\ unwindStack t = - spDelta.
Proof.
  intros Hsub Hne Hoff Hend Hd Hrem Hlo.
  pose proof (callee_saved_lt _ Hsub) as Hlt.
  destruct (genBuildRegPairsStack_spec regsMask Hlt)
    as (l & Hl & Hregs & Hshape & Hhead).
  rewrite <- maskRegs_length, <- Hregs in Hend.
  destruct (genSaveCalleeSavedRegisterGroup_loop_run compReloc l spOffset
              spDelta n Hshape Hoff Hend Hd Hrem Hlo
              ltac:(intros _; exact Hhead))
    as (t & Hrun & Hs & Hu).
  exists t. split; [|split].
  - unfold genSaveCalleeSavedRegisterGroup, genGetSlotSizeForRegsInMask.
    rewrite Hsub, N.eqb_refl, Hl.
    unfold bind, assert, ret, liftAssert. simpl. rewrite Hrun. reflexivity.
  - rewrite Hs, Hregs. reflexivity.
  - rewrite Hu. destruct l; [|reflexivity].
    exfalso. pose proof (maskRegs_length regsMask) as Hml.
    pose proof (genCountBits_nonzero _ Hne). rewrite <- Hregs in Hml.
    simpl in Hml. lia.
Qed.

(** The restore of the registers of a non-empty mask, whose slots end at
    [spOffset]. *)
Lemma genRestoreCalleeSavedRegisterGroup_run (regsMask : regMaskTP)
    (spDelta spOffset : Z) (n : label) :
  N.land regsMask (N.lor RBM_CALLEE_SAVED (N.lor RBM_FP RBM_LR)) = regsMask ->
  regsMask <> RBM_NONE ->
  0 <= spOffset - REGSIZE_BYTES * genCountBits regsMask ->
  spOffset < 2 ^ 31 ->
  0 <= spDelta -> Z.rem spDelta 16 = 0 -> spDelta < 2 ^ 32 ->
  exists t,
    genRestoreCalleeSavedRegisterGroup compReloc regsMask spDelta spOffset n
    = Some (tt, t, n)
    /\ Permutation (loadSlots t)
         (slotsFrom (spOffset - REGSIZE_BYTES * genCountBits regsMask)
            (maskRegs regsMask))
    /\ unwindStack t = spDelta.
Proof.
  intros Hsub Hne Hoff Hhi Hd Hrem Hlo.
  pose proof (callee_saved_lt _ Hsub) as Hlt.
  destruct (genBuildRegPairsStack_spec regsMask Hlt)
    as (l & Hl & Hregs & Hshape & Hhead).
  assert (Hlen : Z.of_nat (length (regsOfPairs (rev l)))
                 = genCountBits regsMask).
  { rewrite regsOfPairs_rev_length, Hregs. apply maskRegs_length. }
  rewrite <- Hlen in Hoff.
  destruct (genRestoreCalleeSavedRegisterGroup_loop_run compReloc (rev l)
              spOffset spDelta n ltac:(apply Forall_rev; exact Hshape)
              Hoff Hhi Hd Hrem Hlo)
    as (t & Hrun & Hs & Hu).
  { intros _ p Hp. destruct l as [|a l']; [discriminate|].
    simpl in Hp. rewrite last_snoc in Hp. injection Hp as <-.
    exact (Hhead a l' eq_refl). }
  exists t. split; [|split].
  - unfold genRestoreCalleeSavedRegisterGroup, genGetSlotSizeForRegsInMask.
    rewrite Hsub, N.eqb_refl, Hl.
    unfold bind, assert, ret, liftAssert. simpl. rewrite Hrun. reflexivity.
  - rewrite rev_involutive, Hlen, Hregs in Hs. exact Hs.
  - rewrite Hu. destruct (rev l) eqn:Hrev; [|reflexivity].
    exfalso. apply (f_equal (@rev RegPair)) in Hrev.
    rewrite rev_involutive in Hrev. simpl in Hrev. subst l.
    pose proof (maskRegs_length regsMask) as Hml.
    pose proof (genCountBits_nonzero _ Hne). rewrite <- Hregs in Hml.
    simpl in Hml. lia.
Qed.

End GroupsOfMasks.

Section HelpRuns.

Context {E : Emitter}.
Variable compReloc : bool.

Variable regsMask : regMaskTP.
Hypothesis Hsub :
  N.land regsMask (N.lor RBM_CALLEE_SAVED (N.lor RBM_FP RBM_LR)) = regsMask.
Hypothesis Hne : regsMask <> RBM_NONE.

(** The two groups of the mask. *)
Lemma help_groups :
  let maskFloat := N.land regsMask RBM_ALLFLOAT in
  let maskInt := N.ldiff regsMask maskFloat in
  N.land maskFloat (N.lor RBM_CALLEE_SAVED (N.lor RBM_FP RBM_LR)) = maskFloat
  /\ N.land maskInt (N.lor RBM_CALLEE_SAVED (N.lor RBM_FP RBM_LR)) = maskInt
  /\ genCountBits maskFloat + genCountBits maskInt = genCountBits regsMask
  /\ 0 <= genCountBits maskFloat /\ 0 <= genCountBits maskInt
  /\ 1 <= genCountBits regsMask <= 20.
Proof.
  cbv zeta. rewrite ldiff_land_same.
  pose proof (callee_saved_lt _ Hsub) as Hlt.
  assert (HF : (N.land regsMask RBM_ALLFLOAT < 2 ^ 64)%N).
  { eapply N.le_lt_trans; [apply N.land_le_l|exact Hlt]. }
  assert (HI : (N.ldiff regsMask RBM_ALLFLOAT < 2 ^ 64)%N)
    by (apply ldiff_lt_pow; exact Hlt).
  pose proof (genCountBits_bound _ HF). pose proof (genCountBits_bound _ HI).
  pose proof (genCountBits_nonzero _ Hne).
  pose proof (genCountBits_callee_saved _ Hsub).
  repeat split; try lia.
  - apply land_subset_land. exact Hsub.
  - apply ldiff_subset_land. exact Hsub.
  - apply genCountBits_split.
Qed.

(** The saves of [genSaveCalleeSavedRegistersHelp] for a non-empty mask. *)
Lemma genSaveCalleeSavedRegistersHelp_run (lowest spDelta : Z) (n : label) :
  0 <= lowest ->
  lowest + REGSIZE_BYTES * genCountBits regsMask <= 520 ->
  spDelta <= 0 -> Z.rem spDelta 16 = 0 -> - 2 ^ 32 < spDelta ->
  exists t,
    genSaveCalleeSavedRegistersHelp compReloc regsMask lowest spDelta n
    = Some (tt, t, n)
    /\ storeSlots t
       = slotsFrom lowest
           (maskRegs (N.land regsMask RBM_ALLFLOAT)
            ++ maskRegs (N.ldiff regsMask (N.land regsMask RBM_ALLFLOAT)))
    /\ unwindStack t = - spDelta.
Proof.
  intros Hoff Hend Hd Hrem Hlo.
  pose proof help_groups as G. cbv zeta in G.
  destruct G as (HsF & HsI & Hcnt & HcF & HcI & Hc).
  unfold REGSIZE_BYTES in Hend.
  unfold genSaveCalleeSavedRegistersHelp.
  set (mF := N.land regsMask RBM_ALLFLOAT) in *.
  set (mI := N.ldiff regsMask mF) in *.
  assert (A1 : (spDelta <=? 0) = true) by (apply Z.leb_le; exact Hd).
  assert (A2 : (genCountBits regsMask =? 0) = false)
    by (apply Z.eqb_neq; lia).
  assert (A3 : (Z.rem spDelta 16 =? 0) = true)
    by (apply Z.eqb_eq; exact Hrem).
  assert (A4 : (genCountBits regsMask
                <=? genCountBits (N.lor RBM_CALLEE_SAVED
                                    (N.lor RBM_FP RBM_LR))) = true)
    by (apply Z.leb_le; change (genCountBits _) with 20 at 2; lia).
  rewrite A1, A2, A3, A4.
  unfold bind at 1. simpl assert. cbv iota beta.
  unfold bind at 1. simpl assert. cbv iota beta.
  unfold bind at 1. simpl assert. cbv iota beta.
  rewrite slotsFrom_app, maskRegs_length.
  destruct (N.eqb_spec mF RBM_NONE) as [HF0|HFne]; cbn [negb]; cbv iota.
  - (* no floating-point registers *)
    rewrite HF0 in *. simpl in Hcnt.
    assert (HIne : mI <> RBM_NONE).
    { intros Hz. rewrite Hz in Hcnt. simpl in Hcnt. lia. }
    destruct (genSaveCalleeSavedRegisterGroup_run compReloc mI spDelta lowest
                n HsI HIne Hoff ltac:(unfold REGSIZE_BYTES; lia) Hd Hrem Hlo)
      as (t & Hrun & Hs & Hu).
    apply N.eqb_neq in HIne.
    unfold bind, ret. rewrite HIne. cbn [negb]. rewrite Hrun.
    exists t. simpl. repeat split; [|exact Hu].
    rewrite Hs. f_equal. unfold REGSIZE_BYTES. simpl. lia.
  - destruct (genSaveCalleeSavedRegisterGroup_run compReloc mF spDelta lowest
                n HsF HFne Hoff ltac:(unfold REGSIZE_BYTES; lia) Hd Hrem Hlo)
      as (t1 & Hrun1 & Hs1 & Hu1).
    unfold bind at 1. unfold bind at 1. rewrite Hrun1.
    unfold ret at 1. cbv iota beta.
    rewrite (u32_small (genCountBits mF * FPSAVE_REGSIZE_BYTES))
      by (unfold in_u32, FPSAVE_REGSIZE_BYTES; lia).
    rewrite s32_small by (unfold in_s32, FPSAVE_REGSIZE_BYTES; lia).
    destruct (N.eqb_spec mI RBM_NONE) as [HI0|HIne]; cbn [negb]; cbv iota.
    + unfold ret. exists (t1 ++ []). rewrite HI0. simpl.
      rewrite !app_nil_r. repeat split; assumption.
    + destruct (genSaveCalleeSavedRegisterGroup_run compReloc mI 0
                  (lowest + genCountBits mF * FPSAVE_REGSIZE_BYTES) n HsI HIne
                  ltac:(unfold FPSAVE_REGSIZE_BYTES; lia)
                  ltac:(unfold REGSIZE_BYTES, FPSAVE_REGSIZE_BYTES; lia)
                  ltac:(lia) eq_refl ltac:(lia))
        as (t2 & Hrun2 & Hs2 & Hu2).
      rewrite Hrun2. exists (t1 ++ t2).
      split; [simpl; rewrite ?app_nil_r; reflexivity|].
      rewrite storeSlots_app, unwindStack_app, Hs1, Hs2, Hu1, Hu2.
      split; [|lia]. f_equal. f_equal.
      unfold REGSIZE_BYTES, FPSAVE_REGSIZE_BYTES. lia.
Qed.

(** The restores of [genRestoreCalleeSavedRegistersHelp] for a non-empty
    mask. *)
Lemma genRestoreCalleeSavedRegistersHelp_run (lowest spDelta : Z)
    (n : label) :
  0 <= lowest -> lowest < 2 ^ 30 ->
  0 <= spDelta -> Z.rem spDelta 16 = 0 -> spDelta < 2 ^ 32 ->
  exists t,
    genRestoreCalleeSavedRegistersHelp compReloc regsMask lowest spDelta n
    = Some (tt, t, n)
    /\ Permutation (loadSlots t)
         (slotsFrom lowest
            (maskRegs (N.land regsMask RBM_ALLFLOAT)
             ++ maskRegs (N.ldiff regsMask (N.land regsMask RBM_ALLFLOAT))))
    /\ unwindStack t = spDelta.
Proof.
  intros Hoff Hhi Hd Hrem Hlo.
  pose proof help_groups as G. cbv zeta in G.
  destruct G as (HsF & HsI & Hcnt & HcF & HcI & Hc).
  unfold genRestoreCalleeSavedRegistersHelp.
  set (mF := N.land regsMask RBM_ALLFLOAT) in *.
  set (mI := N.ldiff regsMask mF) in *.
  assert (A1 : (0 <=? spDelta) = true) by (apply Z.leb_le; exact Hd).
  assert (A2 : (genCountBits regsMask =? 0) = false)
    by (apply Z.eqb_neq; lia).
  assert (A3 : (Z.rem spDelta 16 =? 0) = true)
    by (apply Z.eqb_eq; exact Hrem).
  assert (A4 : (genCountBits regsMask
                <=? genCountBits (N.lor RBM_CALLEE_SAVED
                                    (N.lor RBM_FP RBM_LR))) = true)
    by (apply Z.leb_le; change (genCountBits _) with 20 at 2; lia).
  rewrite A1, A2, A3, A4.
  unfold bind at 1. simpl assert. cbv iota beta.
  unfold bind at 1. simpl assert. cbv iota beta.
  unfold bind at 1. simpl assert. cbv iota beta.
  rewrite (u32_small (genCountBits regsMask * REGSIZE_BYTES))
    by (unfold in_u32, REGSIZE_BYTES; lia).
  rewrite (s32_small (lowest + _))
    by (unfold in_s32, REGSIZE_BYTES; lia).
  rewrite slotsFrom_app, maskRegs_length.
  set (top := lowest + genCountBits regsMask * REGSIZE_BYTES).
  destruct (N.eqb_spec mI RBM_NONE) as [HI0|HIne]; cbn [negb]; cbv iota.
  - (* no integer registers *)
    rewrite HI0 in *. simpl in Hcnt.
    assert (HFne : mF <> RBM_NONE).
    { intros Hz. rewrite Hz in Hcnt. simpl in Hcnt. lia. }
    destruct (genRestoreCalleeSavedRegisterGroup_run compReloc mF spDelta top
                n HsF HFne ltac:(unfold top, REGSIZE_BYTES; lia)
                ltac:(unfold top, REGSIZE_BYTES; lia) Hd Hrem Hlo)
      as (t & Hrun & Hs & Hu).
    apply N.eqb_neq in HFne.
    unfold bind, ret. rewrite HFne. cbn [negb]. rewrite Hrun.
    exists t. simpl. rewrite app_nil_r. repeat split; [|exact Hu].
    replace (top - REGSIZE_BYTES * genCountBits mF) with lowest in Hs
      by (unfold top, REGSIZE_BYTES; lia).
    exact Hs.
  - set (dI := if negb (mF =? RBM_NONE)%N then 0 else spDelta).
    destruct (genRestoreCalleeSavedRegisterGroup_run compReloc mI dI top n
                HsI HIne ltac:(unfold top, REGSIZE_BYTES; lia)
                ltac:(unfold top, REGSIZE_BYTES; lia)
                ltac:(unfold dI; destruct (negb _); lia)
                ltac:(unfold dI; destruct (negb _); [reflexivity|exact Hrem])
                ltac:(unfold dI; destruct (negb _); lia))
      as (t1 & Hrun1 & Hs1 & Hu1).
    unfold bind at 1. unfold bind at 1. rewrite Hrun1.
    unfold ret at 1. cbv iota beta.
    rewrite (u32_small (genCountBits mI * REGSIZE_BYTES))
      by (unfold in_u32, REGSIZE_BYTES; lia).
    rewrite s32_small by (unfold in_s32, top, REGSIZE_BYTES; lia).
    replace (top - REGSIZE_BYTES * genCountBits mI)
      with (lowest + REGSIZE_BYTES * genCountBits mF) in Hs1
      by (unfold top, REGSIZE_BYTES; lia).
    destruct (N.eqb_spec mF RBM_NONE) as [HF0|HFne]; cbn [negb]; cbv iota.
    + unfold ret. exists (t1 ++ []). rewrite HF0 in *. simpl.
      rewrite !app_nil_r. simpl in dI. subst dI.
      repeat split; assumption.
    + destruct (genRestoreCalleeSavedRegisterGroup_run compReloc mF spDelta
                  (top - genCountBits mI * REGSIZE_BYTES) n HsF HFne
                  ltac:(unfold top, REGSIZE_BYTES; lia)
                  ltac:(unfold top, REGSIZE_BYTES; lia) Hd Hrem Hlo)
        as (t2 & Hrun2 & Hs2 & Hu2).
      rewrite Hrun2. exists (t1 ++ t2).
      split; [simpl; rewrite ?app_nil_r; reflexivity|].
      rewrite loadSlots_app, unwindStack_app, Hu1, Hu2.
      split; [|simpl in dI; subst dI; lia].
      etransitivity; [apply Permutation_app_comm|].
      apply Permutation_app; [|exact Hs1].
      replace (top - genCountBits mI * REGSIZE_BYTES
               - REGSIZE_BYTES * genCountBits mF) with lowest in Hs2
        by (unfold top, REGSIZE_BYTES; lia).
      exact Hs2.
Qed.

End HelpRuns.

Section CalleeSavedHelp.

Context {E : Emitter}.
Variable compReloc : bool.

(** X10.  For a non-empty mask within the callee-saved registers, FP and
    LR, an area of slots from [lowestCalleeSavedOffset >= 0] that ends at
    or below 512, and an SP change [spDelta <= 0] that is a multiple of
    16: [genSaveCalleeSavedRegistersHelp] completes; its stores write one
    eight-byte slot per register, consecutive from
    [lowestCalleeSavedOffset] up, the floating-point registers of the
    mask first and then its integer registers, each class from the lowest
    register up (so the integer registers are at the higher addresses);
    no two registers share a slot; and its unwind entries account for
    exactly [-spDelta] bytes of stack. *)
Theorem genSaveCalleeSavedRegistersHelp_slots (regsToSaveMask : regMaskTP)
    (lowestCalleeSavedOffset spDelta : Z) (n : label) :
  N.land regsToSaveMask (N.lor RBM_CALLEE_SAVED (N.lor RBM_FP RBM_LR))
  = regsToSaveMask ->
  regsToSaveMask <> RBM_NONE ->
  0 <= lowestCalleeSavedOffset ->
  lowestCalleeSavedOffset + REGSIZE_BYTES * genCountBits regsToSaveMask
  <= 512 ->
  spDelta <= 0 -> Z.rem spDelta 16 = 0 -> - 2 ^ 32 < spDelta ->
  exists t,
    genSaveCalleeSavedRegistersHelp compReloc regsToSaveMask
      lowestCalleeSavedOffset spDelta n = Some (tt, t, n)
    /\ storeSlots t
       = slotsFrom lowestCalleeSavedOffset
           (maskRegs (N.land regsToSaveMask RBM_ALLFLOAT)
            ++ maskRegs (N.ldiff regsToSaveMask RBM_ALLFLOAT))
    /\ NoDup (map snd (storeSlots t))
    /\ unwindStack t = - spDelta.
Proof.
  intros Hsub Hne Hoff Hend Hd Hrem Hlo.
  destruct (genSaveCalleeSavedRegistersHelp_run compReloc regsToSaveMask Hsub
              Hne lowestCalleeSavedOffset spDelta n Hoff ltac:(lia) Hd Hrem
              Hlo) as (t & Hrun & Hs & Hu).
  rewrite ldiff_land_same in Hs.
  exists t. split; [exact Hrun|]. split; [exact Hs|]. split; [|exact Hu].
  rewrite Hs. apply slotsFrom_NoDup.
Qed.

(** X11.  Under the same conditions, [genRestoreCalleeSavedRegistersHelp]
    called with the same mask and offset and the opposite SP change
    completes as well, and undoes the save: its loads read exactly the
    slots that the stores of [genSaveCalleeSavedRegistersHelp] wrote, each
    register from the slot it was saved to, and its unwind entries account
    for the same number of bytes. *)
Theorem genRestoreCalleeSavedRegistersHelp_undoes_save
    (regsMask : regMaskTP) (lowestCalleeSavedOffset spDelta : Z)
    (n : label) :
  N.land regsMask (N.lor RBM_CALLEE_SAVED (N.lor RBM_FP RBM_LR)) = regsMask ->
  regsMask <> RBM_NONE ->
  0 <= lowestCalleeSavedOffset ->
  lowestCalleeSavedOffset + REGSIZE_BYTES * genCountBits regsMask <= 512 ->
  spDelta <= 0 -> Z.rem spDelta 16 = 0 -> - 2 ^ 32 < spDelta ->
  exists ts tr,
    genSaveCalleeSavedRegistersHelp compReloc regsMask
      lowestCalleeSavedOffset spDelta n = Some (tt, ts, n)
    /\ genRestoreCalleeSavedRegistersHelp compReloc regsMask
         lowestCalleeSavedOffset (- spDelta) n = Some (tt, tr, n)
    /\ Permutation (loadSlots tr) (storeSlots ts)
    /\ unwindStack ts = - spDelta
    /\ unwindStack tr = - spDelta.
Proof.
  intros Hsub Hne Hoff Hend Hd Hrem Hlo.
  destruct (genSaveCalleeSavedRegistersHelp_run compReloc regsMask Hsub Hne
              lowestCalleeSavedOffset spDelta n Hoff ltac:(lia) Hd Hrem Hlo)
    as (ts & Hruns & Hs & Hus).
  assert (Hrem' : Z.rem (- spDelta) 16 = 0)
    by (rewrite Z.rem_opp_l', Hrem; lia).
  pose proof (genCountBits_nonzero _ Hne) as Hpos.
  unfold REGSIZE_BYTES in Hend.
  destruct (genRestoreCalleeSavedRegistersHelp_run compReloc regsMask Hsub
              Hne lowestCalleeSavedOffset (- spDelta) n Hoff ltac:(lia)
              ltac:(lia) Hrem' ltac:(lia))
    as (tr & Hrunr & Hl & Hur).
  exists ts, tr. repeat split; try assumption.
  rewrite Hs. exact Hl.
Qed.

(** X12.  With no register in the mask both helpers only move SP, and
    without a scratch register: for [spDelta = 0] they do nothing; for a
    nonzero [spDelta] of magnitude below [2^32] they make the one add or
    sub with the magnitude as immediate, followed by its stack-allocation
    unwind entry, when the magnitude is an encodable immediate, and
    abandon the run when it is not. *)
Theorem genSaveCalleeSavedRegistersHelp_empty_mask
    (lowestCalleeSavedOffset d : Z) (n : label) :
  0 <= d < 2 ^ 32 ->
  let adjust (ins : instruction) :=
    if d =? 0 then Some (tt, [], n)
    else if emitIns_valid_imm_for_add d EA_8BYTE then
      Some (tt,
            [Emit (emitIns_R_R_I ins EA_PTRSIZE REG_SPBASE REG_SPBASE d
                     INS_OPTS_NONE);
             Unwind (unwindAllocStack d)], n)
    else None in
  genSaveCalleeSavedRegistersHelp compReloc RBM_NONE lowestCalleeSavedOffset
    (- d) n = adjust INS_sub
  /\ genRestoreCalleeSavedRegistersHelp compReloc RBM_NONE
       lowestCalleeSavedOffset d n = adjust INS_add.
Proof.
  intros Hd. cbv zeta.
  assert (Hna : REG_NA <> REG_SPBASE) by discriminate.
  unfold genSaveCalleeSavedRegistersHelp, genRestoreCalleeSavedRegistersHelp.
  simpl genCountBits. simpl (0 =? 0). cbv iota.
  assert (A1 : (- d <=? 0) = true) by (apply Z.leb_le; lia).
  assert (A2 : (0 <=? d) = true) by (apply Z.leb_le; lia).
  rewrite A1, A2.
  unfold bind at 1. simpl assert. cbv iota beta.
  unfold bind at 2. simpl assert. cbv iota beta.
  destruct (Z.eqb_spec d 0) as [->|Hnz]; [split; reflexivity|].
  assert (A3 : (- d =? 0) = false) by (apply Z.eqb_neq; lia).
  rewrite A3. cbn [negb]. cbv iota.
  unfold genStackPointerAdjustment.
  split.
  - unfold bind at 1. unfold bind at 1.
    rewrite (genInstrWithConstant_add_sub_run compReloc INS_add EA_PTRSIZE
               REG_SPBASE REG_SPBASE (- d) REG_NA true n
               (or_introl eq_refl) ltac:(lia) Hna).
    cbv zeta.
    replace (Z.abs (- d)) with d by lia.
    replace (- d <? 0) with true by (symmetry; apply Z.ltb_lt; lia).
    change (EA_SIZE EA_PTRSIZE) with EA_8BYTE.
    destruct (emitIns_valid_imm_for_add d EA_8BYTE); [|reflexivity].
    rewrite (s64_small d) by (unfold in_s64; lia).
    rewrite (u32_small d) by (unfold in_u32; lia).
    rewrite Z.eqb_refl. reflexivity.
  - unfold bind at 1. unfold bind at 1.
    rewrite (genInstrWithConstant_add_sub_run compReloc INS_add EA_PTRSIZE
               REG_SPBASE REG_SPBASE d REG_NA true n
               (or_introl eq_refl) ltac:(lia) Hna).
    cbv zeta.
    replace (Z.abs d) with d by lia.
    replace (d <? 0) with false by (symmetry; apply Z.ltb_ge; lia).
    change (EA_SIZE EA_PTRSIZE) with EA_8BYTE.
    destruct (emitIns_valid_imm_for_add d EA_8BYTE); [|reflexivity].
    rewrite (s64_small d) by (unfold in_s64; lia).
    rewrite (u32_small d) by (unfold in_u32; lia).
    rewrite Z.eqb_refl. reflexivity.
Qed.

End CalleeSavedHelp.

(** A sample mask: x19, x20, FP, LR and v8. *)
Lemma genSaveCalleeSavedRegistersHelp_slots_witness :
  (N.land 0x10060180000 (N.lor RBM_CALLEE_SAVED (N.lor RBM_FP RBM_LR))
   = 0x10060180000%N
   /\ 0x10060180000%N <> RBM_NONE
   /\ 0 <= 16
   /\ 16 + REGSIZE_BYTES * genCountBits 0x10060180000%N <= 512
   /\ 0 <= 0 /\ Z.rem 0 16 = 0 /\ - 2 ^ 32 < 0)
  /\ exists t,
       genSaveCalleeSavedRegistersHelp (E := Arm64Emitter.emitter) false
         0x10060180000%N 16 0 0%nat = Some (tt, t, 0%nat)
       /\ storeSlots t
          = slotsFrom 16
              (maskRegs (N.land 0x10060180000 RBM_ALLFLOAT)
               ++ maskRegs (N.ldiff 0x10060180000 RBM_ALLFLOAT))
       /\ NoDup (map snd (storeSlots t))
       /\ unwindStack t = - 0.
Proof.
  assert (H1 : N.land 0x10060180000
                 (N.lor RBM_CALLEE_SAVED (N.lor RBM_FP RBM_LR))
               = 0x10060180000%N) by reflexivity.
  assert (H2 : 0x10060180000%N <> RBM_NONE) by discriminate.
  assert (H3 : 0 <= 16) by lia.
  assert (H4 : 16 + REGSIZE_BYTES * genCountBits 0x10060180000%N <= 512)
    by (vm_compute; discriminate).
  assert (H5 : 0 <= 0) by lia.
  assert (H6 : Z.rem 0 16 = 0) by reflexivity.
  assert (H7 : - 2 ^ 32 < 0) by lia.
  split; [auto 10|].
  exact (genSaveCalleeSavedRegistersHelp_slots (E := Arm64Emitter.emitter)
           false 0x10060180000%N 16 0 0%nat H1 H2 H3 H4 H5 H6 H7).
Defined.

Lemma genRestoreCalleeSavedRegistersHelp_undoes_save_witness :
  (N.land 0x10060180000 (N.lor RBM_CALLEE_SAVED (N.lor RBM_FP RBM_LR))
   = 0x10060180000%N
   /\ 0x10060180000%N <> RBM_NONE
   /\ 0 <= 0
   /\ 0 + REGSIZE_BYTES * genCountBits 0x10060180000%N <= 512
   /\ -48 <= 0 /\ Z.rem (-48) 16 = 0 /\ - 2 ^ 32 < -48)
  /\ exists ts tr,
       genSaveCalleeSavedRegistersHelp (E := Arm64Emitter.emitter) false
         0x10060180000%N 0 (-48) 0%nat = Some (tt, ts, 0%nat)
       /\ genRestoreCalleeSavedRegistersHelp (E := Arm64Emitter.emitter) false
            0x10060180000%N 0 (- -48) 0%nat = Some (tt, tr, 0%nat)
       /\ Permutation (loadSlots tr) (storeSlots ts)
       /\ unwindStack ts = - -48
       /\ unwindStack tr = - -48.
Proof.
  assert (H1 : N.land 0x10060180000
                 (N.lor RBM_CALLEE_SAVED (N.lor RBM_FP RBM_LR))
               = 0x10060180000%N) by reflexivity.
  assert (H2 : 0x10060180000%N <> RBM_NONE) by discriminate.
  assert (H3 : 0 <= 0) by lia.
  assert (H4 : 0 + REGSIZE_BYTES * genCountBits 0x10060180000%N <= 512)
    by (vm_compute; discriminate).
  assert (H5 : -48 <= 0) by lia.
  assert (H6 : Z.rem (-48) 16 = 0) by reflexivity.
  assert (H7 : - 2 ^ 32 < -48) by lia.
  split; [auto 10|].
  exact (genRestoreCalleeSavedRegistersHelp_undoes_save
           (E := Arm64Emitter.emitter) false 0x10060180000%N 0 (-48) 0%nat
           H1 H2 H3 H4 H5 H6 H7).
Defined.

Lemma genSaveCalleeSavedRegistersHelp_empty_mask_witness :
  0 <= 64 < 2 ^ 32
  /\ genSaveCalleeSavedRegistersHelp (E := Arm64Emitter.emitter) false
       RBM_NONE 0 (- 64) 0%nat
     = Some (tt,
             [Emit (emitIns_R_R_I INS_sub EA_PTRSIZE REG_SPBASE REG_SPBASE 64
                      INS_OPTS_NONE);
              Unwind (unwindAllocStack 64)], 0%nat)
  /\ genRestoreCalleeSavedRegistersHelp (E := Arm64Emitter.emitter) false
       RBM_NONE 0 64 0%nat
     = Some (tt,
             [Emit (emitIns_R_R_I INS_add EA_PTRSIZE REG_SPBASE REG_SPBASE 64
                      INS_OPTS_NONE);
              Unwind (unwindAllocStack 64)], 0%nat).
Proof.
  assert (H : 0 <= 64 < 2 ^ 32) by lia.
  split; [exact H|].
  exact (genSaveCalleeSavedRegistersHelp_empty_mask
           (E := Arm64Emitter.emitter) false 0 64 0%nat H).
Defined.

(** ** Funclet prologs and epilogs *)

Lemma fbind_run {A B} (m : FrameGen A) (k : A -> FrameGen B) n a t1 n1 :
  m n = Some (a, t1, n1) ->
  fbind m k n =
    match k a n1 with
    | Some (b, t2, n2) => Some (b, t1 ++ t2, n2)
    | None => None
    end.
Proof. unfold fbind. intros ->. reflexivity. Qed.

Lemma call_run {A} (m : Gen A) n a t n' :
  m n = Some (a, t, n') -> call m n = Some (a, map Call t, n').
Proof. unfold call. intros ->. reflexivity. Qed.

Lemma unwindRegion_from_calls (t : list event) (rest : list frameEvent) :
  unwindRegion_from (map Call t ++ rest) = t ++ unwindRegion_from rest.
Proof.
  induction t as [|e t IH]; [reflexivity|]. simpl. rewrite IH. reflexivity.
Qed.

(** FP and LR are integer registers. *)
Lemma land_FP_LR_ALLFLOAT (m : N) :
  N.land (N.ldiff m (N.land m RBM_ALLFLOAT)) (N.lor RBM_LR RBM_FP)
  = N.land m (N.lor RBM_LR RBM_FP).
Proof.
  rewrite ldiff_land_same. apply N.bits_inj. intros i.
  rewrite !N.land_spec, N.ldiff_spec.
  destruct (N.testbit (N.lor RBM_LR RBM_FP) i) eqn:Hi;
    [|rewrite !andb_false_r; reflexivity].
  replace (N.testbit RBM_ALLFLOAT i) with false;
    [rewrite !andb_true_r; reflexivity|].
  symmetry.
  change (N.lor RBM_LR RBM_FP) with (N.lor (2 ^ 30) (2 ^ 29))%N in Hi.
  rewrite N.lor_spec, !N.pow2_bits_eqb in Hi.
  apply orb_true_iff in Hi as [Hi|Hi]; apply N.eqb_eq in Hi; subst i;
    reflexivity.
Qed.

Section SavedMasks.

Variable m : regMaskTP.
Hypothesis Hsub :
  N.land m (N.lor RBM_CALLEE_SAVED (N.lor RBM_FP RBM_LR)) = m.
Hypothesis Hlr : N.land m RBM_LR <> 0%N.
Hypothesis Hfp : N.land m RBM_FP <> 0%N.

Lemma land_FP_LR_full : N.land m (N.lor RBM_LR RBM_FP) = N.lor RBM_LR RBM_FP.
Proof.
  pose proof Hlr as H1. pose proof Hfp as H2.
  change RBM_LR with (2 ^ 30)%N in *. change RBM_FP with (2 ^ 29)%N in *.
  apply N_land_pow2 in H1, H2.
  rewrite N.land_lor_distr_r, H1, H2. reflexivity.
Qed.

(** The assertions of the prolog and the epilog on FP and LR hold. *)
Lemma funclet_mask_asserts :
  let maskInt := N.ldiff m (N.land m RBM_ALLFLOAT) in
  (N.land maskInt RBM_LR =? 0)%N = false
  /\ (N.land maskInt RBM_FP =? 0)%N = false.
Proof.
  cbv zeta. pose proof (land_FP_LR_ALLFLOAT m) as H.
  rewrite land_FP_LR_full in H.
  split; apply N.eqb_neq; intros Hz.
  - apply (f_equal (fun x => N.testbit x 30)) in H.
    rewrite N.land_spec in H.
    assert (Hb : N.testbit (N.land (N.ldiff m (N.land m RBM_ALLFLOAT)) RBM_LR)
                   30 = false) by (rewrite Hz; reflexivity).
    rewrite N.land_spec in Hb.
    change (N.testbit RBM_LR 30) with true in Hb.
    change (N.testbit (N.lor RBM_LR RBM_FP) 30) with true in H.
    rewrite andb_true_r in *. congruence.
  - apply (f_equal (fun x => N.testbit x 29)) in H.
    rewrite N.land_spec in H.
    assert (Hb : N.testbit (N.land (N.ldiff m (N.land m RBM_ALLFLOAT)) RBM_FP)
                   29 = false) by (rewrite Hz; reflexivity).
    rewrite N.land_spec in Hb.
    change (N.testbit RBM_FP 29) with true in Hb.
    change (N.testbit (N.lor RBM_LR RBM_FP) 29) with true in H.
    rewrite andb_true_r in *. congruence.
Qed.

(** The mask handed to the register saves when FP/LR are saved with the
    other registers: the whole mask. *)
Lemma funclet_mask_all :
  N.lor (N.ldiff m (N.land m RBM_ALLFLOAT)) (N.land m RBM_ALLFLOAT) = m.
Proof.
  apply N.bits_inj. intros i.
  rewrite N.lor_spec, N.ldiff_spec, !N.land_spec.
  destruct (N.testbit m i), (N.testbit RBM_ALLFLOAT i); reflexivity.
Qed.

(** The mask handed to the register saves when FP/LR are saved
    separately: the mask without FP and LR. *)
Lemma funclet_mask_rest :
  N.lor (N.ldiff (N.ldiff m (N.land m RBM_ALLFLOAT)) (N.lor RBM_LR RBM_FP))
    (N.land m RBM_ALLFLOAT)
  = N.ldiff m (N.lor RBM_LR RBM_FP).
Proof.
  apply N.bits_inj. intros i.
  rewrite N.lor_spec, !N.ldiff_spec, !N.land_spec.
  destruct (N.testbit (N.lor RBM_LR RBM_FP) i) eqn:Hi.
  - replace (N.testbit RBM_ALLFLOAT i) with false;
      [destruct (N.testbit m i); reflexivity|].
    symmetry.
    change (N.lor RBM_LR RBM_FP) with (N.lor (2 ^ 30) (2 ^ 29))%N in Hi.
    rewrite N.lor_spec, !N.pow2_bits_eqb in Hi.
    apply orb_true_iff in Hi as [Hi|Hi]; apply N.eqb_eq in Hi; subst i;
      reflexivity.
  - destruct (N.testbit m i), (N.testbit RBM_ALLFLOAT i); reflexivity.
Qed.

Lemma funclet_mask_rest_facts :
  let rest := N.ldiff m (N.lor RBM_LR RBM_FP) in
  N.land rest (N.lor RBM_CALLEE_SAVED (N.lor RBM_FP RBM_LR)) = rest
  /\ genCountBits rest = genCountBits m - 2.
Proof.
  cbv zeta. split; [apply ldiff_subset_land; exact Hsub|].
  pose proof (genCountBits_split m (N.lor RBM_LR RBM_FP)) as H.
  rewrite land_FP_LR_full in H. change (genCountBits _) with 2 in H at 1.
  lia.
Qed.

End SavedMasks.

Section FuncletRuns.

Context {E : Emitter}.
Variable compReloc : bool.

(** The register saves and restores of a prolog and an epilog, which move
    SP by nothing, for any mask within the callee-saved registers, FP and
    LR. *)
Lemma genSaveCalleeSavedRegistersHelp_run0 (regsMask : regMaskTP)
    (lowest : Z) (n : label) :
  N.land regsMask (N.lor RBM_CALLEE_SAVED (N.lor RBM_FP RBM_LR)) = regsMask ->
  0 <= lowest ->
  lowest + REGSIZE_BYTES * genCountBits regsMask <= 520 ->
  exists ts tr,
    genSaveCalleeSavedRegistersHelp compReloc regsMask lowest 0 n
    = Some (tt, ts, n)
    /\ genRestoreCalleeSavedRegistersHelp compReloc regsMask lowest 0 n
       = Some (tt, tr, n)
    /\ Permutation (loadSlots tr) (storeSlots ts)
    /\ unwindStack ts = 0 /\ unwindStack tr = 0.
Proof.
  intros Hsub Hoff Hend.
  destruct (N.eq_dec regsMask RBM_NONE) as [->|Hne].
  - exists [], []. repeat split. constructor.
  - destruct (genSaveCalleeSavedRegistersHelp_run compReloc regsMask Hsub Hne
                lowest 0 n Hoff Hend ltac:(lia) eq_refl ltac:(lia))
      as (ts & Hruns & Hs & Hus).
    pose proof (genCountBits_nonzero _ Hne) as Hpos.
    unfold REGSIZE_BYTES in Hend.
    destruct (genRestoreCalleeSavedRegistersHelp_run compReloc regsMask Hsub
                Hne lowest 0 n Hoff ltac:(lia) ltac:(lia) eq_refl ltac:(lia))
      as (tr & Hrunr & Hl & Hur).
    exists ts, tr. repeat split; try assumption.
    rewrite Hs. exact Hl.
Qed.

(** An add, a pointer load or a pointer store with a constant completes
    when a scratch register is at hand. *)
Lemma genInstrWithConstant_scratch_succeeds ins reg1 reg2 imm tmpReg n :
  ins = INS_add \/ ins = INS_ldr \/ (ins = INS_str /\ tmpReg <> reg1) ->
  tmpReg <> reg2 -> tmpReg <> REG_NA ->
  genIsValidFloatReg tmpReg = false ->
  - 2 ^ 63 < imm < 2 ^ 63 -> (ins = INS_add \/ imm <> -1) ->
  exists b t,
    genInstrWithConstant compReloc ins EA_PTRSIZE reg1 reg2 imm tmpReg false n
    = Some (b, t, n).
Proof.
  intros Hins Hr2 Hna Hfl Himm Hm1.
  destruct Hins as [-> | Hins].
  - rewrite (genInstrWithConstant_add_sub_run compReloc INS_add EA_PTRSIZE
               reg1 reg2 imm tmpReg false n (or_introl eq_refl) Himm Hr2).
    cbv zeta. destruct (emitIns_valid_imm_for_add _ _); [eauto|].
    apply N.eqb_neq in Hna. rewrite Hna.
    destruct (instGen_Set_Reg_To_Imm_succeeds_64 compReloc tmpReg (Z.abs imm)
                INS_FLAGS_DONT_CARE n Hfl ltac:(unfold in_s64; lia)
                ltac:(lia)) as (ts & Hset).
    change (EA_SIZE EA_PTRSIZE) with EA_8BYTE. rewrite Hset. eauto.
  - assert (Him1 : imm <> -1)
      by (destruct Hm1 as [Hm1|Hm1]; [|exact Hm1];
          destruct Hins as [Hi|[Hi _]]; rewrite Hi in Hm1; discriminate).
    destruct (instGen_Set_Reg_To_Imm_succeeds_64 compReloc tmpReg imm
                INS_FLAGS_DONT_CARE n Hfl ltac:(unfold in_s64; lia) Him1)
      as (ts & Hset).
    apply N.eqb_neq in Hr2, Hna.
    unfold genInstrWithConstant. rewrite Hr2.
    change (EA_SIZE EA_PTRSIZE) with EA_8BYTE.
    destruct Hins as [-> | [-> Hr1]].
    + unfold bind, assert, ret, tell, emit. simpl.
      destruct (emitIns_valid_imm_for_ldst_offset imm EA_8BYTE); [eauto|].
      rewrite Hna. simpl. rewrite Hset. eauto.
    + apply N.eqb_neq in Hr1.
      unfold bind, assert, ret, tell, emit. simpl. rewrite Hr1. simpl.
      destruct (emitIns_valid_imm_for_ldst_offset imm EA_8BYTE); [eauto|].
      rewrite Hna. simpl. rewrite Hset. eauto.
Qed.

End FuncletRuns.

Lemma fbind_runs {A B} (m : FrameGen A) (k : A -> FrameGen B) n a t1 n1 b t2
    n2 :
  m n = Some (a, t1, n1) -> k a n1 = Some (b, t2, n2) ->
  fbind m k n = Some (b, t1 ++ t2, n2).
Proof. unfold fbind. intros -> ->. reflexivity. Qed.

(** Runs the next call of a prolog or epilog whose tests are decided. *)
Ltac frun :=
  eapply fbind_runs;
  [ first [ reflexivity | apply call_run; eassumption ] | ].

Section FuncletBalance.

Context {E : Emitter}.
Variable compReloc : bool.

(** The emitter takes the SP adjustments of small frames as add and sub
    immediates. *)
Hypothesis Himm :
  forall d, 0 < d <= 512 -> emitIns_valid_imm_for_add d EA_8BYTE = true.

(** A stack-pointer adjustment of a small frame, made without a scratch
    register. *)
Lemma genStackPointerAdjustment_no_scratch (d : Z) (n : label) :
  0 < d <= 512 ->
  genStackPointerAdjustment compReloc (- d) REG_NA None true n
  = Some (None,
          [Emit (emitIns_R_R_I INS_sub EA_PTRSIZE REG_SPBASE REG_SPBASE d
                   INS_OPTS_NONE);
           Unwind (unwindAllocStack d)], n)
  /\ genStackPointerAdjustment compReloc d REG_NA None true n
     = Some (None,
             [Emit (emitIns_R_R_I INS_add EA_PTRSIZE REG_SPBASE REG_SPBASE d
                      INS_OPTS_NONE);
              Unwind (unwindAllocStack d)], n).
Proof.
  intros Hd.
  assert (Hna : REG_NA <> REG_SPBASE) by discriminate.
  unfold genStackPointerAdjustment. split.
  - unfold bind at 1.
    rewrite (genInstrWithConstant_add_sub_run compReloc INS_add EA_PTRSIZE
               REG_SPBASE REG_SPBASE (- d) REG_NA true n
               (or_introl eq_refl) ltac:(lia) Hna).
    cbv zeta. replace (Z.abs (- d)) with d by lia.
    replace (- d <? 0) with true by (symmetry; apply Z.ltb_lt; lia).
    change (EA_SIZE EA_PTRSIZE) with EA_8BYTE. rewrite (Himm d Hd).
    unfold bind, assert, ret, unwind, tell.
    rewrite (s64_small d) by (unfold in_s64; lia).
    rewrite (u32_small d) by (unfold in_u32; lia).
    rewrite Z.eqb_refl. reflexivity.
  - unfold bind at 1.
    rewrite (genInstrWithConstant_add_sub_run compReloc INS_add EA_PTRSIZE
               REG_SPBASE REG_SPBASE d REG_NA true n
               (or_introl eq_refl) ltac:(lia) Hna).
    cbv zeta. replace (Z.abs d) with d by lia.
    replace (d <? 0) with false by (symmetry; apply Z.ltb_ge; lia).
    change (EA_SIZE EA_PTRSIZE) with EA_8BYTE. rewrite (Himm d Hd).
    unfold bind, assert, ret, unwind, tell.
    rewrite (s64_small d) by (unfold in_s64; lia).
    rewrite (u32_small d) by (unfold in_u32; lia).
    rewrite Z.eqb_refl. reflexivity.
Qed.

(** The part of the prolog that follows the unwind region: it writes the
    PSP slot. *)
Lemma genFuncletProlog_PSP_part (fi : FuncletFrameInfoDsc) (isFilter : bool)
    (n : label) :
  - 2 ^ 31 < fiFunction_CallerSP_to_FP_delta fi < 2 ^ 31 ->
  - 2 ^ 31 < fiCallerSP_to_PSP_slot_delta fi < -1 ->
  0 <= fiSP_to_PSP_slot_delta fi < 2 ^ 31 ->
  exists t,
    (if isFilter then
       call (genInstrWithConstant compReloc ins_Load_TYP_I_IMPL EA_PTRSIZE
               REG_R1 REG_R1 (fiCallerSP_to_PSP_slot_delta fi) REG_R2 false) >>>
       call (tell (verifyRegUsed REG_R1)) >>>
       call (genInstrWithConstant compReloc ins_Store_TYP_I_IMPL EA_PTRSIZE
               REG_R1 REG_SPBASE (fiSP_to_PSP_slot_delta fi) REG_R2 false) >>>
       call (genInstrWithConstant compReloc INS_add EA_PTRSIZE REG_FPBASE
               REG_R1 (fiFunction_CallerSP_to_FP_delta fi) REG_R2 false) >>>
       fret tt
     else
       call (genInstrWithConstant compReloc INS_add EA_PTRSIZE REG_R3
               REG_FPBASE (s32 (- fiFunction_CallerSP_to_FP_delta fi)) REG_R2
               false) >>>
       call (tell (verifyRegUsed REG_R3)) >>>
       call (genInstrWithConstant compReloc ins_Store_TYP_I_IMPL EA_PTRSIZE
               REG_R3 REG_SPBASE (fiSP_to_PSP_slot_delta fi) REG_R2 false) >>>
       fret tt)%frame n
    = Some (tt, t, n).
Proof.
  intros Hfp Hcp Hp.
  assert (Hr : forall ins r1 r2 imm,
             ins = INS_add \/ ins = INS_ldr \/ (ins = INS_str /\ REG_R2 <> r1) ->
             REG_R2 <> r2 -> - 2 ^ 63 < imm < 2 ^ 63 ->
             (ins = INS_add \/ imm <> -1) ->
             exists b t,
               genInstrWithConstant compReloc ins EA_PTRSIZE r1 r2 imm REG_R2
                 false n = Some (b, t, n)).
  { intros ins r1 r2 imm Hi H2 Him Hm.
    apply genInstrWithConstant_scratch_succeeds; try assumption;
      [discriminate|reflexivity]. }
  destruct isFilter.
  - destruct (Hr INS_ldr REG_R1 REG_R1 (fiCallerSP_to_PSP_slot_delta fi))
      as (b1 & t1 & H1); [auto|discriminate|lia|right; lia|].
    destruct (Hr INS_str REG_R1 REG_SPBASE (fiSP_to_PSP_slot_delta fi))
      as (b2 & t2 & H2);
      [right; right; split; [reflexivity|discriminate]|discriminate|lia
      |right; lia|].
    destruct (Hr INS_add REG_FPBASE REG_R1
                (fiFunction_CallerSP_to_FP_delta fi))
      as (b3 & t3 & H3); [auto|discriminate|lia|auto|].
    eexists. unfold ins_Load_TYP_I_IMPL, ins_Store_TYP_I_IMPL.
    frun. frun. frun. frun. reflexivity.
  - rewrite s32_small by (unfold in_s32; lia).
    destruct (Hr INS_add REG_R3 REG_FPBASE
                (- fiFunction_CallerSP_to_FP_delta fi))
      as (b1 & t1 & H1); [auto|discriminate|lia|auto|].
    destruct (Hr INS_str REG_R3 REG_SPBASE (fiSP_to_PSP_slot_delta fi))
      as (b2 & t2 & H2);
      [right; right; split; [reflexivity|discriminate]|discriminate|lia
      |right; lia|].
    eexists. unfold ins_Store_TYP_I_IMPL.
    frun. frun. frun. reflexivity.
Qed.


Lemma unwindStack_cons (e : event) (t : list event) :
  unwindStack (e :: t) = unwindStackOf e + unwindStack t.
Proof. reflexivity. Qed.

Lemma storeSlots_cons (e : event) (t : list event) :
  storeSlots (e :: t) = storeSlotsOf e ++ storeSlots t.
Proof. reflexivity. Qed.

Lemma loadSlots_cons (e : event) (t : list event) :
  loadSlots (e :: t) = loadSlotsOf e ++ loadSlots t.
Proof. reflexivity. Qed.

(** Reads the unwind region off the calls of a completed prolog or
    epilog and splits the measures along it. *)
Ltac region_measures :=
  repeat progress (cbn [app map unwindRegion unwindRegion_from];
                   rewrite ?app_nil_r, <- ?app_assoc,
                     ?unwindRegion_from_calls);
  rewrite ?app_nil_r;
  repeat rewrite ?unwindStack_cons, ?unwindStack_app, ?storeSlots_cons,
    ?storeSlots_app, ?loadSlots_cons, ?loadSlots_app;
  cbn [unwindStackOf storeSlotsOf loadSlotsOf N.eqb Pos.eqb REG_SPBASE REG_SP
       app];
  try change (unwindStack []) with 0;
  try change (storeSlots []) with (@nil (regNumber * Z));
  try change (loadSlots []) with (@nil (regNumber * Z));
  rewrite ?app_nil_r.

Section FuncletFrames.

Variable c : FrameInputs.
Variable old fi : FuncletFrameInfoDsc.
Variable bbCatchTyp : CatchTyp.
Variable n : label.

Hypothesis Hok : FrameInputsOK c.
Hypothesis Hused : lvaPSPSym_isUsed c = true.
Hypothesis Hcfp : - 2 ^ 31 < genCallerSPtoFPdelta c < 2 ^ 31.
Hypothesis Hrun : genCaptureFuncletPrologEpilogInfo c old = Some fi.

(** The prolog and the epilog run on the descriptor of the classifier. *)
Lemma genFuncletProlog_genFuncletEpilog_run :
  exists tp te,
    genFuncletProlog compReloc fi (lvaPSPSym_isUsed c) true bbCatchTyp n
    = Some (tt, tp, n)
    /\ genFuncletEpilog compReloc fi n = Some (tt, te, n)
    /\ unwindStack (unwindRegion tp)
       = (if fiFrameType fi =? 5 then - fiSpDelta2 fi
          else - (fiSpDelta1 fi + fiSpDelta2 fi))
    /\ unwindStack (unwindRegion te) = - (fiSpDelta1 fi + fiSpDelta2 fi)
    /\ Permutation (loadSlots (unwindRegion te))
         (storeSlots (unwindRegion tp)).
Proof.
  destruct (genCaptureFuncletPrologEpilogInfo_fields c Hok old fi Hrun)
    as (Hregs & Hcs & Hf).
  pose proof (frame_size_facts c Hok) as F. cbv zeta in F.
  destruct F as (HS & HS8 & Ho8 & Ho & HSA & HSA16 & HOA & HOA16 & HFSA
                 & HFSA16 & HM & HSv & Hk).
  rewrite Hused in HSv.
  pose proof Hok as (_ & _ & _ & Hlr & Hfp & Hsub & _).
  destruct (funclet_mask_asserts (rsMaskCalleeSaved c) Hlr Hfp) as [ALR AFP].
  pose proof (funclet_mask_all (rsMaskCalleeSaved c)) as Mall.
  pose proof (funclet_mask_rest (rsMaskCalleeSaved c)) as Mrest.
  destruct (funclet_mask_rest_facts (rsMaskCalleeSaved c) Hsub Hlr Hfp)
    as [Rsub Rcnt].
  assert (Hfn : fiFunction_CallerSP_to_FP_delta fi = genCallerSPtoFPdelta c).
  { destruct (genCaptureFuncletPrologEpilogInfo_inv c old fi
                ltac:(destruct Hok; assumption) Hrun)
      as (? & ? & ? & ? & ? & ? & _ & ->). reflexivity. }
  set (S := saveRegsPlusPSPSize c) in *.
  set (SA := saveRegsPlusPSPSizeAligned c) in *.
  set (o := lvaOutgoingArgSpaceSize c) in *.
  set (OA := outgoingArgSpaceAligned c) in *.
  set (FSA := funcletFrameSizeAligned c) in *.
  set (m := rsMaskCalleeSaved c) in *.
  set (cnt := genCountBits m) in *.
  set (va := if compIsVarArgs c then 64 else 0) in *.
  assert (Hva : 0 <= va <= 64) by (unfold va; destruct (compIsVarArgs c); lia).
  assert (HFM : FSA <= SA + OA) by (Z.div_mod_to_equations; lia).
  rewrite Hused.
  destruct (maxFuncletFrameSizeAligned c <=? 512) eqn:Hsmall;
    [apply Z.leb_le in Hsmall|apply Z.leb_gt in Hsmall];
    destruct (genSaveFpLrWithAllCalleeSavedRegisters c) eqn:Hall;
    injection Hf as Hfplr Hpsp Hcpsp Hty Hd1 Hd2.
  - (* frame type 4 *)
    assert (Hlow : s32 (fiSP_to_CalleeSave_delta fi + fiSpDelta2 fi)
                   = o + (FSA - (S + o)) + 8).
    { rewrite Hcs, Hpsp, Hd2, s32_small by (unfold in_s32; lia). lia. }
    destruct (genSaveCalleeSavedRegistersHelp_run0 compReloc m
                (o + (FSA - (S + o)) + 8) n Hsub ltac:(lia)
                ltac:(unfold REGSIZE_BYTES; fold cnt; lia))
      as (ts & tr & Hsave & Hrest & Hperm & Hus & Hur).
    destruct (genStackPointerAdjustment_no_scratch FSA n ltac:(lia))
      as [Hsubsp Haddsp].
    assert (T1 : (- FSA <? 0) = true) by (apply Z.ltb_lt; lia).
    assert (T2 : (-512 <=? - FSA) = true) by (apply Z.leb_le; lia).
    destruct (genFuncletProlog_PSP_part fi
                (bool_decide (bbCatchTyp = BBCT_FILTER)) n
                ltac:(rewrite Hfn; exact Hcfp) ltac:(rewrite Hcpsp; lia)
                ltac:(rewrite Hpsp; lia)) as (tpsp & Hpspr).
    eexists _, _. split; [|split].
    + unfold genFuncletProlog. cbv zeta.
      rewrite Hlow, Hregs, ALR, AFP, Hty, Hd1, Hd2, T1, T2.
      cbn [Z.eqb Pos.eqb orb negb].
      frun. frun. frun. frun. frun.
      eapply fbind_runs; [frun; frun; frun; frun; reflexivity|].
      cbv beta. rewrite Mall. frun. frun. frun. exact Hpspr.
    + unfold genFuncletEpilog. cbv zeta.
      rewrite Hlow, Hregs, ALR, AFP, Hty, Hd1, Hd2, Mall, T1, T2.
      cbn [Z.eqb Pos.eqb orb negb].
      rewrite (s32_small (- - FSA)) by (unfold in_s32; lia).
      replace (- - FSA) with FSA by lia.
      frun. frun. frun. frun. frun.
      eapply fbind_runs; [frun; frun; frun; reflexivity|].
      frun. frun. reflexivity.
    + rewrite Hty, Hd1, Hd2. cbn [Z.eqb Pos.eqb]. region_measures.
      rewrite Hus, Hur. repeat split; try lia.
      exact Hperm.
  - (* frame types 1 and 2 *)
    assert (Hlow : s32 (fiSP_to_CalleeSave_delta fi + fiSpDelta2 fi)
                   = o + 16 + (FSA - (S + o)) + 8).
    { rewrite Hcs, Hpsp, Hd2, s32_small by (unfold in_s32; lia). lia. }
    destruct (genSaveCalleeSavedRegistersHelp_run0 compReloc
                (N.ldiff m (N.lor RBM_LR RBM_FP))
                (o + 16 + (FSA - (S + o)) + 8) n Rsub ltac:(lia)
                ltac:(unfold REGSIZE_BYTES; rewrite Rcnt; lia))
      as (ts & tr & Hsave & Hrest & Hperm & Hus & Hur).
    destruct (genStackPointerAdjustment_no_scratch FSA n ltac:(lia))
      as [Hsubsp Haddsp].
    assert (T1 : (- FSA <? 0) = true) by (apply Z.ltb_lt; lia).
    assert (T2 : (-512 <=? - FSA) = true) by (apply Z.leb_le; lia).
    destruct (genFuncletProlog_PSP_part fi
                (bool_decide (bbCatchTyp = BBCT_FILTER)) n
                ltac:(rewrite Hfn; exact Hcfp) ltac:(rewrite Hcpsp; lia)
                ltac:(rewrite Hpsp; lia)) as (tpsp & Hpspr).
    destruct (Z.eqb_spec o 0) as [Ho0|Ho0].
    + (* frame type 1 *)
      assert (T3 : (fiSP_to_FPLR_save_delta fi =? 0) = true)
        by (rewrite Hfplr, Ho0; reflexivity).
      eexists _, _. split; [|split].
      * unfold genFuncletProlog. cbv zeta.
        rewrite Hlow, Hregs, ALR, AFP, Hty, Hd1, Hd2, T3.
        cbn [Z.eqb Pos.eqb orb negb].
        frun. frun. frun. frun. frun.
        eapply fbind_runs; [reflexivity|].
        cbv beta. rewrite Mrest. frun. frun. frun. exact Hpspr.
      * unfold genFuncletEpilog. cbv zeta.
        rewrite Hlow, Hregs, ALR, AFP, Hty, Hd1, Hd2, T3.
        cbn [Z.eqb Pos.eqb orb negb]. rewrite Mall.
        rewrite (s32_small (- - FSA)) by (unfold in_s32; lia).
        replace (- - FSA) with FSA by lia.
        frun. frun. frun. frun. frun.
        eapply fbind_runs; [reflexivity|].
        frun. frun. reflexivity.
      * rewrite Hty, Hd1, Hd2. cbn [Z.eqb Pos.eqb]. region_measures.
        rewrite Hus, Hur. repeat split; try lia.
        etransitivity; [apply Permutation_app_comm|].
        simpl. do 2 apply perm_skip. exact Hperm.
    + (* frame type 2 *)
      eexists _, _. split; [|split].
      * unfold genFuncletProlog. cbv zeta.
        rewrite Hlow, Hregs, ALR, AFP, Hty, Hd1, Hd2, T1, T2.
        cbn [Z.eqb Pos.eqb orb negb].
        frun. frun. frun. frun. frun.
        eapply fbind_runs; [frun; frun; frun; frun; reflexivity|].
        cbv beta. rewrite Mrest. frun. frun. frun. exact Hpspr.
      * unfold genFuncletEpilog. cbv zeta.
        rewrite Hlow, Hregs, ALR, AFP, Hty, Hd1, Hd2, T1, T2.
        cbn [Z.eqb Pos.eqb orb negb]. rewrite Mall.
        rewrite (s32_small (- - FSA)) by (unfold in_s32; lia).
        replace (- - FSA) with FSA by lia.
        frun. frun. frun. frun. frun.
        eapply fbind_runs; [frun; frun; frun; frun; frun; reflexivity|].
        frun. frun. reflexivity.
      * rewrite Hty, Hd1, Hd2. cbn [Z.eqb Pos.eqb]. region_measures.
        rewrite Hus, Hur. repeat split; try lia.
        rewrite Hfplr.
        etransitivity; [apply Permutation_app_comm|].
        simpl. do 2 apply perm_skip. exact Hperm.
  - (* frame type 5 *)
    assert (Hlow : s32 (fiSP_to_CalleeSave_delta fi + fiSpDelta2 fi)
                   = o + (FSA - (S + o)) + (SA - S) + 8 - OA).
    { rewrite Hcs, Hpsp, Hd2, s32_small by (unfold in_s32; lia). lia. }
    assert (Hlow0 : 8 <= o + (FSA - (S + o)) + (SA - S) + 8 - OA <= 24)
      by (Z.div_mod_to_equations; lia).
    destruct (genSaveCalleeSavedRegistersHelp_run0 compReloc m
                (o + (FSA - (S + o)) + (SA - S) + 8 - OA) n Hsub ltac:(lia)
                ltac:(unfold REGSIZE_BYTES; fold cnt; lia))
      as (ts & tr & Hsave & Hrest & Hperm & Hus & Hur).
    assert (HR2 : REG_R2 <> REG_SPBASE /\ REG_R2 <> REG_NA
                  /\ genIsValidFloatReg REG_R2 = false)
      by (repeat split; discriminate).
    destruct HR2 as (R1 & R2 & R3).
    destruct (genStackPointerAdjustment_measures compReloc (- OA) REG_R2 None
                n ltac:(lia) R1 R2 R3)
      as (p1 & a1 & Ha1 & Hs1 & Hl1 & Hu1).
    destruct (genStackPointerAdjustment_measures compReloc OA REG_R2 None
                n ltac:(lia) R1 R2 R3)
      as (p2 & a2 & Ha2 & Hs2 & Hl2 & Hu2).
    destruct (genStackPointerAdjustment_no_scratch SA n ltac:(lia))
      as [Hsubsp Haddsp].
    assert (T1 : (- OA <? 0) = true) by (apply Z.ltb_lt; lia).
    assert (T2 : (- SA <? 0) = true) by (apply Z.ltb_lt; lia).
    assert (T3 : (-240 <=? - SA) = true)
      by (apply Z.leb_le; Z.div_mod_to_equations; lia).
    destruct (genFuncletProlog_PSP_part fi
                (bool_decide (bbCatchTyp = BBCT_FILTER)) n
                ltac:(rewrite Hfn; exact Hcfp) ltac:(rewrite Hcpsp; lia)
                ltac:(rewrite Hpsp; lia)) as (tpsp & Hpspr).
    eexists _, _. split; [|split].
    + unfold genFuncletProlog. cbv zeta.
      rewrite Hlow, Hregs, ALR, AFP, Hty, Hd1, Hd2, T1.
      cbn [Z.eqb Pos.eqb orb negb].
      frun. frun. frun. frun. frun.
      eapply fbind_runs; [reflexivity|].
      cbv beta. rewrite Mall. frun.
      eapply fbind_runs; [frun; frun; reflexivity|].
      frun. exact Hpspr.
    + unfold genFuncletEpilog. cbv zeta.
      rewrite Hlow, Hregs, ALR, AFP, Hty, Hd1, Hd2, Mall, T1, T2, T3.
      cbn [Z.eqb Pos.eqb orb negb].
      rewrite (s32_small (- - SA)), (s32_small (- - OA))
        by (unfold in_s32; lia).
      replace (- - SA) with SA by lia. replace (- - OA) with OA by lia.
      frun. frun. frun.
      eapply fbind_runs; [frun; frun; reflexivity|].
      frun.
      eapply fbind_runs; [frun; frun; frun; frun; reflexivity|].
      frun. frun. reflexivity.
    + rewrite Hty, Hd1, Hd2. cbn [Z.eqb Pos.eqb]. region_measures.
      rewrite Hus, Hur, Hu1, Hu2, Hs1, Hl2. repeat split; try lia.
      cbn [app]. rewrite ?app_nil_r. exact Hperm.
  - (* frame type 3 *)
    assert (Hlow : s32 (fiSP_to_CalleeSave_delta fi + fiSpDelta2 fi)
                   = 24 + (SA - S)).
    { rewrite Hcs, Hpsp, Hd2, s32_small by (unfold in_s32; lia). lia. }
    destruct (genSaveCalleeSavedRegistersHelp_run0 compReloc
                (N.ldiff m (N.lor RBM_LR RBM_FP)) (24 + (SA - S)) n Rsub
                ltac:(lia) ltac:(unfold REGSIZE_BYTES; rewrite Rcnt; lia))
      as (ts & tr & Hsave & Hrest & Hperm & Hus & Hur).
    assert (HR2 : REG_R2 <> REG_SPBASE /\ REG_R2 <> REG_NA
                  /\ genIsValidFloatReg REG_R2 = false)
      by (repeat split; discriminate).
    destruct HR2 as (R1 & R2 & R3).
    destruct (genStackPointerAdjustment_measures compReloc (- OA) REG_R2 None
                n ltac:(lia) R1 R2 R3)
      as (p1 & a1 & Ha1 & Hs1 & Hl1 & Hu1).
    destruct (genStackPointerAdjustment_measures compReloc OA REG_R2 None
                n ltac:(lia) R1 R2 R3)
      as (p2 & a2 & Ha2 & Hs2 & Hl2 & Hu2).
    assert (T1 : (- OA <? 0) = true) by (apply Z.ltb_lt; lia).
    destruct (genFuncletProlog_PSP_part fi
                (bool_decide (bbCatchTyp = BBCT_FILTER)) n
                ltac:(rewrite Hfn; exact Hcfp) ltac:(rewrite Hcpsp; lia)
                ltac:(rewrite Hpsp; lia)) as (tpsp & Hpspr).
    eexists _, _. split; [|split].
    + unfold genFuncletProlog. cbv zeta.
      rewrite Hlow, Hregs, ALR, AFP, Hty, Hd1, Hd2, T1.
      cbn [Z.eqb Pos.eqb orb negb].
      frun. frun. frun. frun. frun.
      eapply fbind_runs; [reflexivity|].
      cbv beta. rewrite Mrest. frun.
      eapply fbind_runs; [frun; frun; reflexivity|].
      frun. exact Hpspr.
    + unfold genFuncletEpilog. cbv zeta.
      rewrite Hlow, Hregs, ALR, AFP, Hty, Hd1, Hd2, T1.
      cbn [Z.eqb Pos.eqb orb negb]. rewrite Mall.
      rewrite (s32_small (- - SA)), (s32_small (- - OA))
        by (unfold in_s32; lia).
      replace (- - SA) with SA by lia. replace (- - OA) with OA by lia.
      frun. frun. frun.
      eapply fbind_runs; [frun; frun; reflexivity|].
      frun.
      eapply fbind_runs; [reflexivity|].
      frun. frun. reflexivity.
    + rewrite Hty, Hd1, Hd2. cbn [Z.eqb Pos.eqb]. region_measures.
      rewrite Hus, Hur, Hu1, Hu2, Hs1, Hl2. repeat split; try lia.
      cbn [app]. rewrite ?app_nil_r.
      etransitivity; [apply Permutation_app_comm|].
      simpl. do 2 apply perm_skip. exact Hperm.
Qed.

End FuncletFrames.

End FuncletBalance.

(** The reference emitter encodes every add immediate up to 512. *)
Lemma valid_imm_for_add_small (d : Z) :
  0 < d <= 512 ->
  emitIns_valid_imm_for_add (Emitter := Arm64Emitter.emitter) d EA_8BYTE
  = true.
Proof.
  intros Hd. cbn. unfold Arm64Emitter.valid_imm_for_add.
  apply orb_true_iff. left. apply Z.leb_le. lia.
Qed.



(** X14.  For frame type 5 both the funclet prolog and the funclet epilog
    complete as well, but they do not balance: the prolog never makes the
    first SP adjustment, so its unwind region allocates [-fiSpDelta2] only,
    while the epilog's unwind region releases [-(fiSpDelta1 + fiSpDelta2)],
    which is more by [-fiSpDelta1 > 0]. *)
Theorem genFuncletProlog_type5_skips_fiSpDelta1 {E : Emitter}
    (compReloc : bool) (c : FrameInputs) (old fi : FuncletFrameInfoDsc)
    (bbCatchTyp : CatchTyp) (n : label) :
  (forall d, 0 < d <= 512 -> emitIns_valid_imm_for_add d EA_8BYTE = true) ->
  FrameInputsOK c ->
  lvaPSPSym_isUsed c = true ->
  - 2 ^ 31 < genCallerSPtoFPdelta c < 2 ^ 31 ->
  genCaptureFuncletPrologEpilogInfo c old = Some fi ->
  fiFrameType fi = 5 ->
  exists tp te,
    genFuncletProlog compReloc fi (lvaPSPSym_isUsed c) true bbCatchTyp n
    = Some (tt, tp, n)
    /\ genFuncletEpilog compReloc fi n = Some (tt, te, n)
    /\ unwindStack (unwindRegion tp) = - fiSpDelta2 fi
    /\ unwindStack (unwindRegion te)
       = unwindStack (unwindRegion tp) - fiSpDelta1 fi
    /\ fiSpDelta1 fi < 0.
Proof.
  intros Himm Hok Hused Hcfp Hrun Hty.
  destruct (genFuncletProlog_genFuncletEpilog_run compReloc Himm c old fi
              bbCatchTyp n Hok Hused Hcfp Hrun)
    as (tp & te & Hp & He & Hup & Hue & Hperm).
  exists tp, te. rewrite Hty in Hup. cbn [Z.eqb Pos.eqb] in Hup.
  split; [exact Hp|]. split; [exact He|]. split; [exact Hup|].
  split; [lia|].
  pose proof (genCaptureFuncletPrologEpilogInfo_fields c Hok old fi Hrun)
    as (_ & _ & Hf).
  pose proof (frame_size_facts c Hok) as F. cbv zeta in F, Hf.
  destruct (maxFuncletFrameSizeAligned c <=? 512),
    (genSaveFpLrWithAllCalleeSavedRegisters c);
    try destruct (lvaOutgoingArgSpaceSize c =? 0);
    injection Hf as _ _ _ Hty' Hd1 _; try congruence;
    rewrite Hd1; lia.
Qed.

Lemma genFuncletProlog_type5_skips_fiSpDelta1_witness :
  exists tp te,
    genFuncletProlog (E := Arm64Emitter.emitter) false
      (mkFuncletInfo 0x60080000%N 0 1040 1024 1032 (-32) 5 (-32) (-1024))
      true true BBCT_CATCH 0%nat
    = Some (tt, tp, 0%nat)
    /\ genFuncletEpilog (E := Arm64Emitter.emitter) false
         (mkFuncletInfo 0x60080000%N 0 1040 1024 1032 (-32) 5 (-32) (-1024))
         0%nat
       = Some (tt, te, 0%nat)
    /\ unwindStack (unwindRegion tp) = - -1024
    /\ unwindStack (unwindRegion te)
       = unwindStack (unwindRegion tp) - -32
    /\ -32 < 0.
Proof.
  apply (genFuncletProlog_type5_skips_fiSpDelta1
           (E := Arm64Emitter.emitter) false
           (sampleFrameInputs 1024 true (-32)) emptyFuncletInfo
           (mkFuncletInfo 0x60080000%N 0 1040 1024 1032 (-32) 5 (-32) (-1024))
           BBCT_CATCH 0%nat).
  - exact valid_imm_for_add_small.
  - apply (sampleFrameInputs_OK 1024 true); [lia|reflexivity].
  - reflexivity.
  - simpl. lia.
  - reflexivity.
  - reflexivity.
Defined.

(** ** The value [instGen_Set_Reg_To_Imm] leaves in the register *)

(** X15.  For a 32-bit or 64-bit operand size and an integer register,
    [instGen_Set_Reg_To_Imm] completes and the instructions it emits leave
    the sixteen-bit fields of the immediate in the register, whatever the
    register held before: a single [mov] for zero and for an immediate the
    emitter can encode, and otherwise the [movz]/[movn] and [movk]
    sequence, provided some field differs from each sentinel. *)
Theorem instGen_Set_Reg_To_Imm_loads_imm {E : Emitter} (compReloc : bool)
    (size : emitAttr) (reg : regNumber) (imm : Z) (flags : insFlags)
    (n : label) (init : list Z) :
  genIsValidFloatReg reg = false ->
  size = EA_4BYTE \/ size = EA_8BYTE ->
  (emitIns_valid_imm_for_mov imm size = false -> imm <> 0 ->
   (0 < fewestNonSentinelFields (bitsOf size) imm)%nat) ->
  length init = Z.to_nat (bitsOf size / 16) ->
  exists t,
    instGen_Set_Reg_To_Imm compReloc size reg imm flags n = Some (tt, t, n)
    /\ regFields reg t init = immFields (bitsOf size) imm.
Proof.
  intros Hreg Hsize Hcase Hlen.
  assert (Hbits : bitsOf size = 32 \/ bitsOf size = 64)
    by (destruct Hsize as [-> | ->]; [left|right]; reflexivity).
  assert (Hwidth : 16 * Z.of_nat (length init) = bitsOf size)
    by (rewrite Hlen; destruct Hbits as [-> | ->]; reflexivity).
  unfold instGen_Set_Reg_To_Imm. rewrite Hreg. simpl negb.
  assert (Hstrip : (if negb compReloc then EA_SIZE size else size) = size).
  { destruct Hsize as [-> | ->]; destruct compReloc; reflexivity. }
  rewrite Hstrip.
  assert (Hrel : EA_IS_RELOC size = false)
    by (destruct Hsize as [-> | ->]; reflexivity).
  rewrite Hrel.
  destruct (imm =? 0) eqn:Himm.
  { apply Z.eqb_eq in Himm. subst imm.
    eexists. split; [reflexivity|].
    unfold regFields. simpl. rewrite N.eqb_refl, Hwidth. reflexivity. }
  apply Z.eqb_neq in Himm.
  destruct (emitIns_valid_imm_for_mov imm size) eqn:Hmov.
  { destruct flags; (eexists; split; [reflexivity|]);
      unfold regFields; simpl; rewrite N.eqb_refl, Hwidth; reflexivity. }
  specialize (Hcase eq_refl Himm). unfold fewestNonSentinelFields in Hcase.
  fold (bitsOf size).
  set (preferMovn := preferMovn_loop imm (rev (field_shifts (bitsOf size))) 0).
  destruct (movk_loop_fields size reg imm (0 <? preferMovn) (bitsOf size) n
              Hbits) as (t & Hrun & Hfields).
  { destruct (0 <? preferMovn); lia. }
  exists (t ++ (if bool_decide (flags = INS_FLAGS_SET)
                then [Emit (emitIns_R_I INS_tst size reg 0)] else [])
            ++ [verifyRegUsed reg]).
  split.
  - unfold bind at 1. simpl.
    unfold bind at 1. unfold bind at 1. unfold bind at 1.
    destruct (0 <? preferMovn); rewrite Hrun; simpl;
      destruct (bool_decide (flags = INS_FLAGS_SET)); simpl;
      rewrite ?app_nil_r, <- ?app_assoc; reflexivity.
  - rewrite regFields_app, (Hfields init Hlen).
    destruct (bool_decide (flags = INS_FLAGS_SET)); reflexivity.
Qed.

Lemma instGen_Set_Reg_To_Imm_loads_imm_witness :
  exists t,
    instGen_Set_Reg_To_Imm (E := Arm64Emitter.emitter) false EA_8BYTE REG_R0
      0x123456789abc INS_FLAGS_DONT_CARE 0%nat = Some (tt, t, 0%nat)
    /\ regFields REG_R0 t [0xdead; 0xbeef; 0xdead; 0xbeef]
       = immFields (bitsOf EA_8BYTE) 0x123456789abc.
Proof.
  apply (instGen_Set_Reg_To_Imm_loads_imm (E := Arm64Emitter.emitter) false
           EA_8BYTE REG_R0 0x123456789abc INS_FLAGS_DONT_CARE 0%nat
           [0xdead; 0xbeef; 0xdead; 0xbeef]).
  - reflexivity.
  - right. reflexivity.
  - intros _ _. vm_compute. lia.
  - reflexivity.
Defined.

(** ** The traps that guard a divide *)

(** X16.  For a divide node that is not flag-setting and has a result
    register, [genCodeForDivMod] completes, and which traps it plants
    depends on the divisor only: a floating-point divide gets none; an
    integer divide by the constant 0 is replaced by the unconditional jump
    to the divide-by-zero helper, with no divide instruction at all; any
    other integer divide is emitted once, after the divide-by-zero test
    unless the divisor is a constant, and after the overflow test only
    when it is signed and the divisor is not a constant other than -1.
    The order is the one of the calls: after the operands are consumed
    come the compare of the divisor with 0 and the jump to the
    divide-by-zero helper, then the overflow test (the compare of the
    divisor with -1, the skip, the self-add of the dividend, the skip, the
    jump to the arithmetic-exception helper and the label the skips go
    to), and only then the divide, which is the last instruction. *)
Theorem genCodeForDivMod_traps (tree : GenTreeOp) (n : label) :
  OperIs (gtNode tree) [GT_DIV; GT_UDIV] = true ->
  (varTypeIsFloating (gtType (gtNode tree)) = true ->
   gtOper (gtNode tree) = GT_DIV) ->
  gtSetFlags (gtNode tree) = false ->
  gtRegNum (gtNode tree) <> REG_NA ->
  let floating := varTypeIsFloating (gtType (gtNode tree)) in
  let signed := bool_decide (gtOper (gtNode tree) = GT_DIV) in
  let byZero := IsIntegralConst (gtOp2 tree) 0 in
  let byConst := IsCnsIntOrI (gtOp2 tree) in
  let checkDividend :=
    signed && (negb byConst || (gtIconVal (gtOp2 tree) =? -1)) in
  let size := EA_ATTR (genTypeSize (gtType (gtNode tree))) in
  let divisorReg := gtRegNum (gtOp2 tree) in
  let dividendReg := gtRegNum (gtOp1 tree) in
  let zeroTest :=
    if byConst then []
    else [Emit (emitIns_R_I INS_cmp size divisorReg 0);
          genJumpToThrowHlpBlk EJ_eq SCK_DIV_BY_ZERO] in
  let overflowTest :=
    if checkDividend then
      [Emit (emitIns_R_I INS_cmp size divisorReg (-1));
       inst_JMP EJ_ne n;
       Emit (emitIns_R_R_R INS_adds size REG_ZR dividendReg dividendReg);
       inst_JMP EJ_ne n;
       genJumpToThrowHlpBlk EJ_vs SCK_ARITH_EXCPN;
       genDefineTempLabel n]
    else [] in
  let divide :=
    [Emit (emitInsTernary
             (if floating then INS_fdiv
              else if signed then INS_sdiv else INS_udiv)
             (emitActualTypeSize (gtNode tree)) (gtRegNum (gtNode tree))
             dividendReg divisorReg);
     genProduceReg (gtTreeID (gtNode tree))] in
  exists t n',
    genCodeForDivMod tree n = Some (tt, t, n')
    /\ t = genConsumeOperands (gtTreeID (gtNode tree))
           :: (if floating then divide
               else if byZero then
                 [genJumpToThrowHlpBlk EJ_jmp SCK_DIV_BY_ZERO;
                  genProduceReg (gtTreeID (gtNode tree))]
               else zeroTest ++ overflowTest ++ divide)
    /\ throwJumps t
       = (if floating then []
          else if byZero then [(EJ_jmp, SCK_DIV_BY_ZERO)]
          else (if byConst then [] else [(EJ_eq, SCK_DIV_BY_ZERO)])
               ++ (if signed
                      && (negb byConst || (gtIconVal (gtOp2 tree) =? -1))
                   then [(EJ_vs, SCK_ARITH_EXCPN)] else []))
    /\ divideInstructions t
       = (if floating then [INS_fdiv]
          else if byZero then []
          else if signed then [INS_sdiv] else [INS_udiv]).
Proof.
  intros Hop Hfl Hflags Hreg floating signed byZero byConst checkDividend
    size divisorReg dividendReg zeroTest overflowTest divide.
  subst floating signed byZero byConst checkDividend size divisorReg
    dividendReg zeroTest overflowTest divide.
  apply N.eqb_neq in Hreg.
  unfold genCodeForDivMod, genCodeForBinary, genGetInsForOper,
    IsIntegralConst in *.
  rewrite Hop, Hflags.
  destruct tree as [[id oper ty reg icon cont sf rsvd] op1 op2].
  cbn [gtNode gtOp1 gtOp2 gtOper gtType gtRegNum gtTreeID gtSetFlags] in *.
  destruct (varTypeIsFloating ty) eqn:Hty.
  - rewrite (Hfl eq_refl). cbn. unfold bind, assert, ret, emit, tell. cbn.
    rewrite Hreg. cbn. rewrite N.eqb_refl. cbn.
    eexists _, _. split; [reflexivity|]. repeat split; reflexivity.
  - assert (Hoper : oper = GT_DIV \/ oper = GT_UDIV).
    { unfold OperIs in Hop. cbn in Hop.
      destruct (bool_decide (oper = GT_DIV)) eqn:H1;
        [left; apply bool_decide_eq_true in H1; exact H1|].
      destruct (bool_decide (oper = GT_UDIV)) eqn:H2;
        [right; apply bool_decide_eq_true in H2; exact H2|discriminate]. }
    destruct Hoper as [-> | ->];
      destruct (IsCnsIntOrI op2); cbn [andb negb orb];
      try destruct (gtIconVal op2 =? 0) eqn:H0;
      try destruct (gtIconVal op2 =? -1) eqn:H1;
      try (apply Z.eqb_eq in H0; apply Z.eqb_eq in H1; lia);
      unfold bind, assert, ret, emit, tell, genCreateTempLabel; cbn;
      rewrite ?Hty; cbn; rewrite ?Hreg; cbn; rewrite ?N.eqb_refl; cbn;
      (eexists _, _; split; [reflexivity|]; repeat split; reflexivity).
Qed.

Lemma genCodeForDivMod_traps_witness :
  exists t n',
    genCodeForDivMod
      (mkGenTreeOp (mkGenTree 1 GT_UDIV TYP_INT REG_R0 0 false false 0%N)
         (mkGenTree 2 GT_LCL_VAR TYP_INT REG_R1 0 false false 0%N)
         (mkGenTree 3 GT_LCL_VAR TYP_INT REG_R2 0 false false 0%N)) 0%nat
    = Some (tt, t, n')
    /\ t = [genConsumeOperands 1;
            Emit (emitIns_R_I INS_cmp EA_4BYTE REG_R2 0);
            genJumpToThrowHlpBlk EJ_eq SCK_DIV_BY_ZERO;
            Emit (emitInsTernary INS_udiv EA_4BYTE REG_R0 REG_R1 REG_R2);
            genProduceReg 1]
    /\ throwJumps t = [(EJ_eq, SCK_DIV_BY_ZERO)]
    /\ divideInstructions t = [INS_udiv].
Proof.
  apply (genCodeForDivMod_traps
           (mkGenTreeOp (mkGenTree 1 GT_UDIV TYP_INT REG_R0 0 false false 0%N)
              (mkGenTree 2 GT_LCL_VAR TYP_INT REG_R1 0 false false 0%N)
              (mkGenTree 3 GT_LCL_VAR TYP_INT REG_R2 0 false false 0%N))
           0%nat).
  - reflexivity.
  - simpl. discriminate.
  - reflexivity.
  - simpl. discriminate.
Defined.

(** ** Temporary labels *)

Lemma branchTargets_app (t1 t2 : list event) :
  branchTargets (t1 ++ t2) = branchTargets t1 ++ branchTargets t2.
Proof. apply flat_map_app. Qed.

Lemma definedLabels_app (t1 t2 : list event) :
  definedLabels (t1 ++ t2) = definedLabels t1 ++ definedLabels t2.
Proof. apply flat_map_app. Qed.

Lemma labelFree_labels (t : list event) :
  Forall (fun e => labelFree e = true) t ->
  branchTargets t = [] /\ definedLabels t = [].
Proof.
  induction 1 as [|e t He _ [IHb IHd]]; [auto|].
  unfold branchTargets, definedLabels in *. simpl. rewrite IHb, IHd.
  destruct e as [[]| | | | | | | | | | |]; try discriminate He; auto.
Qed.

Lemma isSpAdjustEvent_labelFree (t : list event) :
  Forall (fun e => isSpAdjustEvent e = true) t ->
  Forall (fun e => labelFree e = true) t.
Proof.
  intros H. eapply Forall_impl; [exact H|]. intros e He.
  destruct e as [[]| | | | | | | | | | |]; try discriminate He; reflexivity.
Qed.

Section TempLabels.

Context {E : Emitter}.
Variable compReloc : bool.

Lemma genCodeForBinary_labelFree (treeNode : GenTreeOp) :
  emitsOnly (fun e => labelFree e = true) (genCodeForBinary treeNode).
Proof.
  unfold genCodeForBinary, genGetInsForOper, emit.
  emits_only;
    repeat match goal with
           | |- emitsOnly _ (match ?o with _ => _ end) => destruct o
           end; emits_only.
Qed.

End TempLabels.

Lemma keepsLabels_ret {A} (a : A) : keepsLabels (ret a).
Proof. intros n b t n' H. apply ret_inv in H as (_ & _ & ->). reflexivity. Qed.

Lemma keepsLabels_assert (c : bool) : keepsLabels (assert c).
Proof.
  intros n b t n' H. apply assert_inv in H as (_ & _ & ->). reflexivity.
Qed.

Lemma keepsLabels_tell (e : event) : keepsLabels (tell e).
Proof. intros n b t n' H. apply tell_inv in H as (_ & ->). reflexivity. Qed.

Lemma keepsLabels_bind {A B} (m : Gen A) (k : A -> Gen B) :
  keepsLabels m -> (forall a, keepsLabels (k a)) -> keepsLabels (bind m k).
Proof.
  intros Hm Hk n b t n' H.
  apply bind_inv in H as (a & t1 & n1 & t2 & H1 & H2 & _).
  apply Hm in H1. apply Hk in H2. congruence.
Qed.

Ltac keeps_labels :=
  repeat first
    [ apply keepsLabels_ret
    | apply keepsLabels_assert
    | apply keepsLabels_tell
    | apply keepsLabels_bind; [|intros ?]
    | match goal with
      | |- keepsLabels (if ?c then _ else _) => destruct c
      | |- keepsLabels (let '(_, _) := ?x in _) => destruct x
      | |- keepsLabels (match ?o with _ => _ end) => destruct o
      end ].

(** Closes a goal on the labels of a run whose calls are known but for
    parts without labels. *)
Ltac labels_done :=
  unfold labelsResolved;
  rewrite ?branchTargets_app, ?definedLabels_app;
  repeat match goal with
         | H : branchTargets ?t = [] |- _ => rewrite H
         | H : definedLabels ?t = [] |- _ => rewrite H
         end;
  simpl;
  split; [repeat (constructor; [rewrite list_elem_of_In; simpl; intuition lia|]);
         constructor|];
  split; intros ?; simpl; intuition lia.

Section TempLabels2.

Context {E : Emitter}.
Variable compReloc : bool.

Lemma genCodeForBinary_keepsLabels (treeNode : GenTreeOp) :
  keepsLabels (genCodeForBinary treeNode).
Proof.
  unfold genCodeForBinary, genGetInsForOper, emit. keeps_labels.
Qed.

Lemma genCodeForDivMod_labels (tree : GenTreeOp) (n : label) (u : unit)
    (t : list event) (n' : label) :
  genCodeForDivMod tree n = Some (u, t, n') -> labelsResolved n t n'.
Proof.
  unfold genCodeForDivMod. intros H.
  gen_inv1 H. gen_inv1 H.
  destruct (varTypeIsFloating _).
  { apply genCodeForBinary_labelFree, labelFree_labels in H as [Hb Hd].
    labels_done. }
  destruct (IsIntegralConst _ _).
  { gen_inv1 H. apply tell_inv in H as (-> & _). labels_done. }
  destruct (bool_decide _).
  - gen_inv1 H. gen_inv1 H. gen_inv1 H.
    pose proof (genCodeForBinary_keepsLabels _ _ _ _ _ H) as ->.
    apply genCodeForBinary_labelFree, labelFree_labels in H as [Hb Hd].
    assert (Hchk : n0 = Datatypes.S n
                   /\ branchTargets t = [] /\ definedLabels t = []).
    { destruct (IsCnsIntOrI _).
      - gen_inv1 Hrun0. apply ret_inv in Hrun0 as (_ & -> & ->). auto.
      - gen_inv1 Hrun0. gen_inv1 Hrun0.
        apply ret_inv in Hrun0 as (_ & -> & ->). auto. }
    destruct Hchk as (-> & Hb0 & Hd0). clear Hrun0.
    destruct a1.
    + do 5 gen_inv1 Hrun1. apply tell_inv in Hrun1 as (-> & ->).
      labels_done.
    + apply ret_inv in Hrun1 as (_ & -> & ->). labels_done.
  - gen_inv1 H.
    apply genCodeForBinary_labelFree, labelFree_labels in H as [Hb Hd].
    assert (Hchk : branchTargets t = [] /\ definedLabels t = []).
    { destruct (negb _).
      - gen_inv1 Hrun0. apply tell_inv in Hrun0 as (-> & _). auto.
      - apply ret_inv in Hrun0 as (_ & -> & _). auto. }
    destruct Hchk as (Hb0 & Hd0). labels_done.
Qed.
End TempLabels2.

Section TempLabels3.

Context {E : Emitter}.
Variable compReloc : bool.

Lemma movk_loop_keepsLabels size reg imm skipVal shifts ins :
  keepsLabels (movk_loop size reg imm skipVal shifts ins).
Proof.
  revert ins. induction shifts as [|i rest IH]; intros ins; simpl.
  - apply keepsLabels_ret.
  - destruct (negb _); [|apply IH].
    apply keepsLabels_bind; [apply keepsLabels_tell|intros _; apply IH].
Qed.

Lemma instGen_Set_Reg_To_Imm_keepsLabels size reg imm flags :
  keepsLabels (instGen_Set_Reg_To_Imm compReloc size reg imm flags).
Proof.
  unfold instGen_Set_Reg_To_Imm, instGen_Set_Reg_To_Zero, emit.
  apply keepsLabels_bind; [apply keepsLabels_assert|intros _].
  apply keepsLabels_bind; [|intros _; apply keepsLabels_tell].
  destruct (EA_IS_RELOC _); [apply keepsLabels_tell|].
  destruct (imm =? 0); [apply keepsLabels_tell|].
  apply keepsLabels_bind.
  - destruct (emitIns_valid_imm_for_mov _ _); [apply keepsLabels_tell|].
    apply keepsLabels_bind; [apply movk_loop_keepsLabels|].
    intros ?. apply keepsLabels_assert.
  - intros _. destruct (bool_decide _);
      [apply keepsLabels_tell|apply keepsLabels_ret].
Qed.

Lemma genInstrWithConstant_keepsLabels ins attr reg1 reg2 imm tmpReg
    inUnwindRegion :
  keepsLabels
    (genInstrWithConstant compReloc ins attr reg1 reg2 imm tmpReg
       inUnwindRegion).
Proof.
  unfold genInstrWithConstant, emit, unwind.
  apply keepsLabels_bind; [apply keepsLabels_assert|intros _].
  apply keepsLabels_bind; [keeps_labels|].
  intros [[ins' imm'] fits].
  apply keepsLabels_bind; [|intros _; apply keepsLabels_ret].
  destruct fits; [apply keepsLabels_tell|].
  apply keepsLabels_bind; [apply keepsLabels_assert|intros _].
  apply keepsLabels_bind; [apply instGen_Set_Reg_To_Imm_keepsLabels|intros _].
  keeps_labels.
Qed.

Lemma genLockedInstructions_labels (b : bool) (treeNode : GenTreeOp)
    (n : label) (u : unit) (t : list event) (n' : label) :
  genLockedInstructions compReloc b treeNode n = Some (u, t, n') ->
  labelsResolved n t n'.
Proof.
  unfold genLockedInstructions. intros H.
  gen_inv1 H. gen_inv1 H. gen_inv1 H.
  assert (Hpost : n' = n0 /\ branchTargets t1 = [] /\ definedLabels t1 = []).
  { destruct (negb _) in H.
    - apply tell_inv in H as (-> & ->). auto.
    - apply ret_inv in H as (_ & -> & ->). auto. }
  destruct Hpost as (-> & Hbp & Hdp). clear H. rename Hrun into H.
  destruct b.
  - (* native atomics *)
    gen_inv1 H. gen_inv1 H. apply tell_inv in H as (-> & ->).
    assert (Hmid : branchTargets t = [] /\ definedLabels t = []).
    { destruct (gtOper (gtNode treeNode));
        try (unfold assert in Hrun0; discriminate);
        try destruct (_ || _) in Hrun0;
        apply tell_inv in Hrun0 as (-> & _); auto. }
    destruct Hmid as (Hbm & Hdm). labels_done.
  - gen_inv1 H.
    match type of H with
    | (let '(_, _) := ?a in _) _ = _ => destruct a as [exResultReg node1]
    end.
    gen_inv1 H.
    match type of H with
    | (let '(_, _) := ?a in _) _ = _ => destruct a as [storeDataReg node2]
    end.
    assert (t = [] /\ n1 = n) as [-> ->].
    { destruct (bool_decide _) in Hrun.
      - apply ret_inv in Hrun as (_ & -> & ->). auto.
      - apply ExtractTempReg_inv in Hrun as (-> & ->). auto. }
    clear Hrun.
    do 11 gen_inv1 H.
    do 4 gen_inv1 H.
    gen_inv1 H.
    assert (Hmid : n1 = Datatypes.S n
                   /\ branchTargets t = [] /\ definedLabels t = []).
    { destruct (gtOper (gtNode treeNode));
        try (unfold bind, assert in Hrun10; simpl in Hrun10; discriminate);
        gen_inv1 Hrun10; apply ret_inv in Hrun10 as (_ & -> & ->);
        rewrite app_nil_r; [|auto].
      destruct (isContainedIntOrIImmed (gtOp2 treeNode)).
      - gen_inv1 Hrun11. apply ret_inv in Hrun11 as (_ & -> & ->).
        rewrite app_nil_r.
        pose proof (genInstrWithConstant_keepsLabels _ _ _ _ _ _ _ _ _ _ _
                      Hrun10) as ->.
        apply genInstrWithConstant_add_sub_emitsOnly in Hrun10; [|auto].
        apply isSpAdjustEvent_labelFree, labelFree_labels in Hrun10. tauto.
      - apply tell_inv in Hrun11 as (-> & ->). auto. }
    destruct Hmid as (-> & Hbm & Hdm).
    do 3 gen_inv1 H. apply tell_inv in H as (-> & ->).
    labels_done.
Qed.

Lemma genCodeForCmpXchg_labels (b : bool) (treeNode : GenTreeCmpXchg)
    (n : label) (u : unit) (t : list event) (n' : label) :
  genCodeForCmpXchg b treeNode n = Some (u, t, n') ->
  labelsResolved n t n'.
Proof.
  unfold genCodeForCmpXchg. intros H.
  do 5 gen_inv1 H. apply tell_inv in H as (-> & ->).
  rename Hrun0 into H.
  destruct b.
  - gen_inv1 H. gen_inv1 H. apply tell_inv in H as (-> & ->).
    assert (Hmid : n1 = n /\ branchTargets t0 = [] /\ definedLabels t0 = []).
    { destruct (negb _) in Hrun0.
      - do 2 gen_inv1 Hrun0. apply assert_inv in Hrun0 as (_ & -> & ->). auto.
      - apply ret_inv in Hrun0 as (_ & -> & ->). auto. }
    destruct Hmid as (-> & Hbm & Hdm). labels_done.
  - gen_inv1 H.
    match type of H with
    | (let '(_, _) := ?a in _) _ = _ => destruct a as [exResultReg node1]
    end.
    do 12 gen_inv1 H.
    do 5 gen_inv1 H.
    gen_inv1 H.
    do 4 gen_inv1 H. apply tell_inv in H as (-> & ->).
    destruct (isContainedIntOrIImmed _);
      [destruct (IsIntegralConst _ _)|];
      try gen_inv1 Hrun12; apply tell_inv in Hrun12 as (-> & ->);
      labels_done.
Qed.

(** X17.  Every completed run of [genCodeForDivMod], of
    [genLockedInstructions] and of [genCodeForCmpXchg], with or without
    native atomics, uses its temporary labels soundly: no label is placed
    twice, every branch goes to a label the same run places, and every
    label placed was created by that run. *)
Theorem node_generators_labelsResolved :
  (forall (tree : GenTreeOp) (n : label) (u : unit) (t : list event)
          (n' : label),
      genCodeForDivMod tree n = Some (u, t, n') -> labelsResolved n t n')
  /\ (forall (b : bool) (treeNode : GenTreeOp) (n : label) (u : unit)
             (t : list event) (n' : label),
         genLockedInstructions compReloc b treeNode n = Some (u, t, n') ->
         labelsResolved n t n')
  /\ (forall (b : bool) (treeNode : GenTreeCmpXchg) (n : label) (u : unit)
             (t : list event) (n' : label),
         genCodeForCmpXchg b treeNode n = Some (u, t, n') ->
         labelsResolved n t n').
Proof.
  split; [|split].
  - apply genCodeForDivMod_labels.
  - apply genLockedInstructions_labels.
  - apply genCodeForCmpXchg_labels.
Qed.

End TempLabels3.

Lemma node_generators_labelsResolved_witness :
  (genLockedInstructions (E := Arm64Emitter.emitter) false false sampleXadd
     0%nat = Some (tt, sampleXaddCalls, 1%nat)
   /\ labelsResolved 0%nat sampleXaddCalls 1%nat)
  /\ (genCodeForCmpXchg false sampleCmpXchg 0%nat
      = Some (tt, sampleCmpXchgCalls, 2%nat)
      /\ labelsResolved 0%nat sampleCmpXchgCalls 2%nat).
Proof.
  split; split; try reflexivity.
  - exact (proj1 (proj2 (node_generators_labelsResolved
                           (E := Arm64Emitter.emitter) false))
             false sampleXadd 0%nat tt sampleXaddCalls 1%nat eq_refl).
  - exact (proj2 (proj2 (node_generators_labelsResolved
                           (E := Arm64Emitter.emitter) false))
             false sampleCmpXchg 0%nat tt sampleCmpXchgCalls 2%nat eq_refl).
Defined.

